(** * Pixel-art algorithms: palette generation, palette application and dithering

    A shallow embedding of [src/core/palette.js], [src/utils/helpers.js],
    [src/dithering/bayer.js] and [src/dithering/floydSteinberg.js], with the
    properties of the specification stated and proved over it.

    Conventions of the embedding.
    - A JavaScript number is a [jsnum]: [NaN] or a finite value [Num q] with
      [q] an exact rational, and arithmetic on finite numbers is exact.
      The properties stated over this embedding are those that rounding
      does not touch: which cells are read and written and in which order,
      what happens to the alpha channel, which entries of a palette can be
      returned, and computations on bytes and on small whole numbers
      whose results the rounding of binary64 arithmetic does not change.
      Infinities are not represented (no operation of the modelled code
      produces one from such inputs).
    - Where the rounding matters (which of two entries computes as the
      nearer one, the offset Bayer dithering adds, what a [Float32Array]
      keeps of an accumulated error) the matcher and the two dithering
      functions are embedded a second time, in the module [B64] below,
      over IEEE 754 binary64 numbers.
    - Reading a typed array outside its bounds gives [undefined], which every
      use in the modelled code treats like [NaN] (arithmetic gives NaN,
      [=== 0] and [> 128] are false); such a read is therefore [NaN] here.
      Writing a typed array outside its bounds is ignored, which is what
      list insertion [<[i:=v]>] does.
    - A [Uint8ClampedArray] is a [list Z]; its elements are bytes, and
      stores convert with [toUint8Clamp].
    - A palette argument is [Missing] (undefined or null) or an array of
      entries, each a well-formed [Triple] (an array of at least three
      elements, of which only the first three are read) or [Malformed]. *)

From Stdlib Require Import ZArith QArith Qround Qminmax Lia Lqa Permutation Sorted.
From Stdlib Require Floats.
From stdpp Require Import base list.

Local Open Scope Z_scope.

(** ** JavaScript numbers *)

Inductive jsnum : Type :=
| NaN
| Num (q : Q).

Declare Scope js_scope.
Delimit Scope js_scope with js.
Bind Scope js_scope with jsnum.

Definition jsZ (z : Z) : jsnum := Num (inject_Z z).

Definition jsbin (f : Q -> Q -> Q) (a b : jsnum) : jsnum :=
  match a, b with
  | Num x, Num y => Num (f x y)
  | _, _ => NaN
  end.

Definition jsadd : jsnum -> jsnum -> jsnum := jsbin Qplus.
Definition jssub : jsnum -> jsnum -> jsnum := jsbin Qminus.
Definition jsmul : jsnum -> jsnum -> jsnum := jsbin Qmult.
(* Division: every divisor in the modelled code is a non-zero constant. *)
Definition jsdiv : jsnum -> jsnum -> jsnum := jsbin Qdiv.

Notation "a + b" := (jsadd a b) : js_scope.
Notation "a - b" := (jssub a b) : js_scope.
Notation "a * b" := (jsmul a b) : js_scope.
Notation "a / b" := (jsdiv a b) : js_scope.

Definition Qltb (x y : Q) : bool := negb (Qle_bool y x).

(* [a < b]: false when either side is NaN. *)
Definition jslt (a b : jsnum) : bool :=
  match a, b with
  | Num x, Num y => Qltb x y
  | _, _ => false
  end.

(* [a <= b]: false when either side is NaN. *)
Definition jsle (a b : jsnum) : bool :=
  match a, b with
  | Num x, Num y => Qle_bool x y
  | _, _ => false
  end.

(* [a === b] on numbers: false when either side is NaN. *)
Definition jseq (a b : jsnum) : bool :=
  match a, b with
  | Num x, Num y => Qeq_bool x y
  | _, _ => false
  end.

(* [Math.max(a, b)] and [Math.min(a, b)]: NaN when either argument is. *)
Definition Math_max (a b : jsnum) : jsnum :=
  match a, b with
  | Num x, Num y => Num (if Qle_bool x y then y else x)
  | _, _ => NaN
  end.

Definition Math_min (a b : jsnum) : jsnum :=
  match a, b with
  | Num x, Num y => Num (if Qle_bool x y then x else y)
  | _, _ => NaN
  end.

(* [Math.round(a)]: the integer nearest to [a], halves rounded up. *)
Definition Math_round (a : jsnum) : jsnum :=
  match a with
  | Num x => jsZ (Qfloor (x + (1 # 2)))
  | NaN => NaN
  end.

(* The conversion of a number stored into a [Uint8ClampedArray]
   (ECMAScript ToUint8Clamp): NaN gives 0, the value is clamped to [0,255]
   and rounded to the nearest integer, halves to the even neighbour. *)
Definition toUint8Clamp (v : jsnum) : Z :=
  match v with
  | NaN => 0
  | Num q =>
      if Qle_bool q 0 then 0
      else if Qle_bool 255 q then 255
      else
        let f := Qfloor q in
        if Qltb (inject_Z f + (1 # 2)) q then f + 1
        else if Qltb q (inject_Z f + (1 # 2)) then f
        else if Z.even f then f else f + 1
  end.

(** ** Typed arrays *)

(* [a[i]] on a [Uint8ClampedArray]. *)
Definition u8get (a : list Z) (i : Z) : jsnum :=
  if i <? 0 then NaN
  else match a !! Z.to_nat i with
       | Some v => jsZ v
       | None => NaN
       end.

(* [a[i] = v] on a [Uint8ClampedArray]. *)
Definition u8set (a : list Z) (i : Z) (v : jsnum) : list Z :=
  if i <? 0 then a else <[Z.to_nat i := toUint8Clamp v]> a.

(* [a[i]] and [a[i] = v] on a [Float32Array]. *)
Definition f32get (a : list jsnum) (i : Z) : jsnum :=
  if i <? 0 then NaN
  else match a !! Z.to_nat i with
       | Some v => v
       | None => NaN
       end.

Definition f32set (a : list jsnum) (i : Z) (v : jsnum) : list jsnum :=
  if i <? 0 then a else <[Z.to_nat i := v]> a.

(** ** Colours and palettes *)

(* A colour array [[r, g, b]]. *)
Definition Color : Type := jsnum * jsnum * jsnum.

Definition chR (c : Color) : jsnum := c.1.1.
Definition chG (c : Color) : jsnum := c.1.2.
Definition chB (c : Color) : jsnum := c.2.

Inductive PaletteEntry : Type :=
| Triple (c : Color)
| Malformed.

Inductive jsPalette : Type :=
| Missing
| Entries (l : list PaletteEntry).

(** ** helpers.js *)

Definition colorDistanceSquared (r1 g1 b1 r2 g2 b2 : jsnum) : jsnum :=
  let dr := (r1 - r2)%js in
  let dg := (g1 - g2)%js in
  let db := (b1 - b2)%js in
  (dr * dr + dg * dg + db * db)%js.

(* The loop [for (let i = 1; i < palette.length; i++)] of
   [findClosestPaletteColor], over the entries from index 1 on. *)
Fixpoint closest_loop (r g b : jsnum) (rest : list PaletteEntry)
    (minDistance : jsnum) (closestColor : Color) : Color :=
  match rest with
  | [] => closestColor
  | Triple color :: rest' =>
      let distance :=
        colorDistanceSquared r g b (chR color) (chG color) (chB color) in
      if jslt distance minDistance
      then closest_loop r g b rest' distance color
      else closest_loop r g b rest' minDistance closestColor
  | Malformed :: rest' => closest_loop r g b rest' minDistance closestColor
  end.

Definition findClosestPaletteColor (r g b : jsnum) (palette : jsPalette) : Color :=
  match palette with
  | Missing | Entries [] => (r, g, b)
  | Entries (p0 :: rest) =>
      let closestColor :=
        match p0 with
        | Triple c => c
        | Malformed => (jsZ 0, jsZ 0, jsZ 0)
        end in
      let minDistance :=
        colorDistanceSquared r g b
          (chR closestColor) (chG closestColor) (chB closestColor) in
      closest_loop r g b rest minDistance closestColor
  end.

(** ** Loops *)

(* [for (let i = start; ...; i += step) body], run for [n] iterations. *)
Fixpoint for_loop {S : Type} (n : nat) (start step : Z)
    (body : Z -> S -> S) (s : S) : S :=
  match n with
  | O => s
  | Datatypes.S n' => for_loop n' (start + step) step body (body start s)
  end.

(* The number of iterations of [for (let i = 0; i < len; i += 4)]. *)
Definition strides4 (len : nat) : nat := Nat.div (len + 3) 4.

(* The number of iterations of [for (let v = 0; v < bound; v++)], for an
   integer [bound] (the width or the height of the image, a colour count). *)
Definition upto (bound : Z) : nat := Z.to_nat bound.

(** ** core/palette.js *)

(* An [[r, g, b]] array of bytes read from the pixel buffer. *)
Definition Pixel : Type := Z * Z * Z.

Abbreviation Bucket := (list Pixel).

(* [p[dim]] for [dim] in 0 (R), 1 (G), 2 (B). *)
Definition chan (dim : Z) (p : Pixel) : Z :=
  if dim =? 0 then p.1.1 else if dim =? 1 then p.1.2 else p.2.

(* Body of the collection loop: the pixel at [i] is kept when its alpha is
   greater than 128.  When [i + 3] is outside the buffer the alpha is
   [undefined] and the comparison is false. *)
Definition collect_body (pixelDataArray : list Z) (i : Z)
    (allPixels : list Pixel) : list Pixel :=
  if jslt (jsZ 128) (u8get pixelDataArray (i + 3)) then
    match pixelDataArray !! Z.to_nat i,
          pixelDataArray !! Z.to_nat (i + 1),
          pixelDataArray !! Z.to_nat (i + 2) with
    | Some r, Some g, Some b => allPixels ++ [(r, g, b)]
    | _, _, _ => allPixels
    end
  else allPixels.

Definition collectOpaque (pixelDataArray : list Z) : list Pixel :=
  for_loop (strides4 (length pixelDataArray)) 0 4
    (collect_body pixelDataArray) [].

(* [Math.floor(i * (255 / (numColors - 1 || 1)))]. *)
Definition fallbackShade (numColors i : Z) : Z :=
  let d := if numColors - 1 =? 0 then 1 else numColors - 1 in
  Qfloor (inject_Z i * (255 / inject_Z d)).

Definition fallbackPalette (numColors : Z) : list Pixel :=
  for_loop (upto numColors) 0 1
    (fun i pal =>
       let shade := fallbackShade numColors i in
       pal ++ [(shade, shade, shade)])
    [].

Definition MAX_PIXELS_FOR_PALETTE_GENERATION : nat := Z.to_nat 65536.

(* The sampling loop [for (let i = 0; i < allPixels.length; i += step)] with
   its [break]; every iteration pushes one pixel, so the loop body runs at
   most [MAX_PIXELS_FOR_PALETTE_GENERATION] times, which bounds [fuel]. *)
Fixpoint sample_loop (fuel : nat) (allPixels : list Pixel) (step i : nat)
    (pixelsToProcess : list Pixel) : list Pixel :=
  match fuel with
  | O => pixelsToProcess
  | Datatypes.S fuel' =>
      match allPixels !! i with
      | None => pixelsToProcess
      | Some p =>
          let pixelsToProcess := pixelsToProcess ++ [p] in
          if (MAX_PIXELS_FOR_PALETTE_GENERATION <=? length pixelsToProcess)%nat
          then pixelsToProcess
          else sample_loop fuel' allPixels step (i + step) pixelsToProcess
      end
  end.

Definition samplePixels (allPixels : list Pixel) : list Pixel :=
  let pixelsToProcess :=
    if (MAX_PIXELS_FOR_PALETTE_GENERATION <? length allPixels)%nat then
      let step :=
        Nat.max 1 (Nat.div (length allPixels) MAX_PIXELS_FOR_PALETTE_GENERATION) in
      sample_loop MAX_PIXELS_FOR_PALETTE_GENERATION allPixels step 0 []
    else allPixels in
  (* [if (pixelsToProcess.length === 0) pixelsToProcess = [allPixels[0]]] *)
  match pixelsToProcess with
  | [] => match allPixels with p :: _ => [p] | [] => [] end
  | _ => pixelsToProcess
  end.

(* The state of the search for the bucket to split. *)
Record Best : Type := mkBest {
  bestBucketIndex : Z;
  maxRange : Z;
  splitDimension : Z
}.

(* [minR, maxR, minG, maxG, minB, maxB] after the [forEach] over a bucket. *)
Definition extents (bucket : Bucket) : Z * Z * Z * Z * Z * Z :=
  fold_left
    (fun '(minR, maxR, minG, maxG, minB, maxB) p =>
       (Z.min minR (chan 0 p), Z.max maxR (chan 0 p),
        Z.min minG (chan 1 p), Z.max maxG (chan 1 p),
        Z.min minB (chan 2 p), Z.max maxB (chan 2 p)))
    bucket (255, 0, 255, 0, 255, 0).

(* Body of the loop over the buckets, for the bucket at index [i]. *)
Definition select_body (bucket : Bucket) (i : Z) (st : Best) : Best :=
  if (length bucket <=? 1)%nat then st
  else
    let '(minR, maxR, minG, maxG, minB, maxB) := extents bucket in
    let dR := maxR - minR in
    let dG := maxG - minG in
    let dB := maxB - minB in
    let st := if dR >? maxRange st then mkBest i dR 0 else st in
    let st := if dG >? maxRange st then mkBest i dG 1 else st in
    let st := if dB >? maxRange st then mkBest i dB 2 else st in
    st.

Fixpoint select_loop (buckets : list Bucket) (i : Z) (st : Best) : Best :=
  match buckets with
  | [] => st
  | bucket :: rest => select_loop rest (i + 1) (select_body bucket i st)
  end.

Definition selectBucket (buckets : list Bucket) : Best :=
  select_loop buckets 0 (mkBest (-1) (-1) (-1)).

(* [bucket.sort((a, b) => a[dim] - b[dim])].  The sort is stable and the
   comparator is a total preorder on pixels, so its result is the one of
   any stable sort; insertion sort is used here. *)
Fixpoint sort_insert (dim : Z) (a : Pixel) (sorted : Bucket) : Bucket :=
  match sorted with
  | [] => [a]
  | b :: rest =>
      if chan dim b - chan dim a <? 0
      then b :: sort_insert dim a rest
      else a :: b :: rest
  end.

Fixpoint sortByChannel (dim : Z) (bucket : Bucket) : Bucket :=
  match bucket with
  | [] => []
  | a :: rest => sort_insert dim a (sortByChannel dim rest)
  end.

(* One split: sort the chosen bucket, cut it at the median index, splice the
   two halves in its place and filter out empty buckets. *)
Definition splitBucket (buckets : list Bucket) (st : Best) : list Bucket :=
  let k := Z.to_nat (bestBucketIndex st) in
  let bucketToSplit := sortByChannel (splitDimension st) (nth k buckets []) in
  let medianIndex := Nat.div (length bucketToSplit) 2 in
  let newBucket1 := take medianIndex bucketToSplit in
  let newBucket2 := drop medianIndex bucketToSplit in
  let buckets := take k buckets ++ [newBucket1; newBucket2] ++ drop (Datatypes.S k) buckets in
  List.filter (fun bucket => (0 <? length bucket)%nat) buckets.

(* The loop [while (buckets.length < numColors && buckets.some(...))].
   [None] stands for an exhausted [fuel]; [medianCut_terminates] shows that
   [numColors] iterations always suffice. *)
Fixpoint medianCut (fuel : nat) (numColors : Z) (buckets : list Bucket)
    : option (list Bucket) :=
  if (Z.of_nat (length buckets) <? numColors)
     && existsb (fun b => (1 <? length b)%nat) buckets
  then
    match fuel with
    | O => None
    | Datatypes.S fuel' =>
        let st := selectBucket buckets in
        if (bestBucketIndex st =? -1) || (maxRange st =? 0) then Some buckets
        else medianCut fuel' numColors (splitBucket buckets st)
    end
  else Some buckets.

(* [Math.round(sum / count)]. *)
Definition roundDiv (sum : Z) (count : nat) : Z :=
  Qfloor (inject_Z sum / inject_Z (Z.of_nat count) + (1 # 2)).

Definition averageBucket (bucket : Bucket) : Pixel :=
  match bucket with
  | [] => (0, 0, 0)
  | _ =>
      let '(r, g, b) :=
        fold_left
          (fun '(r, g, b) pixel =>
             (r + chan 0 pixel, g + chan 1 pixel, b + chan 2 pixel))
          bucket (0, 0, 0) in
      (roundDiv r (length bucket), roundDiv g (length bucket),
       roundDiv b (length bucket))
  end.

(* The three steps that bring the palette to [numColors] entries. *)
Definition normalizePalette (numColors : Z) (generatedPalette : list Pixel)
    : list Pixel :=
  let n := Z.to_nat numColors in
  let generatedPalette :=
    match last generatedPalette with
    | Some c => generatedPalette ++ replicate (n - length generatedPalette) c
    | None => generatedPalette
    end in
  let generatedPalette :=
    if (n <? length generatedPalette)%nat then take n generatedPalette
    else generatedPalette in
  generatedPalette ++ replicate (n - length generatedPalette) (0, 0, 0).

(* [Math.max(1, Math.min(256, Math.floor(numColors)))]. *)
Definition clampNumColors (numColors : Q) : Z :=
  Z.max 1 (Z.min 256 (Qfloor numColors)).

(* [numColors] is a finite number.  The result is [None] only if the
   median-cut loop were to exhaust its fuel, which it never does. *)
Definition generatePalette (pixelDataArray : list Z) (numColors : Q)
    : option (list Pixel) :=
  let numColors := clampNumColors numColors in
  let allPixels := collectOpaque pixelDataArray in
  match allPixels with
  | [] => Some (fallbackPalette numColors)
  | _ =>
      let pixelsToProcess := samplePixels allPixels in
      match medianCut (Z.to_nat numColors) numColors [pixelsToProcess] with
      | None => None
      | Some buckets =>
          Some (normalizePalette numColors (map averageBucket buckets))
      end
  end.

(* A colour of a generated palette, as an entry of the palette argument of
   the other functions. *)
Definition colorOfPixel (p : Pixel) : Color :=
  (jsZ p.1.1, jsZ p.1.2, jsZ p.2).

(* Body of the loop of [applyPalette] for the pixel at offset [i]. *)
Definition applyPalette_body (pixelDataArray : list Z) (palette : jsPalette)
    (i : Z) (newData : list Z) : list Z :=
  let aOrig := u8get pixelDataArray (i + 3) in
  if jseq aOrig (jsZ 0) then
    let newData := u8set newData i (jsZ 0) in
    let newData := u8set newData (i + 1) (jsZ 0) in
    let newData := u8set newData (i + 2) (jsZ 0) in
    u8set newData (i + 3) (jsZ 0)
  else
    let rOrig := u8get pixelDataArray i in
    let gOrig := u8get pixelDataArray (i + 1) in
    let bOrig := u8get pixelDataArray (i + 2) in
    let closestColor := findClosestPaletteColor rOrig gOrig bOrig palette in
    let newData := u8set newData i (chR closestColor) in
    let newData := u8set newData (i + 1) (chG closestColor) in
    let newData := u8set newData (i + 2) (chB closestColor) in
    u8set newData (i + 3) aOrig.

Definition applyPalette (pixelDataArray : list Z) (palette : jsPalette) : list Z :=
  match palette with
  | Missing | Entries [] => pixelDataArray
  | _ =>
      let newData := replicate (length pixelDataArray) 0 in
      for_loop (strides4 (length pixelDataArray)) 0 4
        (applyPalette_body pixelDataArray palette) newData
  end.

(** ** dithering/bayer.js *)

Definition BAYER_2x2 : list (list Z) :=
  [ [0; 2];
    [3; 1] ].

Definition BAYER_4x4 : list (list Z) :=
  [ [0;  8;  2; 10];
    [12; 4; 14;  6];
    [3; 11;  1;  9];
    [15; 7; 13;  5] ].

Definition BAYER_8x8 : list (list Z) :=
  [ [ 0; 32;  8; 40;  2; 34; 10; 42];
    [48; 16; 56; 24; 50; 18; 58; 26];
    [12; 44;  4; 36; 14; 46;  6; 38];
    [60; 28; 52; 20; 62; 30; 54; 22];
    [ 3; 35; 11; 43;  1; 33;  9; 41];
    [51; 19; 59; 27; 49; 17; 57; 25];
    [15; 47;  7; 39; 13; 45;  5; 37];
    [63; 31; 55; 23; 61; 29; 53; 21] ].

(* [bayerMatrix[row][col]]; the indices are remainders by the matrix size,
   hence always inside the matrix. *)
Definition matrixAt (bayerMatrix : list (list Z)) (row col : Z) : jsnum :=
  jsZ (nth (Z.to_nat col) (nth (Z.to_nat row) bayerMatrix []) 0).

(* The choice of [bayerMatrix] and [matrixSize] from the clamped strength. *)
Definition selectMatrix (strengthPercent : jsnum) : list (list Z) * Z :=
  if jsle strengthPercent (Num (333 # 10)) then (BAYER_2x2, 2)
  else if jsle strengthPercent (Num (666 # 10)) then (BAYER_4x4, 4)
  else (BAYER_8x8, 8).

(* Body of the strength-0 loop of [applyBayerDithering] at offset [i]. *)
Definition bayer_plain_body (pixelDataArray : list Z) (targetPalette : jsPalette)
    (i : Z) (newData : list Z) : list Z :=
  let aOrig := u8get pixelDataArray (i + 3) in
  if jseq aOrig (jsZ 0) then
    let newData := u8set newData i (jsZ 0) in
    let newData := u8set newData (i + 1) (jsZ 0) in
    let newData := u8set newData (i + 2) (jsZ 0) in
    u8set newData (i + 3) (jsZ 0)
  else
    let rOrig := u8get pixelDataArray i in
    let gOrig := u8get pixelDataArray (i + 1) in
    let bOrig := u8get pixelDataArray (i + 2) in
    let closestColor := findClosestPaletteColor rOrig gOrig bOrig targetPalette in
    let newData := u8set newData i (chR closestColor) in
    let newData := u8set newData (i + 1) (chG closestColor) in
    let newData := u8set newData (i + 2) (chB closestColor) in
    u8set newData (i + 3) aOrig.

(* [(bayerPatternValue * bayerValueNormalization - 0.5) * maxThresholdOffset]
   for the pixel at column [x] of row [y]. *)
Definition thresholdAdjustment (bayerMatrix : list (list Z)) (matrixSize : Z)
    (strengthFactor : jsnum) (x y : Z) : jsnum :=
  let bayerValueNormalization := (jsZ 1 / (jsZ matrixSize * jsZ matrixSize))%js in
  let maxThresholdOffset :=
    (strengthFactor * jsZ matrixSize * jsZ matrixSize / jsZ 2)%js in
  let bayerPatternValue :=
    matrixAt bayerMatrix (Z.rem y matrixSize) (Z.rem x matrixSize) in
  ((bayerPatternValue * bayerValueNormalization - Num (1 # 2))
   * maxThresholdOffset)%js.

(* [Math.max(0, Math.min(255, v))]. *)
Definition clamp255 (v : jsnum) : jsnum :=
  Math_max (jsZ 0) (Math_min (jsZ 255) v).

(* Body of the dithering loops of [applyBayerDithering] at column [x] of
   row [y]. *)
Definition bayer_body (pixelDataArray : list Z) (width : Z)
    (targetPalette : jsPalette) (bayerMatrix : list (list Z)) (matrixSize : Z)
    (strengthFactor : jsnum) (y x : Z) (newData : list Z) : list Z :=
  let i := (y * width + x) * 4 in
  let rOrig := u8get pixelDataArray i in
  let gOrig := u8get pixelDataArray (i + 1) in
  let bOrig := u8get pixelDataArray (i + 2) in
  let aOrig := u8get pixelDataArray (i + 3) in
  if jseq aOrig (jsZ 0) then
    let newData := u8set newData i (jsZ 0) in
    let newData := u8set newData (i + 1) (jsZ 0) in
    let newData := u8set newData (i + 2) (jsZ 0) in
    u8set newData (i + 3) (jsZ 0)
  else
    let adj := thresholdAdjustment bayerMatrix matrixSize strengthFactor x y in
    let rDithered := clamp255 (rOrig + adj)%js in
    let gDithered := clamp255 (gOrig + adj)%js in
    let bDithered := clamp255 (bOrig + adj)%js in
    let closestColor :=
      findClosestPaletteColor rDithered gDithered bDithered targetPalette in
    let newData := u8set newData i (chR closestColor) in
    let newData := u8set newData (i + 1) (chG closestColor) in
    let newData := u8set newData (i + 2) (chB closestColor) in
    u8set newData (i + 3) aOrig.

(* [Math.max(0, Math.min(100, strengthPercent))].  A call that omits the
   strength passes the default, [jsZ 100]. *)
Definition clampStrength (strengthPercent : jsnum) : jsnum :=
  Math_max (jsZ 0) (Math_min (jsZ 100) strengthPercent).

Definition applyBayerDithering (pixelDataArray : list Z) (width height : Z)
    (targetPalette : jsPalette) (strengthPercent : jsnum) : list Z :=
  match targetPalette with
  | Missing | Entries [] => pixelDataArray
  | _ =>
      match pixelDataArray with
      | [] => pixelDataArray
      | _ =>
          let newData := replicate (length pixelDataArray) 0 in
          let strengthPercent := clampStrength strengthPercent in
          if jseq strengthPercent (jsZ 0) then
            for_loop (strides4 (length pixelDataArray)) 0 4
              (bayer_plain_body pixelDataArray targetPalette) newData
          else
            let strengthFactor := (strengthPercent / jsZ 100)%js in
            let '(bayerMatrix, matrixSize) := selectMatrix strengthPercent in
            for_loop (upto height) 0 1
              (fun y =>
                 for_loop (upto width) 0 1
                   (bayer_body pixelDataArray width targetPalette
                      bayerMatrix matrixSize strengthFactor y))
              newData
      end
  end.

(** ** dithering/floydSteinberg.js *)

(* [d[ni] += errR * w / 16; d[ni + 1] += errG * w / 16; d[ni + 2] += errB * w / 16]. *)
Definition diffuse (d : list jsnum) (ni : Z) (errR errG errB : jsnum) (w : Z)
    : list jsnum :=
  let d := f32set d ni (f32get d ni + errR * jsZ w / jsZ 16)%js in
  let d := f32set d (ni + 1) (f32get d (ni + 1) + errG * jsZ w / jsZ 16)%js in
  f32set d (ni + 2) (f32get d (ni + 2) + errB * jsZ w / jsZ 16)%js.

(* Body of the loops of [applyFloydSteinbergDithering] at column [x] of row
   [y], on the scratch buffer [d] and the output buffer [outputData]. *)
Definition fs_body (width height : Z) (targetPalette : jsPalette) (y x : Z)
    (st : list jsnum * list Z) : list jsnum * list Z :=
  let '(d, outputData) := st in
  let i := (y * width + x) * 4 in
  if jseq (f32get d (i + 3)) (jsZ 0) then
    let outputData := u8set outputData i (jsZ 0) in
    let outputData := u8set outputData (i + 1) (jsZ 0) in
    let outputData := u8set outputData (i + 2) (jsZ 0) in
    let outputData := u8set outputData (i + 3) (jsZ 0) in
    (d, outputData)
  else
    let oldR := clamp255 (f32get d i) in
    let oldG := clamp255 (f32get d (i + 1)) in
    let oldB := clamp255 (f32get d (i + 2)) in
    let oldA := f32get d (i + 3) in
    let newColor := findClosestPaletteColor oldR oldG oldB targetPalette in
    let outputData := u8set outputData i (chR newColor) in
    let outputData := u8set outputData (i + 1) (chG newColor) in
    let outputData := u8set outputData (i + 2) (chB newColor) in
    let outputData := u8set outputData (i + 3) (Math_round oldA) in
    let errR := (oldR - chR newColor)%js in
    let errG := (oldG - chG newColor)%js in
    let errB := (oldB - chB newColor)%js in
    let d :=
      if x + 1 <? width then diffuse d (i + 4) errR errG errB 7 else d in
    let d :=
      if (x - 1 >=? 0) && (y + 1 <? height)
      then diffuse d (i + width * 4 - 4) errR errG errB 3 else d in
    let d :=
      if y + 1 <? height
      then diffuse d (i + width * 4) errR errG errB 5 else d in
    let d :=
      if (x + 1 <? width) && (y + 1 <? height)
      then diffuse d (i + width * 4 + 4) errR errG errB 1 else d in
    (d, outputData).

Definition applyFloydSteinbergDithering (pixelDataArray : list Z)
    (width height : Z) (targetPalette : jsPalette) : list Z :=
  match targetPalette with
  | Missing | Entries [] => pixelDataArray
  | _ =>
      match pixelDataArray with
      | [] => pixelDataArray
      | _ =>
          let d := map jsZ pixelDataArray in
          let outputData := replicate (length pixelDataArray) 0 in
          snd (for_loop (upto height) 0 1
                 (fun y => for_loop (upto width) 0 1
                             (fs_body width height targetPalette y))
                 (d, outputData))
      end
  end.

(** ** More of the library: grayscale, blur and the colour space

    The rest of [src/utils/helpers.js] ([convertToGrayscale],
    [gaussianBlur]) and [src/utils/colorSpace.js] ([rgbToHsl], [hslToRgb],
    [applyHueShift]), under the same conventions.  Two operations appear
    that the code above does not use.
    - A quotient whose divisor is computed.  A division by zero gives an
      infinity or NaN in JavaScript; infinities are not represented, and
      [jsquot] gives [NaN] there.  No divisor is zero when the function is
      applied to bytes, which is where its properties are stated.
    - The remainder [a % b], which has the sign of [a]. *)

(* [a / b] for a divisor that is not a constant. *)
Definition jsquot (a b : jsnum) : jsnum :=
  match a, b with
  | Num x, Num y => if Qeq_bool y 0 then NaN else Num (x / y)
  | _, _ => NaN
  end.

(* The integer part of a rational, rounded towards zero. *)
Definition Qtrunc (x : Q) : Z :=
  if Qle_bool 0 x then Qfloor x else Qceiling x.

(* [a % b]: NaN when either side is NaN or [b] is zero, otherwise
   [a - b * trunc(a / b)]. *)
Definition jsrem (a b : jsnum) : jsnum :=
  match a, b with
  | Num x, Num y =>
      if Qeq_bool y 0 then NaN
      else Num (x - y * inject_Z (Qtrunc (x / y)))
  | _, _ => NaN
  end.

(** ** helpers.js: [convertToGrayscale] *)



(** ** helpers.js: [gaussianBlur] *)

(* [rSum, gSum, bSum, aSum, count] of one window. *)
Record Sums : Type := mkSums {
  rSum : jsnum;
  gSum : jsnum;
  bSum : jsnum;
  aSum : jsnum;
  count : Z
}.

(* [let rSum = 0, gSum = 0, bSum = 0, aSum = 0, count = 0]. *)
Definition noSums : Sums := mkSums (jsZ 0) (jsZ 0) (jsZ 0) (jsZ 0) 0.

(* [if (a[i + 3] > 0) { rSum += a[i]; gSum += a[i + 1]; bSum += a[i + 2];
   aSum += a[i + 3]; count++; }]. *)
Definition accumulate (a : list Z) (i : Z) (s : Sums) : Sums :=
  if jslt (jsZ 0) (u8get a (i + 3)) then
    mkSums (rSum s + u8get a i)%js (gSum s + u8get a (i + 1))%js
      (bSum s + u8get a (i + 2))%js (aSum s + u8get a (i + 3))%js
      (count s + 1)
  else s.

(* The stores at [targetI]: the four means when [count > 0], zeros
   otherwise. *)
Definition storeMeans (out : list Z) (targetI : Z) (s : Sums) : list Z :=
  if count s >? 0 then
    let out := u8set out targetI (jsquot (rSum s) (jsZ (count s))) in
    let out := u8set out (targetI + 1) (jsquot (gSum s) (jsZ (count s))) in
    let out := u8set out (targetI + 2) (jsquot (bSum s) (jsZ (count s))) in
    u8set out (targetI + 3) (jsquot (aSum s) (jsZ (count s)))
  else
    let out := u8set out targetI (jsZ 0) in
    let out := u8set out (targetI + 1) (jsZ 0) in
    let out := u8set out (targetI + 2) (jsZ 0) in
    u8set out (targetI + 3) (jsZ 0).

(* [radius = Math.max(1, Math.floor(radius))]; [None] stands for NaN, the
   result for a radius that is NaN or [undefined]. *)
Definition blurRadius (radius : jsnum) : option Z :=
  match radius with
  | Num q => Some (Z.max 1 (Qfloor q))
  | NaN => None
  end.

(* [for (let k = -radius; k <= radius; k++) body].  With a NaN radius the
   test [k <= radius] is false at once. *)
Definition window_loop {S : Type} (radius : option Z) (body : Z -> S -> S)
    (s : S) : S :=
  match radius with
  | Some radius => for_loop (Z.to_nat (2 * radius + 1)) (- radius) 1 body s
  | None => s
  end.

(* Body of the loops of the horizontal pass at column [x] of row [y]. *)
Definition horizontal_body (data : list Z) (width : Z) (radius : option Z)
    (y x : Z) (tempOutput : list Z) : list Z :=
  let sums :=
    window_loop radius
      (fun kx sums =>
         let currentX := Z.max 0 (Z.min (width - 1) (x + kx)) in
         let i := (y * width + currentX) * 4 in
         accumulate data i sums)
      noSums in
  let targetI := (y * width + x) * 4 in
  storeMeans tempOutput targetI sums.

(* Body of the loops of the vertical pass at column [x] of row [y]. *)
Definition vertical_body (tempOutput : list Z) (width height : Z)
    (radius : option Z) (y x : Z) (outputData : list Z) : list Z :=
  let sums :=
    window_loop radius
      (fun ky sums =>
         let currentY := Z.max 0 (Z.min (height - 1) (y + ky)) in
         let i := (currentY * width + x) * 4 in
         accumulate tempOutput i sums)
      noSums in
  let targetI := (y * width + x) * 4 in
  storeMeans outputData targetI sums.

(* [data] is [imageData.data].  The function returns
   [new ImageData(outputData, width, height)]; the result here is the
   [outputData] it wraps.  The constructor throws unless [width] and
   [height] are positive and the buffer has exactly [4 * width * height]
   cells, so the properties of the function are stated for such calls. *)
Definition gaussianBlur (data : list Z) (width height : Z) (radius : jsnum)
    : list Z :=
  let tempOutput := replicate (length data) 0 in
  let outputData := replicate (length data) 0 in
  let radius := blurRadius radius in
  let tempOutput :=
    for_loop (upto height) 0 1
      (fun y => for_loop (upto width) 0 1 (horizontal_body data width radius y))
      tempOutput in
  for_loop (upto height) 0 1
    (fun y =>
       for_loop (upto width) 0 1 (vertical_body tempOutput width height radius y))
    outputData.

(** ** utils/colorSpace.js *)

(* An [[h, s, l]] or [[r, g, b]] array of numbers. *)
Definition Triplet : Type := jsnum * jsnum * jsnum.

Definition rgbToHsl (r g b : jsnum) : Triplet :=
  let r := (r / jsZ 255)%js in
  let g := (g / jsZ 255)%js in
  let b := (b / jsZ 255)%js in
  let max := Math_max (Math_max r g) b in
  let min := Math_min (Math_min r g) b in
  let l := ((max + min) / jsZ 2)%js in
  if jseq max min then (jsZ 0, jsZ 0, l)
  else
    let d := (max - min)%js in
    let s :=
      if jslt (Num (1 # 2)) l then jsquot d (jsZ 2 - max - min)%js
      else jsquot d (max + min)%js in
    (* [switch (max)]: when no case matches, [h] stays [undefined]. *)
    let h :=
      if jseq max r
      then (jsquot (g - b)%js d + (if jslt g b then jsZ 6 else jsZ 0))%js
      else if jseq max g then (jsquot (b - r)%js d + jsZ 2)%js
      else if jseq max b then (jsquot (r - g)%js d + jsZ 4)%js
      else NaN in
    ((h / jsZ 6)%js, s, l).

Definition hue2rgb (p q t : jsnum) : jsnum :=
  let t := if jslt t (jsZ 0) then (t + jsZ 1)%js else t in
  let t := if jslt (jsZ 1) t then (t - jsZ 1)%js else t in
  if jslt t (jsZ 1 / jsZ 6)%js then (p + (q - p) * jsZ 6 * t)%js
  else if jslt t (jsZ 1 / jsZ 2)%js then q
  else if jslt t (jsZ 2 / jsZ 3)%js
       then (p + (q - p) * (jsZ 2 / jsZ 3 - t) * jsZ 6)%js
  else p.

Definition hslToRgb (h s l : jsnum) : Triplet :=
  let '(r, g, b) :=
    if jseq s (jsZ 0) then (l, l, l)
    else
      let q :=
        if jslt l (Num (1 # 2)) then (l * (jsZ 1 + s))%js
        else (l + s - l * s)%js in
      let p := (jsZ 2 * l - q)%js in
      (hue2rgb p q (h + jsZ 1 / jsZ 3)%js,
       hue2rgb p q h,
       hue2rgb p q (h - jsZ 1 / jsZ 3)%js) in
  (Math_round (r * jsZ 255)%js, Math_round (g * jsZ 255)%js,
   Math_round (b * jsZ 255)%js).

(* Body of the loop of [applyHueShift] for the pixel at offset [i]; the
   array is modified in place. *)
Definition hueShift_body (shift : jsnum) (i : Z) (data : list Z) : list Z :=
  let '(h, s, l) :=
    rgbToHsl (u8get data i) (u8get data (i + 1)) (u8get data (i + 2)) in
  let h := jsrem (h + shift)%js (jsZ 1) in
  let h := if jslt h (jsZ 0) then (h + jsZ 1)%js else h in
  let '(rVal, gVal, bVal) := hslToRgb h s l in
  let data := u8set data i rVal in
  let data := u8set data (i + 1) gVal in
  u8set data (i + 2) bVal.

Definition applyHueShift (data : list Z) (angle : jsnum) : list Z :=
  let shift := (angle / jsZ 360)%js in
  for_loop (strides4 (length data)) 0 4 (hueShift_body shift) data.

(** * Vocabulary of the specification *)

(** ** The nearest-colour matcher *)

(* A colour whose three components are finite numbers. *)
Definition fin (q : Q * Q * Q) : Color := (Num q.1.1, Num q.1.2, Num q.2).

(* The squared Euclidean distance dr² + dg² + db². *)
Definition sqDist (r g b : Q) (q : Q * Q * Q) : Q :=
  let dr := (r - q.1.1)%Q in
  let dg := (g - q.1.2)%Q in
  let db := (b - q.2)%Q in
  (dr * dr + dg * dg + db * db)%Q.

(** ** Median cut *)

(* The range of channel [dim] over a bucket as the code computes it, from
   the running minima (started at 255) and maxima (started at 0). *)
Definition rangeOf (dim : Z) (bucket : Bucket) : Z :=
  let '(minR, maxR, minG, maxG, minB, maxB) := extents bucket in
  if dim =? 0 then maxR - minR
  else if dim =? 1 then maxG - minG
  else maxB - minB.

(* The running minimum and maximum of channel [dim] over a bucket. *)
Definition loOf (dim : Z) (bucket : Bucket) (init : Z) : Z :=
  fold_left (fun m p => Z.min m (chan dim p)) bucket init.

Definition hiOf (dim : Z) (bucket : Bucket) (init : Z) : Z :=
  fold_left (fun m p => Z.max m (chan dim p)) bucket init.

(* [d] is the difference between the largest and the smallest value of
   channel [dim] in the bucket. *)
Definition channelRange (dim : Z) (bucket : Bucket) (d : Z) : Prop :=
  exists lo hi,
    In lo bucket /\ In hi bucket
    /\ d = chan dim hi - chan dim lo
    /\ forall p, In p bucket -> chan dim lo <= chan dim p <= chan dim hi.

(* The three channels of a pixel are bytes. *)
Definition bytePixel (p : Pixel) : Prop :=
  0 <= p.1.1 <= 255 /\ 0 <= p.1.2 <= 255 /\ 0 <= p.2 <= 255.

(* Bucket [j] has more than one element and [d] is the computed range of
   its channel [dim]: splitting bucket [j] along [dim] is a candidate. *)
Definition candidate (buckets : list Bucket) (j dim d : Z) : Prop :=
  exists bj,
    0 <= j /\ buckets !! Z.to_nat j = Some bj /\ (1 < length bj)%nat
    /\ 0 <= dim <= 2 /\ d = rangeOf dim bj.

(* The order in which the candidates are compared: by bucket index, then
   R before G before B. *)
Definition visitedBefore (j dim j' dim' : Z) : Prop :=
  j < j' \/ (j = j' /\ dim < dim').

(* One comparison [if (d > maxRange) { maxRange = d; bestBucketIndex = i;
   splitDimension = dim; }] of the search. *)
Definition consider (st : Best) (i dim d : Z) : Best :=
  if d >? maxRange st then mkBest i d dim else st.

(* The state of the search once every candidate whose position [3 j + dim]
   in the order of comparison is below [K] has been compared: either there
   was none, or the state holds the first one of the largest range. *)
Definition bestUpTo (buckets : list Bucket) (K : Z) (st : Best) : Prop :=
  (st = mkBest (-1) (-1) (-1)
   /\ forall j dim d, candidate buckets j dim d -> K <= 3 * j + dim)
  \/ (candidate buckets (bestBucketIndex st) (splitDimension st) (maxRange st)
      /\ 3 * bestBucketIndex st + splitDimension st < K
      /\ forall j dim d, candidate buckets j dim d -> 3 * j + dim < K ->
           d <= maxRange st
           /\ (3 * j + dim < 3 * bestBucketIndex st + splitDimension st ->
               d < maxRange st)).

(* Ascending order of channel [dim]. *)
Definition chanLe (dim : Z) (a b : Pixel) : Prop := chan dim a <= chan dim b.

(* Every element of the buffer is a byte. *)
Definition byteBuffer (pixelDataArray : list Z) : Prop :=
  Forall (fun v => 0 <= v <= 255) pixelDataArray.

(* The loop condition of the median cut. *)
Definition loopGuard (numColors : Z) (buckets : list Bucket) : bool :=
  (Z.of_nat (length buckets) <? numColors)
  && existsb (fun b => (1 <? length b)%nat) buckets.

(* The bucket lists on which the loop condition of [generatePalette] is
   evaluated: the initial list holding the sampled pixels, and the result of
   every split the loop performs. *)
Inductive loopState (pixelDataArray : list Z) (numColors : Z)
    : list Bucket -> Prop :=
| loopState_init :
    collectOpaque pixelDataArray <> [] ->
    loopState pixelDataArray numColors
      [samplePixels (collectOpaque pixelDataArray)]
| loopState_split (buckets : list Bucket) :
    loopState pixelDataArray numColors buckets ->
    loopGuard numColors buckets = true ->
    bestBucketIndex (selectBucket buckets) <> -1 ->
    maxRange (selectBucket buckets) <> 0 ->
    loopState pixelDataArray numColors
      (splitBucket buckets (selectBucket buckets)).

(* A buffer of two opaque pixels, red and green. *)
Definition redGreen : list Z := [255; 0; 0; 255; 0; 255; 0; 255].

(** ** Loops over the pixels *)

(* [f 0], [f 1], ..., [f (n - 1)] applied in turn. *)
Fixpoint upTo {S : Type} (n : nat) (f : Z -> S -> S) (s : S) : S :=
  match n with
  | O => s
  | Datatypes.S n' => f (Z.of_nat n') (upTo n' f s)
  end.

(* The four numbers stored for one pixel. *)
Definition Quad : Type := jsnum * jsnum * jsnum * jsnum.

(* Component [c] (0 to 3) of a quadruple. *)
Definition quadAt (c : Z) (q : Quad) : jsnum :=
  if c =? 0 then q.1.1.1
  else if c =? 1 then q.1.1.2
  else if c =? 2 then q.1.2
  else q.2.

(* The four stores [a[i] = q0; a[i+1] = q1; a[i+2] = q2; a[i+3] = q3]. *)
Definition quadWrite (a : list Z) (i : Z) (q : Quad) : list Z :=
  let a := u8set a i q.1.1.1 in
  let a := u8set a (i + 1) q.1.1.2 in
  let a := u8set a (i + 2) q.1.2 in
  u8set a (i + 3) q.2.

(** ** What the loops store for one pixel *)

(* The palette argument is an array with at least one entry. *)
Definition nonEmpty (palette : jsPalette) : Prop :=
  exists e entries, palette = Entries (e :: entries).

(* The quadruple [applyPalette] stores at offset [i]. *)
Definition paletteQuad (pixelDataArray : list Z) (palette : jsPalette) (i : Z) : Quad :=
  let aOrig := u8get pixelDataArray (i + 3) in
  if jseq aOrig (jsZ 0) then (jsZ 0, jsZ 0, jsZ 0, jsZ 0)
  else
    let closestColor :=
      findClosestPaletteColor (u8get pixelDataArray i)
        (u8get pixelDataArray (i + 1)) (u8get pixelDataArray (i + 2)) palette in
    (chR closestColor, chG closestColor, chB closestColor, aOrig).

(* The quadruple the dithering loops of [applyBayerDithering] store for the
   pixel at column [x] of row [y]. *)
Definition bayerQuad (pixelDataArray : list Z) (width : Z)
    (targetPalette : jsPalette) (bayerMatrix : list (list Z)) (matrixSize : Z)
    (strengthFactor : jsnum) (y x : Z) : Quad :=
  let i := (y * width + x) * 4 in
  let aOrig := u8get pixelDataArray (i + 3) in
  if jseq aOrig (jsZ 0) then (jsZ 0, jsZ 0, jsZ 0, jsZ 0)
  else
    let adj := thresholdAdjustment bayerMatrix matrixSize strengthFactor x y in
    let closestColor :=
      findClosestPaletteColor
        (clamp255 (u8get pixelDataArray i + adj)%js)
        (clamp255 (u8get pixelDataArray (i + 1) + adj)%js)
        (clamp255 (u8get pixelDataArray (i + 2) + adj)%js) targetPalette in
    (chR closestColor, chG closestColor, chB closestColor, aOrig).

(* The threshold offset of the specification for the matrix value [v]:
   [v] divided by [size²], centred by subtracting 0.5, scaled by
   [(strength / 100) · size² / 2]. *)
Definition bayerOffset (v size : Z) (strength : Q) : Q :=
  ((inject_Z v / inject_Z (size * size) - (1 # 2))
   * ((strength / 100) * inject_Z (size * size) / 2))%Q.

(* [matrix[row][col]] as an integer. *)
Definition matrixEntry (matrix : list (list Z)) (row col : Z) : Z :=
  nth (Z.to_nat col) (nth (Z.to_nat row) matrix []) 0.

(* The band of the strength decides the matrix. *)
Definition matrixForStrength (strength : Q) (matrix : list (list Z)) (size : Z) : Prop :=
  ((strength <= 333 # 10)%Q /\ matrix = BAYER_2x2 /\ size = 2)
  \/ ((333 # 10 < strength)%Q /\ (strength <= 666 # 10)%Q
      /\ matrix = BAYER_4x4 /\ size = 4)
  \/ ((666 # 10 < strength)%Q /\ matrix = BAYER_8x8 /\ size = 8).

(** ** Palettes of bytes *)

(* A colour whose three components are integers from 0 to 255. *)
Definition byteColor (c : Color) : Prop :=
  exists p, bytePixel p /\ c = colorOfPixel p.

(* Every well-formed entry of the palette array holds a byte colour. *)
Definition byteEntry (e : PaletteEntry) : Prop :=
  match e with
  | Triple c => byteColor c
  | Malformed => True
  end.

(* The colour the matcher starts from. *)
Definition firstColor (e : PaletteEntry) : Color :=
  match e with
  | Triple c => c
  | Malformed => (jsZ 0, jsZ 0, jsZ 0)
  end.

(* The quadruple stored for a pixel read as [(r, g, b, a)] by the loop of
   [applyPalette]. *)
Definition quadOf (palette : jsPalette) (r g b a : jsnum) : Quad :=
  if jseq a (jsZ 0) then (jsZ 0, jsZ 0, jsZ 0, jsZ 0)
  else
    let closestColor := findClosestPaletteColor r g b palette in
    (chR closestColor, chG closestColor, chB closestColor, a).

(* What is read back from a cell of the output buffer: the stored byte
   where the input buffer has a cell, [undefined] elsewhere. *)
Definition reread (orig stored : jsnum) : jsnum :=
  match orig with
  | NaN => NaN
  | Num _ => jsZ (toUint8Clamp stored)
  end.

(* The four cells of a pixel as read from a buffer of bytes: all four
   inside the buffer, or the alpha outside, or blue and alpha outside. *)
Definition chunkRead (r g b a : jsnum) : Prop :=
  (exists r' g' b' a', r = jsZ r' /\ g = jsZ g' /\ b = jsZ b'
                       /\ a = jsZ a' /\ 0 <= a' <= 255)
  \/ (exists r' g' b', r = jsZ r' /\ g = jsZ g' /\ b = jsZ b' /\ a = NaN)
  \/ (b = NaN /\ a = NaN).

(** ** Sample inputs *)

(* A 2×2 image: three opaque pixels and a half-transparent one. *)
Definition grey2x2 : list Z :=
  [100; 100; 100; 255;  120; 130; 140; 255;
   200; 10; 30; 255;    90; 160; 20; 64].

(* The palette black, white. *)
Definition blackWhite : jsPalette :=
  Entries [Triple (jsZ 0, jsZ 0, jsZ 0); Triple (jsZ 255, jsZ 255, jsZ 255)].

(* A palette with fractional components: (1.5, 1.5, 1.5) and (2, 2, 2.625). *)
Definition fractionalPalette : jsPalette :=
  Entries [Triple (Num (3 # 2), Num (3 # 2), Num (3 # 2));
           Triple (jsZ 2, jsZ 2, Num (21 # 8))].

Definition blackEntry : PaletteEntry := Triple (jsZ 0, jsZ 0, jsZ 0).
Definition whiteEntry : PaletteEntry := Triple (jsZ 255, jsZ 255, jsZ 255).

(** ** Signalling an empty palette *)

(* The caller can tell the result of a call with a missing or empty palette
   from the result of a call with a non-empty one: some test on the result
   is true on all the former and false on all the latter. *)
Definition distinguishesEmptyPalette {A R : Type} (f : A -> jsPalette -> R) : Prop :=
  exists failed : R -> bool,
    (forall a, failed (f a Missing) = true /\ failed (f a (Entries [])) = true)
    /\ (forall a palette, nonEmpty palette -> failed (f a palette) = false).

(** ** Floyd–Steinberg *)

(* Channel [c] (0, 1, 2) of a colour. *)
Definition chanOf (c : Z) (color : Color) : jsnum :=
  if c =? 0 then chR color else if c =? 1 then chG color else chB color.

(* [oldR, oldG, oldB]: the accumulated colour at offset [i], clamped. *)
Definition fsOld (d : list jsnum) (i : Z) : Color :=
  (clamp255 (f32get d i), clamp255 (f32get d (i + 1)), clamp255 (f32get d (i + 2))).

(* [newColor] for the pixel at offset [i]. *)
Definition fsNew (targetPalette : jsPalette) (d : list jsnum) (i : Z) : Color :=
  findClosestPaletteColor (chR (fsOld d i)) (chG (fsOld d i)) (chB (fsOld d i))
    targetPalette.

(* [errR, errG, errB] for the pixel at offset [i]. *)
Definition fsErr (targetPalette : jsPalette) (d : list jsnum) (i : Z) : Color :=
  ((chR (fsOld d i) - chR (fsNew targetPalette d i))%js,
   (chG (fsOld d i) - chG (fsNew targetPalette d i))%js,
   (chB (fsOld d i) - chB (fsNew targetPalette d i))%js).

(* The quadruple stored in the output for the pixel at offset [i]. *)
Definition fsQuad (targetPalette : jsPalette) (d : list jsnum) (i : Z) : Quad :=
  if jseq (f32get d (i + 3)) (jsZ 0) then (jsZ 0, jsZ 0, jsZ 0, jsZ 0)
  else
    (chR (fsNew targetPalette d i), chG (fsNew targetPalette d i),
     chB (fsNew targetPalette d i), Math_round (f32get d (i + 3))).

(* A guarded propagation step [if (guard) { ni = ...; d[ni] += ...; ... }]. *)
Definition diffuseIf (guard : bool) (d : list jsnum) (ni : Z) (err : Color) (w : Z)
    : list jsnum :=
  if guard then diffuse d ni (chR err) (chG err) (chB err) w else d.

(* The scratch buffer after the pixel at column [x] of row [y]. *)
Definition fsScratch (width height : Z) (targetPalette : jsPalette) (y x : Z)
    (d : list jsnum) : list jsnum :=
  let i := (y * width + x) * 4 in
  if jseq (f32get d (i + 3)) (jsZ 0) then d
  else
    let err := fsErr targetPalette d i in
    let d := diffuseIf (x + 1 <? width) d (i + 4) err 7 in
    let d := diffuseIf ((x - 1 >=? 0) && (y + 1 <? height)) d
               (i + width * 4 - 4) err 3 in
    let d := diffuseIf (y + 1 <? height) d (i + width * 4) err 5 in
    diffuseIf ((x + 1 <? width) && (y + 1 <? height)) d (i + width * 4 + 4) err 1.

(* The weight, in sixteenths, with which the error of a pixel reaches the
   pixel [dx] columns to the right and [dy] rows below. *)
Definition fsWeight (dx dy : Z) : Z :=
  if (dx =? 1) && (dy =? 0) then 7
  else if (dx =? -1) && (dy =? 1) then 3
  else if (dx =? 0) && (dy =? 1) then 5
  else if (dx =? 1) && (dy =? 1) then 1
  else 0.

(* One pass of the loops of [applyFloydSteinbergDithering], for the pixel
   of index [p = y * width + x]. *)
Definition fsPass (width height : Z) (targetPalette : jsPalette) (p : Z)
    (st : list jsnum * list Z) : list jsnum * list Z :=
  (fsScratch width height targetPalette (p / width) (p mod width) st.1,
   quadWrite st.2 (4 * p) (fsQuad targetPalette st.1 (4 * p))).

(* The scratch buffer [d'] has the length and the alpha cells of [d]. *)
Definition sameAlpha (d d' : list jsnum) : Prop :=
  length d' = length d
  /\ forall k, k mod 4 = 3 -> f32get d' k = f32get d k.

(** ** Dependence on the alpha channel *)

(* Two buffers that differ at most in pixels whose alpha is at most 128 in
   both: every pixel has the same four cells in both buffers, or an alpha of
   at most 128 in both. *)
Definition sameAbove128 (px px' : list Z) : Prop :=
  length px = length px'
  /\ forall k : nat,
       (forall c : nat, (c <= 3)%nat -> px !! (4 * k + c)%nat = px' !! (4 * k + c)%nat)
       \/ (exists a a',
             px !! (4 * k + 3)%nat = Some a /\ px' !! (4 * k + 3)%nat = Some a'
             /\ a <= 128 /\ a' <= 128).

(* Two buffers with the same colour cells, whose alpha cells are 0 at the
   same places. *)
Definition sameButAlpha (px px' : list Z) : Prop :=
  length px = length px'
  /\ forall j : nat,
       (Z.of_nat j mod 4 <> 3 -> px !! j = px' !! j)
       /\ (Z.of_nat j mod 4 = 3 ->
           forall a a', px !! j = Some a -> px' !! j = Some a' ->
             (a = 0 <-> a' = 0)).

(* The same relation on scratch buffers. *)
Definition scratchButAlpha (d d' : list jsnum) : Prop :=
  length d = length d'
  /\ forall k : Z,
       (k mod 4 <> 3 -> f32get d k = f32get d' k)
       /\ (k mod 4 = 3 ->
           jseq (f32get d k) (jsZ 0) = jseq (f32get d' k) (jsZ 0)).

(* Two output buffers with the same colour cells. *)
Definition sameColors (out out' : list Z) : Prop :=
  length out = length out'
  /\ forall j : nat, Z.of_nat j mod 4 <> 3 -> out !! j = out' !! j.

(* The scratch buffer and the output buffer when the loops start, and after
   [n] passes. *)
Definition fsStart (pixelDataArray : list Z) : list jsnum * list Z :=
  (map jsZ pixelDataArray, replicate (length pixelDataArray) 0).

Definition fsStateAt (width height : Z) (targetPalette : jsPalette)
    (pixelDataArray : list Z) (n : nat) : list jsnum * list Z :=
  upTo n (fsPass width height targetPalette) (fsStart pixelDataArray).

(** * Vocabulary for further properties of the code *)

(* Two numbers that are both NaN, or finite and equal as rationals. *)
Definition jsEq (a b : jsnum) : Prop :=
  match a, b with
  | NaN, NaN => True
  | Num x, Num y => (x == y)%Q
  | _, _ => False
  end.

(* The palette argument made of a list of byte colours, such as the result
   of [generatePalette]. *)
Definition paletteOf (colors : list Pixel) : jsPalette :=
  Entries (map (fun p => Triple (colorOfPixel p)) colors).

(* The colour and the alpha of the pixel of index [k] in a buffer. *)
Definition pixelAt (buffer : list Z) (k : nat) : option Pixel :=
  match buffer !! (4 * k)%nat, buffer !! (4 * k + 1)%nat,
        buffer !! (4 * k + 2)%nat with
  | Some r, Some g, Some b => Some (r, g, b)
  | _, _, _ => None
  end.

Definition alphaAt (buffer : list Z) (k : nat) : option Z :=
  buffer !! (4 * k + 3)%nat.

(* The entry is an array of at least three elements. *)
Definition isTriple (e : PaletteEntry) : bool :=
  match e with
  | Triple _ => true
  | Malformed => false
  end.

(* Two scratch buffers of the same length whose cells hold equal numbers. *)
Definition scratchEq (d d' : list jsnum) : Prop :=
  length d = length d' /\ forall k : Z, jsEq (f32get d k) (f32get d' k).

(* Every pixel of the buffer that is not fully transparent has one of the
   given colours. *)
Definition paletteImage (colors : list Pixel) (buffer : list Z) : Prop :=
  forall (k : nat) (p : Pixel) (a : Z),
    pixelAt buffer k = Some p -> alphaAt buffer k = Some a -> a <> 0 ->
    In p colors.

(* A 2×2 image drawn in black and white, with one fully transparent pixel
   of another colour. *)
Definition drawnImage : list Z :=
  [0; 0; 0; 255;        9; 9; 9; 0;
   255; 255; 255; 128;  0; 0; 0; 1].

(* The sum of channel [dim] over a bucket. *)
Definition channelSum (dim : Z) (bucket : Bucket) : Z :=
  fold_right (fun p s => chan dim p + s) 0 bucket.

(* Channel [dim] of a pixel lies between [lo] and [hi]. *)
Definition chanWithin (dim lo hi : Z) (p : Pixel) : Prop :=
  lo <= chan dim p <= hi.

(* The pixel of index [k] counts for the palette: its alpha is above 128. *)
Definition opaqueAt (buffer : list Z) (k : nat) (p : Pixel) : Prop :=
  exists a, pixelAt buffer k = Some p /\ alphaAt buffer k = Some a /\ 128 < a.

(** ** Grayscale *)



(** ** The colour space *)

(* A byte channel as a fraction of 255. *)
Definition fraction (v : Z) : Q := (inject_Z v / inject_Z 255)%Q.

(* [(h, s, l)] is the hue, saturation and lightness of the colour whose
   channels, as fractions, are [R], [G] and [B]; [M] and [m] are the largest
   and the smallest of the three. *)
Definition hslOf (R G B h s l : Q) : Prop :=
  exists M m : Q,
    ((R <= M)%Q /\ (G <= M)%Q /\ (B <= M)%Q /\ (M = R \/ M = G \/ M = B))
    /\ ((m <= R)%Q /\ (m <= G)%Q /\ (m <= B)%Q /\ (m = R \/ m = G \/ m = B))
    /\ (l == (M + m) / 2)%Q
    /\ (((M == m)%Q /\ h = inject_Z 0 /\ s = inject_Z 0)
        \/ ((m < M)%Q
            /\ (((1 # 2) < l /\ s == (M - m) / (2 - M - m))%Q
                \/ (l <= (1 # 2) /\ s == (M - m) / (M + m))%Q)
            /\ ((M == R /\ B <= G /\ h == ((G - B) / (M - m) + 0) / 6)%Q
                \/ (M == R /\ G < B /\ h == ((G - B) / (M - m) + 6) / 6)%Q
                \/ (M == G /\ ~ M == R /\ h == ((B - R) / (M - m) + 2) / 6)%Q
                \/ (M == B /\ ~ M == R /\ ~ M == G
                    /\ h == ((R - G) / (M - m) + 4) / 6)%Q))).

(* The share of [q - p] that [hue2rgb p q t] adds to [p]. *)
Definition hueWeight (t : Q) : Q :=
  let t := if Qltb t 0 then (t + 1)%Q else t in
  let t := if Qltb 1 t then (t - 1)%Q else t in
  if Qltb t (1 # 6) then (6 * t)%Q
  else if Qltb t (1 # 2) then 1%Q
  else if Qltb t (2 # 3) then (((2 # 3) - t) * 6)%Q
  else 0%Q.

(* The colour [applyHueShift] computes for a pixel read as [(r, g, b)],
   for a shift of the hue by [shift] turns. *)
Definition shiftedColor (shift r g b : jsnum) : Color :=
  let '(h, s, l) := rgbToHsl r g b in
  let h := jsrem (h + shift)%js (jsZ 1) in
  let h := if jslt h (jsZ 0) then (h + jsZ 1)%js else h in
  hslToRgb h s l.

(* The three stores [a[i] = c0; a[i + 1] = c1; a[i + 2] = c2]. *)
Definition tripleWrite (a : list Z) (i : Z) (c : Color) : list Z :=
  let a := u8set a i (chR c) in
  let a := u8set a (i + 1) (chG c) in
  u8set a (i + 2) (chB c).

(* One opaque red pixel and one half-transparent grey pixel. *)
Definition redAndGrey : list Z := [200; 10; 30; 255; 90; 90; 90; 128].

(** ** Blur *)

(* The quadruple [storeMeans] stores: the means, or zeros when nothing was
   counted. *)
Definition meansQuad (s : Sums) : Quad :=
  if count s >? 0 then
    (jsquot (rSum s) (jsZ (count s)), jsquot (gSum s) (jsZ (count s)),
     jsquot (bSum s) (jsZ (count s)), jsquot (aSum s) (jsZ (count s)))
  else (jsZ 0, jsZ 0, jsZ 0, jsZ 0).

(* The sums over a window whose pass [k] looks at the pixel at offset
   [idx k] of the buffer [a]. *)
Definition windowSums (a : list Z) (radius : option Z) (idx : Z -> Z) : Sums :=
  window_loop radius (fun k sums => accumulate a (idx k) sums) noSums.

(* The column and the row a window looks at, kept inside the image. *)
Definition columnOffset (width y x kx : Z) : Z :=
  (y * width + Z.max 0 (Z.min (width - 1) (x + kx))) * 4.

Definition rowOffset (width height y x ky : Z) : Z :=
  (Z.max 0 (Z.min (height - 1) (y + ky)) * width + x) * 4.

(* Sum number [c] (0 to 3) of a window. *)
Definition sumAt (c : Z) (s : Sums) : jsnum :=
  if c =? 0 then rSum s
  else if c =? 1 then gSum s
  else if c =? 2 then bSum s
  else aSum s.

(* The count of a window is not negative and each of its sums lies between
   the count times [lo c] and the count times [hi c]. *)
Definition boundedSums (lo hi : Z -> Z) (s : Sums) : Prop :=
  0 <= count s
  /\ forall c, 0 <= c <= 3 ->
       exists q, sumAt c s = Num q
                 /\ (inject_Z (count s * lo c) <= q)%Q
                 /\ (q <= inject_Z (count s * hi c))%Q.

(* The pixel at offset [i] counts for a window: its alpha is above 0. *)
Definition counted (a : list Z) (i : Z) : bool :=
  jslt (jsZ 0) (u8get a (i + 3)).

(* If the pixel at offset [i] counts, its four cells hold integers between
   the bounds. *)
Definition pixelWithin (lo hi : Z -> Z) (a : list Z) (i : Z) : Prop :=
  counted a i = true ->
  forall c, 0 <= c <= 3 ->
    exists v, u8get a (i + c) = jsZ v /\ lo c <= v <= hi c.

(* A 1×2 image of two equal pixels, and the bounds that hold it. *)
Definition flatImage : list Z := [40; 50; 60; 200; 40; 50; 60; 200].

Definition flatColor (c : Z) : Z :=
  if c =? 0 then 40 else if c =? 1 then 50 else if c =? 2 then 60 else 200.

(* The pixel of index [p] of a blurred buffer: four zeros, or four integers
   between the bounds. *)
Definition blurredPixel (lo hi : Z -> Z) (out : list Z) (p : Z) : Prop :=
  (forall c, 0 <= c <= 3 -> out !! Z.to_nat (4 * p + c) = Some 0)
  \/ (forall c, 0 <= c <= 3 ->
        exists v, out !! Z.to_nat (4 * p + c) = Some v /\ lo c <= v <= hi c).

(* A radius for which the counters and the sums of the windows are whole
   numbers that binary64 holds exactly: NaN (no window at all), or a number
   that is at most 2^31. *)
Definition exactRadius (radius : jsnum) : Prop :=
  match radius with
  | NaN => True
  | Num q => (q <= inject_Z (2 ^ 31))%Q
  end.

(* A 2×1 image of two pixels that count, with the smaller and the larger
   value of each channel. *)
Definition twoPixels : list Z := [40; 90; 60; 200; 80; 50; 100; 255].

Definition lowOf (c : Z) : Z :=
  if c =? 0 then 40 else if c =? 1 then 50 else if c =? 2 then 60 else 200.

Definition highOf (c : Z) : Z :=
  if c =? 0 then 80 else if c =? 1 then 90 else if c =? 2 then 100 else 255.

(** ** Which pixels take part *)

(* The colours of the pixels 0, 1, ... of the buffer whose alpha is above
   128, in the order of the buffer. *)
Definition candidateColors (pixelDataArray : list Z) : list Pixel :=
  omap (fun k =>
          match pixelAt pixelDataArray k, alphaAt pixelDataArray k with
          | Some p, Some a => if 128 <? a then Some p else None
          | _, _ => None
          end)
       (seq 0 (strides4 (length pixelDataArray))).

(* What [generatePalette] does with the array [allPixels] once it is
   collected: the fallback, or sampling, median cut and averaging. *)
Definition paletteFromCandidates (allPixels : list Pixel) (numColors : Q)
    : option (list Pixel) :=
  let numColors := clampNumColors numColors in
  match allPixels with
  | [] => Some (fallbackPalette numColors)
  | _ =>
      let pixelsToProcess := samplePixels allPixels in
      match medianCut (Z.to_nat numColors) numColors [pixelsToProcess] with
      | None => None
      | Some buckets =>
          Some (normalizePalette numColors (map averageBucket buckets))
      end
  end.

(* The pixel [k], whose input alpha is [a], in the output of a function that
   applies a palette: when [a] is not 0 the pixel has a colour of the
   palette and the alpha [a]; when [a] is 0 it is (0, 0, 0, 0). *)
Definition quantizedAt (colors : list Pixel) (out : list Z) (k : nat) (a : Z)
    : Prop :=
  (a <> 0 ->
   exists p, In p colors /\ pixelAt out k = Some p /\ alphaAt out k = Some a)
  /\ (a = 0 -> pixelAt out k = Some (0, 0, 0) /\ alphaAt out k = Some 0).

(* A 2×2 image: an opaque red pixel, a half-transparent green one (alpha
   64), a fully transparent blue one and an opaque grey one. *)
Definition mixedAlpha : list Z :=
  [200; 10; 30; 255;   10; 220; 40; 64;
   5; 5; 250; 0;       90; 90; 90; 129].

(* The same image with the half-transparent pixel made opaque. *)
Definition mixedOpaque : list Z :=
  [200; 10; 30; 255;   10; 220; 40; 255;
   5; 5; 250; 0;       90; 90; 90; 129].

(* The palette black, red, white. *)
Definition blackRedWhite : list Pixel :=
  [(0, 0, 0); (200, 10, 30); (255, 255, 255)].

(* The same image with the half-transparent pixel recoloured and made fully
   transparent. *)
Definition mixedCleared : list Z :=
  [200; 10; 30; 255;   1; 2; 3; 0;
   5; 5; 250; 0;       90; 90; 90; 129].

(** * The matcher and the two dithering functions over binary64 numbers

    Some properties of [findClosestPaletteColor], [applyBayerDithering] and
    [applyFloydSteinbergDithering] depend on how the machine rounds: which
    of two palette entries computes as the nearer one, what a
    [Float32Array] keeps of an accumulated error.  For them the three
    functions are embedded a second time, in the module [B64], where
    a JavaScript number is a binary64 floating-point number ([float], with
    NaN, the two infinities and the two zeros) and [+], [-], [*], [/],
    [<], [<=] and [===] are the IEEE 754 operations on it.  The text of
    the functions is the same as above; only the numbers differ.
    - A store into a [Uint8ClampedArray] converts with [toUint8Clamp]
      (NaN gives 0, the value is clamped and rounded, halves to even).
    - A store into a [Float32Array] rounds the number to the nearest
      binary32 number ([fround]); a read gives that number back.
    - The counters and the offsets of the loops are whole numbers within
      the range binary64 holds exactly; they stay integers. *)

Abbreviation float := PrimFloat.float.

Declare Scope b64_scope.
Delimit Scope b64_scope with b64.

Notation "a + b" := (PrimFloat.add a b) : b64_scope.
Notation "a - b" := (PrimFloat.sub a b) : b64_scope.
Notation "a * b" := (PrimFloat.mul a b) : b64_scope.
Notation "a / b" := (PrimFloat.div a b) : b64_scope.

Module B64.

(* The binary64 number nearest to an integer; exact for the bytes, the
   matrix entries and the constants of the code. *)
Definition ofZ (z : Z) : float :=
  FloatOps.SF2Prim
    (SpecFloat.binary_normalize FloatOps.prec FloatOps.emax z 0 false).

(* The value of a finite number; 0 for both zeros. *)
Definition valueOf (v : float) : Q :=
  match FloatOps.Prim2SF v with
  | SpecFloat.S754_finite s m e =>
      (inject_Z (SpecFloat.cond_Zopp s (Zpos m)) * Qpower 2 e)%Q
  | _ => 0%Q
  end.

(* [a < b], [a <= b] and [a === b] on numbers. *)
Definition jslt (a b : float) : bool := PrimFloat.ltb a b.
Definition jsle (a b : float) : bool := PrimFloat.leb a b.
Definition jseq (a b : float) : bool := PrimFloat.eqb a b.

(* [Math.max(a, b)] and [Math.min(a, b)]: NaN when either argument is;
   +0 counts as larger than -0. *)
Definition Math_max (a b : float) : float :=
  if PrimFloat.is_nan a || PrimFloat.is_nan b then PrimFloat.nan
  else if PrimFloat.ltb a b then b
  else if PrimFloat.ltb b a then a
  else if PrimFloat.get_sign a then b else a.

Definition Math_min (a b : float) : float :=
  if PrimFloat.is_nan a || PrimFloat.is_nan b then PrimFloat.nan
  else if PrimFloat.ltb a b then a
  else if PrimFloat.ltb b a then b
  else if PrimFloat.get_sign a then a else b.

(* [Math.round(a)]: the integer nearest to [a], halves rounded up; NaN, the
   infinities and the zeros are returned as they are, and a result of zero
   has the sign of [a]. *)
Definition Math_round (a : float) : float :=
  match FloatOps.Prim2SF a with
  | SpecFloat.S754_finite s _ _ =>
      let n := Qfloor (valueOf a + (1 # 2)) in
      if n =? 0 then (if s then PrimFloat.neg_zero else PrimFloat.zero)
      else ofZ n
  | _ => a
  end.

(* The conversion of a number stored into a [Uint8ClampedArray]. *)
Definition toUint8Clamp (v : float) : Z :=
  match FloatOps.Prim2SF v with
  | SpecFloat.S754_nan => 0
  | SpecFloat.S754_infinity s => if s then 0 else 255
  | _ => toUint8Clamp (Num (valueOf v))
  end.

(* The conversion of a number stored into a [Float32Array]: the nearest
   binary32 number (24 bits of precision, exponents up to 128), halves to
   even, as a binary64 number. *)
Definition fround (v : float) : float :=
  match FloatOps.Prim2SF v with
  | SpecFloat.S754_finite s m e =>
      FloatOps.SF2Prim (SpecFloat.binary_round 24 128 s m e)
  | _ => v
  end.

(** ** Typed arrays *)

(* [a[i]] on a [Uint8ClampedArray]; [undefined], outside the array, is NaN
   in every use the code makes of it. *)
Definition u8get (a : list Z) (i : Z) : float :=
  if i <? 0 then PrimFloat.nan
  else match a !! Z.to_nat i with
       | Some v => ofZ v
       | None => PrimFloat.nan
       end.

(* [a[i] = v] on a [Uint8ClampedArray]. *)
Definition u8set (a : list Z) (i : Z) (v : float) : list Z :=
  if i <? 0 then a else <[Z.to_nat i := toUint8Clamp v]> a.

(* [a[i]] and [a[i] = v] on a [Float32Array]. *)
Definition f32get (a : list float) (i : Z) : float :=
  if i <? 0 then PrimFloat.nan
  else match a !! Z.to_nat i with
       | Some v => v
       | None => PrimFloat.nan
       end.

Definition f32set (a : list float) (i : Z) (v : float) : list float :=
  if i <? 0 then a else <[Z.to_nat i := fround v]> a.

(** ** Colours and palettes *)

Definition Color : Type := float * float * float.

Definition chR (c : Color) : float := c.1.1.
Definition chG (c : Color) : float := c.1.2.
Definition chB (c : Color) : float := c.2.

Inductive PaletteEntry : Type :=
| Triple (c : Color)
| Malformed.

Inductive jsPalette : Type :=
| Missing
| Entries (l : list PaletteEntry).

(** ** helpers.js *)

Definition colorDistanceSquared (r1 g1 b1 r2 g2 b2 : float) : float :=
  let dr := (r1 - r2)%b64 in
  let dg := (g1 - g2)%b64 in
  let db := (b1 - b2)%b64 in
  (dr * dr + dg * dg + db * db)%b64.

Fixpoint closest_loop (r g b : float) (rest : list PaletteEntry)
    (minDistance : float) (closestColor : Color) : Color :=
  match rest with
  | [] => closestColor
  | Triple color :: rest' =>
      let distance :=
        colorDistanceSquared r g b (chR color) (chG color) (chB color) in
      if jslt distance minDistance
      then closest_loop r g b rest' distance color
      else closest_loop r g b rest' minDistance closestColor
  | Malformed :: rest' => closest_loop r g b rest' minDistance closestColor
  end.

Definition findClosestPaletteColor (r g b : float) (palette : jsPalette) : Color :=
  match palette with
  | Missing | Entries [] => (r, g, b)
  | Entries (p0 :: rest) =>
      let closestColor :=
        match p0 with
        | Triple c => c
        | Malformed => (ofZ 0, ofZ 0, ofZ 0)
        end in
      let minDistance :=
        colorDistanceSquared r g b
          (chR closestColor) (chG closestColor) (chB closestColor) in
      closest_loop r g b rest minDistance closestColor
  end.

(** ** dithering/bayer.js *)

Definition matrixAt (bayerMatrix : list (list Z)) (row col : Z) : float :=
  ofZ (nth (Z.to_nat col) (nth (Z.to_nat row) bayerMatrix []) 0).

(* The literals [33.3] and [66.6]: the binary64 numbers nearest to 333/10
   and 666/10. *)
Definition lit_33_3 : float := (ofZ 333 / ofZ 10)%b64.
Definition lit_66_6 : float := (ofZ 666 / ofZ 10)%b64.

Definition selectMatrix (strengthPercent : float) : list (list Z) * Z :=
  if jsle strengthPercent lit_33_3 then (BAYER_2x2, 2)
  else if jsle strengthPercent lit_66_6 then (BAYER_4x4, 4)
  else (BAYER_8x8, 8).

(* Body of the strength-0 loop of [applyBayerDithering] at offset [i]. *)
Definition bayer_plain_body (pixelDataArray : list Z) (targetPalette : jsPalette)
    (i : Z) (newData : list Z) : list Z :=
  let aOrig := u8get pixelDataArray (i + 3) in
  if jseq aOrig (ofZ 0) then
    let newData := u8set newData i (ofZ 0) in
    let newData := u8set newData (i + 1) (ofZ 0) in
    let newData := u8set newData (i + 2) (ofZ 0) in
    u8set newData (i + 3) (ofZ 0)
  else
    let rOrig := u8get pixelDataArray i in
    let gOrig := u8get pixelDataArray (i + 1) in
    let bOrig := u8get pixelDataArray (i + 2) in
    let closestColor := findClosestPaletteColor rOrig gOrig bOrig targetPalette in
    let newData := u8set newData i (chR closestColor) in
    let newData := u8set newData (i + 1) (chG closestColor) in
    let newData := u8set newData (i + 2) (chB closestColor) in
    u8set newData (i + 3) aOrig.

(* [bayerValueNormalization] and [maxThresholdOffset]. *)
Definition bayerValueNormalization (matrixSize : Z) : float :=
  (ofZ 1 / (ofZ matrixSize * ofZ matrixSize))%b64.

Definition maxThresholdOffset (strengthFactor : float) (matrixSize : Z) : float :=
  (strengthFactor * ofZ matrixSize * ofZ matrixSize / ofZ 2)%b64.

(* [(bayerPatternValue * bayerValueNormalization - 0.5) * maxThresholdOffset]
   for the pixel at column [x] of row [y]. *)
Definition thresholdAdjustment (bayerMatrix : list (list Z)) (matrixSize : Z)
    (strengthFactor : float) (x y : Z) : float :=
  let bayerPatternValue :=
    matrixAt bayerMatrix (Z.rem y matrixSize) (Z.rem x matrixSize) in
  ((bayerPatternValue * bayerValueNormalization matrixSize - ofZ 1 / ofZ 2)
   * maxThresholdOffset strengthFactor matrixSize)%b64.

(* [Math.max(0, Math.min(255, v))]. *)
Definition clamp255 (v : float) : float :=
  Math_max (ofZ 0) (Math_min (ofZ 255) v).

(* Body of the dithering loops of [applyBayerDithering] at column [x] of
   row [y]. *)
Definition bayer_body (pixelDataArray : list Z) (width : Z)
    (targetPalette : jsPalette) (bayerMatrix : list (list Z)) (matrixSize : Z)
    (strengthFactor : float) (y x : Z) (newData : list Z) : list Z :=
  let i := (y * width + x) * 4 in
  let rOrig := u8get pixelDataArray i in
  let gOrig := u8get pixelDataArray (i + 1) in
  let bOrig := u8get pixelDataArray (i + 2) in
  let aOrig := u8get pixelDataArray (i + 3) in
  if jseq aOrig (ofZ 0) then
    let newData := u8set newData i (ofZ 0) in
    let newData := u8set newData (i + 1) (ofZ 0) in
    let newData := u8set newData (i + 2) (ofZ 0) in
    u8set newData (i + 3) (ofZ 0)
  else
    let adj := thresholdAdjustment bayerMatrix matrixSize strengthFactor x y in
    let rDithered := clamp255 (rOrig + adj)%b64 in
    let gDithered := clamp255 (gOrig + adj)%b64 in
    let bDithered := clamp255 (bOrig + adj)%b64 in
    let closestColor :=
      findClosestPaletteColor rDithered gDithered bDithered targetPalette in
    let newData := u8set newData i (chR closestColor) in
    let newData := u8set newData (i + 1) (chG closestColor) in
    let newData := u8set newData (i + 2) (chB closestColor) in
    u8set newData (i + 3) aOrig.

(* [Math.max(0, Math.min(100, strengthPercent))].  A call that omits the
   strength passes the default, 100. *)
Definition clampStrength (strengthPercent : float) : float :=
  Math_max (ofZ 0) (Math_min (ofZ 100) strengthPercent).

Definition applyBayerDithering (pixelDataArray : list Z) (width height : Z)
    (targetPalette : jsPalette) (strengthPercent : float) : list Z :=
  match targetPalette with
  | Missing | Entries [] => pixelDataArray
  | _ =>
      match pixelDataArray with
      | [] => pixelDataArray
      | _ =>
          let newData := replicate (length pixelDataArray) 0 in
          let strengthPercent := clampStrength strengthPercent in
          if jseq strengthPercent (ofZ 0) then
            for_loop (strides4 (length pixelDataArray)) 0 4
              (bayer_plain_body pixelDataArray targetPalette) newData
          else
            let strengthFactor := (strengthPercent / ofZ 100)%b64 in
            let '(bayerMatrix, matrixSize) := selectMatrix strengthPercent in
            for_loop (upto height) 0 1
              (fun y =>
                 for_loop (upto width) 0 1
                   (bayer_body pixelDataArray width targetPalette
                      bayerMatrix matrixSize strengthFactor y))
              newData
      end
  end.

(** ** dithering/floydSteinberg.js *)

(* [d[ni] += errR * w / 16; d[ni + 1] += errG * w / 16; d[ni + 2] += errB * w / 16]. *)
Definition diffuse (d : list float) (ni : Z) (errR errG errB : float) (w : Z)
    : list float :=
  let d := f32set d ni (f32get d ni + errR * ofZ w / ofZ 16)%b64 in
  let d := f32set d (ni + 1) (f32get d (ni + 1) + errG * ofZ w / ofZ 16)%b64 in
  f32set d (ni + 2) (f32get d (ni + 2) + errB * ofZ w / ofZ 16)%b64.

(* Body of the loops of [applyFloydSteinbergDithering] at column [x] of row
   [y], on the scratch buffer [d] and the output buffer [outputData]. *)
Definition fs_body (width height : Z) (targetPalette : jsPalette) (y x : Z)
    (st : list float * list Z) : list float * list Z :=
  let '(d, outputData) := st in
  let i := (y * width + x) * 4 in
  if jseq (f32get d (i + 3)) (ofZ 0) then
    let outputData := u8set outputData i (ofZ 0) in
    let outputData := u8set outputData (i + 1) (ofZ 0) in
    let outputData := u8set outputData (i + 2) (ofZ 0) in
    let outputData := u8set outputData (i + 3) (ofZ 0) in
    (d, outputData)
  else
    let oldR := clamp255 (f32get d i) in
    let oldG := clamp255 (f32get d (i + 1)) in
    let oldB := clamp255 (f32get d (i + 2)) in
    let oldA := f32get d (i + 3) in
    let newColor := findClosestPaletteColor oldR oldG oldB targetPalette in
    let outputData := u8set outputData i (chR newColor) in
    let outputData := u8set outputData (i + 1) (chG newColor) in
    let outputData := u8set outputData (i + 2) (chB newColor) in
    let outputData := u8set outputData (i + 3) (Math_round oldA) in
    let errR := (oldR - chR newColor)%b64 in
    let errG := (oldG - chG newColor)%b64 in
    let errB := (oldB - chB newColor)%b64 in
    let d :=
      if x + 1 <? width then diffuse d (i + 4) errR errG errB 7 else d in
    let d :=
      if (x - 1 >=? 0) && (y + 1 <? height)
      then diffuse d (i + width * 4 - 4) errR errG errB 3 else d in
    let d :=
      if y + 1 <? height
      then diffuse d (i + width * 4) errR errG errB 5 else d in
    let d :=
      if (x + 1 <? width) && (y + 1 <? height)
      then diffuse d (i + width * 4 + 4) errR errG errB 1 else d in
    (d, outputData).

(* The scratch buffer when the loops start: [d[k] = pixelDataArray[k]] for
   every [k], each a store into the [Float32Array]. *)
Definition scratchOf (pixelDataArray : list Z) : list float :=
  map (fun v => fround (ofZ v)) pixelDataArray.

Definition applyFloydSteinbergDithering (pixelDataArray : list Z)
    (width height : Z) (targetPalette : jsPalette) : list Z :=
  match targetPalette with
  | Missing | Entries [] => pixelDataArray
  | _ =>
      match pixelDataArray with
      | [] => pixelDataArray
      | _ =>
          let d := scratchOf pixelDataArray in
          let outputData := replicate (length pixelDataArray) 0 in
          snd (for_loop (upto height) 0 1
                 (fun y => for_loop (upto width) 0 1
                             (fs_body width height targetPalette y))
                 (d, outputData))
      end
  end.

(** ** Vocabulary: the order of the numbers *)

(* A number that is not NaN. *)
Definition isNumber (v : float) : Prop := PrimFloat.is_nan v = false.

(* A key whose lexicographic order is the order of the numbers: the class
   (negative infinity, negative, zero, positive, positive infinity), then
   the exponent and the mantissa, negated for a negative number.  NaN, which
   is not ordered, has the key of zero. *)
Definition orderKey (v : float) : Z * Z * Z :=
  match FloatOps.Prim2SF v with
  | SpecFloat.S754_infinity true => (-2, 0, 0)
  | SpecFloat.S754_finite true m e => (-1, - e, Zneg m)
  | SpecFloat.S754_zero _ => (0, 0, 0)
  | SpecFloat.S754_nan => (0, 0, 0)
  | SpecFloat.S754_finite false m e => (1, e, Zpos m)
  | SpecFloat.S754_infinity false => (2, 0, 0)
  end.

Definition keyLt (k k' : Z * Z * Z) : Prop :=
  k.1.1 < k'.1.1
  \/ (k.1.1 = k'.1.1
      /\ (k.1.2 < k'.1.2 \/ (k.1.2 = k'.1.2 /\ k.2 < k'.2))).

(** ** Vocabulary: the matcher *)

(* The palette argument is an array with at least one entry. *)
Definition nonEmpty (palette : jsPalette) : Prop :=
  exists e entries, palette = Entries (e :: entries).

(* An array entry of the palette with at least three elements. *)
Definition wellFormed (e : PaletteEntry) : Prop := exists c, e = Triple c.

(* The squared distance to the entry [c] as the code computes it. *)
Definition distanceTo (r g b : float) (c : Color) : float :=
  colorDistanceSquared r g b (chR c) (chG c) (chB c).

(* [c], found at index [k], is the first entry whose computed distance to
   [(r, g, b)] is the least among the first [n] entries of the palette. *)
Definition firstNearest (r g b : float) (pal : list PaletteEntry)
    (n k : nat) (c : Color) : Prop :=
  pal !! k = Some (Triple c)
  /\ (k < n)%nat
  /\ (forall j c', (j < n)%nat -> pal !! j = Some (Triple c') ->
        jsle (distanceTo r g b c) (distanceTo r g b c') = true)
  /\ (forall j c', (j < k)%nat -> pal !! j = Some (Triple c') ->
        jslt (distanceTo r g b c) (distanceTo r g b c') = true).

(* A finite number: not NaN and not an infinity; a colour of finite
   numbers; a number that is not negative (an infinity included). *)
Definition isFinite (v : float) : Prop :=
  match FloatOps.Prim2SF v with
  | SpecFloat.S754_zero _ | SpecFloat.S754_finite _ _ _ => True
  | _ => False
  end.

Definition finiteColor (c : Color) : Prop :=
  isFinite (chR c) /\ isFinite (chG c) /\ isFinite (chB c).

Definition signedNumber (s : bool) (x : SpecFloat.spec_float) : Prop :=
  match x with
  | SpecFloat.S754_nan => False
  | SpecFloat.S754_zero s' | SpecFloat.S754_infinity s'
  | SpecFloat.S754_finite s' _ _ => s' = s
  end.

Definition notNegative (x : SpecFloat.spec_float) : Prop :=
  match x with
  | SpecFloat.S754_nan => False
  | SpecFloat.S754_zero _ => True
  | SpecFloat.S754_infinity s | SpecFloat.S754_finite s _ _ => s = false
  end.

(* The squared distance to the entry [c] in exact arithmetic, for a colour
   and an entry of finite numbers. *)
Definition exactDistance (r g b : float) (c : Color) : Q :=
  sqDist (valueOf r) (valueOf g) (valueOf b)
    (valueOf (chR c), valueOf (chG c), valueOf (chB c)).

(* The claim that the matcher returns the first of the entries that are
   nearest in exact arithmetic. *)
Definition firstExactNearest (r g b : float) (pal : list PaletteEntry) : Prop :=
  exists (k : nat) (c : Color),
    pal !! k = Some (Triple c)
    /\ findClosestPaletteColor r g b (Entries pal) = c
    /\ (forall j c', pal !! j = Some (Triple c') ->
          (exactDistance r g b c <= exactDistance r g b c')%Q)
    /\ (forall j c', (j < k)%nat -> pal !! j = Some (Triple c') ->
          (exactDistance r g b c < exactDistance r g b c')%Q).

(* The colour (19.9, 19.9, 24.9), as the literals of a program denote it,
   and a palette of two entries at the same distance from it. *)
Definition tiedColor : Color :=
  ((ofZ 199 / ofZ 10)%b64, (ofZ 199 / ofZ 10)%b64, (ofZ 249 / ofZ 10)%b64).

Definition tiedPalette : list PaletteEntry :=
  [Triple (ofZ 15, ofZ 20, ofZ 25); Triple (ofZ 20, ofZ 20, ofZ 20)].

(** ** Vocabulary: what the loops store *)

(* The four numbers stored for one pixel, the component [c] (0 to 3) of a
   quadruple and the four stores [a[i] = q0; ...; a[i+3] = q3]. *)
Definition Quad : Type := float * float * float * float.

Definition quadAt (c : Z) (q : Quad) : float :=
  if c =? 0 then q.1.1.1
  else if c =? 1 then q.1.1.2
  else if c =? 2 then q.1.2
  else q.2.

Definition quadWrite (a : list Z) (i : Z) (q : Quad) : list Z :=
  let a := u8set a i q.1.1.1 in
  let a := u8set a (i + 1) q.1.1.2 in
  let a := u8set a (i + 2) q.1.2 in
  u8set a (i + 3) q.2.

(* Channel [c] (0, 1, 2) of a colour. *)
Definition chanOf (c : Z) (color : Color) : float :=
  if c =? 0 then chR color else if c =? 1 then chG color else chB color.

(** ** Vocabulary: Bayer dithering *)

(* The quadruple the dithering loops of [applyBayerDithering] store for the
   pixel at column [x] of row [y]. *)
Definition bayerQuad (pixelDataArray : list Z) (width : Z)
    (targetPalette : jsPalette) (bayerMatrix : list (list Z)) (matrixSize : Z)
    (strengthFactor : float) (y x : Z) : Quad :=
  let i := (y * width + x) * 4 in
  let aOrig := u8get pixelDataArray (i + 3) in
  if jseq aOrig (ofZ 0) then (ofZ 0, ofZ 0, ofZ 0, ofZ 0)
  else
    let adj := thresholdAdjustment bayerMatrix matrixSize strengthFactor x y in
    let closestColor :=
      findClosestPaletteColor
        (clamp255 (u8get pixelDataArray i + adj)%b64)
        (clamp255 (u8get pixelDataArray (i + 1) + adj)%b64)
        (clamp255 (u8get pixelDataArray (i + 2) + adj)%b64) targetPalette in
    (chR closestColor, chG closestColor, chB closestColor, aOrig).

(* The threshold offset of the specification for the matrix value [v]:
   [v] divided by [size²], centred by subtracting 0.5, scaled by
   [(strength / 100) · size² / 2], each operation rounded as the machine
   rounds it. *)
Definition bayerOffset (v size : Z) (strength : float) : float :=
  ((ofZ v / (ofZ size * ofZ size) - ofZ 1 / ofZ 2)
   * (strength / ofZ 100 * ofZ size * ofZ size / ofZ 2))%b64.

(* The band of the strength decides the matrix; 33.3 and 66.6 are the
   literals of the code. *)
Definition matrixForStrength (strength : float) (matrix : list (list Z))
    (size : Z) : Prop :=
  (jsle strength lit_33_3 = true /\ matrix = BAYER_2x2 /\ size = 2)
  \/ (jslt lit_33_3 strength = true /\ jsle strength lit_66_6 = true
      /\ matrix = BAYER_4x4 /\ size = 4)
  \/ (jslt lit_66_6 strength = true /\ matrix = BAYER_8x8 /\ size = 8).

(* The three matrices with their sizes, and the indices of a matrix of
   size [n]. *)
Definition matrices : list (list (list Z) * Z) :=
  [(BAYER_2x2, 2); (BAYER_4x4, 4); (BAYER_8x8, 8)].

Definition indices (n : Z) : list Z := map Z.of_nat (seq 0 (Z.to_nat n)).

(* The bytes. *)
Definition bytes : list Z := indices 256.

(* One opaque pixel (20, 20, 25) whose colour, moved by the offset of
   strength 10, is at the same distance from the two entries of
   [tiedPalette]. *)
Definition tiedPixel : list Z := [20; 20; 25; 255].

(** ** Vocabulary: Floyd–Steinberg *)

(* [oldR, oldG, oldB]: the accumulated colour at offset [i], clamped. *)
Definition fsOld (d : list float) (i : Z) : Color :=
  (clamp255 (f32get d i), clamp255 (f32get d (i + 1)), clamp255 (f32get d (i + 2))).

(* [newColor] for the pixel at offset [i]. *)
Definition fsNew (targetPalette : jsPalette) (d : list float) (i : Z) : Color :=
  findClosestPaletteColor (chR (fsOld d i)) (chG (fsOld d i)) (chB (fsOld d i))
    targetPalette.

(* [errR, errG, errB] for the pixel at offset [i]. *)
Definition fsErr (targetPalette : jsPalette) (d : list float) (i : Z) : Color :=
  ((chR (fsOld d i) - chR (fsNew targetPalette d i))%b64,
   (chG (fsOld d i) - chG (fsNew targetPalette d i))%b64,
   (chB (fsOld d i) - chB (fsNew targetPalette d i))%b64).

(* The quadruple stored in the output for the pixel at offset [i]. *)
Definition fsQuad (targetPalette : jsPalette) (d : list float) (i : Z) : Quad :=
  if jseq (f32get d (i + 3)) (ofZ 0) then (ofZ 0, ofZ 0, ofZ 0, ofZ 0)
  else
    (chR (fsNew targetPalette d i), chG (fsNew targetPalette d i),
     chB (fsNew targetPalette d i), Math_round (f32get d (i + 3))).

(* A guarded propagation step [if (guard) { ni = ...; d[ni] += ...; ... }]. *)
Definition diffuseIf (guard : bool) (d : list float) (ni : Z) (err : Color) (w : Z)
    : list float :=
  if guard then diffuse d ni (chR err) (chG err) (chB err) w else d.

(* The scratch buffer after the pixel at column [x] of row [y]. *)
Definition fsScratch (width height : Z) (targetPalette : jsPalette) (y x : Z)
    (d : list float) : list float :=
  let i := (y * width + x) * 4 in
  if jseq (f32get d (i + 3)) (ofZ 0) then d
  else
    let err := fsErr targetPalette d i in
    let d := diffuseIf (x + 1 <? width) d (i + 4) err 7 in
    let d := diffuseIf ((x - 1 >=? 0) && (y + 1 <? height)) d
               (i + width * 4 - 4) err 3 in
    let d := diffuseIf (y + 1 <? height) d (i + width * 4) err 5 in
    diffuseIf ((x + 1 <? width) && (y + 1 <? height)) d (i + width * 4 + 4) err 1.

(* One pass of the loops of [applyFloydSteinbergDithering], for the pixel
   of index [p = y * width + x]. *)
Definition fsPass (width height : Z) (targetPalette : jsPalette) (p : Z)
    (st : list float * list Z) : list float * list Z :=
  (fsScratch width height targetPalette (p / width) (p mod width) st.1,
   quadWrite st.2 (4 * p) (fsQuad targetPalette st.1 (4 * p))).

(* The scratch buffer [d'] has the length and the alpha cells of [d]. *)
Definition sameAlpha (d d' : list float) : Prop :=
  length d' = length d
  /\ forall k, k mod 4 = 3 -> f32get d' k = f32get d k.

(* The scratch buffer and the output buffer when the loops start, and after
   [n] passes. *)
Definition fsStart (pixelDataArray : list Z) : list float * list Z :=
  (scratchOf pixelDataArray, replicate (length pixelDataArray) 0).

Definition fsStateAt (width height : Z) (targetPalette : jsPalette)
    (pixelDataArray : list Z) (n : nat) : list float * list Z :=
  upTo n (fsPass width height targetPalette) (fsStart pixelDataArray).


(* Six grey pixels in a row, and the palette of black and white. *)
Definition greyRow : list Z :=
  [100; 100; 100; 255; 90; 90; 90; 255; 80; 80; 80; 255;
   70; 70; 70; 255; 60; 60; 60; 255; 50; 50; 50; 255].

Definition blackAndWhite : jsPalette :=
  Entries [Triple (ofZ 0, ofZ 0, ofZ 0); Triple (ofZ 255, ofZ 255, ofZ 255)].

End B64.
(** * Properties *)

(** ** Numbers *)

Lemma Qltb_lt (x y : Q) : Qltb x y = true <-> (x < y)%Q.
Proof.
  unfold Qltb. rewrite negb_true_iff. split.
  - intros H. apply Qnot_le_lt. intros Hle.
    apply Qle_bool_iff in Hle. congruence.
  - intros H. destruct (Qle_bool y x) eqn:E; [|reflexivity].
    apply Qle_bool_iff in E. exfalso. exact (Qlt_not_le _ _ H E).
Qed.

Lemma Qltb_ge (x y : Q) : Qltb x y = false <-> (y <= x)%Q.
Proof.
  unfold Qltb. rewrite negb_false_iff. apply Qle_bool_iff.
Qed.

(** ** The nearest-colour matcher *)

Lemma fin_inj (q q' : Q * Q * Q) : fin q = fin q' -> q = q'.
Proof.
  destruct q as [[? ?] ?], q' as [[? ?] ?]. unfold fin. cbn.
  intros H. injection H as -> -> ->. reflexivity.
Qed.

Lemma colorDistanceSquared_fin (r g b : Q) (q : Q * Q * Q) :
  colorDistanceSquared (Num r) (Num g) (Num b)
    (chR (fin q)) (chG (fin q)) (chB (fin q)) = Num (sqDist r g b q).
Proof. reflexivity. Qed.

(** ** Bayer dithering at strength 0 *)

Lemma bayer_plain_body_eq (pixelDataArray : list Z) (palette : jsPalette) :
  bayer_plain_body pixelDataArray palette = applyPalette_body pixelDataArray palette.
Proof. reflexivity. Qed.

(* With a clamped strength of 0 the dithering function runs the loop of
   [applyPalette]. *)
Lemma applyBayerDithering_plain (pixelDataArray : list Z) (width height : Z)
    (palette : jsPalette) (strengthPercent : jsnum) :
  jseq (clampStrength strengthPercent) (jsZ 0) = true ->
  applyBayerDithering pixelDataArray width height palette strengthPercent
  = applyPalette pixelDataArray palette.
Proof.
  intros Hs.
  destruct palette as [|[|e entries]]; try reflexivity.
  destruct pixelDataArray as [|p pixels]; [reflexivity|].
  unfold applyBayerDithering, applyPalette.
  rewrite Hs, bayer_plain_body_eq. reflexivity.
Qed.

(** C3.  Whatever the pixel buffer, the width, the height and the palette
    (missing, empty or not), Bayer dithering with strength 0 returns the same
    buffer as [applyPalette] with that palette. *)
Theorem applyBayerDithering_strength0 (pixelDataArray : list Z) (width height : Z)
    (palette : jsPalette) :
  applyBayerDithering pixelDataArray width height palette (jsZ 0)
  = applyPalette pixelDataArray palette.
Proof. apply applyBayerDithering_plain. reflexivity. Qed.

(** ** Median cut: the choice of the bucket to split *)

Lemma extents_fold (bucket : Bucket) :
  forall a0 a1 a2 a3 a4 a5,
    fold_left
      (fun '(minR, maxR, minG, maxG, minB, maxB) p =>
         (Z.min minR (chan 0 p), Z.max maxR (chan 0 p),
          Z.min minG (chan 1 p), Z.max maxG (chan 1 p),
          Z.min minB (chan 2 p), Z.max maxB (chan 2 p)))
      bucket (a0, a1, a2, a3, a4, a5)
    = (loOf 0 bucket a0, hiOf 0 bucket a1, loOf 1 bucket a2,
       hiOf 1 bucket a3, loOf 2 bucket a4, hiOf 2 bucket a5).
Proof.
  induction bucket as [|p bucket IH]; intros; [reflexivity|].
  cbn [fold_left]. rewrite IH. reflexivity.
Qed.

Lemma rangeOf_unfold (dim : Z) (bucket : Bucket) :
  0 <= dim <= 2 ->
  rangeOf dim bucket = hiOf dim bucket 0 - loOf dim bucket 255.
Proof.
  intros Hdim. unfold rangeOf, extents. rewrite extents_fold.
  destruct (dim =? 0) eqn:E0; [apply Z.eqb_eq in E0; subst; reflexivity|].
  destruct (dim =? 1) eqn:E1; [apply Z.eqb_eq in E1; subst; reflexivity|].
  apply Z.eqb_neq in E0, E1. replace dim with 2 by lia. reflexivity.
Qed.

Lemma loOf_cons (dim : Z) (a : Pixel) (bucket : Bucket) (init : Z) :
  loOf dim (a :: bucket) init = loOf dim bucket (Z.min init (chan dim a)).
Proof. reflexivity. Qed.

Lemma hiOf_cons (dim : Z) (a : Pixel) (bucket : Bucket) (init : Z) :
  hiOf dim (a :: bucket) init = hiOf dim bucket (Z.max init (chan dim a)).
Proof. reflexivity. Qed.

Lemma loOf_le_init (dim : Z) (bucket : Bucket) :
  forall init, loOf dim bucket init <= init.
Proof.
  induction bucket as [|p bucket IH]; intros init; [cbn; lia|].
  rewrite loOf_cons. etransitivity; [apply IH|]. lia.
Qed.

Lemma hiOf_ge_init (dim : Z) (bucket : Bucket) :
  forall init, init <= hiOf dim bucket init.
Proof.
  induction bucket as [|p bucket IH]; intros init; [cbn; lia|].
  rewrite hiOf_cons. etransitivity; [|apply IH]. lia.
Qed.

Lemma loOf_le (dim : Z) (bucket : Bucket) :
  forall init p, In p bucket -> loOf dim bucket init <= chan dim p.
Proof.
  induction bucket as [|a bucket IH]; intros init p Hin; [destruct Hin|].
  destruct Hin as [->|Hin]; rewrite loOf_cons.
  - etransitivity; [apply loOf_le_init|]. lia.
  - apply IH. exact Hin.
Qed.

Lemma hiOf_ge (dim : Z) (bucket : Bucket) :
  forall init p, In p bucket -> chan dim p <= hiOf dim bucket init.
Proof.
  induction bucket as [|a bucket IH]; intros init p Hin; [destruct Hin|].
  destruct Hin as [->|Hin]; rewrite hiOf_cons.
  - etransitivity; [|apply hiOf_ge_init]. lia.
  - apply IH. exact Hin.
Qed.

Lemma loOf_attained (dim : Z) (bucket : Bucket) :
  forall init,
    loOf dim bucket init = init
    \/ exists p, In p bucket /\ loOf dim bucket init = chan dim p.
Proof.
  induction bucket as [|a bucket IH]; intros init; [left; reflexivity|].
  rewrite loOf_cons. destruct (IH (Z.min init (chan dim a))) as [H|(p & Hin & H)].
  - destruct (Z.min_spec init (chan dim a)) as [[_ Hm]|[_ Hm]].
    + left. congruence.
    + right. exists a. split; [left; reflexivity|congruence].
  - right. exists p. split; [right; exact Hin|exact H].
Qed.

Lemma hiOf_attained (dim : Z) (bucket : Bucket) :
  forall init,
    hiOf dim bucket init = init
    \/ exists p, In p bucket /\ hiOf dim bucket init = chan dim p.
Proof.
  induction bucket as [|a bucket IH]; intros init; [left; reflexivity|].
  rewrite hiOf_cons. destruct (IH (Z.max init (chan dim a))) as [H|(p & Hin & H)].
  - destruct (Z.max_spec init (chan dim a)) as [[_ Hm]|[_ Hm]].
    + right. exists a. split; [left; reflexivity|congruence].
    + left. congruence.
  - right. exists p. split; [right; exact Hin|exact H].
Qed.

Lemma rangeOf_nonneg (dim : Z) (bucket : Bucket) :
  0 <= dim <= 2 -> bucket <> [] -> 0 <= rangeOf dim bucket.
Proof.
  intros Hdim Hne. rewrite rangeOf_unfold by exact Hdim.
  destruct bucket as [|p bucket]; [congruence|].
  pose proof (loOf_le dim (p :: bucket) 255 p (or_introl eq_refl)).
  pose proof (hiOf_ge dim (p :: bucket) 0 p (or_introl eq_refl)).
  lia.
Qed.

Lemma chan_byte (dim : Z) (p : Pixel) : bytePixel p -> 0 <= chan dim p <= 255.
Proof.
  intros (HR & HG & HB). unfold chan.
  destruct (dim =? 0); [exact HR|]. destruct (dim =? 1); [exact HG|exact HB].
Qed.

(* On a non-empty bucket of byte pixels the computed range is the
   difference between the largest and the smallest channel value. *)
Lemma rangeOf_channelRange (dim : Z) (bucket : Bucket) :
  0 <= dim <= 2 -> bucket <> [] -> Forall bytePixel bucket ->
  channelRange dim bucket (rangeOf dim bucket).
Proof.
  intros Hdim Hne Hbytes. rewrite rangeOf_unfold by exact Hdim.
  rewrite Forall_forall in Hbytes.
  assert (Hb : forall p, In p bucket -> 0 <= chan dim p <= 255).
  { intros p Hin. apply chan_byte, Hbytes, list_elem_of_In, Hin. }
  destruct bucket as [|p0 bucket]; [congruence|].
  pose proof (Hb p0 (or_introl eq_refl)) as Hp0.
  assert (Hlo : exists lo, In lo (p0 :: bucket)
                           /\ loOf dim (p0 :: bucket) 255 = chan dim lo).
  { destruct (loOf_attained dim (p0 :: bucket) 255) as [H|H]; [|exact H].
    exists p0. split; [left; reflexivity|].
    pose proof (loOf_le dim (p0 :: bucket) 255 p0 (or_introl eq_refl)). lia. }
  assert (Hhi : exists hi, In hi (p0 :: bucket)
                           /\ hiOf dim (p0 :: bucket) 0 = chan dim hi).
  { destruct (hiOf_attained dim (p0 :: bucket) 0) as [H|H]; [|exact H].
    exists p0. split; [left; reflexivity|].
    pose proof (hiOf_ge dim (p0 :: bucket) 0 p0 (or_introl eq_refl)). lia. }
  destruct Hlo as (lo & Hlo_in & Hlo), Hhi as (hi & Hhi_in & Hhi).
  exists lo, hi. repeat split; try assumption.
  - congruence.
  - rewrite <- Hlo. apply loOf_le. assumption.
  - rewrite <- Hhi. apply hiOf_ge. assumption.
Qed.

Lemma select_body_consider (bucket : Bucket) (i : Z) (st : Best) :
  select_body bucket i st
  = if (length bucket <=? 1)%nat then st
    else consider
           (consider (consider st i 0 (rangeOf 0 bucket)) i 1 (rangeOf 1 bucket))
           i 2 (rangeOf 2 bucket).
Proof.
  unfold select_body, rangeOf, consider.
  destruct (extents bucket) as [[[[[minR maxR] minG] maxG] minB] maxB].
  reflexivity.
Qed.

Section Selection.
Variable buckets : list Bucket.

Lemma candidate_functional (j dim d d' : Z) :
  candidate buckets j dim d -> candidate buckets j dim d' -> d = d'.
Proof.
  intros (bj & _ & Hj & _ & _ & ->) (bj' & _ & Hj' & _ & _ & ->).
  congruence.
Qed.

Lemma candidate_nonneg (j dim d : Z) : candidate buckets j dim d -> 0 <= d.
Proof.
  intros (bj & _ & _ & Hlen & Hdim & ->).
  apply rangeOf_nonneg; [exact Hdim|].
  destruct bj; [cbn in Hlen; lia|discriminate].
Qed.

Lemma candidate_dim (j dim d : Z) : candidate buckets j dim d -> 0 <= dim <= 2.
Proof. intros (bj & _ & _ & _ & Hdim & _). exact Hdim. Qed.

Lemma bestUpTo_consider (K i dim d : Z) (st : Best) :
  candidate buckets i dim d -> K = 3 * i + dim ->
  bestUpTo buckets K st -> bestUpTo buckets (K + 1) (consider st i dim d).
Proof.
  intros Hc HK Hinv.
  pose proof (candidate_nonneg _ _ _ Hc) as Hd.
  pose proof (candidate_dim _ _ _ Hc) as Hdim.
  assert (Hsame : forall j dim' d', candidate buckets j dim' d' ->
                    3 * j + dim' = K -> d' = d).
  { intros j dim' d' Hc' Hk. pose proof (candidate_dim _ _ _ Hc').
    assert (j = i) as -> by lia. assert (dim' = dim) as -> by lia.
    exact (candidate_functional _ _ _ _ Hc' Hc). }
  unfold consider. destruct Hinv as [[-> Hnone]|(Hbest & Hlt & Hall)].
  - cbn [maxRange]. destruct (d >? -1) eqn:E; [|lia].
    right. cbn [bestBucketIndex splitDimension maxRange].
    split; [exact Hc|]. split; [lia|].
    intros j dim' d' Hc' Hk. specialize (Hnone _ _ _ Hc').
    rewrite (Hsame _ _ _ Hc') by lia. lia.
  - right. destruct (d >? maxRange st) eqn:E.
    + cbn [bestBucketIndex splitDimension maxRange].
      split; [exact Hc|]. split; [lia|].
      intros j dim' d' Hc' Hk.
      destruct (Z.eq_dec (3 * j + dim') K) as [Heq|Hne].
      * rewrite (Hsame _ _ _ Hc' Heq). lia.
      * destruct (Hall _ _ _ Hc') as [Hle _]; lia.
    + split; [exact Hbest|]. split; [lia|].
      intros j dim' d' Hc' Hk.
      destruct (Z.eq_dec (3 * j + dim') K) as [Heq|Hne].
      * rewrite (Hsame _ _ _ Hc' Heq). lia.
      * apply Hall; [exact Hc'|lia].
Qed.

Lemma bestUpTo_skip (K K' : Z) (st : Best) :
  K <= K' ->
  (forall j dim d, candidate buckets j dim d -> ~ (K <= 3 * j + dim < K')) ->
  bestUpTo buckets K st -> bestUpTo buckets K' st.
Proof.
  intros HK Hnone [[-> Hn]|(Hbest & Hlt & Hall)].
  - left. split; [reflexivity|].
    intros j dim d Hc. specialize (Hn _ _ _ Hc). specialize (Hnone _ _ _ Hc). lia.
  - right. split; [exact Hbest|]. split; [lia|].
    intros j dim d Hc Hk. apply Hall; [exact Hc|].
    specialize (Hnone _ _ _ Hc). lia.
Qed.

Lemma bestUpTo_select_body (i : nat) (bucket : Bucket) (st : Best) :
  buckets !! i = Some bucket ->
  bestUpTo buckets (3 * Z.of_nat i) st ->
  bestUpTo buckets (3 * Z.of_nat (Datatypes.S i))
    (select_body bucket (Z.of_nat i) st).
Proof.
  intros Hi Hinv. rewrite select_body_consider.
  destruct (length bucket <=? 1)%nat eqn:E.
  - apply Nat.leb_le in E.
    apply (bestUpTo_skip (3 * Z.of_nat i)); [lia| |exact Hinv].
    intros j dim d (bj & Hj0 & Hj & Hlen & Hdim & _) Hk.
    assert (Z.to_nat j = i) by lia. subst i.
    assert (bj = bucket) as -> by congruence. lia.
  - apply Nat.leb_gt in E.
    assert (Hc : forall dim, 0 <= dim <= 2 ->
                   candidate buckets (Z.of_nat i) dim (rangeOf dim bucket)).
    { intros dim Hdim. exists bucket.
      rewrite Nat2Z.id. repeat split; try lia. exact Hi. }
    replace (3 * Z.of_nat (Datatypes.S i)) with (3 * Z.of_nat i + 1 + 1 + 1) by lia.
    apply bestUpTo_consider; [apply Hc; lia|lia|].
    apply bestUpTo_consider; [apply Hc; lia|lia|].
    replace (3 * Z.of_nat i) with (3 * Z.of_nat i + 0) at 1 by lia.
    apply bestUpTo_consider; [apply Hc; lia|lia|].
    replace (3 * Z.of_nat i + 0) with (3 * Z.of_nat i) by lia.
    exact Hinv.
Qed.

Lemma bestUpTo_select_loop (rest : list Bucket) :
  forall (pre : list Bucket) (st : Best),
    buckets = pre ++ rest ->
    bestUpTo buckets (3 * Z.of_nat (length pre)) st ->
    bestUpTo buckets (3 * Z.of_nat (length buckets))
      (select_loop rest (Z.of_nat (length pre)) st).
Proof.
  induction rest as [|bucket rest IH]; intros pre st Hb Hinv.
  - cbn. replace (length buckets) with (length pre)
      by (rewrite Hb, app_nil_r; reflexivity).
    exact Hinv.
  - cbn [select_loop].
    replace (Z.of_nat (length pre) + 1) with (Z.of_nat (length (pre ++ [bucket])))
      by (rewrite length_app; cbn; lia).
    apply IH.
    + rewrite <- app_assoc. exact Hb.
    + rewrite length_app. cbn [length].
      replace (length pre + 1)%nat with (Datatypes.S (length pre)) by lia.
      apply bestUpTo_select_body; [|exact Hinv].
      rewrite Hb, lookup_app_r by lia.
      replace (length pre - length pre)%nat with O by lia. reflexivity.
Qed.

Lemma bestUpTo_selectBucket :
  bestUpTo buckets (3 * Z.of_nat (length buckets)) (selectBucket buckets).
Proof.
  apply (bestUpTo_select_loop buckets [] _ eq_refl).
  left. split; [reflexivity|].
  intros j dim d (bj & Hj & _ & _ & Hdim & _). cbn. lia.
Qed.

Lemma candidate_position (j dim d : Z) :
  candidate buckets j dim d -> 3 * j + dim < 3 * Z.of_nat (length buckets).
Proof.
  intros (bj & Hj0 & Hj & _ & Hdim & _).
  apply lookup_lt_Some in Hj. lia.
Qed.

(* Some bucket can be split: the search ends on a candidate. *)
Lemma selectBucket_found :
  existsb (fun b => (1 <? length b)%nat) buckets = true ->
  candidate buckets (bestBucketIndex (selectBucket buckets))
    (splitDimension (selectBucket buckets)) (maxRange (selectBucket buckets)).
Proof.
  intros Hex. destruct bestUpTo_selectBucket as [[_ Hnone]|(Hc & _)]; [|exact Hc].
  exfalso. apply existsb_exists in Hex as (bj & Hin & Hlen).
  apply Nat.ltb_lt in Hlen.
  apply list_elem_of_In, list_elem_of_lookup in Hin as (j & Hj).
  assert (Hc : candidate buckets (Z.of_nat j) 0 (rangeOf 0 bj)).
  { exists bj. rewrite Nat2Z.id. repeat split; try lia. exact Hj. }
  pose proof (Hnone _ _ _ Hc). pose proof (candidate_position _ _ _ Hc). lia.
Qed.
End Selection.

(** ** Median cut: sorting and splitting *)

Lemma sort_insert_perm (dim : Z) (a : Pixel) (l : Bucket) :
  Permutation (sort_insert dim a l) (a :: l).
Proof.
  induction l as [|b l IH]; cbn; [reflexivity|].
  destruct (chan dim b - chan dim a <? 0); [|reflexivity].
  rewrite IH. apply perm_swap.
Qed.

Lemma sortByChannel_perm (dim : Z) (l : Bucket) :
  Permutation (sortByChannel dim l) l.
Proof.
  induction l as [|a l IH]; cbn; [reflexivity|].
  rewrite sort_insert_perm. constructor. exact IH.
Qed.

Lemma sortByChannel_length (dim : Z) (l : Bucket) :
  length (sortByChannel dim l) = length l.
Proof. apply Permutation_length, sortByChannel_perm. Qed.

Lemma sort_insert_hdrel (dim : Z) (a c : Pixel) (l : Bucket) :
  chanLe dim c a -> HdRel (chanLe dim) c l ->
  HdRel (chanLe dim) c (sort_insert dim a l).
Proof.
  intros Hca Hhd. destruct l as [|b l]; cbn; [constructor; exact Hca|].
  inversion Hhd; subst.
  destruct (chan dim b - chan dim a <? 0); constructor; assumption.
Qed.

Lemma sort_insert_sorted (dim : Z) (a : Pixel) (l : Bucket) :
  Sorted (chanLe dim) l -> Sorted (chanLe dim) (sort_insert dim a l).
Proof.
  induction l as [|b l IH]; intros Hs; cbn.
  - repeat constructor.
  - inversion Hs as [|? ? Hs' Hhd]; subst.
    destruct (chan dim b - chan dim a <? 0) eqn:E.
    + apply Z.ltb_lt in E. constructor; [apply IH; exact Hs'|].
      apply sort_insert_hdrel; [unfold chanLe; lia|exact Hhd].
    + apply Z.ltb_ge in E. constructor; [exact Hs|].
      constructor. unfold chanLe. lia.
Qed.

Lemma sortByChannel_sorted (dim : Z) (l : Bucket) :
  Sorted (chanLe dim) (sortByChannel dim l).
Proof.
  induction l as [|a l IH]; cbn; [constructor|].
  apply sort_insert_sorted, IH.
Qed.

Lemma filter_nonempty_id (buckets : list Bucket) :
  Forall (fun b => b <> []) buckets ->
  List.filter (fun bucket => (0 <? length bucket)%nat) buckets = buckets.
Proof.
  induction 1 as [|b l Hb _ IH]; [reflexivity|].
  cbn. destruct b; [congruence|]. cbn. f_equal. exact IH.
Qed.

Lemma filter_nonempty_Forall (buckets : list Bucket) :
  Forall (fun b => b <> [])
    (List.filter (fun bucket => (0 <? length bucket)%nat) buckets).
Proof.
  apply Forall_forall. intros b Hin.
  apply list_elem_of_In, filter_In in Hin as [_ Hlen].
  destruct b; [discriminate|discriminate].
Qed.

(* The split of the bucket at index [k] along [dim]: the two halves of the
   sorted bucket take its place. *)
Lemma splitBucket_halves (buckets : list Bucket) (st : Best) (k : nat) (bk : Bucket) :
  Forall (fun b => b <> []) buckets ->
  bestBucketIndex st = Z.of_nat k ->
  buckets !! k = Some bk ->
  (1 < length bk)%nat ->
  splitBucket buckets st
  = take k buckets
      ++ [take (Nat.div (length bk) 2) (sortByChannel (splitDimension st) bk);
          drop (Nat.div (length bk) 2) (sortByChannel (splitDimension st) bk)]
      ++ drop (Datatypes.S k) buckets.
Proof.
  intros Hne Hk Hbk Hlen. unfold splitBucket.
  rewrite Hk, Nat2Z.id.
  rewrite (nth_lookup_Some _ _ _ _ Hbk), sortByChannel_length.
  apply filter_nonempty_id.
  assert (Hdiv : (1 <= Nat.div (length bk) 2 < length bk)%nat).
  { pose proof (Nat.div_mod_eq (length bk) 2).
    pose proof (Nat.mod_upper_bound (length bk) 2). lia. }
  apply Forall_app. split; [apply Forall_take; exact Hne|].
  apply Forall_app. split; [|apply Forall_drop; exact Hne].
  repeat constructor.
  - intros Hnil. apply (f_equal length) in Hnil.
    rewrite length_take, sortByChannel_length in Hnil.
    change (length (@nil Pixel)) with O in Hnil. lia.
  - intros Hnil. apply (f_equal length) in Hnil.
    rewrite length_drop, sortByChannel_length in Hnil.
    change (length (@nil Pixel)) with O in Hnil. lia.
Qed.

Lemma splitBucket_length (buckets : list Bucket) (st : Best) (k : nat) (bk : Bucket) :
  Forall (fun b => b <> []) buckets ->
  bestBucketIndex st = Z.of_nat k ->
  buckets !! k = Some bk ->
  (1 < length bk)%nat ->
  length (splitBucket buckets st) = Datatypes.S (length buckets).
Proof.
  intros Hne Hk Hbk Hlen.
  rewrite (splitBucket_halves _ _ _ _ Hne Hk Hbk Hlen).
  apply lookup_lt_Some in Hbk.
  rewrite !length_app, length_take, length_drop. cbn [length]. lia.
Qed.

Lemma splitBucket_nonempty (buckets : list Bucket) (st : Best) :
  Forall (fun b => b <> []) (splitBucket buckets st).
Proof. apply filter_nonempty_Forall. Qed.

(** ** Median cut: termination *)

Lemma candidate_lookup (buckets : list Bucket) (j dim d : Z) :
  candidate buckets j dim d ->
  exists k bk, j = Z.of_nat k /\ buckets !! k = Some bk /\ (1 < length bk)%nat.
Proof.
  intros (bj & Hj0 & Hj & Hlen & _). exists (Z.to_nat j), bj.
  repeat split; [lia|exact Hj|exact Hlen].
Qed.

Lemma medianCut_terminates (fuel : nat) :
  forall (numColors : Z) (buckets : list Bucket),
    Forall (fun b => b <> []) buckets ->
    numColors - Z.of_nat (length buckets) <= Z.of_nat fuel ->
    exists result, medianCut fuel numColors buckets = Some result.
Proof.
  induction fuel as [|fuel IH]; intros numColors buckets Hne Hfuel.
  - cbn. destruct (Z.of_nat (length buckets) <? numColors) eqn:E.
    + apply Z.ltb_lt in E. lia.
    + eexists. reflexivity.
  - cbn [medianCut].
    destruct (Z.of_nat (length buckets) <? numColors) eqn:E;
      [|eexists; reflexivity].
    destruct (existsb _ buckets) eqn:Hex; [|eexists; reflexivity].
    cbn [andb].
    destruct (_ || _); [eexists; reflexivity|].
    destruct (candidate_lookup _ _ _ _ (selectBucket_found buckets Hex))
      as (k & bk & Hk & Hbk & Hlen).
    apply IH; [apply splitBucket_nonempty|].
    rewrite (splitBucket_length _ _ _ _ Hne Hk Hbk Hlen). lia.
Qed.

(** ** The size of the generated palette *)

Lemma for_loop_push_length {A : Type} (f : Z -> A) (n : nat) :
  forall (start step : Z) (acc : list A),
    length (for_loop n start step (fun i l => l ++ [f i]) acc)
    = (length acc + n)%nat.
Proof.
  induction n as [|n IH]; intros start step acc; cbn [for_loop]; [lia|].
  rewrite IH, length_app. cbn [length]. lia.
Qed.

Lemma fallbackPalette_length (numColors : Z) :
  length (fallbackPalette numColors) = Z.to_nat numColors.
Proof.
  unfold fallbackPalette.
  rewrite (for_loop_push_length
             (fun i => (fallbackShade numColors i, fallbackShade numColors i,
                        fallbackShade numColors i))).
  reflexivity.
Qed.

Lemma normalizePalette_length (numColors : Z) (generatedPalette : list Pixel) :
  length (normalizePalette numColors generatedPalette) = Z.to_nat numColors.
Proof.
  unfold normalizePalette.
  set (n := Z.to_nat numColors).
  set (padded := match last generatedPalette with
                 | Some c => _
                 | None => generatedPalette
                 end).
  destruct (n <? length padded)%nat eqn:E.
  - apply Nat.ltb_lt in E.
    rewrite length_app, length_replicate, length_take. lia.
  - apply Nat.ltb_ge in E.
    rewrite length_app, length_replicate. lia.
Qed.

Lemma clampNumColors_id (numColors : Z) :
  1 <= numColors <= 256 -> clampNumColors (inject_Z numColors) = numColors.
Proof. intros H. unfold clampNumColors. rewrite Qfloor_Z. lia. Qed.

Lemma samplePixels_nonempty (allPixels : list Pixel) :
  allPixels <> [] -> samplePixels allPixels <> [].
Proof.
  intros Hne. unfold samplePixels.
  destruct (if (_ <? _)%nat then _ else allPixels) as [|p l]; [|discriminate].
  destruct allPixels; [congruence|discriminate].
Qed.

Lemma clampNumColors_range (numColors : Q) : 1 <= clampNumColors numColors <= 256.
Proof. unfold clampNumColors. lia. Qed.

(* Whatever number is passed for [numColors], the function returns a palette
   of as many colours as the clamped count. *)
Lemma generatePalette_length (pixelDataArray : list Z) (numColors : Q) :
  exists palette,
    generatePalette pixelDataArray numColors = Some palette
    /\ Z.of_nat (length palette) = clampNumColors numColors.
Proof.
  unfold generatePalette.
  pose proof (clampNumColors_range numColors) as Hn.
  set (n := clampNumColors numColors) in *.
  destruct (collectOpaque pixelDataArray) as [|p allPixels] eqn:Hall.
  - eexists. split; [reflexivity|].
    rewrite fallbackPalette_length. lia.
  - destruct (medianCut_terminates (Z.to_nat n) n
                [samplePixels (p :: allPixels)]) as [buckets Hcut].
    + repeat constructor. apply samplePixels_nonempty. discriminate.
    + cbn [length]. lia.
    + rewrite Hcut. eexists. split; [reflexivity|].
      rewrite normalizePalette_length. lia.
Qed.

(** C1.  For every pixel buffer (empty or without a pixel of alpha above 128
    included) and every integer [numColors] from 1 to 256, [generatePalette]
    returns a palette, and the palette has exactly [numColors] colours. *)
Theorem generatePalette_size (pixelDataArray : list Z) (numColors : Z) :
  1 <= numColors <= 256 ->
  exists palette,
    generatePalette pixelDataArray (inject_Z numColors) = Some palette
    /\ Z.of_nat (length palette) = numColors.
Proof.
  intros Hn.
  destruct (generatePalette_length pixelDataArray (inject_Z numColors))
    as (palette & Hgen & Hlen).
  exists palette. split; [exact Hgen|].
  rewrite Hlen. apply clampNumColors_id, Hn.
Qed.

Lemma generatePalette_size_witness :
  1 <= 3 <= 256
  /\ exists palette,
       generatePalette [255; 0; 0; 255; 0; 255; 0; 255] (inject_Z 3) = Some palette
       /\ Z.of_nat (length palette) = 3.
Proof.
  assert (H : 1 <= 3 <= 256) by lia.
  split; [exact H|].
  exact (generatePalette_size [255; 0; 0; 255; 0; 255; 0; 255] 3 H).
Defined.

(** ** Median cut: the states of the loop *)

Lemma for_loop_invariant {S : Type} (P : S -> Prop) (body : Z -> S -> S) (n : nat) :
  (forall i s, P s -> P (body i s)) ->
  forall (start step : Z) (s : S), P s -> P (for_loop n start step body s).
Proof.
  intros Hbody. induction n as [|n IH]; intros start step s Hs; cbn [for_loop].
  - exact Hs.
  - apply IH, Hbody, Hs.
Qed.

Lemma collectOpaque_bytes (pixelDataArray : list Z) :
  byteBuffer pixelDataArray -> Forall bytePixel (collectOpaque pixelDataArray).
Proof.
  intros Hbytes. unfold collectOpaque.
  apply for_loop_invariant; [|constructor].
  intros i acc Hacc. unfold collect_body.
  destruct (jslt _ _); [|exact Hacc].
  destruct (pixelDataArray !! Z.to_nat i) as [r|] eqn:Hr; [|exact Hacc].
  destruct (pixelDataArray !! Z.to_nat (i + 1)) as [g|] eqn:Hg; [|exact Hacc].
  destruct (pixelDataArray !! Z.to_nat (i + 2)) as [b|] eqn:Hb; [|exact Hacc].
  apply Forall_app. split; [exact Hacc|].
  unfold byteBuffer in Hbytes. rewrite Forall_lookup in Hbytes.
  repeat constructor; cbn; eapply Hbytes; eassumption.
Qed.

Lemma sample_loop_subset (P : Pixel -> Prop) (allPixels : list Pixel) (step : nat)
    (fuel : nat) :
  Forall P allPixels ->
  forall (i : nat) (acc : list Pixel),
    Forall P acc -> Forall P (sample_loop fuel allPixels step i acc).
Proof.
  intros Hall. induction fuel as [|fuel IH]; intros i acc Hacc; cbn [sample_loop].
  - exact Hacc.
  - destruct (allPixels !! i) as [p|] eqn:Hp; [|exact Hacc].
    assert (Hacc' : Forall P (acc ++ [p])).
    { apply Forall_app. split; [exact Hacc|].
      repeat constructor. rewrite Forall_lookup in Hall. eapply Hall, Hp. }
    destruct (_ <=? _)%nat; [exact Hacc'|]. apply IH, Hacc'.
Qed.

Lemma samplePixels_subset (P : Pixel -> Prop) (allPixels : list Pixel) :
  Forall P allPixels -> Forall P (samplePixels allPixels).
Proof.
  intros Hall. unfold samplePixels.
  set (chosen := if (_ <? _)%nat then _ else allPixels).
  assert (Hchosen : Forall P chosen).
  { subst chosen. destruct (_ <? _)%nat; [|exact Hall].
    apply sample_loop_subset; [exact Hall|constructor]. }
  destruct chosen as [|p l]; [|exact Hchosen].
  destruct allPixels as [|p l]; [constructor|].
  inversion Hall; subst. repeat constructor. assumption.
Qed.

Lemma splitBucket_pixels (P : Pixel -> Prop) (buckets : list Bucket) (st : Best) :
  Forall (Forall P) buckets -> Forall (Forall P) (splitBucket buckets st).
Proof.
  intros Hall. unfold splitBucket.
  set (k := Z.to_nat (bestBucketIndex st)).
  set (sorted := sortByChannel (splitDimension st) (nth k buckets [])).
  assert (Hsorted : Forall P sorted).
  { subst sorted. rewrite sortByChannel_perm.
    destruct (nth_in_or_default k buckets []) as [Hin| ->]; [|constructor].
    rewrite Forall_forall in Hall. apply Hall, list_elem_of_In, Hin. }
  apply Forall_forall. intros b Hb.
  apply list_elem_of_In, filter_In in Hb as [Hb _].
  apply in_app_or in Hb as [Hb|Hb].
  - apply list_elem_of_In in Hb.
    pose proof (Forall_take _ k _ Hall) as Hall'.
    rewrite Forall_forall in Hall'. apply Hall', Hb.
  - apply in_app_or in Hb as [Hb|Hb].
    + destruct Hb as [<-|[<-|[]]].
      * apply Forall_take, Hsorted.
      * apply Forall_drop, Hsorted.
    + apply list_elem_of_In in Hb.
      pose proof (Forall_drop _ (Datatypes.S k) _ Hall) as Hall'.
      rewrite Forall_forall in Hall'. apply Hall', Hb.
Qed.

Lemma loopState_nonempty (pixelDataArray : list Z) (numColors : Z)
    (buckets : list Bucket) :
  loopState pixelDataArray numColors buckets ->
  Forall (fun b => b <> []) buckets.
Proof.
  induction 1 as [Hne|buckets _ _ _ _ _].
  - repeat constructor. apply samplePixels_nonempty, Hne.
  - apply splitBucket_nonempty.
Qed.

Lemma loopState_bytes (pixelDataArray : list Z) (numColors : Z)
    (buckets : list Bucket) :
  byteBuffer pixelDataArray ->
  loopState pixelDataArray numColors buckets ->
  Forall (Forall bytePixel) buckets.
Proof.
  intros Hbytes. induction 1 as [Hne|buckets _ IH _ _ _].
  - repeat constructor. apply samplePixels_subset, collectOpaque_bytes, Hbytes.
  - apply splitBucket_pixels, IH.
Qed.

(* The median cut goes from loop state to loop state. *)
Lemma medianCut_loopState (pixelDataArray : list Z) (numColors : Z) (fuel : nat) :
  forall buckets result : list Bucket,
    loopState pixelDataArray numColors buckets ->
    medianCut fuel numColors buckets = Some result ->
    loopState pixelDataArray numColors result.
Proof.
  induction fuel as [|fuel IH]; intros buckets result Hstate Hcut;
    cbn [medianCut] in Hcut; fold (loopGuard numColors buckets) in Hcut;
    destruct (loopGuard numColors buckets) eqn:Hguard;
    try discriminate Hcut; try (injection Hcut as <-; exact Hstate).
  destruct (_ || _) eqn:Hstop; [injection Hcut as <-; exact Hstate|].
  apply orb_false_iff in Hstop as [Hbest Hrange].
  apply Z.eqb_neq in Hbest, Hrange.
  apply (IH _ _ (loopState_split _ _ _ Hstate Hguard Hbest Hrange) Hcut).
Qed.

Lemma channelRange_unique (dim : Z) (bucket : Bucket) (d d' : Z) :
  channelRange dim bucket d -> channelRange dim bucket d' -> d = d'.
Proof.
  intros (lo & hi & Hlo & Hhi & -> & Hb) (lo' & hi' & Hlo' & Hhi' & -> & Hb').
  pose proof (Hb lo' Hlo'). pose proof (Hb hi' Hhi').
  pose proof (Hb' lo Hlo). pose proof (Hb' hi Hhi). lia.
Qed.

(** C6.  Take any pass of the median-cut loop of [generatePalette], on a
    buffer of bytes: the loop condition holds on the current bucket list.
    Then the search ends on a bucket [bk] at index [k] with more than one
    element and on a channel, and [maxRange] is the range (largest minus
    smallest value) of that channel over [bk].  No channel of any bucket with
    more than one element has a larger range, and every such bucket-channel
    pair compared earlier (a smaller bucket index, or the same bucket and an
    earlier channel in the order R, G, B) has a strictly smaller range.
    The pass stops the loop when that range is 0; otherwise it continues with
    the split bucket list, in which the two halves of [bk], sorted in
    ascending order of the channel and cut at index [length bk / 2], stand in
    the place of [bk]. *)
Theorem medianCut_split_choice (pixelDataArray : list Z) (numColors : Z)
    (buckets : list Bucket) :
  byteBuffer pixelDataArray ->
  loopState pixelDataArray numColors buckets ->
  loopGuard numColors buckets = true ->
  exists (k : nat) (bk : Bucket),
    let st := selectBucket buckets in
    let sorted := sortByChannel (splitDimension st) bk in
    let medianIndex := Nat.div (length bk) 2 in
    bestBucketIndex st = Z.of_nat k
    /\ buckets !! k = Some bk
    /\ (1 < length bk)%nat
    /\ 0 <= splitDimension st <= 2
    /\ channelRange (splitDimension st) bk (maxRange st)
    /\ (forall (j : nat) (bj : Bucket) (dim d : Z),
          buckets !! j = Some bj -> (1 < length bj)%nat -> 0 <= dim <= 2 ->
          channelRange dim bj d ->
          d <= maxRange st
          /\ (visitedBefore (Z.of_nat j) dim (Z.of_nat k) (splitDimension st) ->
              d < maxRange st))
    /\ (forall fuel,
          medianCut (Datatypes.S fuel) numColors buckets
          = if maxRange st =? 0 then Some buckets
            else medianCut fuel numColors (splitBucket buckets st))
    /\ Sorted (chanLe (splitDimension st)) sorted
    /\ Permutation sorted bk
    /\ splitBucket buckets st
       = take k buckets
           ++ [take medianIndex sorted; drop medianIndex sorted]
           ++ drop (Datatypes.S k) buckets.
Proof.
  intros Hbytes Hstate Hguard.
  pose proof (loopState_nonempty _ _ _ Hstate) as Hne.
  pose proof (loopState_bytes _ _ _ Hbytes Hstate) as Hpix.
  unfold loopGuard in Hguard. apply andb_true_iff in Hguard as [Hlt Hex].
  pose proof (selectBucket_found buckets Hex) as Hc.
  pose proof (bestUpTo_selectBucket buckets) as Hbest.
  set (st := selectBucket buckets) in *.
  destruct (candidate_lookup _ _ _ _ Hc) as (k & bk & Hk & Hbk & Hlen).
  exists k, bk. cbv zeta.
  assert (Hrange : forall (j : nat) (bj : Bucket) (dim : Z),
            buckets !! j = Some bj -> (1 < length bj)%nat -> 0 <= dim <= 2 ->
            channelRange dim bj (rangeOf dim bj)
            /\ candidate buckets (Z.of_nat j) dim (rangeOf dim bj)).
  { intros j bj dim Hj Hlenj Hdim. split.
    - apply rangeOf_channelRange; [exact Hdim| |].
      + destruct bj; [cbn in Hlenj; lia|discriminate].
      + rewrite Forall_lookup in Hpix. eapply Hpix, Hj.
    - exists bj. rewrite Nat2Z.id. repeat split; try lia. exact Hj. }
  pose proof (candidate_dim _ _ _ _ Hc) as Hsdim.
  destruct (Hrange k bk (splitDimension st) Hbk Hlen Hsdim) as [Hcr Hck].
  assert (Hmax : maxRange st = rangeOf (splitDimension st) bk).
  { apply (candidate_functional buckets (bestBucketIndex st) (splitDimension st));
      [exact Hc|]. rewrite Hk. exact Hck. }
  split; [exact Hk|]. split; [exact Hbk|]. split; [exact Hlen|].
  split; [exact Hsdim|]. split; [rewrite Hmax; exact Hcr|].
  split; [|split; [|split; [|split]]].
  - intros j bj dim d Hj Hlenj Hdim Hd.
    destruct (Hrange j bj dim Hj Hlenj Hdim) as [Hcrj Hcj].
    rewrite (channelRange_unique _ _ _ _ Hd Hcrj).
    destruct Hbest as [[_ Hnone]|(_ & _ & Hall)].
    + pose proof (Hnone _ _ _ Hc). pose proof (candidate_position _ _ _ _ Hc). lia.
    + destruct (Hall _ _ _ Hcj (candidate_position _ _ _ _ Hcj)) as [Hle Hstrict].
      split; [exact Hle|].
      intros Hvb. apply Hstrict. unfold visitedBefore in Hvb. lia.
  - intros fuel. cbn [medianCut]. rewrite Hlt, Hex. cbn [andb].
    fold st. replace (bestBucketIndex st =? -1) with false
      by (symmetry; apply Z.eqb_neq; lia).
    reflexivity.
  - apply sortByChannel_sorted.
  - apply sortByChannel_perm.
  - apply (splitBucket_halves _ _ _ _ Hne Hk Hbk Hlen).
Qed.

Lemma medianCut_split_choice_witness :
  byteBuffer redGreen
  /\ loopState redGreen 2 [samplePixels (collectOpaque redGreen)]
  /\ loopGuard 2 [samplePixels (collectOpaque redGreen)] = true
  /\ exists (k : nat) (bk : Bucket),
       let buckets := [samplePixels (collectOpaque redGreen)] in
       let st := selectBucket buckets in
       let sorted := sortByChannel (splitDimension st) bk in
       let medianIndex := Nat.div (length bk) 2 in
       bestBucketIndex st = Z.of_nat k
       /\ buckets !! k = Some bk
       /\ (1 < length bk)%nat
       /\ 0 <= splitDimension st <= 2
       /\ channelRange (splitDimension st) bk (maxRange st)
       /\ (forall (j : nat) (bj : Bucket) (dim d : Z),
             buckets !! j = Some bj -> (1 < length bj)%nat -> 0 <= dim <= 2 ->
             channelRange dim bj d ->
             d <= maxRange st
             /\ (visitedBefore (Z.of_nat j) dim (Z.of_nat k) (splitDimension st) ->
                 d < maxRange st))
       /\ (forall fuel,
             medianCut (Datatypes.S fuel) 2 buckets
             = if maxRange st =? 0 then Some buckets
               else medianCut fuel 2 (splitBucket buckets st))
       /\ Sorted (chanLe (splitDimension st)) sorted
       /\ Permutation sorted bk
       /\ splitBucket buckets st
          = take k buckets
              ++ [take medianIndex sorted; drop medianIndex sorted]
              ++ drop (Datatypes.S k) buckets.
Proof.
  assert (Hbytes : byteBuffer redGreen) by (repeat constructor; lia).
  assert (Hstate : loopState redGreen 2 [samplePixels (collectOpaque redGreen)])
    by (constructor; vm_compute; discriminate).
  assert (Hguard : loopGuard 2 [samplePixels (collectOpaque redGreen)] = true)
    by (vm_compute; reflexivity).
  split; [exact Hbytes|]. split; [exact Hstate|]. split; [exact Hguard|].
  exact (medianCut_split_choice redGreen 2 _ Hbytes Hstate Hguard).
Defined.

(** ** Loops over the pixels *)

Lemma for_loop_snoc {S : Type} (body : Z -> S -> S) (step : Z) (n : nat) :
  forall (start : Z) (s : S),
    for_loop (Datatypes.S n) start step body s
    = body (start + Z.of_nat n * step) (for_loop n start step body s).
Proof.
  induction n as [|n IH]; intros start s.
  - cbn. f_equal. lia.
  - change (for_loop (Datatypes.S (Datatypes.S n)) start step body s)
      with (for_loop (Datatypes.S n) (start + step) step body (body start s)).
    rewrite IH. cbn [for_loop]. f_equal. lia.
Qed.

Lemma for_loop_upTo {S : Type} (body : Z -> S -> S) (start step : Z) (n : nat) (s : S) :
  for_loop n start step body s = upTo n (fun p => body (start + p * step)) s.
Proof.
  induction n as [|n IH]; [reflexivity|].
  rewrite for_loop_snoc, IH. reflexivity.
Qed.

Lemma upTo_ext {S : Type} (f g : Z -> S -> S) (n : nat) (s : S) :
  (forall p s', 0 <= p < Z.of_nat n -> f p s' = g p s') ->
  upTo n f s = upTo n g s.
Proof.
  induction n as [|n IH]; intros Hfg; [reflexivity|].
  cbn [upTo]. rewrite IH by (intros; apply Hfg; lia).
  apply Hfg. lia.
Qed.

Lemma upTo_add {S : Type} (f : Z -> S -> S) (a b : nat) (s : S) :
  upTo (a + b) f s = upTo b (fun p => f (Z.of_nat a + p)) (upTo a f s).
Proof.
  induction b as [|b IH].
  - rewrite Nat.add_0_r. reflexivity.
  - rewrite Nat.add_succ_r. cbn [upTo]. rewrite IH. f_equal. lia.
Qed.

(* The two nested loops over the rows and the columns visit the pixels in
   the order of their index [p = y * width + x]. *)
Lemma nested_loops_upTo {S : Type} (body : Z -> Z -> S -> S) (w h : nat) (s : S) :
  (0 < w)%nat ->
  for_loop h 0 1 (fun y => for_loop w 0 1 (body y)) s
  = upTo (h * w) (fun p => body (p / Z.of_nat w) (p mod Z.of_nat w)) s.
Proof.
  intros Hw. induction h as [|h IH]; [reflexivity|].
  rewrite for_loop_snoc, IH, for_loop_upTo.
  replace (Datatypes.S h * w)%nat with (h * w + w)%nat by lia.
  rewrite upTo_add. apply upTo_ext. intros p s' Hp.
  replace (0 + Z.of_nat h * 1) with (Z.of_nat h) by lia.
  replace (0 + p * 1) with p by lia.
  replace (Z.of_nat (h * w) + p) with (p + Z.of_nat h * Z.of_nat w) by lia.
  rewrite Z.div_add, Z.mod_add by lia.
  rewrite Z.div_small, Z.mod_small by lia.
  reflexivity.
Qed.

Lemma nested_loops_no_columns {S : Type} (body : Z -> Z -> S -> S) (h : nat) (s : S) :
  for_loop h 0 1 (fun y => for_loop O 0 1 (body y)) s = s.
Proof.
  generalize 0 at 1. induction h as [|h IH]; intros start; [reflexivity|].
  cbn [for_loop]. apply IH.
Qed.

Lemma u8set_length (a : list Z) (i : Z) (v : jsnum) :
  length (u8set a i v) = length a.
Proof. unfold u8set. destruct (i <? 0); [reflexivity|apply length_insert]. Qed.

Lemma u8set_lookup_eq (a : list Z) (i : Z) (v : jsnum) (j : nat) :
  Z.of_nat j = i -> (j < length a)%nat ->
  u8set a i v !! j = Some (toUint8Clamp v).
Proof.
  intros Hj Hlen. unfold u8set.
  destruct (i <? 0) eqn:E; [apply Z.ltb_lt in E; lia|].
  replace (Z.to_nat i) with j by lia.
  apply list_lookup_insert_eq, Hlen.
Qed.

Lemma u8set_lookup_ne (a : list Z) (i : Z) (v : jsnum) (j : nat) :
  Z.of_nat j <> i -> u8set a i v !! j = a !! j.
Proof.
  intros Hj. unfold u8set.
  destruct (i <? 0) eqn:E; [reflexivity|]. apply Z.ltb_ge in E.
  apply list_lookup_insert_ne. lia.
Qed.

Lemma quadWrite_length (a : list Z) (i : Z) (q : Quad) :
  length (quadWrite a i q) = length a.
Proof. unfold quadWrite. rewrite !u8set_length. reflexivity. Qed.

Lemma quadWrite_lookup_in (a : list Z) (i : Z) (q : Quad) (j : nat) :
  (j < length a)%nat -> i <= Z.of_nat j <= i + 3 ->
  quadWrite a i q !! j = Some (toUint8Clamp (quadAt (Z.of_nat j - i) q)).
Proof.
  intros Hlen Hj. unfold quadWrite, quadAt. cbv zeta.
  destruct (Z.eq_dec (Z.of_nat j) (i + 3)) as [E3|N3].
  { rewrite u8set_lookup_eq by (rewrite ?u8set_length; lia).
    replace (Z.of_nat j - i) with 3 by lia. reflexivity. }
  rewrite u8set_lookup_ne by lia.
  destruct (Z.eq_dec (Z.of_nat j) (i + 2)) as [E2|N2].
  { rewrite u8set_lookup_eq by (rewrite ?u8set_length; lia).
    replace (Z.of_nat j - i) with 2 by lia. reflexivity. }
  rewrite u8set_lookup_ne by lia.
  destruct (Z.eq_dec (Z.of_nat j) (i + 1)) as [E1|N1].
  { rewrite u8set_lookup_eq by (rewrite ?u8set_length; lia).
    replace (Z.of_nat j - i) with 1 by lia. reflexivity. }
  rewrite u8set_lookup_ne by lia.
  rewrite u8set_lookup_eq by lia.
  replace (Z.of_nat j - i) with 0 by lia. reflexivity.
Qed.

Lemma quadWrite_lookup_out (a : list Z) (i : Z) (q : Quad) (j : nat) :
  ~ (i <= Z.of_nat j <= i + 3) -> quadWrite a i q !! j = a !! j.
Proof.
  intros Hj. unfold quadWrite. cbv zeta.
  rewrite !u8set_lookup_ne by lia. reflexivity.
Qed.

(* A loop whose pass [p] stores a quadruple at offset [4 p]: the cell [j]
   holds what pass [j / 4] stored there. *)
Lemma quadLoop_lookup (quad : Z -> Quad) (a0 : list Z) (n : nat) :
  let out := upTo n (fun p a => quadWrite a (4 * p) (quad p)) a0 in
  length out = length a0
  /\ forall j : nat, (j < length a0)%nat ->
       out !! j
       = if Z.of_nat j / 4 <? Z.of_nat n
         then Some (toUint8Clamp
                      (quadAt (Z.of_nat j mod 4) (quad (Z.of_nat j / 4))))
         else a0 !! j.
Proof.
  induction n as [|n [IHlen IH]]; cbv zeta.
  - split; [reflexivity|]. intros j Hj.
    destruct (_ <? _) eqn:E; [|reflexivity].
    apply Z.ltb_lt in E. pose proof (Z.div_pos (Z.of_nat j) 4). lia.
  - cbn [upTo]. split; [rewrite quadWrite_length; exact IHlen|].
    intros j Hj.
    pose proof (Z.div_mod (Z.of_nat j) 4 ltac:(lia)) as Hdm.
    pose proof (Z.mod_pos_bound (Z.of_nat j) 4 ltac:(lia)) as Hmod.
    destruct (Z.eq_dec (Z.of_nat j / 4) (Z.of_nat n)) as [Heq|Hneq].
    + rewrite quadWrite_lookup_in by lia.
      destruct (_ <? _) eqn:E; [|apply Z.ltb_ge in E; lia].
      rewrite Heq. do 3 f_equal. lia.
    + rewrite quadWrite_lookup_out by lia.
      rewrite (IH j Hj).
      destruct (Z.of_nat j / 4 <? Z.of_nat n) eqn:E1;
        destruct (Z.of_nat j / 4 <? Z.of_nat (Datatypes.S n)) eqn:E2;
        try reflexivity.
      * apply Z.ltb_lt in E1. apply Z.ltb_ge in E2. lia.
      * apply Z.ltb_ge in E1. apply Z.ltb_lt in E2. lia.
Qed.

(** ** What [applyPalette] and [applyBayerDithering] store *)

Lemma applyPalette_body_quad (pixelDataArray : list Z) (palette : jsPalette)
    (i : Z) (newData : list Z) :
  applyPalette_body pixelDataArray palette i newData
  = quadWrite newData i (paletteQuad pixelDataArray palette i).
Proof.
  unfold applyPalette_body, paletteQuad, quadWrite.
  destruct (jseq _ _); reflexivity.
Qed.

Lemma bayer_body_quad (pixelDataArray : list Z) (width : Z)
    (targetPalette : jsPalette) (bayerMatrix : list (list Z)) (matrixSize : Z)
    (strengthFactor : jsnum) (y x : Z) (newData : list Z) :
  bayer_body pixelDataArray width targetPalette bayerMatrix matrixSize
    strengthFactor y x newData
  = quadWrite newData ((y * width + x) * 4)
      (bayerQuad pixelDataArray width targetPalette bayerMatrix matrixSize
         strengthFactor y x).
Proof.
  unfold bayer_body, bayerQuad, quadWrite.
  destruct (jseq _ _); reflexivity.
Qed.

Lemma strides4_covers (len j : nat) :
  (j < len)%nat -> Z.of_nat j / 4 < Z.of_nat (strides4 len).
Proof.
  intros Hj. unfold strides4.
  rewrite Nat2Z.inj_div, Nat2Z.inj_add.
  apply Z.div_lt_upper_bound; [lia|].
  pose proof (Z.div_mod (Z.of_nat len + Z.of_nat 3) (Z.of_nat 4) ltac:(lia)).
  pose proof (Z.mod_pos_bound (Z.of_nat len + Z.of_nat 3) (Z.of_nat 4) ltac:(lia)).
  lia.
Qed.

(* The loop of [applyPalette], on any initial output buffer as long as the
   input. *)
Lemma paletteLoop_lookup (pixelDataArray : list Z) (palette : jsPalette)
    (newData : list Z) :
  length newData = length pixelDataArray ->
  let out := for_loop (strides4 (length pixelDataArray)) 0 4
               (applyPalette_body pixelDataArray palette) newData in
  length out = length pixelDataArray
  /\ forall j : nat, (j < length pixelDataArray)%nat ->
       out !! j
       = Some (toUint8Clamp
                 (quadAt (Z.of_nat j mod 4)
                    (paletteQuad pixelDataArray palette (4 * (Z.of_nat j / 4))))).
Proof.
  intros Hlen out. subst out.
  rewrite for_loop_upTo.
  rewrite (upTo_ext _
             (fun p a => quadWrite a (4 * p)
                           (paletteQuad pixelDataArray palette (4 * p))))
    by (intros p a _; rewrite applyPalette_body_quad; do 2 f_equal; lia).
  destruct (quadLoop_lookup
              (fun p => paletteQuad pixelDataArray palette (4 * p))
              newData (strides4 (length pixelDataArray))) as [Hl Hlook].
  split; [lia|]. intros j Hj.
  rewrite Hlook by lia.
  pose proof (strides4_covers _ _ Hj) as Hcov.
  destruct (_ <? _) eqn:E; [reflexivity|apply Z.ltb_ge in E; lia].
Qed.

Lemma applyPalette_lookup (pixelDataArray : list Z) (palette : jsPalette) :
  nonEmpty palette ->
  length (applyPalette pixelDataArray palette) = length pixelDataArray
  /\ forall j : nat, (j < length pixelDataArray)%nat ->
       applyPalette pixelDataArray palette !! j
       = Some (toUint8Clamp
                 (quadAt (Z.of_nat j mod 4)
                    (paletteQuad pixelDataArray palette (4 * (Z.of_nat j / 4))))).
Proof.
  intros (e & entries & ->). unfold applyPalette.
  apply paletteLoop_lookup, length_replicate.
Qed.

Lemma bayerLoop_lookup (pixelDataArray : list Z) (width height : Z)
    (targetPalette : jsPalette) (bayerMatrix : list (list Z)) (matrixSize : Z)
    (strengthFactor : jsnum) (newData : list Z) :
  0 < width ->
  let out := for_loop (upto height) 0 1
               (fun y => for_loop (upto width) 0 1
                           (bayer_body pixelDataArray width targetPalette
                              bayerMatrix matrixSize strengthFactor y))
               newData in
  length out = length newData
  /\ forall j : nat, (j < length newData)%nat ->
       out !! j
       = if Z.of_nat j / 4 <? Z.of_nat (upto height * upto width)
         then Some (toUint8Clamp
                      (quadAt (Z.of_nat j mod 4)
                         (bayerQuad pixelDataArray width targetPalette
                            bayerMatrix matrixSize strengthFactor
                            (Z.of_nat j / 4 / width) ((Z.of_nat j / 4) mod width))))
         else newData !! j.
Proof.
  intros Hw out.
  assert (Hout : out
            = upTo (upto height * upto width)
                (fun p a => quadWrite a (4 * p)
                   (bayerQuad pixelDataArray width targetPalette bayerMatrix
                      matrixSize strengthFactor (p / width) (p mod width)))
                newData).
  { subst out. rewrite nested_loops_upTo by (unfold upto; lia).
    apply upTo_ext. intros p a _.
    unfold upto. rewrite Z2Nat.id by lia.
    rewrite bayer_body_quad. f_equal.
    pose proof (Z.div_mod p width ltac:(lia)). lia. }
  rewrite Hout.
  apply (quadLoop_lookup
           (fun p => bayerQuad pixelDataArray width targetPalette bayerMatrix
                       matrixSize strengthFactor (p / width) (p mod width))).
Qed.

Lemma jseq_jsZ (a b : Z) : jseq (jsZ a) (jsZ b) = (a =? b).
Proof.
  unfold jseq, jsZ. destruct (a =? b) eqn:E.
  - apply Z.eqb_eq in E. subst. apply Qeq_bool_iff. reflexivity.
  - apply Z.eqb_neq in E. destruct (Qeq_bool _ _) eqn:Eq; [|reflexivity].
    apply Qeq_bool_iff in Eq. unfold Qeq in Eq. cbn in Eq. lia.
Qed.

Lemma u8get_Some (a : list Z) (i : Z) (v : Z) :
  0 <= i -> a !! Z.to_nat i = Some v -> u8get a i = jsZ v.
Proof.
  intros Hi Hv. unfold u8get.
  destruct (i <? 0) eqn:E; [apply Z.ltb_lt in E; lia|].
  rewrite Hv. reflexivity.
Qed.



Lemma jseq_pos_zero (s : Q) : (0 < s)%Q -> jseq (Num s) (jsZ 0) = false.
Proof.
  intros Hs. cbn. destruct (Qeq_bool s (inject_Z 0)) eqn:E; [|reflexivity].
  apply Qeq_bool_iff in E. rewrite E in Hs. discriminate Hs.
Qed.

Lemma mod4_cell (k c : Z) : 0 <= c <= 3 -> (4 * k + c) mod 4 = c.
Proof.
  intros Hc. replace (4 * k + c) with (c + k * 4) by lia.
  rewrite Z.mod_add by lia. apply Z.mod_small. lia.
Qed.

Lemma pixel_index (width height x y c : Z) :
  0 <= x < width -> 0 <= y < height -> 0 <= c <= 3 ->
  let j := Z.to_nat ((y * width + x) * 4 + c) in
  Z.of_nat j / 4 = y * width + x
  /\ Z.of_nat j mod 4 = c
  /\ (y * width + x) / width = y
  /\ (y * width + x) mod width = x
  /\ y * width + x < Z.of_nat (upto height * upto width).
Proof.
  intros Hx Hy Hc j. subst j.
  assert (0 <= y * width + x) by nia.
  rewrite Z2Nat.id by lia.
  replace ((y * width + x) * 4 + c) with (c + (y * width + x) * 4) by lia.
  rewrite Z.div_add, Z.mod_add by lia.
  rewrite (Z.div_small c 4), (Z.mod_small c 4) by lia.
  replace (y * width + x) with (x + y * width) by lia.
  rewrite Z.div_add, Z.mod_add by lia.
  rewrite (Z.div_small x width), (Z.mod_small x width) by lia.
  repeat split; try lia.
  unfold upto. rewrite Nat2Z.inj_mul, !Z2Nat.id by lia. nia.
Qed.

(* What the dithering branch of [applyBayerDithering] stores in the cell
   [c] of the pixel at column [x] of row [y]. *)
Lemma applyBayerDithering_cell (pixelDataArray : list Z) (width height : Z)
    (targetPalette : jsPalette) (strengthPercent : jsnum) (x y c : Z) :
  nonEmpty targetPalette ->
  jseq (clampStrength strengthPercent) (jsZ 0) = false ->
  0 <= x < width -> 0 <= y < height -> 0 <= c <= 3 ->
  (Z.to_nat ((y * width + x) * 4 + c) < length pixelDataArray)%nat ->
  applyBayerDithering pixelDataArray width height targetPalette strengthPercent
    !! Z.to_nat ((y * width + x) * 4 + c)
  = Some (toUint8Clamp
            (quadAt c
               (bayerQuad pixelDataArray width targetPalette
                  (selectMatrix (clampStrength strengthPercent)).1
                  (selectMatrix (clampStrength strengthPercent)).2
                  (clampStrength strengthPercent / jsZ 100)%js y x))).
Proof.
  intros (e & entries & ->) Hs Hx Hy Hc Hlen.
  unfold applyBayerDithering.
  destruct pixelDataArray as [|v pixels] eqn:Hpx; [cbn in Hlen; lia|].
  rewrite <- Hpx in *. clear Hpx v pixels.
  rewrite Hs.
  destruct (selectMatrix (clampStrength strengthPercent))
    as [bayerMatrix matrixSize]. cbn [fst snd].
  destruct (bayerLoop_lookup pixelDataArray width height (Entries (e :: entries))
              bayerMatrix matrixSize (clampStrength strengthPercent / jsZ 100)%js
              (replicate (length pixelDataArray) 0) ltac:(lia)) as [_ Hlook].
  rewrite Hlook by (rewrite length_replicate; exact Hlen).
  destruct (pixel_index width height x y c Hx Hy Hc) as (Hdiv & Hmod & Hy' & Hx' & Hlt).
  rewrite Hdiv, Hmod, Hy', Hx'.
  destruct (_ <? _) eqn:E; [reflexivity|apply Z.ltb_ge in E; lia].
Qed.

(** ** Matching against a palette of bytes *)

Lemma colorOfPixel_fin (p : Pixel) :
  colorOfPixel p = fin (inject_Z p.1.1, inject_Z p.1.2, inject_Z p.2).
Proof. reflexivity. Qed.

Lemma toUint8Clamp_byte (z : Z) : 0 <= z <= 255 -> toUint8Clamp (jsZ z) = z.
Proof.
  intros Hz. unfold toUint8Clamp, jsZ.
  destruct (Qle_bool (inject_Z z) 0) eqn:E0.
  { apply Qle_bool_iff in E0. unfold Qle in E0. cbn in E0. lia. }
  destruct (Qle_bool 255 (inject_Z z)) eqn:E1.
  { apply Qle_bool_iff in E1. unfold Qle in E1. cbn in E1. lia. }
  rewrite Qfloor_Z.
  destruct (Qltb (inject_Z z + (1 # 2)) (inject_Z z)) eqn:E2.
  { apply Qltb_lt in E2. unfold Qlt in E2. cbn in E2. lia. }
  destruct (Qltb (inject_Z z) (inject_Z z + (1 # 2))) eqn:E3; [reflexivity|].
  apply Qltb_ge in E3. unfold Qle in E3. cbn in E3. lia.
Qed.

Lemma toUint8Clamp_range (v : jsnum) : 0 <= toUint8Clamp v <= 255.
Proof.
  destruct v as [|q]; cbn; [lia|].
  destruct (Qle_bool q 0) eqn:E0; [lia|].
  destruct (Qle_bool 255 q) eqn:E1; [lia|].
  assert (H0 : (0 < q)%Q).
  { apply Qnot_le_lt. intros H. apply Qle_bool_iff in H. congruence. }
  assert (H1 : (q < 255)%Q).
  { apply Qnot_le_lt. intros H. apply Qle_bool_iff in H. congruence. }
  assert (Hf0 : 0 <= Qfloor q).
  { change 0 with (Qfloor 0). apply Qfloor_resp_le, Qlt_le_weak, H0. }
  assert (Hf1 : Qfloor q < 255).
  { rewrite Zlt_Qlt. eapply Qle_lt_trans; [apply Qfloor_le|exact H1]. }
  repeat destruct (Qltb _ _); try destruct (Z.even _); lia.
Qed.

(* A store keeps the buffer a buffer of bytes. *)
Lemma u8set_bytes (a : list Z) (i : Z) (v : jsnum) :
  byteBuffer a -> byteBuffer (u8set a i v).
Proof.
  intros Ha. unfold u8set. destruct (i <? 0); [exact Ha|].
  apply Forall_insert; [exact Ha|apply toUint8Clamp_range].
Qed.

Lemma closest_loop_preserves (P : Color -> Prop) (r g b : jsnum)
    (rest : list PaletteEntry) :
  Forall (fun e => match e with Triple c => P c | Malformed => True end) rest ->
  forall (minDistance : jsnum) (closestColor : Color),
    P closestColor -> P (closest_loop r g b rest minDistance closestColor).
Proof.
  induction 1 as [|e rest He _ IH]; intros m c Hc; cbn [closest_loop].
  - exact Hc.
  - destruct e as [color|]; [|apply IH, Hc].
    destruct (jslt _ m); apply IH; assumption.
Qed.

Lemma byteColor_black : byteColor (jsZ 0, jsZ 0, jsZ 0).
Proof. exists (0, 0, 0). split; [repeat split; cbn; lia|reflexivity]. Qed.

Lemma firstColor_byte (e : PaletteEntry) : byteEntry e -> byteColor (firstColor e).
Proof. destruct e; cbn; [auto|intros _; apply byteColor_black]. Qed.

(* The matcher returns a byte colour on a palette of byte colours. *)
Lemma findClosestPaletteColor_byte (r g b : jsnum) (e : PaletteEntry)
    (entries : list PaletteEntry) :
  Forall byteEntry (e :: entries) ->
  byteColor (findClosestPaletteColor r g b (Entries (e :: entries))).
Proof.
  intros Hall. apply Forall_cons in Hall as [He Hes].
  unfold findClosestPaletteColor. fold (firstColor e).
  apply closest_loop_preserves; [exact Hes|apply firstColor_byte, He].
Qed.

Lemma colorDistanceSquared_NaN (r g : jsnum) (c : Color) :
  colorDistanceSquared r g NaN (chR c) (chG c) (chB c) = NaN.
Proof.
  destruct c as [[cr cg] cb]. unfold colorDistanceSquared, chR, chG, chB. cbn.
  destruct r, g, cr, cg, cb; reflexivity.
Qed.

Lemma jslt_NaN_l (a : jsnum) : jslt NaN a = false.
Proof. reflexivity. Qed.

Lemma closest_loop_NaN (r g : jsnum) (rest : list PaletteEntry) :
  forall (minDistance : jsnum) (closestColor : Color),
    closest_loop r g NaN rest minDistance closestColor = closestColor.
Proof.
  induction rest as [|e rest IH]; intros m c; cbn [closest_loop]; [reflexivity|].
  destruct e as [color|]; [|apply IH].
  rewrite colorDistanceSquared_NaN, jslt_NaN_l. apply IH.
Qed.

(* With an undefined blue value every distance is NaN and no entry replaces
   the first colour. *)
Lemma findClosestPaletteColor_NaN (r g : jsnum) (e : PaletteEntry)
    (entries : list PaletteEntry) :
  findClosestPaletteColor r g NaN (Entries (e :: entries)) = firstColor e.
Proof. unfold findClosestPaletteColor. fold (firstColor e). apply closest_loop_NaN. Qed.

Lemma Triple_colorOfPixel_inj (p p' : Pixel) :
  Triple (colorOfPixel p) = Triple (colorOfPixel p') -> p = p'.
Proof.
  destruct p as [[a b] c], p' as [[a' b'] c']. unfold colorOfPixel, jsZ, inject_Z.
  cbn. intros H. injection H as -> -> ->. reflexivity.
Qed.

(* The distance of the returned colour is at most the starting distance and
   at most the distance of every well-formed entry visited. *)
Lemma closest_loop_least (r g b : Q) (rest : list PaletteEntry) :
  Forall byteEntry rest ->
  forall q : Q * Q * Q,
  exists q' : Q * Q * Q,
    closest_loop (Num r) (Num g) (Num b) rest (Num (sqDist r g b q)) (fin q)
    = fin q'
    /\ (sqDist r g b q' <= sqDist r g b q)%Q
    /\ forall p, In (Triple (colorOfPixel p)) rest ->
         (sqDist r g b q'
          <= sqDist r g b (inject_Z p.1.1, inject_Z p.1.2, inject_Z p.2))%Q.
Proof.
  induction 1 as [|e rest He _ IH]; intros q; cbn [closest_loop].
  - exists q. split; [reflexivity|]. split; [apply Qle_refl|]. intros p [].
  - destruct e as [color|].
    + destruct He as (pe & _ & ->).
      set (qe := (inject_Z pe.1.1, inject_Z pe.1.2, inject_Z pe.2)).
      change (colorOfPixel pe) with (fin qe) at 1 2 3 4.
      rewrite colorDistanceSquared_fin. cbn [jslt].
      destruct (Qltb (sqDist r g b qe) (sqDist r g b q)) eqn:E.
      * apply Qltb_lt in E. destruct (IH qe) as (q' & Hres & Hle & Hall).
        exists q'. split; [exact Hres|].
        split; [eapply Qle_trans; [exact Hle|apply Qlt_le_weak, E]|].
        intros p [Hp|Hp]; [|apply Hall, Hp].
        apply Triple_colorOfPixel_inj in Hp as <-. exact Hle.
      * apply Qltb_ge in E. destruct (IH q) as (q' & Hres & Hle & Hall).
        exists q'. split; [exact Hres|]. split; [exact Hle|].
        intros p [Hp|Hp]; [|apply Hall, Hp].
        apply Triple_colorOfPixel_inj in Hp as <-.
        eapply Qle_trans; [exact Hle|exact E].
    + destruct (IH q) as (q' & Hres & Hle & Hall).
      exists q'. split; [exact Hres|]. split; [exact Hle|].
      intros p [Hp|Hp]; [discriminate|apply Hall, Hp].
Qed.

Lemma sqDist_integers (a b c a' b' c' : Z) :
  (sqDist (inject_Z a) (inject_Z b) (inject_Z c)
     (inject_Z a', inject_Z b', inject_Z c')
   == inject_Z ((a - a') * (a - a') + (b - b') * (b - b') + (c - c') * (c - c')))%Q.
Proof.
  unfold sqDist. cbn [fst snd].
  rewrite !inject_Z_plus, !inject_Z_mult. unfold Z.sub.
  rewrite !inject_Z_plus, !inject_Z_opp. ring.
Qed.

Lemma sqDist_same (p : Pixel) :
  (sqDist (inject_Z p.1.1) (inject_Z p.1.2) (inject_Z p.2)
     (inject_Z p.1.1, inject_Z p.1.2, inject_Z p.2) == 0)%Q.
Proof. rewrite sqDist_integers. apply inject_Z_injective. lia. Qed.

Lemma sqDist_zero_integers (p p' : Pixel) :
  (sqDist (inject_Z p.1.1) (inject_Z p.1.2) (inject_Z p.2)
     (inject_Z p'.1.1, inject_Z p'.1.2, inject_Z p'.2) <= 0)%Q ->
  p = p'.
Proof.
  rewrite sqDist_integers. intros H.
  change 0%Q with (inject_Z 0) in H. rewrite <- Zle_Qle in H.
  destruct p as [[a b] c], p' as [[a' b'] c']. cbn [fst snd] in H.
  pose proof (Z.square_nonneg (a - a')) as Ha.
  pose proof (Z.square_nonneg (b - b')) as Hb.
  pose proof (Z.square_nonneg (c - c')) as Hc.
  assert (Ha0 : (a - a') * (a - a') = 0) by lia.
  assert (Hb0 : (b - b') * (b - b') = 0) by lia.
  assert (Hc0 : (c - c') * (c - c') = 0) by lia.
  apply Z.mul_eq_0 in Ha0, Hb0, Hc0.
  assert (a = a') as -> by lia. assert (b = b') as -> by lia.
  assert (c = c') as -> by lia. reflexivity.
Qed.

Lemma findClosestPaletteColor_member (r g b : jsnum) (e : PaletteEntry)
    (entries : list PaletteEntry) :
  let c := findClosestPaletteColor r g b (Entries (e :: entries)) in
  c = firstColor e \/ In (Triple c) entries.
Proof.
  cbv zeta. unfold findClosestPaletteColor. fold (firstColor e).
  apply (closest_loop_preserves
           (fun c => c = firstColor e \/ In (Triple c) entries)).
  - apply Forall_forall. intros [c|] Hin; [|exact I].
    right. apply list_elem_of_In, Hin.
  - left. reflexivity.
Qed.

(* A byte colour of the palette is its own nearest colour. *)
Lemma findClosestPaletteColor_fixed (e : PaletteEntry) (entries : list PaletteEntry)
    (p : Pixel) :
  Forall byteEntry (e :: entries) ->
  colorOfPixel p = firstColor e \/ In (Triple (colorOfPixel p)) entries ->
  findClosestPaletteColor (jsZ p.1.1) (jsZ p.1.2) (jsZ p.2) (Entries (e :: entries))
  = colorOfPixel p.
Proof.
  intros Hall Hin.
  pose proof (findClosestPaletteColor_byte (jsZ p.1.1) (jsZ p.1.2) (jsZ p.2)
                e entries Hall) as (p' & _ & Hp').
  rewrite Hp'. f_equal. symmetry. apply sqDist_zero_integers.
  apply Forall_cons in Hall as [He Hes].
  destruct (firstColor_byte e He) as (p0 & _ & Hp0).
  destruct (closest_loop_least (inject_Z p.1.1) (inject_Z p.1.2) (inject_Z p.2)
              entries Hes (inject_Z p0.1.1, inject_Z p0.1.2, inject_Z p0.2))
    as (q' & Hres & Hle & Hmin).
  assert (Hq' : fin q' = colorOfPixel p').
  { rewrite <- Hp', <- Hres. unfold findClosestPaletteColor.
    fold (firstColor e). rewrite Hp0. reflexivity. }
  rewrite colorOfPixel_fin in Hq'. apply fin_inj in Hq'. subst q'.
  destruct Hin as [Hfirst|Hmem].
  - rewrite Hp0 in Hfirst.
    assert (p = p0) as <-.
    { apply Triple_colorOfPixel_inj. congruence. }
    rewrite sqDist_same in Hle. exact Hle.
  - rewrite <- (sqDist_same p). apply Hmin, Hmem.
Qed.

(** ** Applying a palette twice *)

Lemma paletteQuad_quadOf (pixelDataArray : list Z) (palette : jsPalette) (i : Z) :
  paletteQuad pixelDataArray palette i
  = quadOf palette (u8get pixelDataArray i) (u8get pixelDataArray (i + 1))
      (u8get pixelDataArray (i + 2)) (u8get pixelDataArray (i + 3)).
Proof. reflexivity. Qed.

Lemma quadOf_matched (e : PaletteEntry) (entries : list PaletteEntry)
    (r g b : Z) (a : jsnum) :
  Forall byteEntry (e :: entries) ->
  jseq a (jsZ 0) = false ->
  exists p,
    bytePixel p
    /\ quadOf (Entries (e :: entries)) (jsZ r) (jsZ g) (jsZ b) a
       = (jsZ p.1.1, jsZ p.1.2, jsZ p.2, a)
    /\ quadOf (Entries (e :: entries)) (jsZ p.1.1) (jsZ p.1.2) (jsZ p.2) a
       = (jsZ p.1.1, jsZ p.1.2, jsZ p.2, a).
Proof.
  intros Hall Ha.
  destruct (findClosestPaletteColor_byte (jsZ r) (jsZ g) (jsZ b) e entries Hall)
    as (p & Hp & Hc).
  pose proof (findClosestPaletteColor_member (jsZ r) (jsZ g) (jsZ b) e entries)
    as Hmem. cbv zeta in Hmem. rewrite Hc in Hmem.
  exists p. split; [exact Hp|]. unfold quadOf. rewrite Ha, Hc.
  rewrite (findClosestPaletteColor_fixed e entries p Hall Hmem).
  split; reflexivity.
Qed.

Lemma reread_stored (v : Z) (stored : jsnum) :
  reread (jsZ v) stored = jsZ (toUint8Clamp stored).
Proof. reflexivity. Qed.

Lemma quadAt_tuple (q0 q1 q2 q3 : jsnum) :
  quadAt 0 (q0, q1, q2, q3) = q0 /\ quadAt 1 (q0, q1, q2, q3) = q1
  /\ quadAt 2 (q0, q1, q2, q3) = q2 /\ quadAt 3 (q0, q1, q2, q3) = q3.
Proof. repeat split. Qed.

(* Reading back what was stored for a pixel and matching it again gives the
   same quadruple. *)
Lemma quadOf_reread (e : PaletteEntry) (entries : list PaletteEntry)
    (r g b a : jsnum) :
  Forall byteEntry (e :: entries) ->
  chunkRead r g b a ->
  let q := quadOf (Entries (e :: entries)) r g b a in
  quadOf (Entries (e :: entries))
    (reread r (quadAt 0 q)) (reread g (quadAt 1 q))
    (reread b (quadAt 2 q)) (reread a (quadAt 3 q))
  = q.
Proof.
  intros Hall [(r' & g' & b' & a' & -> & -> & -> & -> & Ha)
              |[(r' & g' & b' & -> & -> & -> & ->)|[-> ->]]]; cbv zeta.
  - destruct (a' =? 0) eqn:E.
    + apply Z.eqb_eq in E. subst a'. reflexivity.
    + assert (Hnz : jseq (jsZ a') (jsZ 0) = false) by (rewrite jseq_jsZ; exact E).
      destruct (quadOf_matched e entries r' g' b' (jsZ a') Hall Hnz)
        as (p & (HR & HG & HB) & -> & Hfix).
      destruct (quadAt_tuple (jsZ p.1.1) (jsZ p.1.2) (jsZ p.2) (jsZ a'))
        as (-> & -> & -> & ->).
      rewrite !reread_stored, !toUint8Clamp_byte by assumption. exact Hfix.
  - destruct (quadOf_matched e entries r' g' b' NaN Hall eq_refl)
      as (p & (HR & HG & HB) & -> & Hfix).
    destruct (quadAt_tuple (jsZ p.1.1) (jsZ p.1.2) (jsZ p.2) NaN)
      as (-> & -> & -> & ->).
    rewrite !reread_stored, !toUint8Clamp_byte by assumption. exact Hfix.
  - unfold quadOf. cbn [jseq reread].
    rewrite !findClosestPaletteColor_NaN. reflexivity.
Qed.

Lemma u8get_None (a : list Z) (i : Z) :
  a !! Z.to_nat i = None -> u8get a i = NaN.
Proof. intros H. unfold u8get. rewrite H. destruct (i <? 0); reflexivity. Qed.

Lemma chunkRead_u8get (pixelDataArray : list Z) (i : Z) :
  byteBuffer pixelDataArray -> 0 <= i ->
  chunkRead (u8get pixelDataArray i) (u8get pixelDataArray (i + 1))
    (u8get pixelDataArray (i + 2)) (u8get pixelDataArray (i + 3)).
Proof.
  intros Hbytes Hi. unfold chunkRead.
  assert (Hsome : forall idx, 0 <= idx ->
            (Z.to_nat idx < length pixelDataArray)%nat ->
            exists v, u8get pixelDataArray idx = jsZ v /\ 0 <= v <= 255).
  { intros idx Hidx Hlt. apply lookup_lt_is_Some in Hlt as [v Hv].
    exists v. split; [apply u8get_Some; [lia|exact Hv]|].
    unfold byteBuffer in Hbytes. rewrite Forall_lookup in Hbytes.
    eapply Hbytes, Hv. }
  destruct (pixelDataArray !! Z.to_nat (i + 3)) as [a|] eqn:Ha.
  - apply lookup_lt_Some in Ha. left.
    destruct (Hsome i) as (r & -> & _); [lia|lia|].
    destruct (Hsome (i + 1)) as (g & -> & _); [lia|lia|].
    destruct (Hsome (i + 2)) as (b & -> & _); [lia|lia|].
    destruct (Hsome (i + 3)) as (a' & -> & Hbyte); [lia|lia|].
    exists r, g, b, a'. auto.
  - right. rewrite (u8get_None _ _ Ha).
    destruct (pixelDataArray !! Z.to_nat (i + 2)) as [b|] eqn:Hb.
    + apply lookup_lt_Some in Hb. left.
      destruct (Hsome i) as (r & -> & _); [lia|lia|].
      destruct (Hsome (i + 1)) as (g & -> & _); [lia|lia|].
      destruct (Hsome (i + 2)) as (b' & -> & _); [lia|lia|].
      exists r, g, b'. auto.
    + right. rewrite (u8get_None _ _ Hb). auto.
Qed.

Lemma applyPalette_reread (pixelDataArray : list Z) (palette : jsPalette) (k t : Z) :
  nonEmpty palette -> 0 <= k -> 0 <= t <= 3 ->
  u8get (applyPalette pixelDataArray palette) (4 * k + t)
  = reread (u8get pixelDataArray (4 * k + t))
      (quadAt t (paletteQuad pixelDataArray palette (4 * k))).
Proof.
  intros Hpal Hk Ht.
  destruct (applyPalette_lookup pixelDataArray palette Hpal) as [Hlen Hlook].
  destruct (pixelDataArray !! Z.to_nat (4 * k + t)) as [v|] eqn:Hv.
  - rewrite (u8get_Some _ (4 * k + t) v ltac:(lia) Hv), reread_stored.
    apply u8get_Some; [lia|].
    rewrite Hlook by (apply lookup_lt_Some in Hv; exact Hv).
    rewrite Z2Nat.id by lia.
    replace (4 * k + t) with (t + k * 4) by lia.
    rewrite Z.div_add, Z.mod_add by lia.
    rewrite Z.div_small, Z.mod_small by lia.
    replace (4 * (0 + k)) with (4 * k) by lia. reflexivity.
  - rewrite (u8get_None _ _ Hv). cbn [reread].
    apply u8get_None, lookup_ge_None. apply lookup_ge_None in Hv. lia.
Qed.

(** C8, as amended.  On a buffer of bytes and a non-empty palette whose
    well-formed entries are triples of integers from 0 to 255, applying the
    palette to the result of applying it returns that result unchanged. *)
Theorem applyPalette_idempotent (pixelDataArray : list Z) (e : PaletteEntry)
    (entries : list PaletteEntry) :
  byteBuffer pixelDataArray ->
  Forall byteEntry (e :: entries) ->
  applyPalette (applyPalette pixelDataArray (Entries (e :: entries)))
    (Entries (e :: entries))
  = applyPalette pixelDataArray (Entries (e :: entries)).
Proof.
  intros Hbytes Hall.
  set (palette := Entries (e :: entries)).
  assert (Hpal : nonEmpty palette) by (do 2 eexists; reflexivity).
  destruct (applyPalette_lookup pixelDataArray palette Hpal) as [Hlen Hlook].
  destruct (applyPalette_lookup (applyPalette pixelDataArray palette) palette Hpal)
    as [Hlen' Hlook'].
  apply list_eq. intros j.
  destruct (Nat.lt_ge_cases j (length pixelDataArray)) as [Hj|Hj].
  - rewrite Hlook' by lia. rewrite Hlook by exact Hj.
    do 3 f_equal.
    set (k := Z.of_nat j / 4).
    assert (Hk : 0 <= k) by (apply Z.div_pos; lia).
    rewrite (paletteQuad_quadOf (applyPalette pixelDataArray palette)).
    replace (4 * k) with (4 * k + 0) at 1 by lia.
    rewrite !(applyPalette_reread pixelDataArray palette k) by (assumption || lia).
    rewrite (paletteQuad_quadOf pixelDataArray).
    replace (4 * k + 0) with (4 * k) by lia.
    apply (quadOf_reread e entries); [exact Hall|].
    apply chunkRead_u8get; [exact Hbytes|lia].
  - rewrite !(proj2 (lookup_ge_None _ _)) by lia. reflexivity.
Qed.

Lemma applyPalette_idempotent_witness :
  byteBuffer grey2x2
  /\ Forall byteEntry [blackEntry; whiteEntry]
  /\ applyPalette (applyPalette grey2x2 (Entries [blackEntry; whiteEntry]))
       (Entries [blackEntry; whiteEntry])
     = applyPalette grey2x2 (Entries [blackEntry; whiteEntry]).
Proof.
  assert (Hbytes : byteBuffer grey2x2) by (repeat constructor; lia).
  assert (Hall : Forall byteEntry [blackEntry; whiteEntry]).
  { repeat constructor.
    - exists (0, 0, 0). split; [repeat split; cbn; lia|reflexivity].
    - exists (255, 255, 255). split; [repeat split; cbn; lia|reflexivity]. }
  split; [exact Hbytes|]. split; [exact Hall|].
  exact (applyPalette_idempotent grey2x2 blackEntry [whiteEntry] Hbytes Hall).
Defined.

(** C8 as stated fails: with the palette (1.5, 1.5, 1.5), (2, 2, 2.625) the
    pixel (1, 1, 1, 255) becomes (2, 2, 2, 255), the stored bytes of the
    first entry, and a second application maps it to (2, 2, 3, 255), the
    stored bytes of the second entry, which is nearer to (2, 2, 2). *)
Lemma applyPalette_not_idempotent_fractional :
  applyPalette [1; 1; 1; 255] fractionalPalette = [2; 2; 2; 255]
  /\ applyPalette (applyPalette [1; 1; 1; 255] fractionalPalette) fractionalPalette
     = [2; 2; 3; 255]
  /\ applyPalette (applyPalette [1; 1; 1; 255] fractionalPalette) fractionalPalette
     <> applyPalette [1; 1; 1; 255] fractionalPalette.
Proof.
  split; [vm_compute; reflexivity|]. split; [vm_compute; reflexivity|].
  vm_compute. discriminate.
Qed.

(** ** An empty or missing palette *)

(** C7, as amended.  With a missing or empty palette
    [findClosestPaletteColor] returns the colour it was given, and both
    dithering functions return the input buffer as it is. *)
Theorem empty_palette_fallback :
  (forall r g b,
     findClosestPaletteColor r g b Missing = (r, g, b)
     /\ findClosestPaletteColor r g b (Entries []) = (r, g, b))
  /\ (forall pixelDataArray width height strengthPercent,
        applyBayerDithering pixelDataArray width height Missing strengthPercent
        = pixelDataArray
        /\ applyBayerDithering pixelDataArray width height (Entries [])
             strengthPercent
           = pixelDataArray)
  /\ (forall pixelDataArray width height,
        applyFloydSteinbergDithering pixelDataArray width height Missing
        = pixelDataArray
        /\ applyFloydSteinbergDithering pixelDataArray width height (Entries [])
           = pixelDataArray).
Proof. repeat split. Qed.

(** C7 as stated fails for each of the three functions: the result of a
    call with an empty palette is also the result of a call with a non-empty
    palette, so no test on the result tells the two apart.  The matcher
    returns (0, 0, 0) for the colour (0, 0, 0) both with an empty palette
    and with the palette holding black; both dithering functions return an
    empty input buffer itself, with an empty palette and with a non-empty
    one. *)
Lemma empty_palette_not_signalled :
  ~ distinguishesEmptyPalette
      (fun c : Color => findClosestPaletteColor (chR c) (chG c) (chB c))
  /\ ~ distinguishesEmptyPalette
         (fun a : list Z * Z * Z * jsnum =>
          fun palette =>
            applyBayerDithering a.1.1.1 a.1.1.2 a.1.2 palette a.2)
  /\ ~ distinguishesEmptyPalette
         (fun a : list Z * Z * Z =>
            applyFloydSteinbergDithering a.1.1 a.1.2 a.2).
Proof.
  repeat split.
  - intros (failed & Hempty & Hfull).
    destruct (Hempty (jsZ 0, jsZ 0, jsZ 0)) as [_ He].
    specialize (Hfull (jsZ 0, jsZ 0, jsZ 0) (Entries [blackEntry])
                  ltac:(do 2 eexists; reflexivity)).
    cbn in He, Hfull. congruence.
  - intros (failed & Hempty & Hfull).
    destruct (Hempty ([], 1, 1, jsZ 100)) as [_ He].
    specialize (Hfull ([], 1, 1, jsZ 100) (Entries [blackEntry])
                  ltac:(do 2 eexists; reflexivity)).
    vm_compute in He, Hfull. congruence.
  - intros (failed & Hempty & Hfull).
    destruct (Hempty ([], 1, 1)) as [_ He].
    specialize (Hfull ([], 1, 1) (Entries [blackEntry])
                  ltac:(do 2 eexists; reflexivity)).
    vm_compute in He, Hfull. congruence.
Qed.

(** ** Floyd–Steinberg: one pixel *)

Lemma fs_body_split (width height : Z) (targetPalette : jsPalette) (y x : Z)
    (d : list jsnum) (outputData : list Z) :
  fs_body width height targetPalette y x (d, outputData)
  = (fsScratch width height targetPalette y x d,
     quadWrite outputData ((y * width + x) * 4)
       (fsQuad targetPalette d ((y * width + x) * 4))).
Proof.
  unfold fs_body, fsScratch, fsQuad, quadWrite.
  destruct (jseq _ _); reflexivity.
Qed.

Lemma f32set_length (a : list jsnum) (i : Z) (v : jsnum) :
  length (f32set a i v) = length a.
Proof. unfold f32set. destruct (i <? 0); [reflexivity|apply length_insert]. Qed.

Lemma f32get_set_eq (a : list jsnum) (i : Z) (v : jsnum) :
  0 <= i -> (Z.to_nat i < length a)%nat -> f32get (f32set a i v) i = v.
Proof.
  intros Hi Hlen. unfold f32get, f32set.
  destruct (i <? 0) eqn:E; [apply Z.ltb_lt in E; lia|].
  rewrite list_lookup_insert_eq by exact Hlen. reflexivity.
Qed.

Lemma f32get_set_ne (a : list jsnum) (i j : Z) (v : jsnum) :
  i <> j -> f32get (f32set a i v) j = f32get a j.
Proof.
  intros Hij. unfold f32get, f32set.
  destruct (j <? 0) eqn:Ej; [reflexivity|]. apply Z.ltb_ge in Ej.
  destruct (i <? 0) eqn:Ei; [reflexivity|]. apply Z.ltb_ge in Ei.
  rewrite list_lookup_insert_ne by lia. reflexivity.
Qed.

Lemma diffuse_length (d : list jsnum) (ni : Z) (errR errG errB : jsnum) (w : Z) :
  length (diffuse d ni errR errG errB w) = length d.
Proof. unfold diffuse. rewrite !f32set_length. reflexivity. Qed.

(* After a propagation step at [ni], inside the buffer: the three cells from
   [ni] on have received their share, the others are as before. *)
Lemma diffuse_get (d : list jsnum) (ni : Z) (err : Color) (w k : Z) :
  0 <= ni -> (Z.to_nat (ni + 2) < length d)%nat ->
  f32get (diffuse d ni (chR err) (chG err) (chB err) w) k
  = if (ni <=? k) && (k <=? ni + 2)
    then (f32get d k + chanOf (k - ni) err * jsZ w / jsZ 16)%js
    else f32get d k.
Proof.
  intros Hni Hlen. unfold diffuse. cbv zeta.
  destruct (Z.eq_dec k (ni + 2)) as [->|N2].
  { rewrite f32get_set_eq by (rewrite ?f32set_length; lia).
    rewrite !f32get_set_ne by lia.
    replace ((ni <=? ni + 2) && (ni + 2 <=? ni + 2)) with true
      by (symmetry; apply andb_true_iff; split; apply Z.leb_le; lia).
    replace (ni + 2 - ni) with 2 by lia. reflexivity. }
  rewrite (f32get_set_ne _ (ni + 2) k) by lia.
  destruct (Z.eq_dec k (ni + 1)) as [->|N1].
  { rewrite f32get_set_eq by (rewrite ?f32set_length; lia).
    rewrite !f32get_set_ne by lia.
    replace ((ni <=? ni + 1) && (ni + 1 <=? ni + 2)) with true
      by (symmetry; apply andb_true_iff; split; apply Z.leb_le; lia).
    replace (ni + 1 - ni) with 1 by lia. reflexivity. }
  rewrite (f32get_set_ne _ (ni + 1) k) by lia.
  destruct (Z.eq_dec k ni) as [->|N0].
  { rewrite f32get_set_eq by lia.
    replace ((ni <=? ni) && (ni <=? ni + 2)) with true
      by (symmetry; apply andb_true_iff; split; apply Z.leb_le; lia).
    replace (ni - ni) with 0 by lia. reflexivity. }
  rewrite (f32get_set_ne _ ni k) by lia.
  destruct ((ni <=? k) && (k <=? ni + 2)) eqn:E; [|reflexivity].
  apply andb_true_iff in E as [E1 E2]. apply Z.leb_le in E1, E2. lia.
Qed.

Lemma diffuseIf_length (guard : bool) (d : list jsnum) (ni : Z) (err : Color) (w : Z) :
  length (diffuseIf guard d ni err w) = length d.
Proof. unfold diffuseIf. destruct guard; [apply diffuse_length|reflexivity]. Qed.

Lemma diffuseIf_get (guard : bool) (d : list jsnum) (ni : Z) (err : Color) (w k : Z) :
  (guard = true -> 0 <= ni /\ (Z.to_nat (ni + 2) < length d)%nat) ->
  f32get (diffuseIf guard d ni err w) k
  = if guard && (ni <=? k) && (k <=? ni + 2)
    then (f32get d k + chanOf (k - ni) err * jsZ w / jsZ 16)%js
    else f32get d k.
Proof.
  intros Hin. unfold diffuseIf. destruct guard; [|reflexivity].
  destruct (Hin eq_refl) as [Hni Hlen].
  rewrite diffuse_get by assumption. reflexivity.
Qed.

Lemma fsScratch_length (width height : Z) (targetPalette : jsPalette) (y x : Z)
    (d : list jsnum) :
  length (fsScratch width height targetPalette y x d) = length d.
Proof.
  unfold fsScratch. destruct (jseq _ _); [reflexivity|].
  cbv zeta. rewrite !diffuseIf_length. reflexivity.
Qed.

Lemma pixel_inside (width height x y : Z) :
  0 <= x < width -> 0 <= y < height ->
  0 <= y * width + x < width * height.
Proof. intros Hx Hy. nia. Qed.

Lemma pixel_coordinates (width x y x' y' : Z) :
  0 <= x < width -> 0 <= x' < width ->
  y * width + x = y' * width + x' -> x = x' /\ y = y'.
Proof.
  intros Hx Hx' Heq.
  assert (y = y') by nia. subst y'. split; [lia|reflexivity].
Qed.

(* One guarded propagation step towards the pixel [(x + dx, y + dy)], read
   at cell [c] of the pixel [(x', y')]. *)
Lemma diffuseIf_neighbor (width height x y dx dy : Z) (guard : bool)
    (d : list jsnum) (err : Color) (w x' y' c : Z) :
  0 <= x' < width -> 0 <= y' < height -> 0 <= c <= 3 ->
  Z.of_nat (length d) = 4 * width * height ->
  (guard = true -> 0 <= x + dx < width /\ 0 <= y + dy < height) ->
  f32get (diffuseIf guard d (((y + dy) * width + (x + dx)) * 4) err w)
    ((y' * width + x') * 4 + c)
  = if guard && (x' =? x + dx) && (y' =? y + dy) && (c <? 3)
    then (f32get d ((y' * width + x') * 4 + c) + chanOf c err * jsZ w / jsZ 16)%js
    else f32get d ((y' * width + x') * 4 + c).
Proof.
  intros Hx' Hy' Hc Hlen Hguard.
  rewrite diffuseIf_get.
  - destruct guard; [|reflexivity]. destruct (Hguard eq_refl) as [Hxn Hyn].
    cbn [andb].
    destruct (Z.eqb_spec x' (x + dx)) as [Ex|Ex];
      destruct (Z.eqb_spec y' (y + dy)) as [Ey|Ey];
      destruct (Z.ltb_spec c 3) as [Ec|Ec]; cbn [andb].
    + subst x' y'.
      replace (_ && _) with true
        by (symmetry; apply andb_true_iff; split; apply Z.leb_le; lia).
      replace (((y + dy) * width + (x + dx)) * 4 + c
               - ((y + dy) * width + (x + dx)) * 4) with c by lia.
      reflexivity.
    + subst x' y'.
      replace (_ && _) with false; [reflexivity|].
      symmetry. apply andb_false_iff. right. apply Z.leb_gt. lia.
    + replace (_ && _) with false; [reflexivity|].
      symmetry. apply not_true_is_false. intros H.
      apply andb_true_iff in H as [H1 H2]. apply Z.leb_le in H1, H2.
      assert (Heq : (y + dy) * width + (x + dx) = y' * width + x') by lia.
      apply pixel_coordinates in Heq; [lia|lia|lia].
    + replace (_ && _) with false; [reflexivity|].
      symmetry. apply andb_false_iff.
      destruct (Z.le_gt_cases (((y + dy) * width + (x + dx)) * 4)
                  ((y' * width + x') * 4 + c)); [right|left]; apply Z.leb_gt; lia.
    + replace (_ && _) with false; [reflexivity|].
      symmetry. apply not_true_is_false. intros H.
      apply andb_true_iff in H as [H1 H2]. apply Z.leb_le in H1, H2.
      assert (Heq : (y + dy) * width + (x + dx) = y' * width + x') by lia.
      apply pixel_coordinates in Heq; [lia|lia|lia].
    + replace (_ && _) with false; [reflexivity|].
      symmetry. apply not_true_is_false. intros H.
      apply andb_true_iff in H as [H1 H2]. apply Z.leb_le in H1, H2.
      assert (Heq : (y + dy) * width + (x + dx) = y' * width + x') by lia.
      apply pixel_coordinates in Heq; [lia|lia|lia].
    + replace (_ && _) with false; [reflexivity|].
      symmetry. apply not_true_is_false. intros H.
      apply andb_true_iff in H as [H1 H2]. apply Z.leb_le in H1, H2.
      assert (Heq : (y + dy) * width + (x + dx) = y' * width + x') by lia.
      apply pixel_coordinates in Heq; [lia|lia|lia].
    + replace (_ && _) with false; [reflexivity|].
      symmetry. apply not_true_is_false. intros H.
      apply andb_true_iff in H as [H1 H2]. apply Z.leb_le in H1, H2. lia.
  - intros Hg. destruct (Hguard Hg) as [Hxn Hyn].
    pose proof (pixel_inside width height (x + dx) (y + dy) Hxn Hyn). lia.
Qed.

Ltac split_tests :=
  repeat (match goal with
          | |- context [Z.eqb ?a ?b] => destruct (Z.eqb_spec a b)
          | |- context [Z.ltb ?a ?b] => destruct (Z.ltb_spec a b)
          | |- context [Z.leb ?a ?b] => destruct (Z.leb_spec a b)
          end; cbn [andb negb]; try lia).

(* The scratch buffer after an opaque pixel: each colour cell of a pixel of
   the image has received the error times the weight of its position
   relative to the processed pixel, and the alpha cells are as before. *)
Lemma fsScratch_get (width height : Z) (targetPalette : jsPalette) (x y : Z)
    (d : list jsnum) (x' y' c : Z) :
  0 <= x < width -> 0 <= y < height ->
  0 <= x' < width -> 0 <= y' < height -> 0 <= c <= 3 ->
  Z.of_nat (length d) = 4 * width * height ->
  jseq (f32get d ((y * width + x) * 4 + 3)) (jsZ 0) = false ->
  f32get (fsScratch width height targetPalette y x d) ((y' * width + x') * 4 + c)
  = if (c <? 3) && negb (fsWeight (x' - x) (y' - y) =? 0)
    then (f32get d ((y' * width + x') * 4 + c)
          + chanOf c (fsErr targetPalette d ((y * width + x) * 4))
            * jsZ (fsWeight (x' - x) (y' - y)) / jsZ 16)%js
    else f32get d ((y' * width + x') * 4 + c).
Proof.
  intros Hx Hy Hx' Hy' Hc Hlen Halpha.
  unfold fsScratch. rewrite Halpha. cbv zeta.
  set (err := fsErr targetPalette d ((y * width + x) * 4)).
  replace ((y * width + x) * 4 + 4)
    with (((y + 0) * width + (x + 1)) * 4) by lia.
  replace ((y * width + x) * 4 + width * 4 - 4)
    with (((y + 1) * width + (x + -1)) * 4) by lia.
  replace ((y * width + x) * 4 + width * 4)
    with (((y + 1) * width + (x + 0)) * 4) by lia.
  replace (((y + 1) * width + (x + 0)) * 4 + 4)
    with (((y + 1) * width + (x + 1)) * 4) by lia.
  rewrite Z.geb_leb.
  rewrite (diffuseIf_neighbor width height x y 1 1);
    [|assumption|assumption|assumption
     |rewrite !diffuseIf_length; exact Hlen
     |intros Hg; apply andb_true_iff in Hg as [H1 H2];
      apply Z.ltb_lt in H1, H2; lia].
  rewrite (diffuseIf_neighbor width height x y 0 1);
    [|assumption|assumption|assumption
     |rewrite !diffuseIf_length; exact Hlen
     |intros Hg; apply Z.ltb_lt in Hg; lia].
  rewrite (diffuseIf_neighbor width height x y (-1) 1);
    [|assumption|assumption|assumption
     |rewrite !diffuseIf_length; exact Hlen
     |intros Hg; apply andb_true_iff in Hg as [H1 H2];
      apply Z.leb_le in H1; apply Z.ltb_lt in H2; lia].
  rewrite (diffuseIf_neighbor width height x y 1 0);
    [|assumption|assumption|assumption|exact Hlen
     |intros Hg; apply Z.ltb_lt in Hg; lia].
  unfold fsWeight.
  split_tests; cbn [andb] in *; try lia; reflexivity.
Qed.

Lemma clamp255_finite (v : Q) :
  exists v',
    clamp255 (Num v) = Num v'
    /\ (0 <= v' <= 255)%Q
    /\ ((0 <= v <= 255)%Q -> (v' == v)%Q)
    /\ ((v <= 0)%Q -> (v' == 0)%Q)
    /\ ((255 <= v)%Q -> (v' == 255)%Q).
Proof.
  unfold clamp255, Math_max, Math_min, jsZ.
  change (inject_Z 255) with 255%Q. change (inject_Z 0) with 0%Q.
  destruct (Qle_bool 255 v) eqn:E255.
  - apply Qle_bool_iff in E255. eexists. split; [reflexivity|].
    change (Qle_bool 0 255) with true. cbv iota.
    repeat split; intros; lra.
  - assert (Hlt : (v < 255)%Q).
    { apply Qnot_le_lt. intros H. apply Qle_bool_iff in H. congruence. }
    destruct (Qle_bool 0 v) eqn:E0.
    + apply Qle_bool_iff in E0. eexists. split; [reflexivity|].
      repeat split; intros; lra.
    + assert (Hneg : (v < 0)%Q).
      { apply Qnot_le_lt. intros H. apply Qle_bool_iff in H. congruence. }
      eexists. split; [reflexivity|].
      repeat split; intros; lra.
Qed.

Lemma quadAt_color (color : Color) (a : jsnum) (c : Z) :
  0 <= c <= 2 -> quadAt c (chR color, chG color, chB color, a) = chanOf c color.
Proof.
  intros Hc. unfold quadAt, chanOf. cbn [fst snd].
  destruct (Z.eqb_spec c 0); [reflexivity|].
  destruct (Z.eqb_spec c 1); [reflexivity|].
  destruct (Z.eqb_spec c 2); [reflexivity|lia].
Qed.

Lemma quadAt_zeros (c : Z) :
  toUint8Clamp (quadAt c (jsZ 0, jsZ 0, jsZ 0, jsZ 0)) = 0.
Proof.
  unfold quadAt. cbn [fst snd].
  destruct (c =? 0); [reflexivity|]. destruct (c =? 1); [reflexivity|].
  destruct (c =? 2); reflexivity.
Qed.

(** ** Floyd–Steinberg: the whole image *)

Lemma fsLoop_upTo (width height : Z) (targetPalette : jsPalette)
    (st : list jsnum * list Z) :
  0 < width ->
  for_loop (upto height) 0 1
    (fun y => for_loop (upto width) 0 1 (fs_body width height targetPalette y)) st
  = upTo (upto height * upto width) (fsPass width height targetPalette) st.
Proof.
  intros Hw. rewrite nested_loops_upTo by (unfold upto; lia).
  apply upTo_ext. intros p [d out] _.
  unfold upto. rewrite Z2Nat.id by lia.
  rewrite fs_body_split. unfold fsPass. cbn [fst snd].
  pose proof (Z.div_mod p width ltac:(lia)).
  replace ((p / width * width + p mod width) * 4) with (4 * p) by lia.
  reflexivity.
Qed.

Lemma diffuse_get_other (d : list jsnum) (ni : Z) (errR errG errB : jsnum) (w k : Z) :
  ~ (ni <= k <= ni + 2) ->
  f32get (diffuse d ni errR errG errB w) k = f32get d k.
Proof.
  intros Hk. unfold diffuse. cbv zeta.
  rewrite !f32get_set_ne by lia. reflexivity.
Qed.

Lemma diffuseIf_get_alpha (guard : bool) (d : list jsnum) (ni : Z) (err : Color)
    (w k : Z) :
  ni mod 4 = 0 -> k mod 4 = 3 ->
  f32get (diffuseIf guard d ni err w) k = f32get d k.
Proof.
  intros Hni Hk. unfold diffuseIf. destruct guard; [|reflexivity].
  apply diffuse_get_other.
  pose proof (Z.div_mod ni 4 ltac:(lia)). pose proof (Z.div_mod k 4 ltac:(lia)).
  lia.
Qed.

Lemma fsScratch_sameAlpha (width height : Z) (targetPalette : jsPalette) (y x : Z)
    (d : list jsnum) :
  sameAlpha d (fsScratch width height targetPalette y x d).
Proof.
  split; [apply fsScratch_length|].
  intros k Hk. unfold fsScratch. destruct (jseq _ _); [reflexivity|].
  cbv zeta.
  assert (Hmul : forall m, (m * 4) mod 4 = 0) by (intros; apply Z.mod_mul; lia).
  rewrite !diffuseIf_get_alpha; try exact Hk; try reflexivity.
  - replace ((y * width + x) * 4 + 4) with ((y * width + x + 1) * 4) by lia.
    apply Hmul.
  - replace ((y * width + x) * 4 + width * 4 - 4)
      with ((y * width + x + width - 1) * 4) by lia.
    apply Hmul.
  - replace ((y * width + x) * 4 + width * 4)
      with ((y * width + x + width) * 4) by lia.
    apply Hmul.
  - replace ((y * width + x) * 4 + width * 4 + 4)
      with ((y * width + x + width + 1) * 4) by lia.
    apply Hmul.
Qed.

Lemma sameAlpha_refl (d : list jsnum) : sameAlpha d d.
Proof. split; [reflexivity|]. intros; reflexivity. Qed.

Lemma sameAlpha_trans (d1 d2 d3 : list jsnum) :
  sameAlpha d1 d2 -> sameAlpha d2 d3 -> sameAlpha d1 d3.
Proof.
  intros [Hl1 Ha1] [Hl2 Ha2]. split; [congruence|].
  intros k Hk. rewrite Ha2, Ha1 by exact Hk. reflexivity.
Qed.

(* After [n] passes: the scratch buffer has kept its alpha cells, and each
   output cell of a pixel already visited holds what its pass stored, read
   from a scratch buffer with the alpha cells of the initial one. *)
Lemma fsLoop_invariant (width height : Z) (targetPalette : jsPalette)
    (d0 : list jsnum) (out0 : list Z) (n : nat) :
  length out0 = length d0 ->
  let st := upTo n (fsPass width height targetPalette) (d0, out0) in
  sameAlpha d0 st.1
  /\ length st.2 = length d0
  /\ forall j : nat, (j < length d0)%nat ->
       if Z.of_nat j / 4 <? Z.of_nat n
       then exists dp,
              sameAlpha d0 dp
              /\ st.2 !! j
                 = Some (toUint8Clamp
                           (quadAt (Z.of_nat j mod 4)
                              (fsQuad targetPalette dp (4 * (Z.of_nat j / 4)))))
       else st.2 !! j = out0 !! j.
Proof.
  intros Hlen0. induction n as [|n (Hd & Hout & Hcells)]; cbv zeta.
  - split; [apply sameAlpha_refl|]. split; [exact Hlen0|].
    intros j Hj. destruct (_ <? _) eqn:E; [|reflexivity].
    apply Z.ltb_lt in E. pose proof (Z.div_pos (Z.of_nat j) 4). lia.
  - cbn [upTo]. set (st := upTo n _ _) in *. unfold fsPass.
    cbn [fst snd].
    split; [eapply sameAlpha_trans; [exact Hd|apply fsScratch_sameAlpha]|].
    split; [rewrite quadWrite_length; exact Hout|].
    intros j Hj.
    pose proof (Z.div_mod (Z.of_nat j) 4 ltac:(lia)) as Hdm.
    pose proof (Z.mod_pos_bound (Z.of_nat j) 4 ltac:(lia)) as Hmod.
    destruct (Z.eq_dec (Z.of_nat j / 4) (Z.of_nat n)) as [Heq|Hneq].
    + destruct (_ <? _) eqn:E; [|apply Z.ltb_ge in E; lia].
      exists st.1. split; [exact Hd|].
      rewrite quadWrite_lookup_in by lia.
      rewrite Heq. do 3 f_equal. lia.
    + rewrite quadWrite_lookup_out by lia.
      specialize (Hcells j Hj).
      destruct (Z.ltb_spec (Z.of_nat j / 4) (Z.of_nat n)) as [E1|E1];
        destruct (Z.ltb_spec (Z.of_nat j / 4) (Z.of_nat (Datatypes.S n)))
          as [E2|E2]; try lia; exact Hcells.
Qed.

Lemma f32get_map_jsZ (pixelDataArray : list Z) (k : Z) :
  f32get (map jsZ pixelDataArray) k = u8get pixelDataArray k.
Proof.
  unfold f32get, u8get. destruct (k <? 0); [reflexivity|].
  change (map jsZ pixelDataArray) with (jsZ <$> pixelDataArray).
  rewrite list_lookup_fmap. destruct (pixelDataArray !! Z.to_nat k); reflexivity.
Qed.

Lemma Math_round_jsZ (a : Z) : Math_round (jsZ a) = jsZ a.
Proof.
  unfold Math_round, jsZ. do 2 f_equal.
  unfold Qfloor, Qplus, inject_Z. cbn [Qnum Qden].
  change (Z.pos (1 * 2)) with 2. change (Z.pos 2) with 2. change (Z.pos 1) with 1.
  pose proof (Z.div_mod (a * 2 + 1 * 1) 2 ltac:(lia)).
  pose proof (Z.mod_pos_bound (a * 2 + 1 * 1) 2 ltac:(lia)). lia.
Qed.

(* What [applyFloydSteinbergDithering] stores in the cell [c] of the pixel
   at column [x] of row [y]. *)
Lemma applyFloydSteinbergDithering_cell (pixelDataArray : list Z)
    (width height : Z) (targetPalette : jsPalette) (x y c : Z) :
  nonEmpty targetPalette ->
  0 <= x < width -> 0 <= y < height -> 0 <= c <= 3 ->
  (Z.to_nat ((y * width + x) * 4 + c) < length pixelDataArray)%nat ->
  exists dp,
    sameAlpha (map jsZ pixelDataArray) dp
    /\ applyFloydSteinbergDithering pixelDataArray width height targetPalette
         !! Z.to_nat ((y * width + x) * 4 + c)
       = Some (toUint8Clamp
                 (quadAt c (fsQuad targetPalette dp ((y * width + x) * 4)))).
Proof.
  intros (e & entries & ->) Hx Hy Hc Hlen.
  unfold applyFloydSteinbergDithering.
  destruct pixelDataArray as [|v pixels] eqn:Hpx; [cbn in Hlen; lia|].
  rewrite <- Hpx in *. clear Hpx v pixels.
  rewrite fsLoop_upTo by lia.
  destruct (fsLoop_invariant width height (Entries (e :: entries))
              (map jsZ pixelDataArray) (replicate (length pixelDataArray) 0)
              (upto height * upto width))
    as (_ & _ & Hcells).
  { rewrite length_replicate, length_map. reflexivity. }
  specialize (Hcells (Z.to_nat ((y * width + x) * 4 + c))).
  rewrite length_map in Hcells. specialize (Hcells Hlen).
  destruct (pixel_index width height x y c Hx Hy Hc) as (Hdiv & Hmod & _ & _ & Hlt).
  rewrite Hdiv, Hmod in Hcells.
  destruct (Z.ltb_spec (y * width + x) (Z.of_nat (upto height * upto width)));
    [|lia].
  destruct Hcells as (dp & Hdp & Hcell). exists dp. split; [exact Hdp|].
  rewrite Hcell. replace (4 * (y * width + x)) with ((y * width + x) * 4) by lia.
  reflexivity.
Qed.

(* The function returns the output buffer reached after one pass per pixel
   of the image, in the order of the pixel index. *)
Lemma applyFloydSteinbergDithering_passes (pixelDataArray : list Z)
    (width height : Z) (targetPalette : jsPalette) :
  nonEmpty targetPalette -> 0 < width ->
  applyFloydSteinbergDithering pixelDataArray width height targetPalette
  = (fsStateAt width height targetPalette pixelDataArray
       (upto height * upto width)).2.
Proof.
  intros (e & entries & ->) Hw. unfold applyFloydSteinbergDithering, fsStateAt.
  destruct pixelDataArray as [|v pixels] eqn:Hpx.
  - destruct (fsLoop_invariant width height (Entries (e :: entries))
                (map jsZ []) (replicate (length (@nil Z)) 0)
                (upto height * upto width) eq_refl) as (_ & Hlen & _).
    unfold fsStart. destruct (upTo _ _ _).2; [reflexivity|discriminate Hlen].
  - rewrite <- Hpx. rewrite fsLoop_upTo by exact Hw. reflexivity.
Qed.

(** ** The alpha channel under dithering *)

Lemma quadAt_alpha (q0 q1 q2 q3 : jsnum) : quadAt 3 (q0, q1, q2, q3) = q3.
Proof. reflexivity. Qed.

Lemma paletteQuad_alpha (pixelDataArray : list Z) (palette : jsPalette) (i a : Z) :
  u8get pixelDataArray (i + 3) = jsZ a -> 0 <= a <= 255 ->
  (a <> 0 -> toUint8Clamp (quadAt 3 (paletteQuad pixelDataArray palette i)) = a)
  /\ (a = 0 -> forall c,
        toUint8Clamp (quadAt c (paletteQuad pixelDataArray palette i)) = 0).
Proof.
  intros Ha Hbyte. unfold paletteQuad. rewrite Ha, jseq_jsZ. split.
  - intros Hnz. destruct (Z.eqb_spec a 0); [lia|].
    cbv zeta. rewrite quadAt_alpha. apply toUint8Clamp_byte, Hbyte.
  - intros -> c. apply quadAt_zeros.
Qed.

Lemma bayerQuad_alpha (pixelDataArray : list Z) (width : Z)
    (targetPalette : jsPalette) (bayerMatrix : list (list Z)) (matrixSize : Z)
    (strengthFactor : jsnum) (y x a : Z) :
  u8get pixelDataArray ((y * width + x) * 4 + 3) = jsZ a -> 0 <= a <= 255 ->
  (a <> 0 ->
   toUint8Clamp
     (quadAt 3 (bayerQuad pixelDataArray width targetPalette bayerMatrix
                  matrixSize strengthFactor y x)) = a)
  /\ (a = 0 -> forall c,
        toUint8Clamp
          (quadAt c (bayerQuad pixelDataArray width targetPalette bayerMatrix
                       matrixSize strengthFactor y x)) = 0).
Proof.
  intros Ha Hbyte. unfold bayerQuad. cbv zeta. rewrite Ha, jseq_jsZ. split.
  - intros Hnz. destruct (Z.eqb_spec a 0); [lia|].
    rewrite quadAt_alpha. apply toUint8Clamp_byte, Hbyte.
  - intros -> c. apply quadAt_zeros.
Qed.

Lemma fsQuad_alpha (targetPalette : jsPalette) (d : list jsnum) (i a : Z) :
  f32get d (i + 3) = jsZ a -> 0 <= a <= 255 ->
  (a <> 0 -> toUint8Clamp (quadAt 3 (fsQuad targetPalette d i)) = a)
  /\ (a = 0 -> forall c, toUint8Clamp (quadAt c (fsQuad targetPalette d i)) = 0).
Proof.
  intros Ha Hbyte. unfold fsQuad. rewrite Ha, jseq_jsZ. split.
  - intros Hnz. destruct (Z.eqb_spec a 0); [lia|].
    rewrite quadAt_alpha, Math_round_jsZ. apply toUint8Clamp_byte, Hbyte.
  - intros -> c. apply quadAt_zeros.
Qed.

(* The cell [c] of the pixel [(x, y)] in the output of [applyPalette]. *)
Lemma applyPalette_cell (pixelDataArray : list Z) (width height : Z)
    (palette : jsPalette) (x y c : Z) :
  nonEmpty palette ->
  0 <= x < width -> 0 <= y < height -> 0 <= c <= 3 ->
  (Z.to_nat ((y * width + x) * 4 + c) < length pixelDataArray)%nat ->
  applyPalette pixelDataArray palette !! Z.to_nat ((y * width + x) * 4 + c)
  = Some (toUint8Clamp
            (quadAt c (paletteQuad pixelDataArray palette ((y * width + x) * 4)))).
Proof.
  intros Hpal Hx Hy Hc Hlen.
  destruct (applyPalette_lookup pixelDataArray palette Hpal) as [_ Hlook].
  rewrite (Hlook _ Hlen).
  destruct (pixel_index width height x y c Hx Hy Hc) as (Hdiv & Hmod & _).
  rewrite Hdiv, Hmod.
  replace (4 * (y * width + x)) with ((y * width + x) * 4) by lia.
  reflexivity.
Qed.

(** C9.  Let the palette be non-empty and take a pixel [(x, y)]
    of the image whose alpha cell lies in the buffer and holds the byte [a].
    In the output of [applyBayerDithering], at any strength, and in the
    output of [applyFloydSteinbergDithering]: when [a] is not 0 the alpha
    cell of the pixel holds [a]; when [a] is 0 the four cells of the pixel
    hold 0. *)
Theorem dithering_alpha (pixelDataArray : list Z) (width height : Z)
    (targetPalette : jsPalette) (strengthPercent : jsnum) (x y a : Z) :
  nonEmpty targetPalette ->
  0 <= x < width -> 0 <= y < height ->
  pixelDataArray !! Z.to_nat ((y * width + x) * 4 + 3) = Some a ->
  0 <= a <= 255 ->
  let i := (y * width + x) * 4 in
  let bayer := applyBayerDithering pixelDataArray width height targetPalette
                 strengthPercent in
  let floyd := applyFloydSteinbergDithering pixelDataArray width height
                 targetPalette in
  (a <> 0 ->
   bayer !! Z.to_nat (i + 3) = Some a /\ floyd !! Z.to_nat (i + 3) = Some a)
  /\ (a = 0 ->
      forall c, 0 <= c <= 3 ->
        bayer !! Z.to_nat (i + c) = Some 0 /\ floyd !! Z.to_nat (i + c) = Some 0).
Proof.
  intros Hpal Hx Hy Ha Hbyte. cbv zeta.
  pose proof (pixel_inside width height x y Hx Hy) as Hp.
  pose proof (lookup_lt_Some _ _ _ Ha) as Hlen.
  assert (Hin : forall c, 0 <= c <= 3 ->
            (Z.to_nat ((y * width + x) * 4 + c) < length pixelDataArray)%nat)
    by (intros; lia).
  assert (Hget : u8get pixelDataArray ((y * width + x) * 4 + 3) = jsZ a)
    by (apply u8get_Some; [lia|exact Ha]).
  assert (Hbayer : forall c, 0 <= c <= 3 ->
            exists q,
              applyBayerDithering pixelDataArray width height targetPalette
                strengthPercent !! Z.to_nat ((y * width + x) * 4 + c)
              = Some (toUint8Clamp (quadAt c q))
              /\ (a <> 0 -> toUint8Clamp (quadAt 3 q) = a)
              /\ (a = 0 -> forall c', toUint8Clamp (quadAt c' q) = 0)).
  { intros c Hc.
    destruct (jseq (clampStrength strengthPercent) (jsZ 0)) eqn:Hs.
    - rewrite (applyBayerDithering_plain _ _ _ _ _ Hs).
      eexists. split.
      + apply (applyPalette_cell _ width height); auto.
      + apply paletteQuad_alpha; assumption.
    - eexists. split.
      + apply applyBayerDithering_cell; auto.
      + apply bayerQuad_alpha; assumption. }
  assert (Hfloyd : forall c, 0 <= c <= 3 ->
            exists q,
              applyFloydSteinbergDithering pixelDataArray width height
                targetPalette !! Z.to_nat ((y * width + x) * 4 + c)
              = Some (toUint8Clamp (quadAt c q))
              /\ (a <> 0 -> toUint8Clamp (quadAt 3 q) = a)
              /\ (a = 0 -> forall c', toUint8Clamp (quadAt c' q) = 0)).
  { intros c Hc.
    destruct (applyFloydSteinbergDithering_cell pixelDataArray width height
                targetPalette x y c Hpal Hx Hy Hc (Hin c Hc))
      as (dp & [_ Halpha] & Hcell).
    eexists. split; [exact Hcell|].
    apply fsQuad_alpha; [|exact Hbyte].
    rewrite Halpha, f32get_map_jsZ; [exact Hget|].
    replace ((y * width + x) * 4 + 3) with (3 + (y * width + x) * 4) by lia.
    rewrite Z.mod_add by lia. reflexivity. }
  split.
  - intros Hnz.
    destruct (Hbayer 3 ltac:(lia)) as (qb & -> & Hb & _).
    destruct (Hfloyd 3 ltac:(lia)) as (qf & -> & Hf & _).
    rewrite (Hb Hnz), (Hf Hnz). split; reflexivity.
  - intros Hz c Hc.
    destruct (Hbayer c Hc) as (qb & -> & _ & Hb).
    destruct (Hfloyd c Hc) as (qf & -> & _ & Hf).
    rewrite (Hb Hz), (Hf Hz). split; reflexivity.
Qed.

Lemma dithering_alpha_witness :
  nonEmpty blackWhite
  /\ 0 <= 1 < 2 /\ 0 <= 1 < 2
  /\ grey2x2 !! Z.to_nat ((1 * 2 + 1) * 4 + 3) = Some 64
  /\ 0 <= 64 <= 255
  /\ let i := (1 * 2 + 1) * 4 in
     let bayer := applyBayerDithering grey2x2 2 2 blackWhite (jsZ 50) in
     let floyd := applyFloydSteinbergDithering grey2x2 2 2 blackWhite in
     (64 <> 0 ->
      bayer !! Z.to_nat (i + 3) = Some 64 /\ floyd !! Z.to_nat (i + 3) = Some 64)
     /\ (64 = 0 ->
         forall c, 0 <= c <= 3 ->
           bayer !! Z.to_nat (i + c) = Some 0 /\ floyd !! Z.to_nat (i + c) = Some 0).
Proof.
  assert (H1 : nonEmpty blackWhite) by (do 2 eexists; reflexivity).
  assert (H2 : 0 <= 1 < 2) by lia.
  assert (H3 : grey2x2 !! Z.to_nat ((1 * 2 + 1) * 4 + 3) = Some 64) by reflexivity.
  assert (H4 : 0 <= 64 <= 255) by lia.
  repeat (split; [assumption|]).
  exact (dithering_alpha grey2x2 2 2 blackWhite (jsZ 50) 1 1 64 H1 H2 H2 H3 H4).
Defined.

(** ** Which pixels the palette generator sees *)

Lemma collectOpaque_upTo (pixelDataArray : list Z) :
  collectOpaque pixelDataArray
  = upTo (strides4 (length pixelDataArray))
      (fun k => collect_body pixelDataArray (4 * k)) [].
Proof.
  unfold collectOpaque. rewrite for_loop_upTo.
  apply upTo_ext. intros p acc _. f_equal. lia.
Qed.

Lemma collect_body_sameAbove128 (px px' : list Z) (k : Z) (acc : list Pixel) :
  sameAbove128 px px' -> 0 <= k ->
  collect_body px (4 * k) acc = collect_body px' (4 * k) acc.
Proof.
  intros [_ Hsame] Hk. unfold collect_body, u8get.
  destruct (4 * k + 3 <? 0) eqn:E; [apply Z.ltb_lt in E; lia|].
  replace (Z.to_nat (4 * k + 3)) with (4 * Z.to_nat k + 3)%nat by lia.
  replace (Z.to_nat (4 * k)) with (4 * Z.to_nat k + 0)%nat by lia.
  replace (Z.to_nat (4 * k + 1)) with (4 * Z.to_nat k + 1)%nat by lia.
  replace (Z.to_nat (4 * k + 2)) with (4 * Z.to_nat k + 2)%nat by lia.
  destruct (Hsame (Z.to_nat k)) as [Heq|(a & a' & Ha & Ha' & Hle & Hle')].
  - rewrite !Heq by lia. reflexivity.
  - rewrite Ha, Ha'.
    assert (Hlow : forall v, v <= 128 -> jslt (jsZ 128) (jsZ v) = false).
    { intros v Hv. unfold jslt, jsZ. apply Qltb_ge.
      rewrite <- Zle_Qle. exact Hv. }
    rewrite !Hlow by assumption. reflexivity.
Qed.

Lemma collectOpaque_sameAbove128 (px px' : list Z) :
  sameAbove128 px px' -> collectOpaque px = collectOpaque px'.
Proof.
  intros Hsame. rewrite !collectOpaque_upTo.
  destruct Hsame as [Hlen Hcells]. rewrite <- Hlen.
  apply upTo_ext. intros p acc Hp.
  apply collect_body_sameAbove128; [split; assumption|lia].
Qed.

(** ** Independence of the colours from the value of a non-zero alpha *)

Lemma sameButAlpha_color (px px' : list Z) (k : Z) :
  sameButAlpha px px' -> k mod 4 <> 3 -> u8get px k = u8get px' k.
Proof.
  intros [_ Hcells] Hk. unfold u8get. destruct (Z.ltb_spec k 0); [reflexivity|].
  destruct (Hcells (Z.to_nat k)) as [Hcol _].
  rewrite Hcol by (rewrite Z2Nat.id by lia; exact Hk). reflexivity.
Qed.

Lemma sameButAlpha_alpha (px px' : list Z) (k : Z) :
  sameButAlpha px px' -> k mod 4 = 3 ->
  jseq (u8get px k) (jsZ 0) = jseq (u8get px' k) (jsZ 0).
Proof.
  intros [Hlen Hcells] Hk. unfold u8get. destruct (Z.ltb_spec k 0); [reflexivity|].
  destruct (Hcells (Z.to_nat k)) as [_ Halpha].
  rewrite Z2Nat.id in Halpha by lia. specialize (Halpha Hk).
  destruct (px !! Z.to_nat k) as [a|] eqn:Ha;
    destruct (px' !! Z.to_nat k) as [a'|] eqn:Ha'.
  - rewrite !jseq_jsZ. specialize (Halpha a a' eq_refl eq_refl).
    destruct (Z.eqb_spec a 0), (Z.eqb_spec a' 0); try reflexivity; lia.
  - apply lookup_lt_Some in Ha. apply lookup_ge_None in Ha'. lia.
  - apply lookup_ge_None in Ha. apply lookup_lt_Some in Ha'. lia.
  - reflexivity.
Qed.

Lemma paletteQuad_sameButAlpha (px px' : list Z) (palette : jsPalette) (k c : Z) :
  sameButAlpha px px' -> 0 <= c <= 2 ->
  quadAt c (paletteQuad px palette (4 * k)) = quadAt c (paletteQuad px' palette (4 * k)).
Proof.
  intros Hsame Hc. unfold paletteQuad. cbv zeta.
  rewrite (sameButAlpha_alpha px px' (4 * k + 3) Hsame (mod4_cell k 3 ltac:(lia))).
  assert (Hr : u8get px (4 * k) = u8get px' (4 * k)).
  { apply sameButAlpha_color; [exact Hsame|].
    replace (4 * k) with (4 * k + 0) by lia. rewrite mod4_cell by lia. lia. }
  assert (Hg : u8get px (4 * k + 1) = u8get px' (4 * k + 1)).
  { apply sameButAlpha_color; [exact Hsame|]. rewrite mod4_cell by lia. lia. }
  assert (Hb : u8get px (4 * k + 2) = u8get px' (4 * k + 2)).
  { apply sameButAlpha_color; [exact Hsame|]. rewrite mod4_cell by lia. lia. }
  rewrite Hr, Hg, Hb. destruct (jseq _ _); [reflexivity|].
  rewrite !quadAt_color by exact Hc. reflexivity.
Qed.

Lemma applyPalette_sameButAlpha (px px' : list Z) (palette : jsPalette) :
  sameButAlpha px px' ->
  sameColors (applyPalette px palette) (applyPalette px' palette).
Proof.
  intros Hsame. pose proof Hsame as [Hlen Hcells].
  destruct palette as [|[|e entries]];
    try (split; [exact Hlen|intros j Hj; apply Hcells, Hj]).
  set (palette := Entries (e :: entries)).
  assert (Hpal : nonEmpty palette) by (do 2 eexists; reflexivity).
  destruct (applyPalette_lookup px palette Hpal) as [Hl Hlook].
  destruct (applyPalette_lookup px' palette Hpal) as [Hl' Hlook'].
  split; [lia|]. intros j Hj.
  destruct (Nat.lt_ge_cases j (length px)) as [Hlt|Hge].
  - rewrite Hlook, Hlook' by lia. do 2 f_equal.
    pose proof (Z.mod_pos_bound (Z.of_nat j) 4 ltac:(lia)).
    apply paletteQuad_sameButAlpha; [exact Hsame|lia].
  - rewrite !(proj2 (lookup_ge_None _ _)) by lia. reflexivity.
Qed.

Lemma bayerQuad_sameButAlpha (px px' : list Z) (width : Z)
    (targetPalette : jsPalette) (bayerMatrix : list (list Z)) (matrixSize : Z)
    (strengthFactor : jsnum) (y x c : Z) :
  sameButAlpha px px' -> 0 <= c <= 2 ->
  quadAt c (bayerQuad px width targetPalette bayerMatrix matrixSize
              strengthFactor y x)
  = quadAt c (bayerQuad px' width targetPalette bayerMatrix matrixSize
                strengthFactor y x).
Proof.
  intros Hsame Hc. unfold bayerQuad. cbv zeta.
  replace ((y * width + x) * 4) with (4 * (y * width + x)) by lia.
  set (k := y * width + x).
  rewrite (sameButAlpha_alpha px px' (4 * k + 3) Hsame (mod4_cell k 3 ltac:(lia))).
  assert (Hr : u8get px (4 * k) = u8get px' (4 * k)).
  { apply sameButAlpha_color; [exact Hsame|].
    replace (4 * k) with (4 * k + 0) by lia. rewrite mod4_cell by lia. lia. }
  assert (Hg : u8get px (4 * k + 1) = u8get px' (4 * k + 1)).
  { apply sameButAlpha_color; [exact Hsame|]. rewrite mod4_cell by lia. lia. }
  assert (Hb : u8get px (4 * k + 2) = u8get px' (4 * k + 2)).
  { apply sameButAlpha_color; [exact Hsame|]. rewrite mod4_cell by lia. lia. }
  rewrite Hr, Hg, Hb. destruct (jseq _ _); [reflexivity|].
  rewrite !quadAt_color by exact Hc. reflexivity.
Qed.

Lemma applyBayerDithering_sameButAlpha (px px' : list Z) (width height : Z)
    (targetPalette : jsPalette) (strengthPercent : jsnum) :
  sameButAlpha px px' ->
  sameColors (applyBayerDithering px width height targetPalette strengthPercent)
    (applyBayerDithering px' width height targetPalette strengthPercent).
Proof.
  intros Hsame. pose proof Hsame as [Hlen Hcells].
  destruct (jseq (clampStrength strengthPercent) (jsZ 0)) eqn:Hs.
  { rewrite !(applyBayerDithering_plain _ _ _ _ _ Hs).
    apply applyPalette_sameButAlpha, Hsame. }
  destruct targetPalette as [|[|e entries]];
    try (split; [exact Hlen|intros j Hj; apply Hcells, Hj]).
  unfold applyBayerDithering.
  destruct px as [|v pixels] eqn:Hpx.
  { destruct px'; [|discriminate Hlen]. split; [reflexivity|]. reflexivity. }
  destruct px' as [|v' pixels'] eqn:Hpx'; [discriminate Hlen|].
  rewrite <- Hpx, <- Hpx' in *. clear Hpx Hpx' v v' pixels pixels'.
  rewrite Hs.
  destruct (selectMatrix (clampStrength strengthPercent))
    as [bayerMatrix matrixSize].
  destruct (Z.lt_ge_cases 0 width) as [Hw|Hw].
  - destruct (bayerLoop_lookup px width height (Entries (e :: entries))
                bayerMatrix matrixSize (clampStrength strengthPercent / jsZ 100)%js
                (replicate (length px) 0) Hw) as [Hl Hlook].
    destruct (bayerLoop_lookup px' width height (Entries (e :: entries))
                bayerMatrix matrixSize (clampStrength strengthPercent / jsZ 100)%js
                (replicate (length px') 0) Hw) as [Hl' Hlook'].
    rewrite length_replicate in Hl, Hl', Hlook, Hlook'.
    split; [lia|]. intros j Hj.
    destruct (Nat.lt_ge_cases j (length px)) as [Hlt|Hge].
    + rewrite Hlook, Hlook' by lia.
      destruct (_ <? _).
      * do 2 f_equal.
        pose proof (Z.mod_pos_bound (Z.of_nat j) 4 ltac:(lia)).
        apply bayerQuad_sameButAlpha; [exact Hsame|lia].
      * rewrite Hlen. reflexivity.
    + rewrite !(proj2 (lookup_ge_None _ _)) by lia. reflexivity.
  - unfold upto. replace (Z.to_nat width) with O by lia.
    rewrite !nested_loops_no_columns, Hlen.
    split; reflexivity.
Qed.

Lemma f32get_set_full (a : list jsnum) (m k : Z) (v : jsnum) :
  f32get (f32set a m v) k
  = if (k =? m) && (0 <=? m) && (m <? Z.of_nat (length a)) then v
    else f32get a k.
Proof.
  destruct (Z.eqb_spec k m) as [->|Hne]; cbn [andb].
  - destruct (Z.leb_spec 0 m) as [H0|H0]; cbn [andb].
    + destruct (Z.ltb_spec m (Z.of_nat (length a))) as [Hlt|Hge].
      * apply f32get_set_eq; lia.
      * unfold f32set. destruct (m <? 0); [reflexivity|].
        rewrite list_insert_ge by lia. reflexivity.
    + unfold f32set. destruct (Z.ltb_spec m 0); [reflexivity|lia].
  - apply f32get_set_ne. lia.
Qed.

Lemma f32set_scratchButAlpha (d1 d2 : list jsnum) (m : Z) (v : jsnum) :
  scratchButAlpha d1 d2 -> m mod 4 <> 3 ->
  scratchButAlpha (f32set d1 m v) (f32set d2 m v).
Proof.
  intros [Hlen Hcells] Hm. split; [rewrite !f32set_length; exact Hlen|].
  intros k. rewrite !f32get_set_full, Hlen. split; intros Hk.
  - destruct (_ && _); [reflexivity|]. apply Hcells, Hk.
  - destruct (Z.eqb_spec k m) as [->|Hne]; [contradiction|].
    cbn [andb]. apply Hcells, Hk.
Qed.

Lemma diffuse_scratchButAlpha (d1 d2 : list jsnum) (ni : Z)
    (errR errG errB : jsnum) (w : Z) :
  scratchButAlpha d1 d2 -> ni mod 4 = 0 ->
  scratchButAlpha (diffuse d1 ni errR errG errB w) (diffuse d2 ni errR errG errB w).
Proof.
  intros H0 Hni. unfold diffuse. cbv zeta.
  pose proof (Z.div_mod ni 4 ltac:(lia)) as Hdm.
  assert (M0 : ni mod 4 <> 3) by lia.
  assert (M1 : (ni + 1) mod 4 <> 3).
  { replace (ni + 1) with (4 * (ni / 4) + 1) by lia. rewrite mod4_cell; lia. }
  assert (M2 : (ni + 2) mod 4 <> 3).
  { replace (ni + 2) with (4 * (ni / 4) + 2) by lia. rewrite mod4_cell; lia. }
  rewrite (proj1 (proj2 H0 ni) M0).
  pose proof (f32set_scratchButAlpha d1 d2 ni
                (f32get d2 ni + errR * jsZ w / jsZ 16)%js H0 M0) as H1.
  rewrite (proj1 (proj2 H1 (ni + 1)) M1).
  pose proof (f32set_scratchButAlpha _ _ (ni + 1)
                (f32get (f32set d2 ni (f32get d2 ni + errR * jsZ w / jsZ 16)%js)
                   (ni + 1) + errG * jsZ w / jsZ 16)%js H1 M1) as H2.
  rewrite (proj1 (proj2 H2 (ni + 2)) M2).
  apply f32set_scratchButAlpha; assumption.
Qed.

Lemma diffuseIf_scratchButAlpha (guard : bool) (d1 d2 : list jsnum) (ni : Z)
    (err : Color) (w : Z) :
  scratchButAlpha d1 d2 -> ni mod 4 = 0 ->
  scratchButAlpha (diffuseIf guard d1 ni err w) (diffuseIf guard d2 ni err w).
Proof.
  intros H Hni. unfold diffuseIf. destruct guard; [|exact H].
  apply diffuse_scratchButAlpha; assumption.
Qed.

Lemma fsOld_scratchButAlpha (d1 d2 : list jsnum) (k : Z) :
  scratchButAlpha d1 d2 -> fsOld d1 (4 * k) = fsOld d2 (4 * k).
Proof.
  intros [_ Hcells]. unfold fsOld.
  assert (H0 : f32get d1 (4 * k) = f32get d2 (4 * k)).
  { apply Hcells. replace (4 * k) with (4 * k + 0) by lia.
    rewrite mod4_cell; lia. }
  assert (H1 : f32get d1 (4 * k + 1) = f32get d2 (4 * k + 1)).
  { apply Hcells. rewrite mod4_cell; lia. }
  assert (H2 : f32get d1 (4 * k + 2) = f32get d2 (4 * k + 2)).
  { apply Hcells. rewrite mod4_cell; lia. }
  rewrite H0, H1, H2. reflexivity.
Qed.

Lemma fsQuad_scratchButAlpha (targetPalette : jsPalette) (d1 d2 : list jsnum)
    (k c : Z) :
  scratchButAlpha d1 d2 -> 0 <= c <= 2 ->
  quadAt c (fsQuad targetPalette d1 (4 * k))
  = quadAt c (fsQuad targetPalette d2 (4 * k)).
Proof.
  intros H Hc. unfold fsQuad, fsNew.
  rewrite (fsOld_scratchButAlpha d1 d2 k H).
  rewrite (proj2 (proj2 H (4 * k + 3)) (mod4_cell k 3 ltac:(lia))).
  destruct (jseq _ _); [reflexivity|].
  rewrite !quadAt_color by exact Hc. reflexivity.
Qed.

Lemma fsScratch_scratchButAlpha (width height : Z) (targetPalette : jsPalette)
    (y x : Z) (d1 d2 : list jsnum) :
  scratchButAlpha d1 d2 ->
  scratchButAlpha (fsScratch width height targetPalette y x d1)
    (fsScratch width height targetPalette y x d2).
Proof.
  intros H. unfold fsScratch. cbv zeta.
  replace ((y * width + x) * 4) with (4 * (y * width + x)) by lia.
  set (k := y * width + x).
  rewrite (proj2 (proj2 H (4 * k + 3)) (mod4_cell k 3 ltac:(lia))).
  destruct (jseq _ _); [exact H|].
  unfold fsErr, fsNew. rewrite (fsOld_scratchButAlpha d1 d2 k H).
  assert (Hmul : forall m, (4 * m) mod 4 = 0).
  { intros m. replace (4 * m) with (m * 4) by lia. apply Z.mod_mul. lia. }
  repeat apply diffuseIf_scratchButAlpha; try exact H.
  - replace (4 * k + 4) with (4 * (k + 1)) by lia. apply Hmul.
  - replace (4 * k + width * 4 - 4) with (4 * (k + width - 1)) by lia. apply Hmul.
  - replace (4 * k + width * 4) with (4 * (k + width)) by lia. apply Hmul.
  - replace (4 * k + width * 4 + 4) with (4 * (k + width + 1)) by lia. apply Hmul.
Qed.

Lemma quadWrite_sameColors (o1 o2 : list Z) (k : Z) (q1 q2 : Quad) :
  sameColors o1 o2 -> 0 <= k ->
  (forall c, 0 <= c <= 2 -> quadAt c q1 = quadAt c q2) ->
  sameColors (quadWrite o1 (4 * k) q1) (quadWrite o2 (4 * k) q2).
Proof.
  intros [Hlen Hcells] Hk Hq. split; [rewrite !quadWrite_length; exact Hlen|].
  intros j Hj.
  destruct (Nat.lt_ge_cases j (length o1)) as [Hlt|Hge].
  - destruct (Z.le_gt_cases (4 * k) (Z.of_nat j)) as [Hlo|Hlo];
      [destruct (Z.le_gt_cases (Z.of_nat j) (4 * k + 3)) as [Hhi|Hhi]|].
    + rewrite !quadWrite_lookup_in by lia. do 2 f_equal. apply Hq.
      replace (Z.of_nat j) with (4 * k + (Z.of_nat j - 4 * k)) in Hj by lia.
      rewrite mod4_cell in Hj by lia. lia.
    + rewrite !quadWrite_lookup_out by lia. apply Hcells, Hj.
    + rewrite !quadWrite_lookup_out by lia. apply Hcells, Hj.
  - rewrite !(proj2 (lookup_ge_None _ _)); [reflexivity| |];
      rewrite quadWrite_length; lia.
Qed.

Lemma fsLoop_related (width height : Z) (targetPalette : jsPalette)
    (d1 d2 : list jsnum) (o1 o2 : list Z) (n : nat) :
  scratchButAlpha d1 d2 -> sameColors o1 o2 ->
  scratchButAlpha (upTo n (fsPass width height targetPalette) (d1, o1)).1
    (upTo n (fsPass width height targetPalette) (d2, o2)).1
  /\ sameColors (upTo n (fsPass width height targetPalette) (d1, o1)).2
       (upTo n (fsPass width height targetPalette) (d2, o2)).2.
Proof.
  intros Hd Ho. induction n as [|n [IHd IHo]]; [split; assumption|].
  cbn [upTo]. unfold fsPass at 1 3 5 7. cbn [fst snd]. split.
  - apply fsScratch_scratchButAlpha, IHd.
  - apply quadWrite_sameColors; [exact IHo|lia|].
    intros c Hc. apply fsQuad_scratchButAlpha; assumption.
Qed.

Lemma applyFloydSteinbergDithering_sameButAlpha (px px' : list Z)
    (width height : Z) (targetPalette : jsPalette) :
  sameButAlpha px px' ->
  sameColors (applyFloydSteinbergDithering px width height targetPalette)
    (applyFloydSteinbergDithering px' width height targetPalette).
Proof.
  intros Hsame. pose proof Hsame as [Hlen Hcells].
  destruct targetPalette as [|[|e entries]];
    try (split; [exact Hlen|intros j Hj; apply Hcells, Hj]).
  unfold applyFloydSteinbergDithering.
  destruct px as [|v pixels] eqn:Hpx.
  { destruct px'; [|discriminate Hlen]. split; reflexivity. }
  destruct px' as [|v' pixels'] eqn:Hpx'; [discriminate Hlen|].
  rewrite <- Hpx, <- Hpx' in *. clear Hpx Hpx' v v' pixels pixels'.
  destruct (Z.lt_ge_cases 0 width) as [Hw|Hw].
  - rewrite !fsLoop_upTo by exact Hw.
    apply fsLoop_related.
    + split; [rewrite !length_map; exact Hlen|].
      intros k. rewrite !f32get_map_jsZ. split; intros Hk.
      * apply sameButAlpha_color; assumption.
      * apply sameButAlpha_alpha; assumption.
    + rewrite Hlen. split; reflexivity.
  - unfold upto. replace (Z.to_nat width) with O by lia.
    rewrite !nested_loops_no_columns. cbn [snd]. rewrite Hlen.
    split; reflexivity.
Qed.

(** * Further properties of the code *)

(** ** Numbers up to the equality of rationals *)

Lemma jsEq_refl (a : jsnum) : jsEq a a.
Proof. destruct a; cbn; [exact I|reflexivity]. Qed.

Lemma jsEq_sym (a b : jsnum) : jsEq a b -> jsEq b a.
Proof. destruct a, b; cbn; auto. intros H. symmetry. exact H. Qed.

Lemma jsEq_trans (a b c : jsnum) : jsEq a b -> jsEq b c -> jsEq a c.
Proof.
  destruct a, b, c; cbn; auto; try contradiction.
  intros H1 H2. rewrite H1. exact H2.
Qed.

Lemma toUint8Clamp_jsEq (a b : jsnum) :
  jsEq a b -> toUint8Clamp a = toUint8Clamp b.
Proof.
  destruct a as [|x], b as [|y]; cbn [jsEq]; try contradiction; [reflexivity|].
  intros H. unfold toUint8Clamp, Qltb.
  assert (Hf : Qfloor x = Qfloor y) by (rewrite H; reflexivity).
  assert (H0 : Qle_bool x 0 = Qle_bool y 0) by (rewrite H; reflexivity).
  assert (H1 : Qle_bool 255 x = Qle_bool 255 y) by (rewrite H; reflexivity).
  assert (H2 : forall h, Qle_bool x h = Qle_bool y h)
    by (intros h; rewrite H; reflexivity).
  assert (H3 : forall h, Qle_bool h x = Qle_bool h y)
    by (intros h; rewrite H; reflexivity).
  rewrite Hf, H0, H1, H2, H3. reflexivity.
Qed.

Lemma toUint8Clamp_Qeq_byte (q : Q) (z : Z) :
  (q == inject_Z z)%Q -> 0 <= z <= 255 -> toUint8Clamp (Num q) = z.
Proof.
  intros Hq Hz. rewrite (toUint8Clamp_jsEq (Num q) (jsZ z) Hq).
  apply toUint8Clamp_byte, Hz.
Qed.

Lemma jsbin_jsEq (f : Q -> Q -> Q) (a a' b b' : jsnum) :
  (forall x x' y y', (x == x')%Q -> (y == y')%Q -> (f x y == f x' y')%Q) ->
  jsEq a a' -> jsEq b b' -> jsEq (jsbin f a b) (jsbin f a' b').
Proof.
  intros Hf. destruct a, a', b, b'; cbn; auto; try contradiction.
Qed.

Lemma jsadd_jsEq (a a' b b' : jsnum) :
  jsEq a a' -> jsEq b b' -> jsEq (a + b)%js (a' + b')%js.
Proof. apply jsbin_jsEq. intros x x' y y' -> ->. reflexivity. Qed.

Lemma jssub_jsEq (a a' b b' : jsnum) :
  jsEq a a' -> jsEq b b' -> jsEq (a - b)%js (a' - b')%js.
Proof. apply jsbin_jsEq. intros x x' y y' -> ->. reflexivity. Qed.

Lemma jsmul_jsEq (a a' b b' : jsnum) :
  jsEq a a' -> jsEq b b' -> jsEq (a * b)%js (a' * b')%js.
Proof. apply jsbin_jsEq. intros x x' y y' -> ->. reflexivity. Qed.

Lemma jsdiv_jsEq (a a' b b' : jsnum) :
  jsEq a a' -> jsEq b b' -> jsEq (a / b)%js (a' / b')%js.
Proof. apply jsbin_jsEq. intros x x' y y' -> ->. reflexivity. Qed.

Lemma jslt_jsEq (a a' b b' : jsnum) :
  jsEq a a' -> jsEq b b' -> jslt a b = jslt a' b'.
Proof.
  destruct a, a', b, b'; cbn [jsEq jslt]; auto; try contradiction.
  intros H1 H2. unfold Qltb. rewrite H1, H2. reflexivity.
Qed.

Lemma jseq_jsEq (a a' b b' : jsnum) :
  jsEq a a' -> jsEq b b' -> jseq a b = jseq a' b'.
Proof.
  destruct a, a', b, b'; cbn [jsEq jseq]; auto; try contradiction.
  intros H1 H2. rewrite H1, H2. reflexivity.
Qed.

Lemma Math_round_jsEq (a a' : jsnum) :
  jsEq a a' -> Math_round a = Math_round a'.
Proof.
  destruct a, a'; cbn [jsEq Math_round]; auto; try contradiction.
  intros H. rewrite H. reflexivity.
Qed.

Lemma clamp255_jsEq (a a' : jsnum) : jsEq a a' -> jsEq (clamp255 a) (clamp255 a').
Proof.
  destruct a as [|x], a' as [|y]; cbn [jsEq]; try contradiction; [auto|].
  intros H. unfold clamp255, Math_max, Math_min, jsZ.
  assert (H1 : Qle_bool (inject_Z 255) x = Qle_bool (inject_Z 255) y)
    by (rewrite H; reflexivity).
  rewrite H1. destruct (Qle_bool (inject_Z 255) y).
  - cbn [jsEq]. reflexivity.
  - assert (H0 : Qle_bool (inject_Z 0) x = Qle_bool (inject_Z 0) y)
      by (rewrite H; reflexivity).
    rewrite H0. destruct (Qle_bool (inject_Z 0) y); cbn [jsEq];
      [exact H|reflexivity].
Qed.

(** ** The matcher: which colour it returns *)

Lemma closest_loop_filter (r g b : jsnum) (rest : list PaletteEntry) :
  forall (minDistance : jsnum) (closestColor : Color),
    closest_loop r g b (List.filter isTriple rest) minDistance closestColor
    = closest_loop r g b rest minDistance closestColor.
Proof.
  induction rest as [|e rest IH]; intros m c; [reflexivity|].
  destruct e as [color|]; cbn [List.filter isTriple closest_loop]; [|apply IH].
  destruct (jslt _ m); apply IH.
Qed.

(** X1.  On a palette with at least one entry the matcher returns one
    of the entries of the palette; the only other colour it can return is
    the black [(0, 0, 0)] that stands in for a malformed first entry. *)
Theorem findClosestPaletteColor_in_palette (r g b : jsnum) (e : PaletteEntry)
    (entries : list PaletteEntry) :
  let c := findClosestPaletteColor r g b (Entries (e :: entries)) in
  In (Triple c) (e :: entries)
  \/ (e = Malformed /\ c = (jsZ 0, jsZ 0, jsZ 0)).
Proof.
  cbv zeta.
  destruct (findClosestPaletteColor_member r g b e entries) as [H|H].
  - destruct e as [c0|]; cbn [firstColor] in H.
    + left. left. rewrite H. reflexivity.
    + right. split; [reflexivity|exact H].
  - left. right. exact H.
Qed.

(** X2.  Malformed entries do not take part in the match: the result is
    the one for the palette without its malformed entries, a malformed first
    entry being replaced by black [(0, 0, 0)]. *)
Theorem findClosestPaletteColor_skips_malformed (r g b : jsnum)
    (e : PaletteEntry) (entries : list PaletteEntry) :
  findClosestPaletteColor r g b (Entries (e :: entries))
  = findClosestPaletteColor r g b
      (Entries (Triple (firstColor e) :: List.filter isTriple entries)).
Proof.
  unfold findClosestPaletteColor. fold (firstColor e).
  rewrite closest_loop_filter. reflexivity.
Qed.

Lemma colorDistanceSquared_NaN_any (r g b : jsnum) (c : Color) :
  r = NaN \/ g = NaN \/ b = NaN ->
  colorDistanceSquared r g b (chR c) (chG c) (chB c) = NaN.
Proof.
  destruct c as [[cr cg] cb]. unfold colorDistanceSquared, chR, chG, chB.
  cbn [fst snd].
  intros [-> | [-> | ->]]; destruct cr, cg, cb; try destruct r; try destruct g;
    try destruct b; reflexivity.
Qed.

Lemma closest_loop_NaN_any (r g b : jsnum) (rest : list PaletteEntry) :
  r = NaN \/ g = NaN \/ b = NaN ->
  forall (minDistance : jsnum) (closestColor : Color),
    closest_loop r g b rest minDistance closestColor = closestColor.
Proof.
  intros Hnan.
  induction rest as [|e rest IH]; intros m c; cbn [closest_loop]; [reflexivity|].
  destruct e as [color|]; [|apply IH].
  rewrite (colorDistanceSquared_NaN_any r g b color Hnan). cbn [jslt]. apply IH.
Qed.

(** X3.  When one of the three channels of the colour to match is NaN or
    [undefined] (a read past the end of the pixel buffer), no distance
    compares as smaller and the matcher returns the first entry of the
    palette (black if that entry is malformed), whatever the other entries
    are. *)
Theorem findClosestPaletteColor_undefined_channel (r g b : jsnum)
    (e : PaletteEntry) (entries : list PaletteEntry) :
  r = NaN \/ g = NaN \/ b = NaN ->
  findClosestPaletteColor r g b (Entries (e :: entries)) = firstColor e.
Proof.
  intros Hnan. unfold findClosestPaletteColor. fold (firstColor e).
  apply closest_loop_NaN_any, Hnan.
Qed.

Lemma findClosestPaletteColor_undefined_channel_witness :
  (jsZ 250 = NaN \/ NaN = NaN \/ jsZ 250 = NaN)
  /\ findClosestPaletteColor (jsZ 250) NaN (jsZ 250)
       (Entries [blackEntry; whiteEntry])
     = firstColor blackEntry.
Proof.
  assert (H : jsZ 250 = NaN \/ NaN = NaN \/ jsZ 250 = NaN)
    by (right; left; reflexivity).
  split; [exact H|].
  exact (findClosestPaletteColor_undefined_channel (jsZ 250) NaN (jsZ 250)
           blackEntry [whiteEntry] H).
Defined.

(** X4.  On colours of bytes [colorDistanceSquared] is a whole number
    from 0 to 3 · 255², is the same when the two colours are exchanged, and
    is zero exactly when the two colours are the same. *)
Theorem colorDistanceSquared_metric (p1 p2 : Pixel) :
  bytePixel p1 -> bytePixel p2 ->
  exists d : Z,
    jsEq (colorDistanceSquared (jsZ p1.1.1) (jsZ p1.1.2) (jsZ p1.2)
            (jsZ p2.1.1) (jsZ p2.1.2) (jsZ p2.2)) (jsZ d)
    /\ jsEq (colorDistanceSquared (jsZ p2.1.1) (jsZ p2.1.2) (jsZ p2.2)
               (jsZ p1.1.1) (jsZ p1.1.2) (jsZ p1.2)) (jsZ d)
    /\ 0 <= d <= 195075
    /\ (d = 0 <-> p1 = p2).
Proof.
  destruct p1 as [[r1 g1] b1], p2 as [[r2 g2] b2]. cbn [fst snd].
  intros (Hr1 & Hg1 & Hb1) (Hr2 & Hg2 & Hb2). cbn [fst snd] in *.
  exists ((r1 - r2) * (r1 - r2) + (g1 - g2) * (g1 - g2)
          + (b1 - b2) * (b1 - b2)).
  split; [|split; [|split]].
  - unfold colorDistanceSquared, jsZ, jsadd, jssub, jsmul, jsbin. cbn [jsEq].
    rewrite !inject_Z_plus, !inject_Z_mult. unfold Z.sub.
    rewrite !inject_Z_plus, !inject_Z_opp. ring.
  - unfold colorDistanceSquared, jsZ, jsadd, jssub, jsmul, jsbin. cbn [jsEq].
    rewrite !inject_Z_plus, !inject_Z_mult. unfold Z.sub.
    rewrite !inject_Z_plus, !inject_Z_opp. ring.
  - assert (Hsq : forall u, -255 <= u <= 255 -> 0 <= u * u <= 65025)
      by (intros u Hu; nia).
    pose proof (Hsq (r1 - r2) ltac:(lia)).
    pose proof (Hsq (g1 - g2) ltac:(lia)).
    pose proof (Hsq (b1 - b2) ltac:(lia)). lia.
  - split.
    + intros H.
      pose proof (Z.square_nonneg (r1 - r2)) as Hr.
      pose proof (Z.square_nonneg (g1 - g2)) as Hg.
      pose proof (Z.square_nonneg (b1 - b2)) as Hb.
      assert (Hr0 : (r1 - r2) * (r1 - r2) = 0) by lia.
      assert (Hg0 : (g1 - g2) * (g1 - g2) = 0) by lia.
      assert (Hb0 : (b1 - b2) * (b1 - b2) = 0) by lia.
      apply Z.mul_eq_0 in Hr0, Hg0, Hb0.
      assert (r1 = r2) as -> by lia. assert (g1 = g2) as -> by lia.
      assert (b1 = b2) as -> by lia. reflexivity.
    + intros H. injection H as -> -> ->. lia.
Qed.

Lemma colorDistanceSquared_metric_witness :
  exists d : Z,
    jsEq (colorDistanceSquared (jsZ 200) (jsZ 10) (jsZ 30)
            (jsZ 0) (jsZ 0) (jsZ 0)) (jsZ d)
    /\ jsEq (colorDistanceSquared (jsZ 0) (jsZ 0) (jsZ 0)
               (jsZ 200) (jsZ 10) (jsZ 30)) (jsZ d)
    /\ 0 <= d <= 195075
    /\ (d = 0 <-> (200, 10, 30) = (0, 0, 0)).
Proof.
  apply (colorDistanceSquared_metric (200, 10, 30) (0, 0, 0));
    repeat split; cbn; lia.
Defined.

(** ** [applyPalette]: alpha and the colours of the output *)

Lemma cell_index (k c : nat) :
  (c <= 3)%nat ->
  Z.of_nat (4 * k + c) / 4 = Z.of_nat k
  /\ Z.of_nat (4 * k + c) mod 4 = Z.of_nat c.
Proof.
  intros Hc.
  replace (Z.of_nat (4 * k + c)) with (Z.of_nat c + Z.of_nat k * 4) by lia.
  rewrite Z.div_add, Z.mod_add by lia.
  rewrite Z.div_small, Z.mod_small by lia. lia.
Qed.

Lemma u8get_nat (a : list Z) (j : nat) (v : Z) :
  a !! j = Some v -> u8get a (Z.of_nat j) = jsZ v.
Proof. intros H. apply u8get_Some; [lia|]. rewrite Nat2Z.id. exact H. Qed.

Lemma nonEmpty_paletteOf (colors : list Pixel) :
  colors <> [] -> nonEmpty (paletteOf colors).
Proof.
  destruct colors as [|p rest]; [congruence|]. intros _.
  eexists. eexists. reflexivity.
Qed.

(* On a palette of byte colours the matcher returns one of them. *)
Lemma findClosestPaletteColor_paletteOf (r g b : jsnum) (colors : list Pixel) :
  colors <> [] ->
  exists p,
    In p colors
    /\ findClosestPaletteColor r g b (paletteOf colors) = colorOfPixel p.
Proof.
  destruct colors as [|p0 rest]; [congruence|]. intros _.
  unfold paletteOf. cbn [map].
  destruct (findClosestPaletteColor_member r g b (Triple (colorOfPixel p0))
              (map (fun p => Triple (colorOfPixel p)) rest)) as [H|H].
  - exists p0. split; [left; reflexivity|exact H].
  - apply in_map_iff in H as (p & Hp & Hin). exists p.
    split; [right; exact Hin|]. injection Hp as Hp. symmetry. exact Hp.
Qed.

Lemma stored_channels (p : Pixel) :
  bytePixel p ->
  toUint8Clamp (chR (colorOfPixel p)) = p.1.1
  /\ toUint8Clamp (chG (colorOfPixel p)) = p.1.2
  /\ toUint8Clamp (chB (colorOfPixel p)) = p.2.
Proof.
  intros (Hr & Hg & Hb). unfold colorOfPixel, chR, chG, chB. cbn [fst snd].
  rewrite !toUint8Clamp_byte by assumption. auto.
Qed.

(** X5.  With a non-empty palette [applyPalette] returns a buffer of
    the length of its input in which every pixel keeps its alpha; a pixel
    whose alpha is 0 comes out with its three colour cells set to 0 as
    well. *)
Theorem applyPalette_alpha (pixelDataArray : list Z) (palette : jsPalette)
    (k : nat) (a : Z) :
  nonEmpty palette -> 0 <= a <= 255 ->
  alphaAt pixelDataArray k = Some a ->
  length (applyPalette pixelDataArray palette) = length pixelDataArray
  /\ alphaAt (applyPalette pixelDataArray palette) k = Some a
  /\ (a = 0 -> pixelAt (applyPalette pixelDataArray palette) k = Some (0, 0, 0)).
Proof.
  intros Hpal Hbyte Ha. unfold alphaAt in *.
  destruct (applyPalette_lookup pixelDataArray palette Hpal) as [Hlen Hlook].
  pose proof (lookup_lt_Some _ _ _ Ha) as Hlt.
  assert (Hget : u8get pixelDataArray (4 * Z.of_nat k + 3) = jsZ a).
  { replace (4 * Z.of_nat k + 3) with (Z.of_nat (4 * k + 3)) by lia.
    apply u8get_nat, Ha. }
  destruct (paletteQuad_alpha pixelDataArray palette (4 * Z.of_nat k) a Hget Hbyte)
    as [Hkeep Hzero].
  split; [exact Hlen|]. split.
  - rewrite Hlook by exact Hlt.
    destruct (cell_index k 3 ltac:(lia)) as [-> ->]. f_equal.
    destruct (Z.eq_dec a 0) as [->|Hnz]; [apply Hzero; reflexivity|].
    apply Hkeep, Hnz.
  - intros Ha0. unfold pixelAt.
    rewrite !Hlook by lia.
    replace (4 * k)%nat with (4 * k + 0)%nat at 1 2 by lia.
    destruct (cell_index k 0 ltac:(lia)) as [-> ->].
    destruct (cell_index k 1 ltac:(lia)) as [-> ->].
    destruct (cell_index k 2 ltac:(lia)) as [-> ->].
    rewrite !(Hzero Ha0). reflexivity.
Qed.

Lemma applyPalette_alpha_witness :
  nonEmpty blackWhite /\ 0 <= 64 <= 255
  /\ alphaAt grey2x2 3 = Some 64
  /\ length (applyPalette grey2x2 blackWhite) = length grey2x2
  /\ alphaAt (applyPalette grey2x2 blackWhite) 3 = Some 64
  /\ (64 = 0 -> pixelAt (applyPalette grey2x2 blackWhite) 3 = Some (0, 0, 0)).
Proof.
  assert (Hpal : nonEmpty blackWhite) by (eexists; eexists; reflexivity).
  assert (Hbyte : 0 <= 64 <= 255) by lia.
  assert (Ha : alphaAt grey2x2 3 = Some 64) by reflexivity.
  split; [exact Hpal|]. split; [exact Hbyte|]. split; [exact Ha|].
  exact (applyPalette_alpha grey2x2 blackWhite 3 64 Hpal Hbyte Ha).
Defined.

(* The quadruple stored for a pixel that is not fully transparent, on a
   palette of byte colours. *)
Lemma paletteQuad_paletteOf (pixelDataArray : list Z) (colors : list Pixel)
    (i a : Z) :
  colors <> [] ->
  u8get pixelDataArray (i + 3) = jsZ a -> a <> 0 ->
  exists p,
    In p colors
    /\ paletteQuad pixelDataArray (paletteOf colors) i
       = (chR (colorOfPixel p), chG (colorOfPixel p), chB (colorOfPixel p),
          jsZ a).
Proof.
  intros Hne Ha Hnz. unfold paletteQuad. rewrite Ha, jseq_jsZ.
  destruct (Z.eqb_spec a 0); [lia|]. cbv zeta.
  destruct (findClosestPaletteColor_paletteOf (u8get pixelDataArray i)
              (u8get pixelDataArray (i + 1)) (u8get pixelDataArray (i + 2))
              colors Hne) as (p & Hin & ->).
  exists p. split; [exact Hin|reflexivity].
Qed.

(** X6.  [applyPalette] with a palette of byte colours (such as a
    generated palette) writes only colours of the palette: every pixel whose
    alpha is not 0 comes out with the three colour cells of one palette
    colour. *)
Theorem applyPalette_uses_palette (pixelDataArray : list Z)
    (colors : list Pixel) (k : nat) (a : Z) :
  colors <> [] -> Forall bytePixel colors ->
  alphaAt pixelDataArray k = Some a -> a <> 0 ->
  exists p,
    In p colors
    /\ pixelAt (applyPalette pixelDataArray (paletteOf colors)) k = Some p.
Proof.
  intros Hne Hbytes Ha Hnz. unfold alphaAt in Ha.
  destruct (applyPalette_lookup pixelDataArray (paletteOf colors)
              (nonEmpty_paletteOf colors Hne)) as [_ Hlook].
  pose proof (lookup_lt_Some _ _ _ Ha) as Hlt.
  assert (Hget : u8get pixelDataArray (4 * Z.of_nat k + 3) = jsZ a).
  { replace (4 * Z.of_nat k + 3) with (Z.of_nat (4 * k + 3)) by lia.
    apply u8get_nat, Ha. }
  destruct (paletteQuad_paletteOf pixelDataArray colors (4 * Z.of_nat k) a
              Hne Hget Hnz) as (p & Hin & Hquad).
  exists p. split; [exact Hin|].
  rewrite Forall_forall in Hbytes.
  destruct (stored_channels p (Hbytes p (proj2 (list_elem_of_In _ _) Hin)))
    as (Hr & Hg & Hb).
  unfold pixelAt. rewrite !Hlook by lia.
  replace (4 * k)%nat with (4 * k + 0)%nat at 1 2 by lia.
  destruct (cell_index k 0 ltac:(lia)) as [-> ->].
  destruct (cell_index k 1 ltac:(lia)) as [-> ->].
  destruct (cell_index k 2 ltac:(lia)) as [-> ->].
  rewrite Hquad.
  change (quadAt (Z.of_nat 0) ?q) with (chR (colorOfPixel p)).
  change (quadAt (Z.of_nat 1) ?q) with (chG (colorOfPixel p)).
  change (quadAt (Z.of_nat 2) ?q) with (chB (colorOfPixel p)).
  rewrite Hr, Hg, Hb. destruct p as [[pr pg] pb]. reflexivity.
Qed.

Lemma applyPalette_uses_palette_witness :
  [(0, 0, 0); (255, 255, 255)] <> []
  /\ Forall bytePixel [(0, 0, 0); (255, 255, 255)]
  /\ alphaAt grey2x2 1 = Some 255 /\ 255 <> 0
  /\ exists p,
       In p [(0, 0, 0); (255, 255, 255)]
       /\ pixelAt (applyPalette grey2x2
                     (paletteOf [(0, 0, 0); (255, 255, 255)])) 1 = Some p.
Proof.
  assert (Hne : [(0, 0, 0); (255, 255, 255)] <> @nil Pixel) by discriminate.
  assert (Hbytes : Forall bytePixel [(0, 0, 0); (255, 255, 255)])
    by (repeat constructor; cbn; lia).
  assert (Ha : alphaAt grey2x2 1 = Some 255) by reflexivity.
  assert (Hnz : 255 <> 0) by lia.
  split; [exact Hne|]. split; [exact Hbytes|]. split; [exact Ha|].
  split; [exact Hnz|].
  exact (applyPalette_uses_palette grey2x2 _ 1 255 Hne Hbytes Ha Hnz).
Defined.

(** ** Dithering: the colours of the output *)

Lemma pixelAt_stored (out : list Z) (k : nat) (p : Pixel) (a : jsnum) :
  bytePixel p ->
  (forall c : nat, (c <= 2)%nat ->
     out !! (4 * k + c)%nat
     = Some (toUint8Clamp
               (quadAt (Z.of_nat c)
                  (chR (colorOfPixel p), chG (colorOfPixel p),
                   chB (colorOfPixel p), a)))) ->
  pixelAt out k = Some p.
Proof.
  intros Hp Hcells. destruct (stored_channels p Hp) as (Hr & Hg & Hb).
  unfold pixelAt.
  pose proof (Hcells 0%nat ltac:(lia)) as H0. rewrite Nat.add_0_r in H0.
  rewrite H0, (Hcells 1%nat), (Hcells 2%nat) by lia.
  change (quadAt (Z.of_nat 0) ?q) with (chR (colorOfPixel p)).
  change (quadAt (Z.of_nat 1) ?q) with (chG (colorOfPixel p)).
  change (quadAt (Z.of_nat 2) ?q) with (chB (colorOfPixel p)).
  rewrite Hr, Hg, Hb. destruct p as [[pr pg] pb]. reflexivity.
Qed.

Lemma bayerQuad_paletteOf (pixelDataArray : list Z) (width : Z)
    (colors : list Pixel) (bayerMatrix : list (list Z)) (matrixSize : Z)
    (strengthFactor : jsnum) (y x a : Z) :
  colors <> [] ->
  u8get pixelDataArray ((y * width + x) * 4 + 3) = jsZ a -> a <> 0 ->
  exists p,
    In p colors
    /\ bayerQuad pixelDataArray width (paletteOf colors) bayerMatrix matrixSize
         strengthFactor y x
       = (chR (colorOfPixel p), chG (colorOfPixel p), chB (colorOfPixel p),
          jsZ a).
Proof.
  intros Hne Ha Hnz. unfold bayerQuad. cbv zeta. rewrite Ha, jseq_jsZ.
  destruct (Z.eqb_spec a 0); [lia|].
  match goal with
  | |- context [findClosestPaletteColor ?r ?g ?b _] =>
      destruct (findClosestPaletteColor_paletteOf r g b colors Hne)
        as (p & Hin & ->)
  end.
  exists p. split; [exact Hin|reflexivity].
Qed.

Lemma fsQuad_paletteOf (colors : list Pixel) (d : list jsnum) (i a : Z) :
  colors <> [] ->
  f32get d (i + 3) = jsZ a -> a <> 0 ->
  exists p,
    In p colors
    /\ fsQuad (paletteOf colors) d i
       = (chR (colorOfPixel p), chG (colorOfPixel p), chB (colorOfPixel p),
          Math_round (jsZ a)).
Proof.
  intros Hne Ha Hnz. unfold fsQuad, fsNew. rewrite Ha, jseq_jsZ.
  destruct (Z.eqb_spec a 0); [lia|].
  match goal with
  | |- context [findClosestPaletteColor ?r ?g ?b _] =>
      destruct (findClosestPaletteColor_paletteOf r g b colors Hne)
        as (p & Hin & ->)
  end.
  exists p. split; [exact Hin|reflexivity].
Qed.

Lemma pixel_cell_nat (width x y : Z) (c : nat) :
  0 <= x < width -> 0 <= y ->
  (4 * Z.to_nat (y * width + x) + c)%nat
  = Z.to_nat ((y * width + x) * 4 + Z.of_nat c).
Proof. intros Hx Hy. assert (0 <= y * width + x) by nia. lia. Qed.

(* After [n] passes of the loops of [applyFloydSteinbergDithering], the
   four output cells of a pixel [q] already visited hold the quadruple
   computed from the scratch buffer as it was when pass [q] started. *)
Lemma fsLoop_pixels (width height : Z) (targetPalette : jsPalette)
    (d0 : list jsnum) (out0 : list Z) (n : nat) :
  forall (q c : nat), (q < n)%nat -> (c <= 3)%nat ->
    (4 * q + c < length out0)%nat ->
    (upTo n (fsPass width height targetPalette) (d0, out0)).2 !! (4 * q + c)%nat
    = Some (toUint8Clamp
              (quadAt (Z.of_nat c)
                 (fsQuad targetPalette
                    (upTo q (fsPass width height targetPalette) (d0, out0)).1
                    (4 * Z.of_nat q)))).
Proof.
  assert (Hlen : forall m,
            length (upTo m (fsPass width height targetPalette) (d0, out0)).2
            = length out0).
  { induction m as [|m IH]; [reflexivity|].
    cbn [upTo]. unfold fsPass at 1. cbn [snd].
    rewrite quadWrite_length. exact IH. }
  induction n as [|n IH]; intros q c Hq Hc Hlt; [lia|].
  cbn [upTo]. unfold fsPass at 1. cbn [snd].
  destruct (Nat.eq_dec q n) as [->|Hne].
  - rewrite quadWrite_lookup_in by (rewrite ?Hlen; lia).
    do 3 f_equal. lia.
  - rewrite quadWrite_lookup_out by lia.
    apply IH; lia.
Qed.

Lemma fsLoop_sameAlpha (width height : Z) (targetPalette : jsPalette)
    (d0 : list jsnum) (out0 : list Z) (n : nat) :
  sameAlpha d0 (upTo n (fsPass width height targetPalette) (d0, out0)).1.
Proof.
  induction n as [|n IH]; [apply sameAlpha_refl|].
  cbn [upTo]. unfold fsPass at 1. cbn [fst].
  eapply sameAlpha_trans; [exact IH|apply fsScratch_sameAlpha].
Qed.

Lemma pixel_number (width height x y : Z) :
  0 <= x < width -> 0 <= y < height ->
  (Z.to_nat (y * width + x) < upto height * upto width)%nat.
Proof. intros Hx Hy. unfold upto. nia. Qed.

(** X7.  Both dithering functions, called with a palette of byte
    colours (such as a generated palette), write only colours of the
    palette: every pixel of the width × height image whose alpha is not 0
    comes out with the three colour cells of one palette colour.  For
    [applyBayerDithering] this holds at any strength. *)
Theorem dithering_uses_palette (pixelDataArray : list Z) (width height : Z)
    (colors : list Pixel) (strengthPercent : jsnum) (x y a : Z) :
  colors <> [] -> Forall bytePixel colors ->
  0 <= x < width -> 0 <= y < height ->
  alphaAt pixelDataArray (Z.to_nat (y * width + x)) = Some a -> a <> 0 ->
  (exists p,
     In p colors
     /\ pixelAt (applyBayerDithering pixelDataArray width height
                   (paletteOf colors) strengthPercent)
          (Z.to_nat (y * width + x)) = Some p)
  /\ (exists p,
        In p colors
        /\ pixelAt (applyFloydSteinbergDithering pixelDataArray width height
                      (paletteOf colors))
             (Z.to_nat (y * width + x)) = Some p).
Proof.
  intros Hne Hbytes Hx Hy Ha Hnz. unfold alphaAt in Ha.
  pose proof (nonEmpty_paletteOf colors Hne) as Hpal.
  rewrite Forall_forall in Hbytes.
  assert (Hin_byte : forall p, In p colors -> bytePixel p).
  { intros p Hp. apply Hbytes, list_elem_of_In, Hp. }
  pose proof (lookup_lt_Some _ _ _ Ha) as Hlt.
  assert (Hi : 0 <= (y * width + x) * 4) by nia.
  assert (Hget : u8get pixelDataArray ((y * width + x) * 4 + 3) = jsZ a).
  { apply u8get_Some; [lia|].
    rewrite <- Ha. f_equal. assert (0 <= y * width + x) by nia. lia. }
  split.
  - destruct (jseq (clampStrength strengthPercent) (jsZ 0)) eqn:Hs.
    + rewrite (applyBayerDithering_plain _ _ _ _ _ Hs).
      destruct (paletteQuad_paletteOf pixelDataArray colors
                  ((y * width + x) * 4) a Hne Hget Hnz) as (p & Hin & Hquad).
      exists p. split; [exact Hin|].
      apply (pixelAt_stored _ _ p (jsZ a) (Hin_byte p Hin)).
      intros c Hc. rewrite (pixel_cell_nat width x y c) by lia.
      rewrite (applyPalette_cell pixelDataArray width height (paletteOf colors)
                 x y (Z.of_nat c) Hpal Hx Hy)
        by (rewrite <- ?(pixel_cell_nat width x y c); lia).
      rewrite Hquad. reflexivity.
    + destruct (bayerQuad_paletteOf pixelDataArray width colors
                  (selectMatrix (clampStrength strengthPercent)).1
                  (selectMatrix (clampStrength strengthPercent)).2
                  (clampStrength strengthPercent / jsZ 100)%js y x a Hne Hget Hnz)
        as (p & Hin & Hquad).
      exists p. split; [exact Hin|].
      apply (pixelAt_stored _ _ p (jsZ a) (Hin_byte p Hin)).
      intros c Hc. rewrite (pixel_cell_nat width x y c) by lia.
      rewrite (applyBayerDithering_cell pixelDataArray width height
                 (paletteOf colors) strengthPercent x y (Z.of_nat c) Hpal Hs Hx Hy)
        by (rewrite <- ?(pixel_cell_nat width x y c); lia).
      rewrite Hquad. reflexivity.
  - rewrite (applyFloydSteinbergDithering_passes _ _ _ _ Hpal) by lia.
    unfold fsStateAt, fsStart.
    set (q := Z.to_nat (y * width + x)) in *.
    set (dp := (upTo q (fsPass width height (paletteOf colors))
                  (map jsZ pixelDataArray,
                   replicate (length pixelDataArray) 0)).1).
    assert (Hdp : f32get dp (4 * Z.of_nat q + 3) = jsZ a).
    { destruct (fsLoop_sameAlpha width height (paletteOf colors)
                  (map jsZ pixelDataArray)
                  (replicate (length pixelDataArray) 0) q) as [_ Halpha].
      subst dp. rewrite Halpha by (apply mod4_cell; lia).
      rewrite f32get_map_jsZ.
      replace (4 * Z.of_nat q + 3) with ((y * width + x) * 4 + 3)
        by (subst q; assert (0 <= y * width + x) by nia; lia).
      exact Hget. }
    destruct (fsQuad_paletteOf colors dp (4 * Z.of_nat q) a Hne Hdp Hnz)
      as (p & Hin & Hquad).
    exists p. split; [exact Hin|].
    apply (pixelAt_stored _ _ p (Math_round (jsZ a)) (Hin_byte p Hin)).
    intros c Hc.
    rewrite fsLoop_pixels;
      [|apply pixel_number; assumption|lia|rewrite length_replicate; lia].
    fold dp. rewrite Hquad. reflexivity.
Qed.

Lemma dithering_uses_palette_witness :
  [(0, 0, 0); (255, 255, 255)] <> []
  /\ Forall bytePixel [(0, 0, 0); (255, 255, 255)]
  /\ 0 <= 1 < 2 /\ 0 <= 1 < 2
  /\ alphaAt grey2x2 (Z.to_nat (1 * 2 + 1)) = Some 64 /\ 64 <> 0
  /\ (exists p,
        In p [(0, 0, 0); (255, 255, 255)]
        /\ pixelAt (applyBayerDithering grey2x2 2 2
                      (paletteOf [(0, 0, 0); (255, 255, 255)]) (jsZ 50))
             (Z.to_nat (1 * 2 + 1)) = Some p)
  /\ (exists p,
        In p [(0, 0, 0); (255, 255, 255)]
        /\ pixelAt (applyFloydSteinbergDithering grey2x2 2 2
                      (paletteOf [(0, 0, 0); (255, 255, 255)]))
             (Z.to_nat (1 * 2 + 1)) = Some p).
Proof.
  assert (Hne : [(0, 0, 0); (255, 255, 255)] <> @nil Pixel) by discriminate.
  assert (Hbytes : Forall bytePixel [(0, 0, 0); (255, 255, 255)])
    by (repeat constructor; cbn; lia).
  assert (Hx : 0 <= 1 < 2) by lia.
  assert (Ha : alphaAt grey2x2 (Z.to_nat (1 * 2 + 1)) = Some 64) by reflexivity.
  assert (Hnz : 64 <> 0) by lia.
  split; [exact Hne|]. split; [exact Hbytes|]. split; [exact Hx|].
  split; [exact Hx|]. split; [exact Ha|]. split; [exact Hnz|].
  exact (dithering_uses_palette grey2x2 2 2 _ (jsZ 50) 1 1 64
           Hne Hbytes Hx Hx Ha Hnz).
Defined.

(** ** [applyBayerDithering]: the strength *)

Lemma clampStrength_finite (s : Q) :
  exists s',
    clampStrength (Num s) = Num s'
    /\ ((s <= 0)%Q -> s' = inject_Z 0 \/ s' = s /\ (s == 0)%Q)
    /\ ((0 < s)%Q -> (0 < s')%Q /\ (s' <= 100)%Q)
    /\ ((100 <= s)%Q -> s' = inject_Z 100)
    /\ ((0 < s)%Q -> (s <= 100)%Q -> (s' == s)%Q).
Proof.
  unfold clampStrength, Math_max, Math_min, jsZ.
  change (inject_Z 100) with 100%Q. change (inject_Z 0) with 0%Q.
  destruct (Qle_bool 100 s) eqn:E100.
  - apply Qle_bool_iff in E100.
    change (Qle_bool 0 100) with true. cbv iota.
    eexists. split; [reflexivity|].
    repeat split; intros; try lra; try reflexivity.
  - assert (Hlt : (s < 100)%Q).
    { apply Qnot_le_lt. intros H. apply Qle_bool_iff in H. congruence. }
    destruct (Qle_bool 0 s) eqn:E0.
    + apply Qle_bool_iff in E0.
      eexists. split; [reflexivity|].
      repeat split; intros; try lra.
      right. split; [reflexivity|lra].
    + assert (Hneg : (s < 0)%Q).
      { apply Qnot_le_lt. intros H. apply Qle_bool_iff in H. congruence. }
      eexists. split; [reflexivity|].
      repeat split; intros; try lra. left. reflexivity.
Qed.

(** X8.  The strength of [applyBayerDithering] saturates: a strength
    of 0 or less gives the result of [applyPalette] (no dithering), and a
    strength of 100 or more gives the result of the strength 100. *)
Theorem applyBayerDithering_strength_saturates (pixelDataArray : list Z)
    (width height : Z) (palette : jsPalette) (s : Q) :
  ((s <= 0)%Q ->
   applyBayerDithering pixelDataArray width height palette (Num s)
   = applyPalette pixelDataArray palette)
  /\ ((100 <= s)%Q ->
      applyBayerDithering pixelDataArray width height palette (Num s)
      = applyBayerDithering pixelDataArray width height palette (jsZ 100)).
Proof.
  destruct (clampStrength_finite s) as (s' & Hclamp & Hlow & _ & Hhigh & _).
  split.
  - intros Hs. apply applyBayerDithering_plain. rewrite Hclamp.
    destruct (Hlow Hs) as [->|[-> H0]]; [reflexivity|].
    cbn [jseq jsZ]. apply Qeq_bool_iff. exact H0.
  - intros Hs. specialize (Hhigh Hs). subst s'.
    unfold applyBayerDithering. rewrite Hclamp.
    change (clampStrength (jsZ 100)) with (Num (inject_Z 100)). reflexivity.
Qed.

Lemma applyBayerDithering_strength_saturates_witness :
  ((-5 <= 0)%Q /\ (100 <= 250)%Q)
  /\ applyBayerDithering grey2x2 2 2 blackWhite (Num (-5))
     = applyPalette grey2x2 blackWhite
  /\ applyBayerDithering grey2x2 2 2 blackWhite (Num 250)
     = applyBayerDithering grey2x2 2 2 blackWhite (jsZ 100).
Proof.
  assert (Hlow : (-5 <= 0)%Q) by (unfold Qle; cbn; lia).
  assert (Hhigh : (100 <= 250)%Q) by (unfold Qle; cbn; lia).
  split; [split; [exact Hlow|exact Hhigh]|]. split.
  - exact (proj1 (applyBayerDithering_strength_saturates grey2x2 2 2 blackWhite
                    (-5)) Hlow).
  - exact (proj2 (applyBayerDithering_strength_saturates grey2x2 2 2 blackWhite
                    250) Hhigh).
Defined.




(** ** Dithering: the cells beyond the image *)

Lemma beyond_image (width height : Z) (j : nat) :
  0 < width ->
  4 * (Z.max 0 width * Z.max 0 height) <= Z.of_nat j ->
  (Z.of_nat j / 4 <? Z.of_nat (upto height * upto width)) = false.
Proof.
  intros Hw Hj. apply Z.ltb_ge. unfold upto.
  rewrite Nat2Z.inj_mul.
  replace (Z.of_nat (Z.to_nat height)) with (Z.max 0 height) by lia.
  replace (Z.of_nat (Z.to_nat width)) with (Z.max 0 width) by lia.
  apply Z.div_le_lower_bound; [lia|]. nia.
Qed.

(** X10.  The dithering loops visit the pixels of the width × height
    image only.  With a non-empty palette, both functions return a buffer of
    the length of the input, and (for [applyBayerDithering], when the
    strength is above 0) every cell that lies after the last pixel of the
    image holds 0, whatever the input holds there. *)
Theorem dithering_beyond_image (pixelDataArray : list Z) (width height : Z)
    (targetPalette : jsPalette) (s : Q) (j : nat) :
  nonEmpty targetPalette -> (0 < s)%Q ->
  4 * (Z.max 0 width * Z.max 0 height) <= Z.of_nat j ->
  (j < length pixelDataArray)%nat ->
  let bayer :=
    applyBayerDithering pixelDataArray width height targetPalette (Num s) in
  let fs :=
    applyFloydSteinbergDithering pixelDataArray width height targetPalette in
  length bayer = length pixelDataArray /\ bayer !! j = Some 0
  /\ length fs = length pixelDataArray /\ fs !! j = Some 0.
Proof.
  intros (e & entries & ->) Hs Hj Hlt. cbv zeta.
  assert (Hzero : replicate (length pixelDataArray) 0 !! j = Some 0).
  { apply lookup_replicate. split; [reflexivity|exact Hlt]. }
  destruct (clampStrength_finite s) as (s' & Hclamp & _ & Hpos & _).
  destruct (Hpos Hs) as [Hs' _].
  unfold applyBayerDithering, applyFloydSteinbergDithering.
  destruct pixelDataArray as [|v pixels] eqn:Hpx; [cbn in Hlt; lia|].
  rewrite <- Hpx in *. clear Hpx v pixels.
  rewrite Hclamp, (jseq_pos_zero s' Hs').
  destruct (selectMatrix (Num s')) as [bayerMatrix matrixSize].
  destruct (Z.ltb_spec 0 width) as [Hw|Hw].
  - destruct (bayerLoop_lookup pixelDataArray width height
                (Entries (e :: entries)) bayerMatrix matrixSize
                (Num s' / jsZ 100)%js (replicate (length pixelDataArray) 0) Hw)
      as [Hblen Hblook].
    rewrite length_replicate in Hblen, Hblook.
    rewrite fsLoop_upTo by exact Hw.
    destruct (fsLoop_invariant width height (Entries (e :: entries))
                (map jsZ pixelDataArray) (replicate (length pixelDataArray) 0)
                (upto height * upto width)) as (_ & Hflen & Hfcells).
    { rewrite length_replicate, length_map. reflexivity. }
    rewrite length_map in Hflen, Hfcells.
    specialize (Hfcells j Hlt).
    rewrite (beyond_image width height j Hw Hj) in Hfcells.
    split; [exact Hblen|]. split.
    + rewrite (Hblook j Hlt), (beyond_image width height j Hw Hj). exact Hzero.
    + split; [exact Hflen|]. rewrite Hfcells. exact Hzero.
  - replace (upto width) with O by (unfold upto; lia).
    rewrite !nested_loops_no_columns. cbn [snd].
    rewrite length_replicate. auto.
Qed.

Lemma dithering_beyond_image_witness :
  nonEmpty blackWhite /\ (0 < 50)%Q
  /\ 4 * (Z.max 0 1 * Z.max 0 2) <= Z.of_nat 9
  /\ (9 < length grey2x2)%nat
  /\ length (applyBayerDithering grey2x2 1 2 blackWhite (Num 50))
     = length grey2x2
  /\ applyBayerDithering grey2x2 1 2 blackWhite (Num 50) !! 9%nat = Some 0
  /\ length (applyFloydSteinbergDithering grey2x2 1 2 blackWhite)
     = length grey2x2
  /\ applyFloydSteinbergDithering grey2x2 1 2 blackWhite !! 9%nat = Some 0.
Proof.
  assert (Hpal : nonEmpty blackWhite) by (eexists; eexists; reflexivity).
  assert (Hs : (0 < 50)%Q) by reflexivity.
  assert (Hj : 4 * (Z.max 0 1 * Z.max 0 2) <= Z.of_nat 9) by (cbn; lia).
  assert (Hlt : (9 < length grey2x2)%nat) by (cbn; lia).
  split; [exact Hpal|]. split; [exact Hs|]. split; [exact Hj|].
  split; [exact Hlt|].
  exact (dithering_beyond_image grey2x2 1 2 blackWhite 50 9 Hpal Hs Hj Hlt).
Defined.

(** ** Floyd–Steinberg on an image that needs no dithering *)

Lemma colorDistanceSquared_jsEq (r g b r' g' b' : jsnum) (c : Color) :
  jsEq r r' -> jsEq g g' -> jsEq b b' ->
  jsEq (colorDistanceSquared r g b (chR c) (chG c) (chB c))
       (colorDistanceSquared r' g' b' (chR c) (chG c) (chB c)).
Proof.
  intros Hr Hg Hb. unfold colorDistanceSquared. cbv zeta.
  repeat (apply jsadd_jsEq || apply jsmul_jsEq || apply jssub_jsEq
          || apply jsEq_refl || assumption).
Qed.

Lemma closest_loop_jsEq (r g b r' g' b' : jsnum) (rest : list PaletteEntry) :
  jsEq r r' -> jsEq g g' -> jsEq b b' ->
  forall (m m' : jsnum) (c : Color),
    jsEq m m' ->
    closest_loop r g b rest m c = closest_loop r' g' b' rest m' c.
Proof.
  intros Hr Hg Hb.
  induction rest as [|e rest IH]; intros m m' c Hm; cbn [closest_loop];
    [reflexivity|].
  destruct e as [color|]; [|apply IH, Hm].
  pose proof (colorDistanceSquared_jsEq r g b r' g' b' color Hr Hg Hb) as Hd.
  rewrite (jslt_jsEq _ _ _ _ Hd Hm).
  destruct (jslt _ m'); apply IH; assumption.
Qed.

(* The matcher gives the same entry for equal numbers. *)
Lemma findClosestPaletteColor_jsEq (r g b r' g' b' : jsnum) (e : PaletteEntry)
    (entries : list PaletteEntry) :
  jsEq r r' -> jsEq g g' -> jsEq b b' ->
  findClosestPaletteColor r g b (Entries (e :: entries))
  = findClosestPaletteColor r' g' b' (Entries (e :: entries)).
Proof.
  intros Hr Hg Hb. unfold findClosestPaletteColor.
  apply closest_loop_jsEq; try assumption.
  apply colorDistanceSquared_jsEq; assumption.
Qed.

Lemma paletteOf_byteEntries (colors : list Pixel) :
  Forall bytePixel colors ->
  Forall byteEntry (map (fun p => Triple (colorOfPixel p)) colors).
Proof.
  intros H. induction H as [|p rest Hp _ IH]; cbn [map]; constructor; [|exact IH].
  exists p. split; [exact Hp|reflexivity].
Qed.

(* A colour of a palette of byte colours is matched to itself, also when
   it is given by numbers equal to its channels. *)
Lemma findClosestPaletteColor_paletteOf_fixed (colors : list Pixel) (p : Pixel)
    (r g b : jsnum) :
  Forall bytePixel colors -> In p colors ->
  jsEq r (jsZ p.1.1) -> jsEq g (jsZ p.1.2) -> jsEq b (jsZ p.2) ->
  findClosestPaletteColor r g b (paletteOf colors) = colorOfPixel p.
Proof.
  intros Hbytes Hin Hr Hg Hb.
  destruct colors as [|p0 rest]; [destruct Hin|].
  unfold paletteOf. cbn [map].
  rewrite (findClosestPaletteColor_jsEq r g b _ _ _ _ _ Hr Hg Hb).
  apply findClosestPaletteColor_fixed.
  - apply (paletteOf_byteEntries (p0 :: rest)), Hbytes.
  - destruct Hin as [->|Hin]; [left; reflexivity|].
    right. apply in_map_iff. exists p. split; [reflexivity|exact Hin].
Qed.

Lemma clamp255_byte (v : jsnum) (z : Z) :
  jsEq v (jsZ z) -> 0 <= z <= 255 -> jsEq (clamp255 v) (jsZ z).
Proof.
  intros Hv Hz. destruct v as [|q]; [contradiction|]. cbn [jsEq jsZ] in Hv.
  destruct (clamp255_finite q) as (q' & -> & _ & Hid & _).
  cbn [jsEq jsZ]. rewrite Hid; [exact Hv|].
  rewrite Hv.
  split; [change 0%Q with (inject_Z 0)|change 255%Q with (inject_Z 255)];
    rewrite <- Zle_Qle; lia.
Qed.

Lemma scratchEq_refl (d : list jsnum) : scratchEq d d.
Proof. split; [reflexivity|]. intros k. apply jsEq_refl. Qed.

Lemma scratchEq_trans (d1 d2 d3 : list jsnum) :
  scratchEq d1 d2 -> scratchEq d2 d3 -> scratchEq d1 d3.
Proof.
  intros [Hl1 H1] [Hl2 H2]. split; [congruence|].
  intros k. eapply jsEq_trans; [apply H1|apply H2].
Qed.

Lemma f32get_outside (d : list jsnum) (k : Z) :
  ~ (0 <= k < Z.of_nat (length d)) -> f32get d k = NaN.
Proof.
  intros Hk. unfold f32get. destruct (Z.ltb_spec k 0); [reflexivity|].
  rewrite lookup_ge_None_2 by lia. reflexivity.
Qed.

Lemma image_cell (width height k : Z) :
  0 < width -> 0 <= k < 4 * width * height ->
  exists x y c,
    0 <= x < width /\ 0 <= y < height /\ 0 <= c <= 3
    /\ k = (y * width + x) * 4 + c.
Proof.
  intros Hw Hk.
  exists ((k / 4) mod width), (k / 4 / width), (k mod 4).
  pose proof (Z.div_mod k 4 ltac:(lia)) as H4.
  pose proof (Z.mod_pos_bound k 4 ltac:(lia)) as Hm4.
  pose proof (Z.div_mod (k / 4) width ltac:(lia)) as Hdw.
  pose proof (Z.mod_pos_bound (k / 4) width ltac:(lia)) as Hmw.
  assert (Hq : 0 <= k / 4 < width * height).
  { split; [apply Z.div_pos; lia|apply Z.div_lt_upper_bound; lia]. }
  assert (Hy : 0 <= k / 4 / width < height).
  { split; [apply Z.div_pos; lia|apply Z.div_lt_upper_bound; nia]. }
  repeat split; try lia.
Qed.

(* The pixel of index [q] of a palette image, seen from a scratch buffer
   equal to the input: either it is fully transparent, or it is matched to
   itself and hands on no error. *)
Lemma palette_pixel (pixelDataArray : list Z) (colors : list Pixel)
    (d : list jsnum) (q : Z) (a : Z) :
  Forall bytePixel colors -> paletteImage colors pixelDataArray ->
  scratchEq d (map jsZ pixelDataArray) ->
  0 <= q ->
  pixelDataArray !! Z.to_nat (4 * q + 3) = Some a -> a <> 0 ->
  exists p,
    In p colors
    /\ fsNew (paletteOf colors) d (4 * q) = colorOfPixel p
    /\ findClosestPaletteColor (u8get pixelDataArray (4 * q))
         (u8get pixelDataArray (4 * q + 1)) (u8get pixelDataArray (4 * q + 2))
         (paletteOf colors) = colorOfPixel p
    /\ forall c, 0 <= c <= 2 ->
         exists e, chanOf c (fsErr (paletteOf colors) d (4 * q)) = Num e
                   /\ (e == 0)%Q.
Proof.
  intros Hbytes Himage [_ Hd] Hq Ha Hnz.
  pose proof (lookup_lt_Some _ _ _ Ha) as Hlt.
  destruct (lookup_lt_is_Some_2 pixelDataArray (Z.to_nat (4 * q))
              ltac:(lia)) as [r Hr].
  destruct (lookup_lt_is_Some_2 pixelDataArray (Z.to_nat (4 * q + 1))
              ltac:(lia)) as [g Hg].
  destruct (lookup_lt_is_Some_2 pixelDataArray (Z.to_nat (4 * q + 2))
              ltac:(lia)) as [b Hb].
  assert (Hin : In (r, g, b) colors).
  { apply (Himage (Z.to_nat q) (r, g, b) a); [|unfold alphaAt|exact Hnz].
    - unfold pixelAt.
      replace (4 * Z.to_nat q)%nat with (Z.to_nat (4 * q)) by lia.
      replace (Z.to_nat (4 * q) + 1)%nat with (Z.to_nat (4 * q + 1)) by lia.
      replace (Z.to_nat (4 * q) + 2)%nat with (Z.to_nat (4 * q + 2)) by lia.
      rewrite Hr, Hg, Hb. reflexivity.
    - replace (4 * Z.to_nat q + 3)%nat with (Z.to_nat (4 * q + 3)) by lia.
      exact Ha. }
  assert (Hp : bytePixel (r, g, b)).
  { rewrite Forall_forall in Hbytes. apply Hbytes, list_elem_of_In, Hin. }
  destruct Hp as (Hrb & Hgb & Hbb). cbn [fst snd] in Hrb, Hgb, Hbb.
  assert (Hcell : forall k v, 0 <= k -> pixelDataArray !! Z.to_nat k = Some v ->
            0 <= v <= 255 -> jsEq (clamp255 (f32get d k)) (jsZ v)).
  { intros k v Hk Hv Hvb. apply clamp255_byte; [|exact Hvb].
    eapply jsEq_trans; [apply Hd|].
    rewrite f32get_map_jsZ, (u8get_Some _ _ v Hk Hv). apply jsEq_refl. }
  pose proof (Hcell (4 * q) r ltac:(lia) Hr Hrb) as HoldR.
  pose proof (Hcell (4 * q + 1) g ltac:(lia) Hg Hgb) as HoldG.
  pose proof (Hcell (4 * q + 2) b ltac:(lia) Hb Hbb) as HoldB.
  assert (Hnew : fsNew (paletteOf colors) d (4 * q) = colorOfPixel (r, g, b)).
  { unfold fsNew, fsOld, chR, chG, chB. cbn [fst snd].
    apply findClosestPaletteColor_paletteOf_fixed; assumption. }
  exists (r, g, b). split; [exact Hin|]. split; [exact Hnew|]. split.
  - rewrite (u8get_Some _ (4 * q) r ltac:(lia) Hr),
      (u8get_Some _ (4 * q + 1) g ltac:(lia) Hg),
      (u8get_Some _ (4 * q + 2) b ltac:(lia) Hb).
    apply findClosestPaletteColor_paletteOf_fixed; try assumption;
      apply jsEq_refl.
  - intros c Hc. unfold fsErr. rewrite Hnew.
    unfold fsOld, chanOf, chR, chG, chB, colorOfPixel. cbn [fst snd].
    assert (Hsub : forall v z, jsEq v (jsZ z) ->
              exists e, (v - jsZ z)%js = Num e /\ (e == 0)%Q).
    { intros v z Hv. destruct v as [|x]; [contradiction|].
      cbn [jsEq jsZ] in Hv. eexists. split; [reflexivity|]. rewrite Hv. ring. }
    destruct (Z.eqb_spec c 0); [apply Hsub, HoldR|].
    destruct (Z.eqb_spec c 1); [apply Hsub, HoldG|apply Hsub, HoldB].
Qed.

Lemma scratch_alpha (pixelDataArray : list Z) (d : list jsnum) (k a : Z) :
  scratchEq d (map jsZ pixelDataArray) -> 0 <= k ->
  pixelDataArray !! Z.to_nat k = Some a ->
  jseq (f32get d k) (jsZ 0) = (a =? 0).
Proof.
  intros [_ Hd] Hk Ha. rewrite <- jseq_jsZ.
  apply jseq_jsEq; [|apply jsEq_refl].
  eapply jsEq_trans; [apply Hd|].
  rewrite f32get_map_jsZ, (u8get_Some _ k a Hk Ha). apply jsEq_refl.
Qed.

(* On a palette image the pass for a pixel leaves the scratch buffer as it
   is, up to the equality of numbers. *)
Lemma fsScratch_scratchEq (pixelDataArray : list Z) (colors : list Pixel)
    (d : list jsnum) (width height x y : Z) :
  Forall bytePixel colors -> paletteImage colors pixelDataArray ->
  0 <= x < width -> 0 <= y < height ->
  Z.of_nat (length pixelDataArray) = 4 * width * height ->
  scratchEq d (map jsZ pixelDataArray) ->
  scratchEq (fsScratch width height (paletteOf colors) y x d) d.
Proof.
  intros Hbytes Himage Hx Hy Hlen Hd.
  pose proof Hd as [Hdlen Hdget]. rewrite length_map in Hdlen.
  split; [apply fsScratch_length|]. intros k.
  assert (Hq : 0 <= y * width + x < width * height) by nia.
  destruct (lookup_lt_is_Some_2 pixelDataArray
              (Z.to_nat ((y * width + x) * 4 + 3)) ltac:(lia)) as [a Ha].
  pose proof (scratch_alpha pixelDataArray d ((y * width + x) * 4 + 3) a Hd
                ltac:(lia) Ha) as Halpha.
  destruct (Z.eqb_spec a 0) as [Hz|Hnz].
  { unfold fsScratch. rewrite Halpha. apply jsEq_refl. }
  destruct (Z_lt_le_dec k 0) as [Hneg|Hk0].
  { rewrite !f32get_outside by (rewrite ?fsScratch_length; lia). exact I. }
  destruct (Z_lt_le_dec k (4 * width * height)) as [Hin|Hout].
  2:{ rewrite !f32get_outside by (rewrite ?fsScratch_length; lia). exact I. }
  destruct (image_cell width height k ltac:(lia) ltac:(lia))
    as (x' & y' & c & Hx' & Hy' & Hc & ->).
  rewrite fsScratch_get; try assumption; [|lia].
  destruct ((c <? 3) && negb (fsWeight (x' - x) (y' - y) =? 0)) eqn:E;
    [|apply jsEq_refl].
  apply andb_true_iff in E as [Hc3 _]. apply Z.ltb_lt in Hc3.
  replace ((y * width + x) * 4 + 3) with (4 * (y * width + x) + 3) in Ha by lia.
  destruct (palette_pixel pixelDataArray colors d (y * width + x) a
              Hbytes Himage Hd ltac:(lia) Ha Hnz) as (_ & _ & _ & _ & Herr).
  destruct (Herr c ltac:(lia)) as (e & He & He0).
  replace ((y * width + x) * 4) with (4 * (y * width + x)) by lia.
  rewrite He.
  specialize (Hdget (4 * (y' * width + x') + c)).
  rewrite f32get_map_jsZ in Hdget.
  replace ((y' * width + x') * 4 + c) with (4 * (y' * width + x') + c) by lia.
  destruct (lookup_lt_is_Some_2 pixelDataArray
              (Z.to_nat (4 * (y' * width + x') + c)) ltac:(nia)) as [v Hv].
  rewrite (u8get_Some _ (4 * (y' * width + x') + c) v ltac:(nia) Hv) in Hdget.
  destruct (f32get d (4 * (y' * width + x') + c)) as [|z]; [contradiction|].
  cbn [jsadd jsmul jsdiv jsbin jsZ jsEq]. rewrite He0. field.
Qed.

Lemma fsLoop_scratchEq (pixelDataArray : list Z) (colors : list Pixel)
    (width height : Z) (out0 : list Z) (n : nat) :
  Forall bytePixel colors -> paletteImage colors pixelDataArray ->
  0 < width ->
  Z.of_nat (length pixelDataArray) = 4 * width * height ->
  Z.of_nat n <= width * height ->
  scratchEq (upTo n (fsPass width height (paletteOf colors))
               (map jsZ pixelDataArray, out0)).1
            (map jsZ pixelDataArray).
Proof.
  intros Hbytes Himage Hw Hlen. induction n as [|n IH]; intros Hn.
  - apply scratchEq_refl.
  - cbn [upTo]. unfold fsPass at 1. cbn [fst].
    specialize (IH ltac:(lia)).
    eapply scratchEq_trans; [|exact IH].
    pose proof (Z.mod_pos_bound (Z.of_nat n) width Hw) as Hx.
    assert (Hy : 0 <= Z.of_nat n / width < height).
    { split; [apply Z.div_pos; lia|apply Z.div_lt_upper_bound; lia]. }
    apply (fsScratch_scratchEq pixelDataArray); assumption.
Qed.

(** X11.  An image that is already drawn in the palette needs no
    dithering: when every pixel that is not fully transparent has a colour
    of the (byte) palette, no error is propagated and
    [applyFloydSteinbergDithering] returns what [applyPalette] returns. *)
Theorem floydSteinberg_palette_image (pixelDataArray : list Z)
    (width height : Z) (colors : list Pixel) :
  colors <> [] -> Forall bytePixel colors ->
  paletteImage colors pixelDataArray ->
  0 < width -> 0 < height ->
  Z.of_nat (length pixelDataArray) = 4 * width * height ->
  applyFloydSteinbergDithering pixelDataArray width height (paletteOf colors)
  = applyPalette pixelDataArray (paletteOf colors).
Proof.
  intros Hne Hbytes Himage Hw Hh Hlen.
  pose proof (nonEmpty_paletteOf colors Hne) as Hpal.
  rewrite (applyFloydSteinbergDithering_passes _ _ _ _ Hpal Hw).
  unfold fsStateAt, fsStart.
  destruct (applyPalette_lookup pixelDataArray (paletteOf colors) Hpal)
    as [Haplen Haplook].
  destruct (fsLoop_invariant width height (paletteOf colors)
              (map jsZ pixelDataArray) (replicate (length pixelDataArray) 0)
              (upto height * upto width)) as (_ & Hfslen & _).
  { rewrite length_replicate, length_map. reflexivity. }
  rewrite length_map in Hfslen.
  apply list_eq. intros j.
  destruct (Nat.lt_ge_cases j (length pixelDataArray)) as [Hj|Hj].
  2:{ rewrite !lookup_ge_None_2 by lia. reflexivity. }
  rewrite (Haplook j Hj).
  pose proof (Z.div_mod (Z.of_nat j) 4 ltac:(lia)) as Hdm.
  pose proof (Z.mod_pos_bound (Z.of_nat j) 4 ltac:(lia)) as Hmod.
  set (q := Z.to_nat (Z.of_nat j / 4)).
  set (c := Z.to_nat (Z.of_nat j mod 4)).
  assert (Hq0 : 0 <= Z.of_nat j / 4) by (apply Z.div_pos; lia).
  assert (Hjqc : j = (4 * q + c)%nat) by (subst q c; lia).
  assert (Hqlt : Z.of_nat q < width * height) by (subst q; lia).
  rewrite Hjqc at 1.
  rewrite fsLoop_pixels;
    [|unfold upto; nia|subst c; lia|rewrite length_replicate; lia].
  replace (Z.of_nat c) with (Z.of_nat j mod 4) by (subst c; lia).
  replace (Z.of_nat j / 4) with (Z.of_nat q) by (subst q; lia).
  do 3 f_equal.
  set (dq := (upTo q (fsPass width height (paletteOf colors))
                (map jsZ pixelDataArray,
                 replicate (length pixelDataArray) 0)).1).
  assert (Hdq : scratchEq dq (map jsZ pixelDataArray)).
  { apply fsLoop_scratchEq; try assumption. lia. }
  destruct (lookup_lt_is_Some_2 pixelDataArray
              (Z.to_nat (4 * Z.of_nat q + 3)) ltac:(lia)) as [a Ha].
  assert (Hdalpha : f32get dq (4 * Z.of_nat q + 3) = jsZ a).
  { destruct (fsLoop_sameAlpha width height (paletteOf colors)
                (map jsZ pixelDataArray)
                (replicate (length pixelDataArray) 0) q) as [_ Halpha].
    subst dq. rewrite Halpha by (apply mod4_cell; lia).
    rewrite f32get_map_jsZ.
    apply (u8get_Some _ (4 * Z.of_nat q + 3) a); [lia|exact Ha]. }
  assert (Hualpha : u8get pixelDataArray (4 * Z.of_nat q + 3) = jsZ a).
  { apply (u8get_Some _ (4 * Z.of_nat q + 3) a); [lia|exact Ha]. }
  unfold fsQuad, paletteQuad. rewrite Hdalpha, Hualpha, jseq_jsZ.
  destruct (Z.eqb_spec a 0) as [Hz|Hnz]; [reflexivity|].
  destruct (palette_pixel pixelDataArray colors dq (Z.of_nat q) a
              Hbytes Himage Hdq ltac:(lia) Ha Hnz)
    as (p & _ & Hnew & Hmatch & _).
  cbv zeta. rewrite Hnew, Hmatch, Math_round_jsZ. reflexivity.
Qed.

Lemma paletteImage_drawnImage :
  paletteImage [(0, 0, 0); (255, 255, 255)] drawnImage.
Proof.
  intros k p a Hp Ha Hnz.
  do 4 (destruct k as [|k];
        [cbn in Hp, Ha; injection Hp as <-; injection Ha as <-;
         try congruence; cbn; auto|]).
  unfold alphaAt in Ha. apply lookup_lt_Some in Ha.
  unfold drawnImage in Ha. cbn [length] in Ha. lia.
Qed.

Lemma floydSteinberg_palette_image_witness :
  [(0, 0, 0); (255, 255, 255)] <> []
  /\ Forall bytePixel [(0, 0, 0); (255, 255, 255)]
  /\ paletteImage [(0, 0, 0); (255, 255, 255)] drawnImage
  /\ 0 < 2 /\ 0 < 2
  /\ Z.of_nat (length drawnImage) = 4 * 2 * 2
  /\ applyFloydSteinbergDithering drawnImage 2 2
       (paletteOf [(0, 0, 0); (255, 255, 255)])
     = applyPalette drawnImage (paletteOf [(0, 0, 0); (255, 255, 255)]).
Proof.
  assert (Hne : [(0, 0, 0); (255, 255, 255)] <> @nil Pixel) by discriminate.
  assert (Hbytes : Forall bytePixel [(0, 0, 0); (255, 255, 255)])
    by (repeat constructor; cbn; lia).
  assert (Hw : 0 < 2) by lia.
  assert (Hlen : Z.of_nat (length drawnImage) = 4 * 2 * 2) by reflexivity.
  split; [exact Hne|]. split; [exact Hbytes|].
  split; [exact paletteImage_drawnImage|]. split; [exact Hw|].
  split; [exact Hw|]. split; [exact Hlen|].
  exact (floydSteinberg_palette_image drawnImage 2 2 _ Hne Hbytes
           paletteImage_drawnImage Hw Hw Hlen).
Defined.

(** ** [generatePalette]: the pixels that count *)

Lemma jslt_128 (a : Z) : jslt (jsZ 128) (jsZ a) = (128 <? a).
Proof.
  unfold jslt, jsZ. destruct (Z.ltb_spec 128 a) as [H|H].
  - apply Qltb_lt. rewrite <- Zlt_Qlt. exact H.
  - apply Qltb_ge. rewrite <- Zle_Qle. exact H.
Qed.

(* What one pass of the collection loop does, for the pixel of index [k]. *)
Lemma collect_body_pixel (pixelDataArray : list Z) (k : nat) (acc : list Pixel) :
  (exists p, opaqueAt pixelDataArray k p
             /\ collect_body pixelDataArray (4 * Z.of_nat k) acc = acc ++ [p])
  \/ ((forall p, ~ opaqueAt pixelDataArray k p)
      /\ collect_body pixelDataArray (4 * Z.of_nat k) acc = acc).
Proof.
  unfold collect_body, opaqueAt, pixelAt, alphaAt, u8get.
  destruct (Z.ltb_spec (4 * Z.of_nat k + 3) 0); [lia|].
  replace (Z.to_nat (4 * Z.of_nat k + 3)) with (4 * k + 3)%nat by lia.
  replace (Z.to_nat (4 * Z.of_nat k)) with (4 * k)%nat by lia.
  replace (Z.to_nat (4 * Z.of_nat k + 1)) with (4 * k + 1)%nat by lia.
  replace (Z.to_nat (4 * Z.of_nat k + 2)) with (4 * k + 2)%nat by lia.
  destruct (pixelDataArray !! (4 * k + 3)%nat) as [a|] eqn:Ha.
  2:{ right. split; [|reflexivity]. intros p (a & _ & Habs & _). discriminate. }
  rewrite jslt_128.
  destruct (Z.ltb_spec 128 a) as [Hop|Hlow].
  2:{ right. split; [|reflexivity].
      intros p (a' & _ & Ha' & Hlt). injection Ha' as <-. lia. }
  pose proof (lookup_lt_Some _ _ _ Ha) as Hlt.
  destruct (lookup_lt_is_Some_2 pixelDataArray (4 * k)%nat ltac:(lia)) as [r Hr].
  destruct (lookup_lt_is_Some_2 pixelDataArray (4 * k + 1)%nat ltac:(lia))
    as [g Hg].
  destruct (lookup_lt_is_Some_2 pixelDataArray (4 * k + 2)%nat ltac:(lia))
    as [b Hb].
  rewrite Hr, Hg, Hb. left. exists (r, g, b).
  split; [|reflexivity]. exists a. auto.
Qed.

Lemma collectLoop_In (pixelDataArray : list Z) (n : nat) (p : Pixel) :
  In p (upTo n (fun k => collect_body pixelDataArray (4 * k)) [])
  <-> exists k, (k < n)%nat /\ opaqueAt pixelDataArray k p.
Proof.
  induction n as [|n IH]; cbn [upTo].
  - split; [intros []|intros (k & Hk & _); lia].
  - destruct (collect_body_pixel pixelDataArray n
                (upTo n (fun k => collect_body pixelDataArray (4 * k)) []))
      as [(p' & Hop & ->)|[Hnone ->]].
    + rewrite in_app_iff, IH. cbn [In]. split.
      * intros [(k & Hk & Hp)|[<-|[]]]; [exists k; split; [lia|exact Hp]|].
        exists n. split; [lia|exact Hop].
      * intros (k & Hk & Hp). destruct (Nat.eq_dec k n) as [->|Hne].
        -- right. left. destruct Hop as (a & Hpa & _), Hp as (a' & Hpa' & _).
           congruence.
        -- left. exists k. split; [lia|exact Hp].
    + rewrite IH. split.
      * intros (k & Hk & Hp). exists k. split; [lia|exact Hp].
      * intros (k & Hk & Hp). destruct (Nat.eq_dec k n) as [->|Hne].
        -- destruct (Hnone p Hp).
        -- exists k. split; [lia|exact Hp].
Qed.

(* The pixels kept for the palette are the pixels of the buffer whose alpha
   is above 128. *)
Lemma collectOpaque_In (pixelDataArray : list Z) (p : Pixel) :
  In p (collectOpaque pixelDataArray)
  <-> exists k, opaqueAt pixelDataArray k p.
Proof.
  rewrite collectOpaque_upTo, collectLoop_In. split.
  - intros (k & _ & Hp). exists k. exact Hp.
  - intros (k & Hp). exists k. split; [|exact Hp].
    destruct Hp as (a & _ & Ha & _). unfold alphaAt in Ha.
    apply lookup_lt_Some in Ha. unfold strides4.
    apply Nat.div_le_lower_bound; lia.
Qed.

(** ** [generatePalette]: what the median cut keeps *)

Lemma medianCut_invariant (I : list Bucket -> Prop) :
  (forall buckets st, I buckets -> I (splitBucket buckets st)) ->
  forall (fuel : nat) (numColors : Z) (buckets result : list Bucket),
    I buckets -> medianCut fuel numColors buckets = Some result -> I result.
Proof.
  intros Hsplit.
  induction fuel as [|fuel IH]; intros numColors buckets result HI Hcut;
    cbn [medianCut] in Hcut;
    destruct ((Z.of_nat (length buckets) <? numColors)
              && existsb (fun b => (1 <? length b)%nat) buckets);
    try discriminate Hcut; try (injection Hcut as <-; exact HI).
  destruct (_ || _); [injection Hcut as <-; exact HI|].
  apply (IH _ _ _ (Hsplit _ _ HI) Hcut).
Qed.

Lemma concat_filter_nonempty (buckets : list Bucket) :
  concat (List.filter (fun bucket => (0 <? length bucket)%nat) buckets)
  = concat buckets.
Proof.
  induction buckets as [|b rest IH]; [reflexivity|].
  destruct b as [|p b].
  - exact IH.
  - change (List.filter (fun bucket : Bucket => (0 <? length bucket)%nat)
              ((p :: b) :: rest))
      with ((p :: b)
            :: List.filter (fun bucket : Bucket => (0 <? length bucket)%nat) rest).
    cbn [concat]. rewrite IH. reflexivity.
Qed.

(* A split moves pixels between buckets and neither drops nor adds one. *)
Lemma splitBucket_perm (buckets : list Bucket) (st : Best) :
  Permutation (concat (splitBucket buckets st)) (concat buckets).
Proof.
  unfold splitBucket. rewrite concat_filter_nonempty.
  set (k := Z.to_nat (bestBucketIndex st)).
  set (sorted := sortByChannel (splitDimension st) (nth k buckets [])).
  rewrite !concat_app. cbn [concat]. rewrite app_nil_r, take_drop.
  assert (Hsorted : Permutation sorted (nth k buckets [])).
  { subst sorted. apply sortByChannel_perm. }
  rewrite Hsorted.
  destruct (buckets !! k) as [bk|] eqn:Hk.
  - rewrite (nth_lookup_Some _ _ _ _ Hk).
    rewrite <- (take_drop_middle buckets k bk Hk) at 3.
    rewrite concat_app. cbn [concat]. reflexivity.
  - apply lookup_ge_None in Hk.
    rewrite (nth_overflow buckets [] Hk).
    rewrite take_ge, drop_ge by lia. cbn [concat]. rewrite !app_nil_r.
    reflexivity.
Qed.

(** X12.  The median cut only moves pixels between buckets: when the
    loop ends, the buckets taken together hold exactly the sampled pixels
    (each as many times as it was sampled), no bucket is empty, and there
    are at most [numColors] buckets. *)
Theorem medianCut_conserves_pixels (fuel : nat) (numColors : Z)
    (pixelsToProcess : list Pixel) (buckets : list Bucket) :
  pixelsToProcess <> [] -> 1 <= numColors ->
  medianCut fuel numColors [pixelsToProcess] = Some buckets ->
  Permutation (concat buckets) pixelsToProcess
  /\ Forall (fun b => b <> []) buckets
  /\ Z.of_nat (length buckets) <= numColors.
Proof.
  intros Hne Hn Hcut. split; [|split].
  - apply (medianCut_invariant
             (fun bs => Permutation (concat bs) pixelsToProcess)
             ltac:(intros bs st H; cbv beta in *; rewrite splitBucket_perm;
                   exact H)
             fuel numColors [pixelsToProcess] buckets); [|exact Hcut].
    cbn [concat]. rewrite app_nil_r. reflexivity.
  - apply (medianCut_invariant (Forall (fun b => b <> []))
             ltac:(intros bs st _; apply splitBucket_nonempty)
             fuel numColors [pixelsToProcess] buckets); [|exact Hcut].
    repeat constructor. exact Hne.
  - revert Hcut.
    assert (Hstart : Forall (fun b : Bucket => b <> []) [pixelsToProcess]
                     /\ Z.of_nat (length [pixelsToProcess]) <= numColors).
    { split; [repeat constructor; exact Hne|cbn [length]; lia]. }
    revert Hstart. generalize [pixelsToProcess]. clear Hne pixelsToProcess.
    induction fuel as [|fuel IH]; intros bs [Hbs Hlen] Hcut;
      cbn [medianCut] in Hcut;
      destruct (Z.ltb_spec (Z.of_nat (length bs)) numColors) as [Hlt|Hge];
      cbn [andb] in Hcut;
      try (injection Hcut as <-; exact Hlen).
    + destruct (existsb _ bs); [discriminate|].
      injection Hcut as <-. exact Hlen.
    + destruct (existsb _ bs) eqn:Hex; [|injection Hcut as <-; exact Hlen].
      destruct (_ || _); [injection Hcut as <-; exact Hlen|].
      apply (IH (splitBucket bs (selectBucket bs))); [|exact Hcut].
      split; [apply splitBucket_nonempty|].
      destruct (candidate_lookup _ _ _ _ (selectBucket_found bs Hex))
        as (k & bk & Hk & Hbk & Hlenbk).
      rewrite (splitBucket_length _ _ _ _ Hbs Hk Hbk Hlenbk). lia.
Qed.

Lemma medianCut_conserves_pixels_witness :
  [(255, 0, 0); (0, 255, 0); (0, 0, 255)] <> [] /\ 1 <= 2
  /\ medianCut 2 2 [[(255, 0, 0); (0, 255, 0); (0, 0, 255)]]
     = Some [[(0, 255, 0)]; [(0, 0, 255); (255, 0, 0)]]
  /\ Permutation (concat [[(0, 255, 0)]; [(0, 0, 255); (255, 0, 0)]])
       [(255, 0, 0); (0, 255, 0); (0, 0, 255)]
  /\ Forall (fun b : Bucket => b <> []) [[(0, 255, 0)]; [(0, 0, 255); (255, 0, 0)]]
  /\ Z.of_nat (length [[(0, 255, 0)]; [(0, 0, 255); (255, 0, 0)]]) <= 2.
Proof.
  assert (Hne : [(255, 0, 0); (0, 255, 0); (0, 0, 255)] <> @nil Pixel)
    by discriminate.
  assert (Hn : 1 <= 2) by lia.
  assert (Hcut : medianCut 2 2 [[(255, 0, 0); (0, 255, 0); (0, 0, 255)]]
                 = Some [[(0, 255, 0)]; [(0, 0, 255); (255, 0, 0)]])
    by (vm_compute; reflexivity).
  split; [exact Hne|]. split; [exact Hn|]. split; [exact Hcut|].
  exact (medianCut_conserves_pixels 2 2 _ _ Hne Hn Hcut).
Defined.

(** ** [generatePalette]: where the colours lie *)

Lemma Qfloor_half (z : Z) : Qfloor (inject_Z z + (1 # 2)) = z.
Proof.
  unfold Qfloor, Qplus, inject_Z. cbn [Qnum Qden].
  change (Z.pos (1 * 2)) with 2. change (Z.pos 2) with 2. change (Z.pos 1) with 1.
  pose proof (Z.div_mod (z * 2 + 1 * 1) 2 ltac:(lia)).
  pose proof (Z.mod_pos_bound (z * 2 + 1 * 1) 2 ltac:(lia)). lia.
Qed.

(* A rounded mean lies between any two integers that bound the values. *)
Lemma roundDiv_range (sum : Z) (n : nat) (lo hi : Z) :
  (0 < n)%nat ->
  lo * Z.of_nat n <= sum <= hi * Z.of_nat n ->
  lo <= roundDiv sum n <= hi.
Proof.
  intros Hn [Hlo Hhi]. unfold roundDiv.
  assert (Hpos : (0 < inject_Z (Z.of_nat n))%Q).
  { rewrite <- (Zlt_Qlt 0). lia. }
  assert (Hq1 : (inject_Z lo <= inject_Z sum / inject_Z (Z.of_nat n))%Q).
  { apply Qle_shift_div_l; [exact Hpos|].
    rewrite <- inject_Z_mult, <- Zle_Qle. exact Hlo. }
  assert (Hq2 : (inject_Z sum / inject_Z (Z.of_nat n) <= inject_Z hi)%Q).
  { apply Qle_shift_div_r; [exact Hpos|].
    rewrite <- inject_Z_mult, <- Zle_Qle. exact Hhi. }
  split.
  - rewrite <- (Qfloor_half lo) at 1. apply Qfloor_resp_le. lra.
  - rewrite <- (Qfloor_half hi) at 1. apply Qfloor_resp_le. lra.
Qed.

Lemma averageBucket_fold (bucket : Bucket) (r g b : Z) :
  fold_left
    (fun '(r, g, b) pixel =>
       (r + chan 0 pixel, g + chan 1 pixel, b + chan 2 pixel))
    bucket (r, g, b)
  = (r + channelSum 0 bucket, g + channelSum 1 bucket, b + channelSum 2 bucket).
Proof.
  revert r g b. induction bucket as [|p bucket IH]; intros r g b.
  - unfold channelSum. cbn [fold_left fold_right].
    rewrite !Z.add_0_r. reflexivity.
  - cbn [fold_left]. rewrite IH. unfold channelSum. cbn [fold_right].
    rewrite !Z.add_assoc. reflexivity.
Qed.

Lemma channelSum_range (dim lo hi : Z) (bucket : Bucket) :
  Forall (chanWithin dim lo hi) bucket ->
  lo * Z.of_nat (length bucket) <= channelSum dim bucket
  <= hi * Z.of_nat (length bucket).
Proof.
  induction 1 as [|p bucket Hp _ IH]; [cbn; lia|].
  cbn [channelSum fold_right length]. fold (channelSum dim bucket).
  unfold chanWithin in Hp. lia.
Qed.

Lemma chan_cases (dim : Z) (p : Pixel) :
  chan dim p = chan 0 p \/ chan dim p = chan 1 p \/ chan dim p = chan 2 p.
Proof.
  unfold chan. destruct (dim =? 0); [auto|]. destruct (dim =? 1); cbn; auto.
Qed.

Lemma chan_tuple (dim r g b : Z) :
  chan dim (r, g, b) = if dim =? 0 then r else if dim =? 1 then g else b.
Proof. reflexivity. Qed.

(* The colour of a bucket lies, channel by channel, between any bounds of
   its pixels. *)
Lemma averageBucket_within (dim lo hi : Z) (bucket : Bucket) :
  bucket <> [] ->
  Forall (chanWithin dim lo hi) bucket ->
  chanWithin dim lo hi (averageBucket bucket).
Proof.
  intros Hne Hall. unfold averageBucket.
  destruct bucket as [|p0 rest] eqn:Hb; [congruence|]. rewrite <- Hb in *.
  rewrite averageBucket_fold. rewrite !Z.add_0_l.
  assert (Hlen : (0 < length bucket)%nat) by (rewrite Hb; cbn; lia).
  unfold chanWithin. rewrite chan_tuple.
  destruct (Z.eqb_spec dim 0) as [->|N0];
    [apply roundDiv_range; [exact Hlen|apply channelSum_range, Hall]|].
  destruct (Z.eqb_spec dim 1) as [->|N1];
    [apply roundDiv_range; [exact Hlen|apply channelSum_range, Hall]|].
  apply roundDiv_range; [exact Hlen|]. apply channelSum_range.
  eapply Forall_impl; [exact Hall|]. intros p. unfold chanWithin, chan.
  destruct (Z.eqb_spec dim 0); [lia|]. destruct (Z.eqb_spec dim 1); [lia|].
  cbn. auto.
Qed.

Lemma normalizePalette_Forall (P : Pixel -> Prop) (numColors : Z)
    (generatedPalette : list Pixel) :
  generatedPalette <> [] -> Forall P generatedPalette ->
  Forall P (normalizePalette numColors generatedPalette).
Proof.
  intros Hne Hall. unfold normalizePalette.
  set (n := Z.to_nat numColors).
  destruct (last generatedPalette) as [c|] eqn:Hlast.
  2:{ apply last_None in Hlast. congruence. }
  assert (Hc : P c).
  { rewrite Forall_forall in Hall. apply Hall.
    apply last_Some_elem_of in Hlast. exact Hlast. }
  set (padded := generatedPalette ++ replicate (n - length generatedPalette) c).
  assert (Hpadded : Forall P padded).
  { apply Forall_app. split; [exact Hall|].
    apply Forall_replicate, Hc. }
  assert (Hlen : (n <= length padded)%nat \/ (length generatedPalette <= n)%nat
                 /\ length padded = n).
  { subst padded. rewrite length_app, length_replicate. lia. }
  destruct (n <? length padded)%nat eqn:E.
  - apply Nat.ltb_lt in E.
    rewrite length_take. replace (n - n `min` length padded)%nat with O by lia.
    cbn [replicate]. rewrite app_nil_r. apply Forall_take, Hpadded.
  - apply Nat.ltb_ge in E.
    replace (n - length padded)%nat with O by lia.
    cbn [replicate]. rewrite app_nil_r. exact Hpadded.
Qed.

(* The palette of a buffer with a pixel that counts: every property of one
   channel that holds between two bounds for the pixels that count holds
   for the colours of the palette. *)
Lemma generatePalette_within (pixelDataArray : list Z) (numColors : Q)
    (palette : list Pixel) (dim lo hi : Z) :
  collectOpaque pixelDataArray <> [] ->
  Forall (chanWithin dim lo hi) (collectOpaque pixelDataArray) ->
  generatePalette pixelDataArray numColors = Some palette ->
  Forall (chanWithin dim lo hi) palette.
Proof.
  intros Hne Hall. unfold generatePalette.
  destruct (collectOpaque pixelDataArray) as [|p0 allPixels] eqn:Hcollect;
    [congruence|].
  rewrite <- Hcollect in *. clear Hcollect p0 allPixels.
  destruct (medianCut _ _ _) as [buckets|] eqn:Hcut; [|discriminate].
  intros Hgen. injection Hgen as <-.
  assert (Hsample : samplePixels (collectOpaque pixelDataArray) <> [])
    by (apply samplePixels_nonempty, Hne).
  assert (Hbuckets : Forall (Forall (chanWithin dim lo hi)) buckets).
  { apply (medianCut_invariant (Forall (Forall (chanWithin dim lo hi)))
             (splitBucket_pixels (chanWithin dim lo hi)) _ _ _ _
             (Forall_cons_2 _ _ _
                (samplePixels_subset _ _ Hall) (Forall_nil_2 _)) Hcut). }
  assert (Hnonempty : Forall (fun b : Bucket => b <> []) buckets).
  { apply (medianCut_invariant (Forall (fun b : Bucket => b <> []))
             ltac:(intros bs st _; apply splitBucket_nonempty) _ _ _ _
             (Forall_cons_2 (fun b : Bucket => b <> []) _ _
                Hsample (Forall_nil_2 _)) Hcut). }
  assert (Hsome : buckets <> []).
  { intros ->.
    assert (Hstart : concat [samplePixels (collectOpaque pixelDataArray)] <> []).
    { cbn [concat]. rewrite app_nil_r. exact Hsample. }
    apply (medianCut_invariant (fun bs : list Bucket => concat bs <> [])
             ltac:(intros bs st H Hnil; cbv beta in *; apply H;
                   apply Permutation_nil;
                   rewrite <- (splitBucket_perm bs st), Hnil;
                   reflexivity)
             _ _ _ _ Hstart Hcut).
    reflexivity. }
  apply normalizePalette_Forall.
  - destruct buckets; [congruence|discriminate].
  - apply Forall_forall. intros c Hc.
    apply list_elem_of_In, in_map_iff in Hc as (bucket & <- & Hin).
    apply list_elem_of_In in Hin.
    rewrite Forall_forall in Hbuckets, Hnonempty.
    apply averageBucket_within; [apply Hnonempty, Hin|apply Hbuckets, Hin].
Qed.

(** X13.  The colours of a generated palette lie where the pixels that
    count lie: when the buffer has a pixel with alpha above 128 and a
    channel (R, G or B) of every such pixel is between [lo] and [hi], the
    same channel of every colour of the palette is between [lo] and [hi]. *)
Theorem generatePalette_within_bounds (pixelDataArray : list Z) (numColors : Q)
    (palette : list Pixel) (dim lo hi : Z) (k0 : nat) (p0 : Pixel) :
  opaqueAt pixelDataArray k0 p0 ->
  (forall k p, opaqueAt pixelDataArray k p -> lo <= chan dim p <= hi) ->
  generatePalette pixelDataArray numColors = Some palette ->
  forall c, In c palette -> lo <= chan dim c <= hi.
Proof.
  intros Hp0 Hall Hgen c Hc.
  assert (Hne : collectOpaque pixelDataArray <> []).
  { intros Hnil.
    assert (Hin : In p0 (collectOpaque pixelDataArray))
      by (apply collectOpaque_In; exists k0; exact Hp0).
    rewrite Hnil in Hin. destruct Hin. }
  assert (Hopaque : Forall (chanWithin dim lo hi) (collectOpaque pixelDataArray)).
  { apply Forall_forall. intros p Hp.
    apply list_elem_of_In, collectOpaque_In in Hp as (k & Hk).
    apply (Hall k p Hk). }
  pose proof (generatePalette_within _ _ _ dim lo hi Hne Hopaque Hgen) as Hpal.
  rewrite Forall_forall in Hpal. apply Hpal, list_elem_of_In, Hc.
Qed.

Lemma generatePalette_within_bounds_witness :
  opaqueAt grey2x2 0 (100, 100, 100)
  /\ (forall k p, opaqueAt grey2x2 k p -> 100 <= chan 0 p <= 200)
  /\ generatePalette grey2x2 (inject_Z 2)
     = Some [(200, 10, 30); (110, 115, 120)]
  /\ forall c, In c [(200, 10, 30); (110, 115, 120)] -> 100 <= chan 0 c <= 200.
Proof.
  assert (Hp0 : opaqueAt grey2x2 0 (100, 100, 100)).
  { exists 255. repeat split. }
  assert (Hall : forall k p, opaqueAt grey2x2 k p -> 100 <= chan 0 p <= 200).
  { intros k p (a & Hp & Ha & Hlt).
    do 4 (destruct k as [|k];
          [cbn in Hp, Ha; injection Hp as <-; injection Ha as <-;
           cbn; lia|]).
    unfold alphaAt in Ha. apply lookup_lt_Some in Ha.
    unfold grey2x2 in Ha. cbn [length] in Ha. lia. }
  assert (Hgen : generatePalette grey2x2 (inject_Z 2)
                 = Some [(200, 10, 30); (110, 115, 120)])
    by (vm_compute; reflexivity).
  split; [exact Hp0|]. split; [exact Hall|]. split; [exact Hgen|].
  exact (generatePalette_within_bounds grey2x2 (inject_Z 2) _ 0 100 200 0
           (100, 100, 100) Hp0 Hall Hgen).
Defined.

(** X14.  When all the pixels with alpha above 128 have one and the
    same colour, every entry of the generated palette is that colour. *)
Theorem generatePalette_single_colour (pixelDataArray : list Z) (numColors : Q)
    (palette : list Pixel) (k0 : nat) (p0 : Pixel) :
  opaqueAt pixelDataArray k0 p0 ->
  (forall k p, opaqueAt pixelDataArray k p -> p = p0) ->
  generatePalette pixelDataArray numColors = Some palette ->
  palette = replicate (Z.to_nat (clampNumColors numColors)) p0.
Proof.
  intros Hp0 Hall Hgen.
  assert (Hne : collectOpaque pixelDataArray <> []).
  { intros Hnil.
    assert (Hin : In p0 (collectOpaque pixelDataArray))
      by (apply collectOpaque_In; exists k0; exact Hp0).
    rewrite Hnil in Hin. destruct Hin. }
  assert (Hopaque : forall dim,
            Forall (chanWithin dim (chan dim p0) (chan dim p0))
              (collectOpaque pixelDataArray)).
  { intros dim. apply Forall_forall. intros p Hp.
    apply list_elem_of_In, collectOpaque_In in Hp as (k & Hk).
    rewrite (Hall k p Hk). unfold chanWithin. lia. }
  pose proof (fun dim => generatePalette_within _ _ _ dim _ _ Hne (Hopaque dim) Hgen)
    as Hpal.
  destruct (generatePalette_length pixelDataArray numColors)
    as (palette' & Hgen' & Hlen).
  rewrite Hgen in Hgen'. injection Hgen' as <-.
  symmetry. apply replicate_as_Forall. split; [lia|].
  apply Forall_forall. intros c Hc.
  pose proof (Hpal 0) as H0. pose proof (Hpal 1) as H1. pose proof (Hpal 2) as H2.
  rewrite Forall_forall in H0, H1, H2.
  specialize (H0 c Hc). specialize (H1 c Hc). specialize (H2 c Hc).
  unfold chanWithin in H0, H1, H2.
  destruct c as [[cr cg] cb], p0 as [[r g] b].
  rewrite !chan_tuple in H0, H1, H2. cbn in H0, H1, H2.
  repeat f_equal; lia.
Qed.

Lemma generatePalette_single_colour_witness :
  opaqueAt [7; 8; 9; 255; 1; 2; 3; 100; 7; 8; 9; 200] 0 (7, 8, 9)
  /\ (forall k p,
        opaqueAt [7; 8; 9; 255; 1; 2; 3; 100; 7; 8; 9; 200] k p -> p = (7, 8, 9))
  /\ generatePalette [7; 8; 9; 255; 1; 2; 3; 100; 7; 8; 9; 200] (inject_Z 3)
     = Some [(7, 8, 9); (7, 8, 9); (7, 8, 9)]
  /\ [(7, 8, 9); (7, 8, 9); (7, 8, 9)]
     = replicate (Z.to_nat (clampNumColors (inject_Z 3))) (7, 8, 9).
Proof.
  assert (Hp0 : opaqueAt [7; 8; 9; 255; 1; 2; 3; 100; 7; 8; 9; 200] 0 (7, 8, 9)).
  { exists 255. repeat split. }
  assert (Hall : forall k p,
            opaqueAt [7; 8; 9; 255; 1; 2; 3; 100; 7; 8; 9; 200] k p
            -> p = (7, 8, 9)).
  { intros k p (a & Hp & Ha & Hlt).
    do 3 (destruct k as [|k];
          [cbn in Hp, Ha; injection Hp as <-; injection Ha as <-;
           try reflexivity; lia|]).
    unfold alphaAt in Ha. apply lookup_lt_Some in Ha.
    cbn [length] in Ha. lia. }
  assert (Hgen : generatePalette [7; 8; 9; 255; 1; 2; 3; 100; 7; 8; 9; 200]
                   (inject_Z 3)
                 = Some [(7, 8, 9); (7, 8, 9); (7, 8, 9)])
    by (vm_compute; reflexivity).
  split; [exact Hp0|]. split; [exact Hall|]. split; [exact Hgen|].
  exact (generatePalette_single_colour _ (inject_Z 3) _ 0 (7, 8, 9)
           Hp0 Hall Hgen).
Defined.

(** ** [generatePalette]: the fallback palette *)








(** ** [generatePalette]: bytes, and the number of colours *)




(** X17.  [generatePalette] accepts any finite number as [numColors]:
    it always returns a palette, whose length is the integer part of
    [numColors] brought into the range from 1 to 256 (so 0 or a negative
    count gives 1 colour, 2.9 gives 2, and 1000 gives 256). *)
Theorem generatePalette_count_clamped (pixelDataArray : list Z) (numColors : Q) :
  exists palette,
    generatePalette pixelDataArray numColors = Some palette
    /\ Z.of_nat (length palette) = Z.max 1 (Z.min 256 (Qfloor numColors)).
Proof. exact (generatePalette_length pixelDataArray numColors). Qed.

(** ** [generatePalette]: the sampling of large images *)

Lemma sample_loop_lookup (allPixels : list Pixel) (step : nat) (fuel : nat) :
  forall (i : nat) (acc : list Pixel) (j : nat),
    (j < length (sample_loop fuel allPixels step i acc))%nat ->
    sample_loop fuel allPixels step i acc !! j
    = if (j <? length acc)%nat then acc !! j
      else allPixels !! (i + (j - length acc) * step)%nat.
Proof.
  induction fuel as [|fuel IH]; intros i acc j Hj; cbn [sample_loop] in *.
  - destruct (Nat.ltb_spec j (length acc)); [reflexivity|lia].
  - destruct (allPixels !! i) as [p|] eqn:Hp.
    2:{ destruct (Nat.ltb_spec j (length acc)); [reflexivity|lia]. }
    assert (Hsnoc : (acc ++ [p]) !! j
                    = (if (j <? length acc)%nat then acc !! j
                       else allPixels !! (i + (j - length acc) * step)%nat)
                    \/ (length acc < j)%nat).
    { destruct (Nat.ltb_spec j (length acc)) as [Hlt|Hge].
      - left. apply lookup_app_l, Hlt.
      - destruct (Nat.eq_dec j (length acc)) as [->|Hne]; [|right; lia].
        left. rewrite lookup_app_r by lia.
        replace (length acc - length acc)%nat with O by lia.
        cbn. rewrite Nat.add_0_r. symmetry. exact Hp. }
    destruct (_ <=? _)%nat.
    + rewrite length_app in Hj. cbn [length] in Hj.
      destruct Hsnoc as [H|H]; [exact H|lia].
    + rewrite (IH _ _ _ Hj). rewrite length_app. cbn [length].
      destruct Hsnoc as [H|H].
      * destruct (Nat.ltb_spec j (length acc + 1)) as [Hlt|Hge]; [exact H|].
        destruct (Nat.ltb_spec j (length acc)); [lia|].
        f_equal. nia.
      * destruct (Nat.ltb_spec j (length acc + 1)); [lia|].
        destruct (Nat.ltb_spec j (length acc)); [lia|].
        f_equal. nia.
Qed.

Lemma sample_loop_full (allPixels : list Pixel) (step : nat) (fuel : nat) :
  forall (i : nat) (acc : list Pixel),
    (length acc < MAX_PIXELS_FOR_PALETTE_GENERATION)%nat ->
    (MAX_PIXELS_FOR_PALETTE_GENERATION <= length acc + fuel)%nat ->
    (forall k, (length acc + k < MAX_PIXELS_FOR_PALETTE_GENERATION)%nat ->
               (i + k * step < length allPixels)%nat) ->
    length (sample_loop fuel allPixels step i acc)
    = MAX_PIXELS_FOR_PALETTE_GENERATION.
Proof.
  induction fuel as [|fuel IH]; intros i acc Hacc Hfuel Hin;
    cbn [sample_loop]; [lia|].
  destruct (lookup_lt_is_Some_2 allPixels i) as [p Hp].
  { specialize (Hin O). lia. }
  rewrite Hp.
  destruct (Nat.leb_spec MAX_PIXELS_FOR_PALETTE_GENERATION (length (acc ++ [p])))
    as [Hfull|Hmore]; rewrite length_app in *; cbn [length] in *; [lia|].
  rewrite IH; [reflexivity|rewrite length_app; cbn [length]; lia
              |rewrite length_app; cbn [length]; lia|].
  intros k Hk. rewrite length_app in Hk. cbn [length] in Hk.
  specialize (Hin (Datatypes.S k) ltac:(lia)). lia.
Qed.

(** X18.  [generatePalette] works on at most 65536 of the pixels that
    count.  When there are no more than that, all of them are used; when
    there are more, exactly 65536 are used, namely those at the indices 0,
    [step], 2 [step], ... with [step] the integer part of the number of
    pixels divided by 65536. *)
Theorem samplePixels_every_step (allPixels : list Pixel) :
  let sample := samplePixels allPixels in
  let step :=
    Nat.max 1 (Nat.div (length allPixels) MAX_PIXELS_FOR_PALETTE_GENERATION) in
  length sample
  = Nat.min MAX_PIXELS_FOR_PALETTE_GENERATION (length allPixels)
  /\ forall j, (j < length sample)%nat ->
       sample !! j = allPixels !! (j * step)%nat.
Proof.
  cbv zeta. unfold samplePixels.
  assert (HM : (0 < MAX_PIXELS_FOR_PALETTE_GENERATION)%nat)
    by (unfold MAX_PIXELS_FOR_PALETTE_GENERATION; lia).
  set (M := MAX_PIXELS_FOR_PALETTE_GENERATION) in *.
  set (step := Nat.max 1 (Nat.div (length allPixels) M)).
  destruct (Nat.ltb_spec M (length allPixels)) as [Hbig|Hsmall].
  - assert (Hstep : (1 <= Nat.div (length allPixels) M)%nat)
      by (apply Nat.div_le_lower_bound; lia).
    pose proof (Nat.Div0.mul_div_le (length allPixels) M) as Hmul.
    assert (Hlen : length (sample_loop M allPixels step 0 []) = M).
    { apply sample_loop_full; cbn [length]; try lia.
      intros k Hk. subst step. nia. }
    destruct (sample_loop M allPixels step 0 []) as [|p l] eqn:Hloop;
      [cbn [length] in Hlen; lia|].
    rewrite <- Hloop in *. split; [lia|].
    intros j Hj. rewrite sample_loop_lookup by exact Hj.
    cbn [length]. destruct (Nat.ltb_spec j 0); [lia|].
    f_equal. lia.
  - assert (Hstep : step = 1%nat).
    { subst step.
      destruct (Nat.eq_dec (length allPixels) M) as [->|Hne].
      - rewrite Nat.div_same by lia. reflexivity.
      - rewrite Nat.div_small by lia. reflexivity. }
    rewrite Hstep.
    assert (Hsame : match allPixels with
                    | [] => match allPixels with
                            | [] => []
                            | p :: _ => [p]
                            end
                    | _ :: _ => allPixels
                    end = allPixels) by (destruct allPixels; reflexivity).
    rewrite Hsame. split; [lia|].
    intros j _. f_equal. lia.
Qed.

(** ** Loops that store one quadruple per pixel of the buffer *)



(** ** [convertToGrayscale] *)



(* Rounding to a byte keeps a number between two bytes that bound it. *)
Lemma toUint8Clamp_between (q : Q) (lo hi : Z) :
  0 <= lo -> hi <= 255 ->
  (inject_Z lo <= q)%Q -> (q <= inject_Z hi)%Q ->
  lo <= toUint8Clamp (Num q) <= hi.
Proof.
  intros Hlo Hhi Hq1 Hq2.
  assert (Hlohi : lo <= hi).
  { rewrite Zle_Qle. eapply Qle_trans; eassumption. }
  unfold toUint8Clamp.
  destruct (Qle_bool q 0) eqn:E0.
  { apply Qle_bool_iff in E0.
    assert (lo <= 0); [|lia].
    rewrite Zle_Qle. eapply Qle_trans; eassumption. }
  destruct (Qle_bool 255 q) eqn:E1.
  { apply Qle_bool_iff in E1.
    assert (255 <= hi); [|lia].
    rewrite Zle_Qle. eapply Qle_trans; eassumption. }
  assert (Hf1 : lo <= Qfloor q).
  { rewrite <- (Qfloor_Z lo). apply Qfloor_resp_le, Hq1. }
  assert (Hf2 : Qfloor q <= hi).
  { rewrite <- (Qfloor_Z hi). apply Qfloor_resp_le, Hq2. }
  assert (Hup : (inject_Z (Qfloor q) < q)%Q -> Qfloor q + 1 <= hi).
  { intros Hlt. assert (Qfloor q < hi); [|lia].
    rewrite Zlt_Qlt. eapply Qlt_le_trans; eassumption. }
  destruct (Qltb (inject_Z (Qfloor q) + (1 # 2)) q) eqn:E2.
  { apply Qltb_lt in E2. split; [lia|]. apply Hup. lra. }
  destruct (Qltb q (inject_Z (Qfloor q) + (1 # 2))) eqn:E3; [lia|].
  apply Qltb_ge in E2, E3.
  destruct (Z.even (Qfloor q)); [lia|].
  split; [lia|]. apply Hup. lra.
Qed.








(** ** The colour space: from RGB to HSL *)

Lemma Qle_bool_false (x y : Q) : Qle_bool x y = false -> (y < x)%Q.
Proof.
  intros E. apply Qnot_le_lt. intros H. apply Qle_bool_iff in H. congruence.
Qed.

Lemma Qeq_bool_false (x y : Q) : Qeq_bool x y = false -> ~ (x == y)%Q.
Proof. apply Qeq_bool_neq. Qed.

Lemma Qeq_bool_pos (x : Q) : (0 < x)%Q -> Qeq_bool x 0 = false.
Proof.
  intros Hx. destruct (Qeq_bool x 0) eqn:E; [|reflexivity].
  apply Qeq_bool_iff in E. lra.
Qed.

Lemma Math_max3 (x y z : Q) :
  exists M,
    Math_max (Math_max (Num x) (Num y)) (Num z) = Num M
    /\ (x <= M)%Q /\ (y <= M)%Q /\ (z <= M)%Q /\ (M = x \/ M = y \/ M = z).
Proof.
  cbn [Math_max].
  destruct (Qle_bool x y) eqn:E1;
    [apply Qle_bool_iff in E1|apply Qle_bool_false in E1];
    match goal with
    | |- context [Qle_bool ?a z] =>
        destruct (Qle_bool a z) eqn:E2;
          [apply Qle_bool_iff in E2|apply Qle_bool_false in E2]
    end;
    eexists; (split; [reflexivity|]); repeat split; try lra; auto.
Qed.

Lemma Math_min3 (x y z : Q) :
  exists m,
    Math_min (Math_min (Num x) (Num y)) (Num z) = Num m
    /\ (m <= x)%Q /\ (m <= y)%Q /\ (m <= z)%Q /\ (m = x \/ m = y \/ m = z).
Proof.
  cbn [Math_min].
  destruct (Qle_bool x y) eqn:E1;
    [apply Qle_bool_iff in E1|apply Qle_bool_false in E1];
    match goal with
    | |- context [Qle_bool ?a z] =>
        destruct (Qle_bool a z) eqn:E2;
          [apply Qle_bool_iff in E2|apply Qle_bool_false in E2]
    end;
    eexists; (split; [reflexivity|]); repeat split; try lra; auto.
Qed.

Lemma jsquot_finite (x y : Q) :
  ~ (y == 0)%Q -> jsquot (Num x) (Num y) = Num (x / y).
Proof.
  intros Hy. unfold jsquot. destruct (Qeq_bool y 0) eqn:E; [|reflexivity].
  apply Qeq_bool_iff in E. contradiction.
Qed.

Lemma fraction_range (v : Z) : 0 <= v <= 255 -> (0 <= fraction v <= 1)%Q.
Proof.
  intros Hv. unfold fraction.
  assert (H0 : (0 <= inject_Z v)%Q)
    by (change 0%Q with (inject_Z 0); rewrite <- Zle_Qle; lia).
  assert (H1 : (inject_Z v <= 255)%Q)
    by (change 255%Q with (inject_Z 255); rewrite <- Zle_Qle; lia).
  change (inject_Z 255) with 255%Q. split.
  - apply Qle_shift_div_l; lra.
  - apply Qle_shift_div_r; lra.
Qed.

(* [rgbToHsl] on numbers that are fractions of 255 between 0 and 1. *)
Lemma rgbToHsl_finite (r g b : Q) :
  let R := (r / inject_Z 255)%Q in
  let G := (g / inject_Z 255)%Q in
  let B := (b / inject_Z 255)%Q in
  (0 <= R <= 1)%Q -> (0 <= G <= 1)%Q -> (0 <= B <= 1)%Q ->
  exists h s l : Q,
    rgbToHsl (Num r) (Num g) (Num b) = (Num h, Num s, Num l)
    /\ hslOf R G B h s l.
Proof.
  intros R G B HR HG HB. unfold rgbToHsl, hslOf. cbv zeta.
  unfold jsZ. cbn [jsdiv jsbin]. fold R G B.
  destruct (Math_max3 R G B) as (M & -> & HM).
  destruct (Math_min3 R G B) as (m & -> & Hm).
  cbn [jseq jsadd jssub jsdiv jsbin jslt].
  destruct HR as [HR0 HR1], HG as [HG0 HG1], HB as [HB0 HB1].
  assert (Hmle : (m <= M)%Q) by (destruct HM as (? & _); destruct Hm as (? & _); lra).
  assert (Hm0 : (0 <= m)%Q)
    by (destruct Hm as (_ & _ & _ & [-> | [-> | ->]]); assumption).
  assert (HM1 : (M <= 1)%Q)
    by (destruct HM as (_ & _ & _ & [-> | [-> | ->]]); assumption).
  destruct (Qeq_bool M m) eqn:Eeq.
  - apply Qeq_bool_iff in Eeq.
    eexists. eexists. eexists. split; [reflexivity|].
    exists M, m. split; [exact HM|]. split; [exact Hm|].
    split; [reflexivity|]. left. auto.
  - apply Qeq_bool_false in Eeq.
    assert (Hlt : (m < M)%Q) by lra.
    assert (Hd : ~ (M - m == 0)%Q) by lra.
    assert (Hsum : ~ (M + m == 0)%Q) by lra.
    assert (Hcosum : ~ (inject_Z 2 - M - m == 0)%Q).
    { change (inject_Z 2) with 2%Q. lra. }
    rewrite !(jsquot_finite _ _ Hd), (jsquot_finite _ _ Hsum),
      (jsquot_finite _ _ Hcosum).
    assert (Hsat : exists s,
              (if Qltb (1 # 2) ((M + m) / inject_Z 2)
               then Num ((M - m) / (inject_Z 2 - M - m))
               else Num ((M - m) / (M + m))) = Num s
              /\ (((1 # 2) < (M + m) / 2 /\ s == (M - m) / (2 - M - m))%Q
                  \/ ((M + m) / 2 <= (1 # 2) /\ s == (M - m) / (M + m))%Q)).
    { change (inject_Z 2) with 2%Q.
      destruct (Qltb (1 # 2) ((M + m) / 2)) eqn:E.
      - apply Qltb_lt in E. eexists. split; [reflexivity|]. left.
        split; [exact E|reflexivity].
      - apply Qltb_ge in E. eexists. split; [reflexivity|]. right.
        split; [exact E|reflexivity]. }
    destruct Hsat as (s & -> & Hs).
    assert (Hhue : exists h,
              ((if Qeq_bool M R
                then Num ((G - B) / (M - m))
                     + (if Qltb G B then Num (inject_Z 6) else Num (inject_Z 0))
                else if Qeq_bool M G
                     then Num ((B - R) / (M - m)) + Num (inject_Z 2)
                     else if Qeq_bool M B
                          then Num ((R - G) / (M - m)) + Num (inject_Z 4)
                          else NaN) / Num (inject_Z 6))%js = Num h
              /\ ((M == R /\ B <= G /\ h == ((G - B) / (M - m) + 0) / 6)%Q
                  \/ (M == R /\ G < B /\ h == ((G - B) / (M - m) + 6) / 6)%Q
                  \/ (M == G /\ ~ M == R /\ h == ((B - R) / (M - m) + 2) / 6)%Q
                  \/ (M == B /\ ~ M == R /\ ~ M == G
                      /\ h == ((R - G) / (M - m) + 4) / 6)%Q)).
    { change (inject_Z 6) with 6%Q. change (inject_Z 0) with 0%Q.
      change (inject_Z 2) with 2%Q. change (inject_Z 4) with 4%Q.
      destruct (Qeq_bool M R) eqn:ER.
      { apply Qeq_bool_iff in ER.
        destruct (Qltb G B) eqn:EGB.
        - apply Qltb_lt in EGB. eexists. split; [reflexivity|].
          right. left. repeat split; [exact ER|exact EGB].
        - apply Qltb_ge in EGB. eexists. split; [reflexivity|].
          left. repeat split; [exact ER|exact EGB]. }
      apply Qeq_bool_false in ER.
      destruct (Qeq_bool M G) eqn:EG.
      { apply Qeq_bool_iff in EG. eexists. split; [reflexivity|].
        right. right. left. repeat split; [exact EG|exact ER]. }
      apply Qeq_bool_false in EG.
      destruct (Qeq_bool M B) eqn:EB.
      { apply Qeq_bool_iff in EB. eexists. split; [reflexivity|].
        right. right. right. repeat split; [exact EB|exact ER|exact EG]. }
      apply Qeq_bool_false in EB. exfalso.
      destruct HM as (_ & _ & _ & [-> | [-> | ->]]);
        [apply ER|apply EG|apply EB]; reflexivity. }
    destruct Hhue as (h & -> & Hh).
    eexists. eexists. eexists. split; [reflexivity|].
    exists M, m. split; [exact HM|]. split; [exact Hm|].
    split; [reflexivity|]. right. split; [exact Hlt|]. split; [exact Hs|exact Hh].
Qed.

Lemma Qdiv_between (x d lo hi : Q) :
  (0 < d)%Q -> (lo * d <= x)%Q -> (x <= hi * d)%Q -> (lo <= x / d <= hi)%Q.
Proof.
  intros Hd Hlo Hhi. split.
  - apply Qle_shift_div_l; assumption.
  - apply Qle_shift_div_r; assumption.
Qed.

Lemma Qdiv_mult (x d : Q) : ~ (d == 0)%Q -> (x / d * d == x)%Q.
Proof. intros Hd. field. exact Hd. Qed.

Lemma Qdiv_sign (x d : Q) :
  (0 < d)%Q ->
  ((x < 0)%Q /\ (x / d < 0)%Q) \/ ((x == 0)%Q /\ (x / d == 0)%Q)
  \/ ((0 < x)%Q /\ (0 < x / d)%Q).
Proof.
  intros Hd.
  destruct (Qlt_le_dec x 0) as [Hneg|Hnn].
  - left. split; [exact Hneg|]. apply Qlt_shift_div_r; [exact Hd|]. lra.
  - destruct (Qlt_le_dec 0 x) as [Hpos|Hnp].
    + right. right. split; [exact Hpos|]. apply Qlt_shift_div_l; [exact Hd|]. lra.
    + right. left. assert (Hx : (x == 0)%Q) by lra. split; [exact Hx|].
      rewrite Hx. field. lra.
Qed.

Lemma Qdiv_cmp (x d c : Q) :
  (0 < d)%Q ->
  ((x < c * d)%Q /\ (x / d < c)%Q) \/ ((x == c * d)%Q /\ (x / d == c)%Q)
  \/ ((c * d < x)%Q /\ (c < x / d)%Q).
Proof.
  intros Hd.
  destruct (Qlt_le_dec x (c * d)) as [Hneg|Hnn].
  - left. split; [exact Hneg|]. apply Qlt_shift_div_r; [exact Hd|]. lra.
  - destruct (Qlt_le_dec (c * d) x) as [Hpos|Hnp].
    + right. right. split; [exact Hpos|]. apply Qlt_shift_div_l; [exact Hd|]. lra.
    + right. left. assert (Hx : (x == c * d)%Q) by lra. split; [exact Hx|].
      rewrite Hx. field. lra.
Qed.

(* The hue, the saturation and the lightness of a colour are fractions,
   the hue below 1. *)
Lemma hslOf_range (R G B h s l : Q) :
  (0 <= R <= 1)%Q -> (0 <= G <= 1)%Q -> (0 <= B <= 1)%Q ->
  hslOf R G B h s l ->
  (0 <= h)%Q /\ (h < 1)%Q /\ (0 <= s <= 1)%Q /\ (0 <= l <= 1)%Q.
Proof.
  intros [HR0 HR1] [HG0 HG1] [HB0 HB1] (M & m & HM & Hm & Hl & Hcases).
  assert (Hm0 : (0 <= m)%Q)
    by (destruct Hm as (_ & _ & _ & [-> | [-> | ->]]); assumption).
  assert (HM1 : (M <= 1)%Q)
    by (destruct HM as (_ & _ & _ & [-> | [-> | ->]]); assumption).
  destruct HM as (HMR & HMG & HMB & _), Hm as (HmR & HmG & HmB & _).
  assert (Hl2 : (2 * l == M + m)%Q) by (rewrite Hl; field).
  destruct Hcases as [(Heq & -> & ->)|(Hlt & Hs & Hh)].
  - change (inject_Z 0) with 0%Q. repeat split; lra.
  - assert (Hd : (0 < M - m)%Q) by lra.
    assert (Hsr : (0 <= s <= 1)%Q).
    { destruct Hs as [(Hhalf & ->)|(Hhalf & ->)];
        apply Qdiv_between; lra. }
    assert (Hu : forall x, (- (M - m) <= x)%Q -> (x <= M - m)%Q ->
              (-1 <= x / (M - m) <= 1)%Q).
    { intros x H1 H2. apply Qdiv_between; lra. }
    destruct Hh as [(HMx & Hord & Hh)|[(HMx & Hord & Hh)|[(HMx & Hne & Hh)
                   |(HMx & Hne1 & Hne2 & Hh)]]].
    + destruct (Hu (G - B)%Q ltac:(lra) ltac:(lra)) as [_ Hu1].
      destruct (Qdiv_sign (G - B) (M - m) Hd) as [[Hx _]|[[_ Hx]|[_ Hx]]];
        [lra| |].
      * set (u := ((G - B) / (M - m))%Q) in *.
        assert (Hh6 : (6 * h == u + 0)%Q) by (rewrite Hh; field).
        repeat split; lra.
      * set (u := ((G - B) / (M - m))%Q) in *.
        assert (Hh6 : (6 * h == u + 0)%Q) by (rewrite Hh; field).
        repeat split; lra.
    + destruct (Hu (G - B)%Q ltac:(lra) ltac:(lra)) as [Hu0 _].
      destruct (Qdiv_sign (G - B) (M - m) Hd) as [[_ Hx]|[[Hx _]|[Hx _]]];
        [|lra|lra].
      set (u := ((G - B) / (M - m))%Q) in *.
      assert (Hh6 : (6 * h == u + 6)%Q) by (rewrite Hh; field).
      repeat split; lra.
    + destruct (Hu (B - R)%Q ltac:(lra) ltac:(lra)) as [Hu0 Hu1].
      set (u := ((B - R) / (M - m))%Q) in *.
      assert (Hh6 : (6 * h == u + 2)%Q) by (rewrite Hh; field).
      repeat split; lra.
    + destruct (Hu (R - G)%Q ltac:(lra) ltac:(lra)) as [Hu0 Hu1].
      set (u := ((R - G) / (M - m))%Q) in *.
      assert (Hh6 : (6 * h == u + 4)%Q) by (rewrite Hh; field).
      repeat split; lra.
Qed.



(** ** The colour space: from HSL back to RGB *)

Ltac Qtests :=
  repeat match goal with
         | |- context [Qltb ?a ?b] =>
             lazymatch a with
             | context [if _ then _ else _] => fail
             | _ => idtac
             end;
             lazymatch b with
             | context [if _ then _ else _] => fail
             | _ => idtac
             end;
             let E := fresh "E" in
             destruct (Qltb a b) eqn:E;
             [apply Qltb_lt in E|apply Qltb_ge in E]; cbv beta iota
         end.

(* [hue2rgb] goes from [p] to [q] and back along the hue. *)
Lemma hue2rgb_finite (p q t : Q) :
  exists v,
    hue2rgb (Num p) (Num q) (Num t) = Num v
    /\ (v == p + (q - p) * hueWeight t)%Q.
Proof.
  unfold hue2rgb, hueWeight, jsZ. cbv zeta.
  cbn [jslt jsadd jssub jsmul jsdiv jsbin].
  change (inject_Z 0) with 0%Q. change (inject_Z 1) with 1%Q.
  change (1 / inject_Z 6)%Q with (1 # 6)%Q.
  change (1 / inject_Z 2)%Q with (1 # 2)%Q.
  change (inject_Z 2 / inject_Z 3)%Q with (2 # 3)%Q.
  change (inject_Z 6) with 6%Q.
  destruct (Qltb t 0); cbn [jslt jsadd jssub jsmul jsdiv jsbin];
    match goal with
    | |- context [Qltb 1 ?a] => destruct (Qltb 1 a)
    end;
    cbn [jslt jsadd jssub jsmul jsdiv jsbin];
    match goal with
    | |- context [Qltb ?a (1 # 6)] => destruct (Qltb a (1 # 6))
    end;
    try (eexists; split; [reflexivity|ring]);
    match goal with
    | |- context [Qltb ?a (1 # 2)] => destruct (Qltb a (1 # 2))
    end;
    try (eexists; split; [reflexivity|ring]);
    match goal with
    | |- context [Qltb ?a (2 # 3)] => destruct (Qltb a (2 # 3))
    end;
    eexists; (split; [reflexivity|ring]).
Qed.

(* The share as a function of the hue, between -1/3 and 4/3. *)
Lemma hueWeight_cases (t : Q) :
  (- (1 # 3) <= t)%Q -> (t <= 4 # 3)%Q ->
  let w := hueWeight t in
  ((t < 0)%Q /\ (w == 0)%Q)
  \/ ((0 <= t)%Q /\ (t <= 1 # 6)%Q /\ (w == 6 * t)%Q)
  \/ ((1 # 6 <= t)%Q /\ (t <= 1 # 2)%Q /\ (w == 1)%Q)
  \/ ((1 # 2 <= t)%Q /\ (t <= 2 # 3)%Q /\ (w == 4 - 6 * t)%Q)
  \/ ((2 # 3 <= t)%Q /\ (t <= 1)%Q /\ (w == 0)%Q)
  \/ ((1 < t)%Q /\ (t <= 7 # 6)%Q /\ (w == 6 * t - 6)%Q)
  \/ ((7 # 6 <= t)%Q /\ (w == 1)%Q).
Proof.
  intros Hlo Hhi. cbv zeta. unfold hueWeight.
  destruct (Qltb t 0) eqn:E0; [apply Qltb_lt in E0|apply Qltb_ge in E0];
    cbv beta iota.
  - left. split; [exact E0|]. Qtests; lra.
  - right. destruct (Qltb 1 t) eqn:E1; [apply Qltb_lt in E1|apply Qltb_ge in E1];
      cbv beta iota.
    + do 4 right. Qtests.
      * left. repeat split; lra.
      * right. split; lra.
      * lra.
      * lra.
    + Qtests.
      * left. repeat split; lra.
      * right. left. repeat split; lra.
      * right. right. left. repeat split; lra.
      * right. right. right. left. repeat split; lra.
Qed.

(* One channel: the value of [hue2rgb] for a hue [t] with [6 t = u + K],
   where [u] is the quotient [x / (M - m)] of the hue. *)
Lemma hue_channel (m M u x p q t K v : Q) :
  ((M - m) * u == x)%Q -> (q == M)%Q -> (p == m)%Q ->
  (v == p + (q - p) * hueWeight t)%Q ->
  (6 * t == u + K)%Q ->
  (- (1 # 3) <= t)%Q -> (t <= 4 # 3)%Q ->
  ((t < 0)%Q /\ (v == m)%Q)
  \/ ((0 <= t)%Q /\ (t <= 1 # 6)%Q /\ (v == m + x + K * (M - m))%Q)
  \/ ((1 # 6 <= t)%Q /\ (t <= 1 # 2)%Q /\ (v == M)%Q)
  \/ ((1 # 2 <= t)%Q /\ (t <= 2 # 3)%Q
      /\ (v == m + 4 * (M - m) - x - K * (M - m))%Q)
  \/ ((2 # 3 <= t)%Q /\ (t <= 1)%Q /\ (v == m)%Q)
  \/ ((1 < t)%Q /\ (t <= 7 # 6)%Q
      /\ (v == m + x + K * (M - m) - 6 * (M - m))%Q)
  \/ ((7 # 6 <= t)%Q /\ (v == M)%Q).
Proof.
  intros Hud Hq Hp Hv Ht Hlo Hhi.
  rewrite Hq, Hp in Hv.
  assert (Ht' : (t == (u + K) * (1 # 6))%Q) by lra.
  destruct (hueWeight_cases t Hlo Hhi)
    as [(H1 & Hw)|[(H1 & H2 & Hw)|[(H1 & H2 & Hw)|[(H1 & H2 & Hw)
       |[(H1 & H2 & Hw)|[(H1 & H2 & Hw)|(H1 & Hw)]]]]]];
    rewrite Hw in Hv.
  - left. split; [exact H1|]. rewrite Hv. ring.
  - right. left. split; [exact H1|]. split; [exact H2|].
    rewrite Hv, Ht', <- Hud. ring.
  - do 2 right. left. split; [exact H1|]. split; [exact H2|].
    rewrite Hv. ring.
  - do 3 right. left. split; [exact H1|]. split; [exact H2|].
    rewrite Hv, Ht', <- Hud. ring.
  - do 4 right. left. split; [exact H1|]. split; [exact H2|].
    rewrite Hv. ring.
  - do 5 right. left. split; [exact H1|]. split; [exact H2|].
    rewrite Hv, Ht', <- Hud. ring.
  - do 6 right. split; [exact H1|]. rewrite Hv. ring.
Qed.

(* The two numbers [q] and [p] that [hslToRgb] computes from the lightness
   and the saturation are the largest and the smallest channel again. *)
Lemma lightness_inverse (M m s l : Q) :
  (0 <= m)%Q -> (m < M)%Q -> (M <= 1)%Q ->
  (2 * l == M + m)%Q ->
  (((1 # 2) < l /\ s == (M - m) / (2 - M - m))%Q
   \/ (l <= (1 # 2) /\ s == (M - m) / (M + m))%Q) ->
  (0 < s)%Q
  /\ exists q p,
       (if jslt (Num l) (Num (1 # 2)) then (Num l * (jsZ 1 + Num s))%js
        else (Num l + Num s - Num l * Num s)%js)
       = Num q
       /\ (jsZ 2 * Num l - Num q)%js = Num p
       /\ (q == M)%Q /\ (p == m)%Q.
Proof.
  intros Hm0 Hlt HM1 Hl2 Hs.
  unfold jsZ. cbn [jslt jsadd jssub jsmul jsbin].
  change (inject_Z 1) with 1%Q. change (inject_Z 2) with 2%Q.
  assert (Hl : (l == (M + m) * (1 # 2))%Q) by lra.
  destruct Hs as [(Hhalf & Hs)|(Hhalf & Hs)].
  - assert (Hden : (0 < 2 - M - m)%Q) by lra.
    assert (Hprod : (s * (2 - M - m) == M - m)%Q) by (rewrite Hs; field; lra).
    split.
    { rewrite Hs. apply Qlt_shift_div_l; lra. }
    destruct (Qltb l (1 # 2)) eqn:E; [apply Qltb_lt in E; lra|].
    eexists. eexists. split; [reflexivity|]. split; [reflexivity|].
    assert (Hq : (l + s - l * s == M)%Q) by (rewrite Hl; lra).
    split; [exact Hq|]. rewrite Hq. lra.
  - assert (Hden : (0 < M + m)%Q) by lra.
    assert (Hprod : (s * (M + m) == M - m)%Q) by (rewrite Hs; field; lra).
    split.
    { rewrite Hs. apply Qlt_shift_div_l; lra. }
    destruct (Qltb l (1 # 2)) eqn:E;
      [apply Qltb_lt in E|apply Qltb_ge in E].
    + eexists. eexists. split; [reflexivity|]. split; [reflexivity|].
      assert (Hq : (l * (1 + s) == M)%Q) by (rewrite Hl; lra).
      split; [exact Hq|]. rewrite Hq. lra.
    + eexists. eexists. split; [reflexivity|]. split; [reflexivity|].
      assert (Hsum1 : (M + m == 1)%Q) by lra.
      rewrite Hsum1 in Hprod.
      assert (Hq : (l + s - l * s == M)%Q) by (rewrite Hl, Hsum1; lra).
      split; [exact Hq|]. rewrite Hq. lra.
Qed.

Ltac channel_cases H :=
  destruct H
    as [(? & ?)|[(? & ? & ?)|[(? & ? & ?)|[(? & ? & ?)
       |[(? & ? & ?)|[(? & ? & ?)|(? & ?)]]]]]];
  lra.

(* The position of [x / d] relative to -1, 0 and 1, with that of [x]
   relative to [- d], 0 and [d]. *)
Ltac compare_quotient x d Hd :=
  destruct (Qdiv_cmp x d (-1) Hd) as [[? ?]|[[? ?]|[? ?]]];
  try (exfalso; lra);
  destruct (Qdiv_cmp x d 0 Hd) as [[? ?]|[[? ?]|[? ?]]];
  try (exfalso; lra);
  destruct (Qdiv_cmp x d 1 Hd) as [[? ?]|[[? ?]|[? ?]]];
  try (exfalso; lra).

(* One sector of the hue circle: [X] is the numerator of the quotient of the
   hue and [k] the offset added to the quotient. *)
Ltac solve_sector X k :=
  match goal with
  | Hd : (0 < ?M - ?m)%Q,
    Hud : forall a, ((?M - ?m) * (a / (?M - ?m)) == a)%Q,
    HqM : (?q == ?M)%Q, Hpm : (?p == ?m)%Q,
    Hx : (?x == ?p + (?q - ?p) * hueWeight (?h' + (1 # 3)))%Q,
    Hy : (?y == ?p + (?q - ?p) * hueWeight ?h')%Q,
    Hz : (?z == ?p + (?q - ?p) * hueWeight (?h' - (1 # 3)))%Q,
    Hm : _ /\ _ /\ _ /\ (?m = _ \/ ?m = _ \/ ?m = _) |- _ =>
      let Hprod := fresh "Hprod" in
      let u := fresh "u" in
      let Cx := fresh "Cx" in
      let Cy := fresh "Cy" in
      let Cz := fresh "Cz" in
      pose proof (Hud X) as Hprod;
      compare_quotient X (M - m)%Q Hd;
      set (u := (X / (M - m))%Q) in *;
      pose proof (hue_channel m M u X p q (h' + (1 # 3)) (k + 2) x
                    Hprod HqM Hpm Hx ltac:(lra) ltac:(lra) ltac:(lra)) as Cx;
      pose proof (hue_channel m M u X p q h' k y
                    Hprod HqM Hpm Hy ltac:(lra) ltac:(lra) ltac:(lra)) as Cy;
      pose proof (hue_channel m M u X p q (h' - (1 # 3)) (k - 2) z
                    Hprod HqM Hpm Hz ltac:(lra) ltac:(lra) ltac:(lra)) as Cz;
      destruct Hm as (? & ? & ? & [-> | [-> | ->]]);
      try (exfalso; lra);
      (split; [channel_cases Cx|split; [channel_cases Cy|channel_cases Cz]])
  end.

(* [hslToRgb] undoes [rgbToHsl], before the channels are rounded; the hue
   may be given by any number equal to it. *)
Lemma hslToRgb_inverse (R G B h s l h' : Q) :
  (0 <= R <= 1)%Q -> (0 <= G <= 1)%Q -> (0 <= B <= 1)%Q ->
  hslOf R G B h s l -> (h' == h)%Q ->
  exists x y z : Q,
    hslToRgb (Num h') (Num s) (Num l)
    = (Math_round (Num x * jsZ 255)%js, Math_round (Num y * jsZ 255)%js,
       Math_round (Num z * jsZ 255)%js)
    /\ (x == R)%Q /\ (y == G)%Q /\ (z == B)%Q.
Proof.
  intros HR HG HB Hhsl Hh'.
  destruct (hslOf_range R G B h s l HR HG HB Hhsl) as (Hh0 & Hh1 & _ & _).
  destruct HR as [HR0 HR1], HG as [HG0 HG1], HB as [HB0 HB1].
  destruct Hhsl as (M & m & HM & Hm & Hl & Hcases).
  assert (Hm0 : (0 <= m)%Q)
    by (destruct Hm as (_ & _ & _ & [-> | [-> | ->]]); assumption).
  assert (HM1 : (M <= 1)%Q)
    by (destruct HM as (_ & _ & _ & [-> | [-> | ->]]); assumption).
  destruct HM as (HMR & HMG & HMB & _).
  assert (Hl2 : (2 * l == M + m)%Q) by (rewrite Hl; field).
  unfold hslToRgb.
  destruct Hcases as [(Heq & -> & ->)|(Hlt & Hs & Hh)].
  - change (jseq (Num (inject_Z 0)) (jsZ 0)) with true. cbv iota beta.
    destruct Hm as (HmR & HmG & HmB & _).
    exists l, l, l. split; [reflexivity|]. repeat split; lra.
  - destruct (lightness_inverse M m s l Hm0 Hlt HM1 Hl2 Hs)
      as (Hspos & q & p & Hq & Hp & HqM & Hpm).
    assert (Hs0 : jseq (Num s) (jsZ 0) = false)
      by (apply (Qeq_bool_pos s Hspos)).
    rewrite Hs0. cbv zeta. rewrite Hq, Hp. cbv iota beta.
    change (Num h' + jsZ 1 / jsZ 3)%js with (Num (h' + (1 # 3))).
    change (Num h' - jsZ 1 / jsZ 3)%js with (Num (h' - (1 # 3))).
    destruct (hue2rgb_finite p q (h' + (1 # 3))) as (x & -> & Hx).
    destruct (hue2rgb_finite p q h') as (y & -> & Hy).
    destruct (hue2rgb_finite p q (h' - (1 # 3))) as (z & -> & Hz).
    exists x, y, z. split; [reflexivity|].
    assert (Hd : (0 < M - m)%Q) by lra.
    assert (Hud : forall a, ((M - m) * (a / (M - m)) == a)%Q)
      by (intros a; field; lra).
    destruct Hh as [(HMx & Hord & Hh)|[(HMx & Hord & Hh)|[(HMx & Hne & Hh)
                   |(HMx & Hne1 & Hne2 & Hh)]]].
    + assert (Hh6 : (6 * h == (G - B) / (M - m) + 0)%Q) by (rewrite Hh; field; lra).
      clear Hh. solve_sector (G - B)%Q 0%Q.
    + assert (Hh6 : (6 * h == (G - B) / (M - m) + 6)%Q) by (rewrite Hh; field; lra).
      clear Hh. solve_sector (G - B)%Q 6%Q.
    + assert (Hh6 : (6 * h == (B - R) / (M - m) + 2)%Q) by (rewrite Hh; field; lra).
      clear Hh. solve_sector (B - R)%Q 2%Q.
    + assert (Hh6 : (6 * h == (R - G) / (M - m) + 4)%Q) by (rewrite Hh; field; lra).
      clear Hh. solve_sector (R - G)%Q 4%Q.
Qed.


Lemma round_fraction (x : Q) (v : Z) :
  (x == fraction v)%Q -> Math_round (Num x * jsZ 255)%js = jsZ v.
Proof.
  intros Hx. rewrite <- (Math_round_jsZ v).
  apply Math_round_jsEq. unfold jsZ. cbn [jsmul jsbin jsEq].
  rewrite Hx. unfold fraction. field.
Qed.

(* A colour of bytes comes back from its hue, saturation and lightness,
   also when the hue is given by another number equal to it. *)
Lemma hslToRgb_bytes_inverse (r g b : Z) (h s l h' : Q) :
  0 <= r <= 255 -> 0 <= g <= 255 -> 0 <= b <= 255 ->
  rgbToHsl (jsZ r) (jsZ g) (jsZ b) = (Num h, Num s, Num l) ->
  (h' == h)%Q ->
  hslToRgb (Num h') (Num s) (Num l) = (jsZ r, jsZ g, jsZ b).
Proof.
  intros Hr Hg Hb Hhsl Hh'.
  destruct (rgbToHsl_finite (inject_Z r) (inject_Z g) (inject_Z b)
              (fraction_range r Hr) (fraction_range g Hg) (fraction_range b Hb))
    as (h0 & s0 & l0 & Heq & Hof).
  change (Num (inject_Z r)) with (jsZ r) in Heq.
  change (Num (inject_Z g)) with (jsZ g) in Heq.
  change (Num (inject_Z b)) with (jsZ b) in Heq.
  rewrite Hhsl in Heq. injection Heq as <- <- <-.
  destruct (hslToRgb_inverse _ _ _ h s l h' (fraction_range r Hr)
              (fraction_range g Hg) (fraction_range b Hb) Hof Hh')
    as (x & y & z & -> & Hx & Hy & Hz).
  rewrite (round_fraction x r Hx), (round_fraction y g Hy),
    (round_fraction z b Hz).
  reflexivity.
Qed.

(** X22.  Converting a colour of bytes to HSL and back gives the
    colour again: [hslToRgb] applied to the result of [rgbToHsl] returns the
    three bytes it started from. *)
Theorem hslToRgb_rgbToHsl (r g b : Z) :
  0 <= r <= 255 -> 0 <= g <= 255 -> 0 <= b <= 255 ->
  let '(h, s, l) := rgbToHsl (jsZ r) (jsZ g) (jsZ b) in
  hslToRgb h s l = (jsZ r, jsZ g, jsZ b).
Proof.
  intros Hr Hg Hb.
  destruct (rgbToHsl_finite (inject_Z r) (inject_Z g) (inject_Z b)
              (fraction_range r Hr) (fraction_range g Hg) (fraction_range b Hb))
    as (h & s & l & Heq & _).
  change (Num (inject_Z r)) with (jsZ r) in Heq.
  change (Num (inject_Z g)) with (jsZ g) in Heq.
  change (Num (inject_Z b)) with (jsZ b) in Heq.
  rewrite Heq.
  apply (hslToRgb_bytes_inverse r g b h s l h Hr Hg Hb Heq). reflexivity.
Qed.

Lemma hslToRgb_rgbToHsl_witness :
  0 <= 200 <= 255 /\ 0 <= 10 <= 255 /\ 0 <= 30 <= 255
  /\ let '(h, s, l) := rgbToHsl (jsZ 200) (jsZ 10) (jsZ 30) in
     hslToRgb h s l = (jsZ 200, jsZ 10, jsZ 30).
Proof.
  assert (Hr : 0 <= 200 <= 255) by lia.
  assert (Hg : 0 <= 10 <= 255) by lia.
  assert (Hb : 0 <= 30 <= 255) by lia.
  split; [exact Hr|]. split; [exact Hg|]. split; [exact Hb|].
  exact (hslToRgb_rgbToHsl 200 10 30 Hr Hg Hb).
Defined.

(** ** [applyHueShift] *)

Lemma hueShift_body_triple (shift : jsnum) (i : Z) (data : list Z) :
  hueShift_body shift i data
  = tripleWrite data i
      (shiftedColor shift (u8get data i) (u8get data (i + 1))
         (u8get data (i + 2))).
Proof.
  unfold hueShift_body, shiftedColor, tripleWrite.
  destruct (rgbToHsl _ _ _) as [[h s] l]. cbv zeta.
  destruct (hslToRgb _ s l) as [[rVal gVal] bVal]. reflexivity.
Qed.

Lemma tripleWrite_length (a : list Z) (i : Z) (c : Color) :
  length (tripleWrite a i c) = length a.
Proof. unfold tripleWrite. rewrite !u8set_length. reflexivity. Qed.

Lemma tripleWrite_lookup_in (a : list Z) (i : Z) (c : Color) (j : nat) :
  (j < length a)%nat -> i <= Z.of_nat j <= i + 2 ->
  tripleWrite a i c !! j = Some (toUint8Clamp (chanOf (Z.of_nat j - i) c)).
Proof.
  intros Hlen Hj. unfold tripleWrite, chanOf. cbv zeta.
  destruct (Z.eq_dec (Z.of_nat j) (i + 2)) as [E2|N2].
  { rewrite u8set_lookup_eq by (rewrite ?u8set_length; lia).
    replace (Z.of_nat j - i) with 2 by lia. reflexivity. }
  rewrite u8set_lookup_ne by lia.
  destruct (Z.eq_dec (Z.of_nat j) (i + 1)) as [E1|N1].
  { rewrite u8set_lookup_eq by (rewrite ?u8set_length; lia).
    replace (Z.of_nat j - i) with 1 by lia. reflexivity. }
  rewrite u8set_lookup_ne by lia.
  rewrite u8set_lookup_eq by lia.
  replace (Z.of_nat j - i) with 0 by lia. reflexivity.
Qed.

Lemma tripleWrite_lookup_out (a : list Z) (i : Z) (c : Color) (j : nat) :
  ~ (i <= Z.of_nat j <= i + 2) -> tripleWrite a i c !! j = a !! j.
Proof.
  intros Hj. unfold tripleWrite. cbv zeta.
  rewrite !u8set_lookup_ne by lia. reflexivity.
Qed.

Lemma u8get_same (a a' : list Z) (k : Z) :
  (0 <= k -> a !! Z.to_nat k = a' !! Z.to_nat k) -> u8get a k = u8get a' k.
Proof.
  intros H. unfold u8get. destruct (Z.ltb_spec k 0); [reflexivity|].
  rewrite H by lia. reflexivity.
Qed.

(* The loop of [applyHueShift] works in place, pixel by pixel: a colour
   cell ends up holding the shifted colour of the pixel as it was in the
   input, and an alpha cell is never written. *)
Lemma hueLoop_lookup (shift : jsnum) (data : list Z) (n : nat) :
  let out := upTo n (fun p => hueShift_body shift (4 * p)) data in
  length out = length data
  /\ forall j : nat, (j < length data)%nat ->
       out !! j
       = if (Z.of_nat j / 4 <? Z.of_nat n) && negb (Z.of_nat j mod 4 =? 3)
         then Some (toUint8Clamp
                      (chanOf (Z.of_nat j mod 4)
                         (shiftedColor shift
                            (u8get data (4 * (Z.of_nat j / 4)))
                            (u8get data (4 * (Z.of_nat j / 4) + 1))
                            (u8get data (4 * (Z.of_nat j / 4) + 2)))))
         else data !! j.
Proof.
  induction n as [|n [IHlen IH]]; cbv zeta.
  - split; [reflexivity|]. intros j Hj.
    destruct (Z.ltb_spec (Z.of_nat j / 4) (Z.of_nat 0)); [|reflexivity].
    pose proof (Z.div_pos (Z.of_nat j) 4). lia.
  - cbn [upTo]. set (a := upTo n _ data) in *.
    rewrite hueShift_body_triple.
    assert (Hread : forall c, 0 <= c <= 2 ->
              u8get a (4 * Z.of_nat n + c) = u8get data (4 * Z.of_nat n + c)).
    { intros c Hc. apply u8get_same. intros _.
      destruct (Nat.lt_ge_cases (Z.to_nat (4 * Z.of_nat n + c)) (length data))
        as [Hin|Hout].
      - rewrite (IH _ Hin). rewrite Z2Nat.id by lia.
        replace (4 * Z.of_nat n + c) with (c + Z.of_nat n * 4) by lia.
        rewrite Z.div_add by lia. rewrite Z.div_small by lia.
        destruct (Z.ltb_spec (0 + Z.of_nat n) (Z.of_nat n)); [lia|reflexivity].
      - rewrite !lookup_ge_None_2 by lia. reflexivity. }
    pose proof (Hread 0 ltac:(lia)) as Hread0.
    replace (4 * Z.of_nat n + 0) with (4 * Z.of_nat n) in Hread0 by lia.
    rewrite Hread0, (Hread 1), (Hread 2) by lia.
    split; [rewrite tripleWrite_length; exact IHlen|].
    intros j Hj.
    pose proof (Z.div_mod (Z.of_nat j) 4 ltac:(lia)) as Hdm.
    pose proof (Z.mod_pos_bound (Z.of_nat j) 4 ltac:(lia)) as Hmod.
    destruct (Z.eq_dec (Z.of_nat j / 4) (Z.of_nat n)) as [Heq|Hneq].
    + destruct (Z.ltb_spec (Z.of_nat j / 4) (Z.of_nat (Datatypes.S n)));
        [|lia].
      destruct (Z.eqb_spec (Z.of_nat j mod 4) 3) as [E3|N3]; cbn [andb negb].
      * rewrite tripleWrite_lookup_out by lia.
        rewrite (IH j Hj).
        destruct (Z.ltb_spec (Z.of_nat j / 4) (Z.of_nat n)); [lia|reflexivity].
      * rewrite tripleWrite_lookup_in by lia.
        rewrite Heq. do 3 f_equal. lia.
    + rewrite tripleWrite_lookup_out by lia.
      rewrite (IH j Hj).
      destruct (Z.ltb_spec (Z.of_nat j / 4) (Z.of_nat n));
        destruct (Z.ltb_spec (Z.of_nat j / 4) (Z.of_nat (Datatypes.S n)));
        try lia; reflexivity.
Qed.

Lemma applyHueShift_lookup (data : list Z) (angle : jsnum) :
  let shift := (angle / jsZ 360)%js in
  length (applyHueShift data angle) = length data
  /\ forall j : nat, (j < length data)%nat ->
       applyHueShift data angle !! j
       = if Z.of_nat j mod 4 =? 3 then data !! j
         else Some (toUint8Clamp
                      (chanOf (Z.of_nat j mod 4)
                         (shiftedColor shift
                            (u8get data (4 * (Z.of_nat j / 4)))
                            (u8get data (4 * (Z.of_nat j / 4) + 1))
                            (u8get data (4 * (Z.of_nat j / 4) + 2))))).
Proof.
  cbv zeta. unfold applyHueShift. rewrite for_loop_upTo.
  rewrite (upTo_ext _ (fun p => hueShift_body (angle / jsZ 360)%js (4 * p)))
    by (intros p a _; f_equal; lia).
  destruct (hueLoop_lookup (angle / jsZ 360)%js data (strides4 (length data)))
    as [Hlen Hlook].
  split; [exact Hlen|]. intros j Hj. rewrite (Hlook j Hj).
  pose proof (strides4_covers _ _ Hj) as Hcov.
  destruct (Z.ltb_spec (Z.of_nat j / 4) (Z.of_nat (strides4 (length data))));
    [|lia].
  destruct (Z.of_nat j mod 4 =? 3); reflexivity.
Qed.

Lemma Qfloor_unique (x : Q) (n : Z) :
  (inject_Z n <= x)%Q -> (x < inject_Z n + 1)%Q -> Qfloor x = n.
Proof.
  intros Hlo Hhi.
  pose proof (Qfloor_le x) as H1. pose proof (Qlt_floor x) as H2.
  rewrite inject_Z_plus in H2. change (inject_Z 1) with 1%Q in H2.
  assert (Ha : n < Qfloor x + 1).
  { rewrite Zlt_Qlt, inject_Z_plus. change (inject_Z 1) with 1%Q. lra. }
  assert (Hb : Qfloor x < n + 1).
  { rewrite Zlt_Qlt, inject_Z_plus. change (inject_Z 1) with 1%Q. lra. }
  lia.
Qed.

Lemma Qtrunc_comp (x y : Q) : (x == y)%Q -> Qtrunc x = Qtrunc y.
Proof.
  intros H. unfold Qtrunc.
  assert (H1 : Qle_bool 0 x = Qle_bool 0 y) by (rewrite H; reflexivity).
  assert (H2 : Qfloor x = Qfloor y) by (rewrite H; reflexivity).
  assert (H3 : Qceiling x = Qceiling y) by (rewrite H; reflexivity).
  rewrite H1, H2, H3. reflexivity.
Qed.

(* The hue after a shift by a whole number of turns. *)
Lemma whole_turn (h : Q) (k : Z) :
  (0 <= h)%Q -> (h < 1)%Q ->
  let turned := jsrem (Num h + jsZ (360 * k) / jsZ 360)%js (jsZ 1) in
  exists h',
    (if jslt turned (jsZ 0) then (turned + jsZ 1)%js else turned) = Num h'
    /\ (h' == h)%Q.
Proof.
  intros Hh0 Hh1. cbv zeta. unfold jsZ. cbn [jsadd jsdiv jsbin jsrem].
  change (Qeq_bool (inject_Z 1) 0) with false. cbv iota.
  assert (HK : (inject_Z (360 * k) / inject_Z 360 == inject_Z k)%Q).
  { rewrite inject_Z_mult. field. }
  set (K := (inject_Z (360 * k) / inject_Z 360)%Q) in *.
  assert (Hx : ((h + K) / inject_Z 1 == h + inject_Z k)%Q)
    by (rewrite HK; field).
  assert (Htrunc : Qtrunc ((h + K) / inject_Z 1)
                   = if Qle_bool 0 (h + inject_Z k)
                     then Qfloor (h + inject_Z k)
                     else Qceiling (h + inject_Z k)).
  { rewrite (Qtrunc_comp _ _ Hx). reflexivity. }
  rewrite Htrunc. clear Htrunc.
  cbn [jslt jsadd jsbin]. change (inject_Z 1) with 1%Q. change (inject_Z 0) with 0%Q.
  destruct (Qle_bool 0 (h + inject_Z k)) eqn:Esign;
    [apply Qle_bool_iff in Esign|apply Qle_bool_false in Esign].
  - rewrite (Qfloor_unique (h + inject_Z k) k) by lra.
    destruct (Qltb (h + K - 1 * inject_Z k) 0) eqn:E;
      [apply Qltb_lt in E; lra|].
    eexists. split; [reflexivity|]. lra.
  - destruct (Qlt_le_dec 0 h) as [Hpos|Hzero].
    + assert (Hceil : Qceiling (h + inject_Z k) = k + 1).
      { unfold Qceiling.
        rewrite (Qfloor_unique (- (h + inject_Z k)) (- k - 1)); [lia| |].
        - unfold Z.sub. rewrite inject_Z_plus, !inject_Z_opp.
          change (inject_Z 1) with 1%Q. lra.
        - unfold Z.sub. rewrite inject_Z_plus, !inject_Z_opp.
          change (inject_Z 1) with 1%Q. lra. }
      rewrite Hceil, inject_Z_plus. change (inject_Z 1) with 1%Q.
      destruct (Qltb (h + K - 1 * (inject_Z k + 1)) 0) eqn:E;
        [|apply Qltb_ge in E; lra].
      eexists. split; [reflexivity|]. lra.
    + assert (Hceil : Qceiling (h + inject_Z k) = k).
      { unfold Qceiling.
        rewrite (Qfloor_unique (- (h + inject_Z k)) (- k)); [lia| |].
        - rewrite inject_Z_opp. lra.
        - rewrite inject_Z_opp. lra. }
      rewrite Hceil.
      destruct (Qltb (h + K - 1 * inject_Z k) 0) eqn:E;
        [apply Qltb_lt in E; lra|].
      eexists. split; [reflexivity|]. lra.
Qed.

Lemma shiftedColor_whole_turn (r g b k : Z) :
  0 <= r <= 255 -> 0 <= g <= 255 -> 0 <= b <= 255 ->
  shiftedColor (jsZ (360 * k) / jsZ 360)%js (jsZ r) (jsZ g) (jsZ b)
  = (jsZ r, jsZ g, jsZ b).
Proof.
  intros Hr Hg Hb.
  destruct (rgbToHsl_finite (inject_Z r) (inject_Z g) (inject_Z b)
              (fraction_range r Hr) (fraction_range g Hg) (fraction_range b Hb))
    as (h & s & l & Heq & Hof).
  change (Num (inject_Z r)) with (jsZ r) in Heq.
  change (Num (inject_Z g)) with (jsZ g) in Heq.
  change (Num (inject_Z b)) with (jsZ b) in Heq.
  destruct (hslOf_range _ _ _ _ _ _ (fraction_range r Hr) (fraction_range g Hg)
              (fraction_range b Hb) Hof) as (Hh0 & Hh1 & _).
  unfold shiftedColor. rewrite Heq.
  destruct (whole_turn h k Hh0 Hh1) as (h' & Hturn & Hh').
  cbv zeta in Hturn. rewrite Hturn.
  apply (hslToRgb_bytes_inverse r g b h s l h' Hr Hg Hb Heq Hh').
Qed.

(* A grey pixel has no hue to shift. *)
Lemma shiftedColor_grey (shift : jsnum) (v : Z) :
  0 <= v <= 255 ->
  shiftedColor shift (jsZ v) (jsZ v) (jsZ v) = (jsZ v, jsZ v, jsZ v).
Proof.
  intros Hv.
  destruct (rgbToHsl_finite (inject_Z v) (inject_Z v) (inject_Z v)
              (fraction_range v Hv) (fraction_range v Hv) (fraction_range v Hv))
    as (h & s & l & Heq & (M & m & HM & Hm & Hl & Hcases)).
  change (Num (inject_Z v)) with (jsZ v) in Heq.
  unfold shiftedColor. rewrite Heq.
  assert (HMv : M = fraction v)
    by (destruct HM as (_ & _ & _ & [H | [H | H]]); exact H).
  assert (Hmv : m = fraction v)
    by (destruct Hm as (_ & _ & _ & [H | [H | H]]); exact H).
  subst M m.
  destruct Hcases as [(HMm & -> & ->)|(Hlt & _)]; [|lra].
  unfold hslToRgb.
  change (jseq (Num (inject_Z 0)) (jsZ 0)) with true. cbv iota beta zeta.
  assert (Hlv : (l == fraction v)%Q) by (rewrite Hl; field).
  rewrite !(round_fraction l v Hlv). reflexivity.
Qed.

(** X23.  A hue shift by a whole number of turns (0, 360, -360,
    720 degrees, ..., up to a thousand turns either way) changes nothing:
    on a buffer of bytes made of complete pixels [applyHueShift] returns
    the buffer as it was.  The bound keeps the sum of the hue and the shift
    well within the precision of a binary64 number. *)
Theorem applyHueShift_whole_turns (data : list Z) (k : Z) :
  byteBuffer data -> (length data mod 4 = 0)%nat ->
  -1000 <= k <= 1000 ->
  applyHueShift data (jsZ (360 * k)) = data.
Proof.
  intros Hbytes Hlen4 _.
  destruct (applyHueShift_lookup data (jsZ (360 * k))) as [Hlen Hlook].
  apply list_eq. intros j.
  destruct (Nat.lt_ge_cases j (length data)) as [Hj|Hj].
  2:{ rewrite !lookup_ge_None_2 by lia. reflexivity. }
  rewrite (Hlook j Hj).
  destruct (Z.eqb_spec (Z.of_nat j mod 4) 3) as [E3|N3]; [reflexivity|].
  pose proof (Z.div_mod (Z.of_nat j) 4 ltac:(lia)) as Hdm.
  pose proof (Z.mod_pos_bound (Z.of_nat j) 4 ltac:(lia)) as Hmod.
  pose proof (Nat.div_mod_eq (length data) 4) as Hlendiv.
  rewrite Hlen4 in Hlendiv.
  set (q := Z.of_nat j / 4) in *.
  assert (Hq : 0 <= q) by (apply Z.div_pos; lia).
  assert (Hin : 4 * q + 3 < Z.of_nat (length data)) by lia.
  unfold byteBuffer in Hbytes. rewrite Forall_lookup in Hbytes.
  assert (Hcell : forall c, 0 <= c <= 2 ->
            exists v, data !! Z.to_nat (4 * q + c) = Some v
                      /\ 0 <= v <= 255
                      /\ u8get data (4 * q + c) = jsZ v).
  { intros c Hc.
    destruct (lookup_lt_is_Some_2 data (Z.to_nat (4 * q + c)) ltac:(lia))
      as [v Hv].
    exists v. split; [exact Hv|]. split; [apply (Hbytes _ _ Hv)|].
    apply u8get_Some; [lia|exact Hv]. }
  destruct (Hcell 0 ltac:(lia)) as (r & Hr & Hrb & Hur).
  destruct (Hcell 1 ltac:(lia)) as (g & Hg & Hgb & Hug).
  destruct (Hcell 2 ltac:(lia)) as (b & Hb & Hbb & Hub).
  replace (4 * q + 0) with (4 * q) in * by lia.
  rewrite Hur, Hug, Hub, shiftedColor_whole_turn by assumption.
  assert (Hj' : j = Z.to_nat (4 * q + Z.of_nat j mod 4)) by lia.
  unfold chanOf, chR, chG, chB. cbn [fst snd].
  destruct (Z.eqb_spec (Z.of_nat j mod 4) 0) as [E0|N0].
  { rewrite toUint8Clamp_byte by exact Hrb. rewrite <- Hr. f_equal.
    rewrite Hj' at 1. f_equal. lia. }
  destruct (Z.eqb_spec (Z.of_nat j mod 4) 1) as [E1|N1].
  { rewrite toUint8Clamp_byte by exact Hgb. rewrite <- Hg. f_equal.
    rewrite Hj' at 1. f_equal. lia. }
  rewrite toUint8Clamp_byte by exact Hbb. rewrite <- Hb. f_equal.
  rewrite Hj' at 1. f_equal. lia.
Qed.

Lemma applyHueShift_whole_turns_witness :
  byteBuffer redAndGrey /\ (length redAndGrey mod 4 = 0)%nat
  /\ -1000 <= -2 <= 1000
  /\ applyHueShift redAndGrey (jsZ (360 * -2)) = redAndGrey.
Proof.
  assert (Hbytes : byteBuffer redAndGrey) by (repeat constructor; lia).
  assert (Hlen : (length redAndGrey mod 4 = 0)%nat) by reflexivity.
  assert (Hk : -1000 <= -2 <= 1000) by lia.
  split; [exact Hbytes|]. split; [exact Hlen|]. split; [exact Hk|].
  exact (applyHueShift_whole_turns redAndGrey (-2) Hbytes Hlen Hk).
Defined.

(** X24.  Whatever the angle (NaN included), [applyHueShift] returns a
    buffer of the length of its input, leaves every alpha cell as it is,
    and leaves a grey pixel (three equal bytes) as it is. *)
Theorem applyHueShift_keeps_greys (data : list Z) (angle : jsnum)
    (k : nat) (v : Z) :
  pixelAt data k = Some (v, v, v) -> 0 <= v <= 255 ->
  length (applyHueShift data angle) = length data
  /\ pixelAt (applyHueShift data angle) k = Some (v, v, v)
  /\ forall k' a, alphaAt data k' = Some a ->
       alphaAt (applyHueShift data angle) k' = Some a.
Proof.
  intros Hp Hv.
  destruct (applyHueShift_lookup data angle) as [Hlen Hlook].
  split; [exact Hlen|]. split.
  - unfold pixelAt in Hp.
    destruct (data !! (4 * k)%nat) as [r|] eqn:Er; [|discriminate].
    destruct (data !! (4 * k + 1)%nat) as [g|] eqn:Eg; [|discriminate].
    destruct (data !! (4 * k + 2)%nat) as [b|] eqn:Eb; [|discriminate].
    injection Hp as -> -> ->.
    pose proof (lookup_lt_Some _ _ _ Eb) as Hlt.
    assert (Hcell : forall c : nat, (c <= 2)%nat ->
              applyHueShift data angle !! (4 * k + c)%nat = Some v).
    { intros c Hc. rewrite Hlook by lia.
      destruct (cell_index k c ltac:(lia)) as [-> ->].
      destruct (Z.eqb_spec (Z.of_nat c) 3); [lia|].
      rewrite (u8get_Some _ (4 * Z.of_nat k) v ltac:(lia))
        by (rewrite <- Er; f_equal; lia).
      rewrite (u8get_Some _ (4 * Z.of_nat k + 1) v ltac:(lia))
        by (rewrite <- Eg; f_equal; lia).
      rewrite (u8get_Some _ (4 * Z.of_nat k + 2) v ltac:(lia))
        by (rewrite <- Eb; f_equal; lia).
      rewrite shiftedColor_grey by exact Hv.
      f_equal. unfold chanOf, chR, chG, chB. cbn [fst snd].
      destruct (_ =? 0); [|destruct (_ =? 1)]; apply toUint8Clamp_byte, Hv. }
    unfold pixelAt.
    pose proof (Hcell 0%nat ltac:(lia)) as H0. rewrite Nat.add_0_r in H0.
    rewrite H0, (Hcell 1%nat), (Hcell 2%nat) by lia. reflexivity.
  - intros k' a Ha. unfold alphaAt in *.
    rewrite Hlook by (apply lookup_lt_Some in Ha; exact Ha).
    destruct (cell_index k' 3 ltac:(lia)) as [_ ->]. exact Ha.
Qed.

Lemma applyHueShift_keeps_greys_witness :
  pixelAt redAndGrey 1 = Some (90, 90, 90) /\ 0 <= 90 <= 255
  /\ length (applyHueShift redAndGrey (jsZ 120)) = length redAndGrey
  /\ pixelAt (applyHueShift redAndGrey (jsZ 120)) 1 = Some (90, 90, 90)
  /\ forall k' a, alphaAt redAndGrey k' = Some a ->
       alphaAt (applyHueShift redAndGrey (jsZ 120)) k' = Some a.
Proof.
  assert (Hp : pixelAt redAndGrey 1 = Some (90, 90, 90)) by reflexivity.
  assert (Hv : 0 <= 90 <= 255) by lia.
  split; [exact Hp|]. split; [exact Hv|].
  exact (applyHueShift_keeps_greys redAndGrey (jsZ 120) 1 90 Hp Hv).
Defined.

(** ** [hslToRgb]: the range of the result *)






(** ** [gaussianBlur]: the sums of a window *)

Lemma storeMeans_quad (out : list Z) (targetI : Z) (s : Sums) :
  storeMeans out targetI s = quadWrite out targetI (meansQuad s).
Proof.
  unfold storeMeans, meansQuad, quadWrite. destruct (count s >? 0); reflexivity.
Qed.

Lemma horizontal_body_quad (data : list Z) (width : Z) (radius : option Z)
    (y x : Z) (tempOutput : list Z) :
  horizontal_body data width radius y x tempOutput
  = quadWrite tempOutput ((y * width + x) * 4)
      (meansQuad (windowSums data radius (columnOffset width y x))).
Proof. unfold horizontal_body. cbv zeta. apply storeMeans_quad. Qed.

Lemma vertical_body_quad (tempOutput : list Z) (width height : Z)
    (radius : option Z) (y x : Z) (outputData : list Z) :
  vertical_body tempOutput width height radius y x outputData
  = quadWrite outputData ((y * width + x) * 4)
      (meansQuad (windowSums tempOutput radius (rowOffset width height y x))).
Proof. unfold vertical_body. cbv zeta. apply storeMeans_quad. Qed.

Lemma boundedSums_noSums (lo hi : Z -> Z) : boundedSums lo hi noSums.
Proof.
  split; [cbn; lia|]. intros c Hc. exists (inject_Z 0).
  split; [unfold sumAt, noSums; cbn [rSum gSum bSum aSum];
          repeat destruct (_ =? _); reflexivity|].
  cbn [noSums count]. rewrite !Z.mul_0_l. split; apply Qle_refl.
Qed.

Lemma sumAt_accumulated (a : list Z) (i : Z) (s : Sums) (c : Z) :
  0 <= c <= 3 ->
  sumAt c (mkSums (rSum s + u8get a i)%js (gSum s + u8get a (i + 1))%js
             (bSum s + u8get a (i + 2))%js (aSum s + u8get a (i + 3))%js
             (count s + 1))
  = (sumAt c s + u8get a (i + c))%js.
Proof.
  intros Hc. unfold sumAt. cbn [rSum gSum bSum aSum].
  destruct (Z.eqb_spec c 0) as [->|N0]; [rewrite Z.add_0_r; reflexivity|].
  destruct (Z.eqb_spec c 1) as [->|N1]; [reflexivity|].
  destruct (Z.eqb_spec c 2) as [->|N2]; [reflexivity|].
  replace c with 3 by lia. reflexivity.
Qed.

Lemma accumulate_bounded (lo hi : Z -> Z) (a : list Z) (i : Z) (s : Sums) :
  pixelWithin lo hi a i -> boundedSums lo hi s ->
  boundedSums lo hi (accumulate a i s).
Proof.
  intros Hpix [Hcount Hsums]. unfold accumulate. fold (counted a i).
  destruct (counted a i) eqn:Hvis; [|split; assumption].
  specialize (Hpix Hvis).
  split; [cbn [count]; lia|]. intros c Hc.
  rewrite sumAt_accumulated by exact Hc. cbn [count].
  destruct (Hsums c Hc) as (q & -> & Hq1 & Hq2).
  destruct (Hpix c Hc) as (v & -> & Hv).
  exists (q + inject_Z v)%Q. split; [reflexivity|].
  rewrite !Z.mul_add_distr_r, !Z.mul_1_l, !inject_Z_plus.
  assert (H1 : (inject_Z (lo c) <= inject_Z v)%Q) by (rewrite <- Zle_Qle; lia).
  assert (H2 : (inject_Z v <= inject_Z (hi c))%Q) by (rewrite <- Zle_Qle; lia).
  split; lra.
Qed.

Lemma accumulate_count (a : list Z) (i : Z) (s : Sums) :
  count (accumulate a i s) = if counted a i then count s + 1 else count s.
Proof. unfold accumulate. fold (counted a i). destruct (counted a i); reflexivity. Qed.

Lemma window_loop_invariant {S : Type} (P : S -> Prop) (radius : option Z)
    (body : Z -> S -> S) (s : S) :
  (forall k s', P s' -> P (body k s')) -> P s -> P (window_loop radius body s).
Proof.
  intros Hbody Hs. unfold window_loop. destruct radius as [r|]; [|exact Hs].
  apply for_loop_invariant; assumption.
Qed.

Lemma windowSums_bounded (lo hi : Z -> Z) (a : list Z) (radius : option Z)
    (idx : Z -> Z) :
  (forall k, pixelWithin lo hi a (idx k)) ->
  boundedSums lo hi (windowSums a radius idx).
Proof.
  intros Hpix. unfold windowSums.
  apply window_loop_invariant; [|apply boundedSums_noSums].
  intros k s Hs. apply accumulate_bounded; [apply Hpix|exact Hs].
Qed.

(* The pixel in the middle of the window counts when its alpha is above 0. *)
Lemma windowSums_positive (a : list Z) (r : Z) (idx : Z -> Z) :
  0 <= r -> counted a (idx 0) = true ->
  0 < count (windowSums a (Some r) idx).
Proof.
  intros Hr Hvis. unfold windowSums, window_loop. rewrite for_loop_upTo.
  remember (fun p : Z => accumulate a (idx (- r + p * 1))) as f eqn:Hf.
  assert (Hstep : forall p s,
            count (f p s)
            = if counted a (idx (- r + p * 1)) then count s + 1 else count s).
  { intros p s. rewrite Hf. apply accumulate_count. }
  clear Hf.
  assert (Hmono : forall n, 0 <= count (upTo n f noSums)).
  { induction n as [|n IH]; [cbn; lia|].
    cbn [upTo]. rewrite Hstep.
    destruct (counted a (idx (- r + Z.of_nat n * 1))); lia. }
  assert (Hpos : forall n, (Z.to_nat r < n)%nat -> 0 < count (upTo n f noSums)).
  { induction n as [|n IH]; intros Hn; [lia|].
    cbn [upTo]. rewrite Hstep.
    destruct (Nat.eq_dec (Z.to_nat r) n) as [E|N].
    - replace (- r + Z.of_nat n * 1) with 0 by lia. rewrite Hvis.
      pose proof (Hmono n). lia.
    - specialize (IH ltac:(lia)).
      destruct (counted a (idx (- r + Z.of_nat n * 1))); lia. }
  apply Hpos. lia.
Qed.

Lemma quadAt_sumAt (s : Sums) (c : Z) :
  0 < count s ->
  quadAt c (meansQuad s) = jsquot (sumAt c s) (jsZ (count s)).
Proof.
  intros Hpos. unfold meansQuad, quadAt, sumAt.
  destruct (Z.gtb_spec (count s) 0); [|lia]. cbn [fst snd].
  destruct (c =? 0); [reflexivity|]. destruct (c =? 1); [reflexivity|].
  destruct (c =? 2); reflexivity.
Qed.

(* A mean of bytes between two bounds is stored as a byte between them. *)
Lemma meansQuad_within (lo hi : Z -> Z) (s : Sums) (c : Z) :
  boundedSums lo hi s -> 0 < count s -> 0 <= c <= 3 ->
  0 <= lo c -> hi c <= 255 ->
  lo c <= toUint8Clamp (quadAt c (meansQuad s)) <= hi c.
Proof.
  intros [_ Hsums] Hpos Hc Hlo Hhi.
  rewrite quadAt_sumAt by exact Hpos.
  destruct (Hsums c Hc) as (q & -> & Hq1 & Hq2).
  assert (Hn : (0 < inject_Z (count s))%Q).
  { change 0%Q with (inject_Z 0). rewrite <- Zlt_Qlt. exact Hpos. }
  unfold jsZ. rewrite jsquot_finite by lra.
  rewrite inject_Z_mult in Hq1, Hq2.
  apply toUint8Clamp_between; [exact Hlo|exact Hhi| |].
  - apply Qle_shift_div_l; [exact Hn|]. rewrite Qmult_comm. exact Hq1.
  - apply Qle_shift_div_r; [exact Hn|]. rewrite Qmult_comm. exact Hq2.
Qed.

Lemma meansQuad_empty (s : Sums) (c : Z) :
  count s <= 0 -> toUint8Clamp (quadAt c (meansQuad s)) = 0.
Proof.
  intros Hzero. unfold meansQuad.
  destruct (Z.gtb_spec (count s) 0); [lia|]. apply quadAt_zeros.
Qed.

(** ** [gaussianBlur]: one pass over the image *)

Lemma blurLoop_lookup (body : Z -> Z -> list Z -> list Z)
    (quad : Z -> Z -> Quad) (width height : Z) (a0 : list Z) :
  (forall y x a, body y x a = quadWrite a ((y * width + x) * 4) (quad y x)) ->
  0 < width ->
  let out := for_loop (upto height) 0 1
               (fun y => for_loop (upto width) 0 1 (body y)) a0 in
  length out = length a0
  /\ forall j : nat, (j < length a0)%nat ->
       out !! j
       = if Z.of_nat j / 4 <? Z.of_nat (upto height * upto width)
         then Some (toUint8Clamp
                      (quadAt (Z.of_nat j mod 4)
                         (quad (Z.of_nat j / 4 / width)
                            ((Z.of_nat j / 4) mod width))))
         else a0 !! j.
Proof.
  intros Hbody Hw out.
  assert (Hout : out
            = upTo (upto height * upto width)
                (fun p a => quadWrite a (4 * p) (quad (p / width) (p mod width)))
                a0).
  { subst out. rewrite nested_loops_upTo by (unfold upto; lia).
    apply upTo_ext. intros p a _.
    unfold upto. rewrite Z2Nat.id by lia.
    rewrite Hbody. f_equal.
    pose proof (Z.div_mod p width ltac:(lia)). lia. }
  rewrite Hout.
  apply (quadLoop_lookup (fun p => quad (p / width) (p mod width))).
Qed.

(* The cell [c] of the pixel [p] of the image after a pass. *)
Lemma blurLoop_cell (body : Z -> Z -> list Z -> list Z)
    (quad : Z -> Z -> Quad) (width height : Z) (a0 : list Z) (p c : Z) :
  (forall y x a, body y x a = quadWrite a ((y * width + x) * 4) (quad y x)) ->
  0 < width -> 0 < height ->
  length a0 = Z.to_nat (4 * width * height) ->
  0 <= p < width * height -> 0 <= c <= 3 ->
  for_loop (upto height) 0 1 (fun y => for_loop (upto width) 0 1 (body y)) a0
    !! Z.to_nat (4 * p + c)
  = Some (toUint8Clamp (quadAt c (quad (p / width) (p mod width)))).
Proof.
  intros Hbody Hw Hh Hlen Hp Hc.
  destruct (blurLoop_lookup body quad width height a0 Hbody Hw) as [_ Hcells].
  rewrite Hcells by nia.
  rewrite Z2Nat.id by lia.
  assert (Hdiv : (4 * p + c) / 4 = p).
  { symmetry. apply (Z.div_unique _ 4 p c); lia. }
  assert (Hmod : (4 * p + c) mod 4 = c).
  { symmetry. apply (Z.mod_unique _ 4 p c); lia. }
  rewrite Hdiv, Hmod.
  destruct (Z.ltb_spec p (Z.of_nat (upto height * upto width))) as [_|Hge];
    [reflexivity|].
  unfold upto in Hge. rewrite Nat2Z.inj_mul, !Z2Nat.id in Hge by lia. lia.
Qed.

Lemma pixel_row_column (width height p : Z) :
  0 < width -> 0 <= p < width * height ->
  0 <= p / width < height /\ 0 <= p mod width < width
  /\ p / width * width + p mod width = p.
Proof.
  intros Hw Hp.
  pose proof (Z.div_mod p width ltac:(lia)).
  pose proof (Z.mod_pos_bound p width Hw).
  assert (0 <= p / width) by (apply Z.div_pos; lia).
  assert (p / width < height) by (apply Z.div_lt_upper_bound; lia).
  lia.
Qed.

Lemma columnOffset_inside (width height y x kx : Z) :
  0 < width -> 0 <= y < height ->
  exists p, columnOffset width y x kx = 4 * p /\ 0 <= p < width * height.
Proof.
  intros Hw Hy. unfold columnOffset.
  exists (y * width + Z.max 0 (Z.min (width - 1) (x + kx))).
  split; [lia|]. nia.
Qed.

Lemma rowOffset_inside (width height y x ky : Z) :
  0 < height -> 0 <= x < width ->
  exists p, rowOffset width height y x ky = 4 * p /\ 0 <= p < width * height.
Proof.
  intros Hh Hx. unfold rowOffset.
  exists (Z.max 0 (Z.min (height - 1) (y + ky)) * width + x).
  split; [lia|]. nia.
Qed.

Lemma columnOffset_middle (width y x : Z) :
  0 <= x < width -> columnOffset width y x 0 = 4 * (y * width + x).
Proof. intros Hx. unfold columnOffset. lia. Qed.

Lemma rowOffset_middle (width height y x : Z) :
  0 <= y < height -> rowOffset width height y x 0 = 4 * (y * width + x).
Proof.
  intros Hy. unfold rowOffset.
  replace (Z.max 0 (Z.min (height - 1) (y + 0))) with y by lia. lia.
Qed.

Lemma jslt_zero (a : Z) : jslt (jsZ 0) (jsZ a) = (0 <? a).
Proof.
  unfold jslt, jsZ. destruct (Z.ltb_spec 0 a) as [H|H].
  - apply Qltb_lt. rewrite <- Zlt_Qlt. exact H.
  - apply Qltb_ge. rewrite <- Zle_Qle. exact H.
Qed.

Lemma counted_Some (a : list Z) (p alpha : Z) :
  0 <= p -> a !! Z.to_nat (4 * p + 3) = Some alpha ->
  counted a (4 * p) = (0 <? alpha).
Proof.
  intros Hp Ha. unfold counted.
  rewrite (u8get_Some a (4 * p + 3) alpha) by (lia || exact Ha).
  apply jslt_zero.
Qed.

Lemma blurredPixel_within (lo hi : Z -> Z) (a : list Z) (p : Z) :
  0 <= p -> blurredPixel lo hi a p -> pixelWithin lo hi a (4 * p).
Proof.
  intros Hp [Hzero|Hin] Hvis c Hc.
  - rewrite (counted_Some a p 0 Hp (Hzero 3 ltac:(lia))) in Hvis. discriminate.
  - destruct (Hin c Hc) as (v & Hv & Hb). exists v. split; [|exact Hb].
    apply u8get_Some; [lia|exact Hv].
Qed.

(* One pass: every pixel of the result is blank, or lies within the bounds
   of the pixels of the source that count; the second when the pixel in the
   middle of its window counts. *)
Lemma blurPass_blurred (src : list Z) (width height : Z) (radius : option Z)
    (idx : Z -> Z -> Z -> Z) (body : Z -> Z -> list Z -> list Z)
    (lo hi : Z -> Z) (a0 : list Z) (p : Z) :
  (forall y x a,
     body y x a
     = quadWrite a ((y * width + x) * 4)
         (meansQuad (windowSums src radius (idx y x)))) ->
  (forall y x k, 0 <= y < height -> 0 <= x < width ->
     exists p', idx y x k = 4 * p' /\ 0 <= p' < width * height) ->
  (forall p', 0 <= p' < width * height -> pixelWithin lo hi src (4 * p')) ->
  (forall c, 0 <= c <= 3 -> 0 <= lo c /\ hi c <= 255) ->
  0 < width -> 0 < height ->
  length a0 = Z.to_nat (4 * width * height) ->
  0 <= p < width * height ->
  let out := for_loop (upto height) 0 1
               (fun y => for_loop (upto width) 0 1 (body y)) a0 in
  blurredPixel lo hi out p
  /\ (0 < count (windowSums src radius (idx (p / width) (p mod width))) ->
      forall c, 0 <= c <= 3 ->
        exists v, out !! Z.to_nat (4 * p + c) = Some v /\ lo c <= v <= hi c).
Proof.
  intros Hbody Hidx Hsrc Hbounds Hw Hh Hlen Hp out.
  destruct (pixel_row_column width height p Hw Hp) as (Hy & Hx & _).
  set (s := windowSums src radius (idx (p / width) (p mod width))).
  assert (Hs : boundedSums lo hi s).
  { apply windowSums_bounded. intros k.
    destruct (Hidx (p / width) (p mod width) k Hy Hx) as (p' & -> & Hp').
    apply Hsrc, Hp'. }
  assert (Hcell : forall c, 0 <= c <= 3 ->
            out !! Z.to_nat (4 * p + c)
            = Some (toUint8Clamp (quadAt c (meansQuad s)))).
  { intros c Hc. subst out s.
    apply (blurLoop_cell body
             (fun y x => meansQuad (windowSums src radius (idx y x))));
      assumption. }
  assert (Hpos : 0 < count s ->
            forall c, 0 <= c <= 3 ->
              exists v, out !! Z.to_nat (4 * p + c) = Some v /\ lo c <= v <= hi c).
  { intros Hcount c Hc. eexists. split; [apply Hcell, Hc|].
    destruct (Hbounds c Hc). apply meansQuad_within; assumption. }
  split; [|exact Hpos].
  destruct (Z.lt_ge_cases 0 (count s)) as [Hcount|Hcount].
  - right. apply Hpos, Hcount.
  - left. intros c Hc. rewrite Hcell by exact Hc.
    rewrite meansQuad_empty by exact Hcount. reflexivity.
Qed.

Lemma blurPass_length (body : Z -> Z -> list Z -> list Z)
    (quad : Z -> Z -> Quad) (width height : Z) (a0 : list Z) :
  (forall y x a, body y x a = quadWrite a ((y * width + x) * 4) (quad y x)) ->
  length (for_loop (upto height) 0 1
            (fun y => for_loop (upto width) 0 1 (body y)) a0)
  = length a0.
Proof.
  intros Hbody.
  apply (for_loop_invariant (fun a => length a = length a0)); [|reflexivity].
  intros y a Ha.
  apply (for_loop_invariant (fun a => length a = length a0)); [|exact Ha].
  intros x a' Ha'. rewrite Hbody, quadWrite_length. exact Ha'.
Qed.

(* The pixels that count, stated on the cells of the buffer. *)
Lemma pixelWithin_cells (lo hi : Z -> Z) (data : list Z) (n p : Z) :
  length data = Z.to_nat (4 * n) -> 0 <= p < n ->
  (forall c alpha v, 0 <= c <= 3 ->
     data !! Z.to_nat (4 * p + 3) = Some alpha -> 0 < alpha ->
     data !! Z.to_nat (4 * p + c) = Some v -> lo c <= v <= hi c) ->
  pixelWithin lo hi data (4 * p).
Proof.
  intros Hlen Hp Hcells Hvis c Hc.
  destruct (lookup_lt_is_Some_2 data (Z.to_nat (4 * p + 3)) ltac:(lia))
    as [alpha Ha].
  destruct (lookup_lt_is_Some_2 data (Z.to_nat (4 * p + c)) ltac:(lia))
    as [v Hv].
  rewrite (counted_Some data p alpha ltac:(lia) Ha) in Hvis.
  apply Z.ltb_lt in Hvis.
  exists v. split; [apply u8get_Some; [lia|exact Hv]|].
  exact (Hcells c alpha v Hc Ha Hvis Hv).
Qed.

(* The two passes of [gaussianBlur]. *)
Lemma gaussianBlur_passes (data : list Z) (width height : Z) (radius : jsnum)
    (lo hi : Z -> Z) :
  0 < width -> 0 < height ->
  length data = Z.to_nat (4 * width * height) ->
  (forall c, 0 <= c <= 3 -> 0 <= lo c /\ hi c <= 255) ->
  (forall p, 0 <= p < width * height -> pixelWithin lo hi data (4 * p)) ->
  let temp :=
    for_loop (upto height) 0 1
      (fun y => for_loop (upto width) 0 1
                  (horizontal_body data width (blurRadius radius) y))
      (replicate (length data) 0) in
  length temp = length data
  /\ (forall p, 0 <= p < width * height ->
        blurredPixel lo hi temp p
        /\ (forall r, blurRadius radius = Some r ->
              counted data (4 * p) = true ->
              forall c, 0 <= c <= 3 ->
                exists v, temp !! Z.to_nat (4 * p + c) = Some v
                          /\ lo c <= v <= hi c))
  /\ (forall p, 0 <= p < width * height ->
        blurredPixel lo hi (gaussianBlur data width height radius) p
        /\ (forall r, blurRadius radius = Some r ->
              counted temp (4 * p) = true ->
              forall c, 0 <= c <= 3 ->
                exists v, gaussianBlur data width height radius
                            !! Z.to_nat (4 * p + c) = Some v
                          /\ lo c <= v <= hi c)).
Proof.
  intros Hw Hh Hlen Hbounds Hdata temp.
  assert (Hradius : forall r, blurRadius radius = Some r -> 0 <= r).
  { intros r Hr. destruct radius as [|q]; [discriminate|].
    cbn in Hr. injection Hr as <-. lia. }
  assert (Hlen1 : length temp = length data).
  { subst temp.
    rewrite (blurPass_length _ _ _ _ _ (horizontal_body_quad data width _)).
    apply length_replicate. }
  assert (Hpass1 : forall p, 0 <= p < width * height ->
            blurredPixel lo hi temp p
            /\ (forall r, blurRadius radius = Some r ->
                  counted data (4 * p) = true ->
                  forall c, 0 <= c <= 3 ->
                    exists v, temp !! Z.to_nat (4 * p + c) = Some v
                              /\ lo c <= v <= hi c)).
  { intros p Hp.
    destruct (blurPass_blurred data width height (blurRadius radius)
                (columnOffset width)
                (horizontal_body data width (blurRadius radius))
                lo hi (replicate (length data) 0) p
                (horizontal_body_quad data width _)) as [Hb Hpos];
      try assumption.
    { intros y x k Hy _. apply columnOffset_inside; assumption. }
    { rewrite length_replicate. exact Hlen. }
    split; [exact Hb|]. intros r Hr Hvis. apply Hpos.
    destruct (pixel_row_column width height p Hw Hp) as (Hy & Hx & Hyx).
    rewrite Hr. apply windowSums_positive; [apply Hradius, Hr|].
    rewrite columnOffset_middle by exact Hx. rewrite Hyx. exact Hvis. }
  split; [exact Hlen1|]. split; [exact Hpass1|].
  intros p Hp.
  change (gaussianBlur data width height radius)
    with (for_loop (upto height) 0 1
            (fun y => for_loop (upto width) 0 1
                        (vertical_body temp width height (blurRadius radius) y))
            (replicate (length data) 0)).
  destruct (blurPass_blurred temp width height (blurRadius radius)
              (rowOffset width height)
              (vertical_body temp width height (blurRadius radius))
              lo hi (replicate (length data) 0) p
              (vertical_body_quad temp width height _)) as [Hb Hpos];
    try assumption.
  { intros y x k _ Hx. apply rowOffset_inside; assumption. }
  { intros p' Hp'. apply blurredPixel_within; [lia|]. apply Hpass1, Hp'. }
  { rewrite length_replicate. exact Hlen. }
  split; [exact Hb|]. intros r Hr Hvis. apply Hpos.
  destruct (pixel_row_column width height p Hw Hp) as (Hy & Hx & Hyx).
  rewrite Hr. apply windowSums_positive; [apply Hradius, Hr|].
  rewrite rowOffset_middle by exact Hy. rewrite Hyx. exact Hvis.
Qed.

(** ** [gaussianBlur]: the range of the result *)

(** X26.  On a width × height image, every pixel of the result of
    [gaussianBlur] is (0, 0, 0, 0), or has each of its four channels within
    the bounds of that channel over the pixels of the input whose alpha is
    above 0: the blur makes no value outside the range of the pixels that
    count, and pixels that do not count leave no trace.  This holds for
    every radius, NaN included. *)
Theorem gaussianBlur_within (data : list Z) (width height : Z) (radius : jsnum)
    (lo hi : Z -> Z) :
  0 < width -> 0 < height ->
  length data = Z.to_nat (4 * width * height) ->
  exactRadius radius ->
  (forall c, 0 <= c <= 3 -> 0 <= lo c /\ hi c <= 255) ->
  (forall p c alpha v, 0 <= p < width * height -> 0 <= c <= 3 ->
     data !! Z.to_nat (4 * p + 3) = Some alpha -> 0 < alpha ->
     data !! Z.to_nat (4 * p + c) = Some v -> lo c <= v <= hi c) ->
  forall p, 0 <= p < width * height ->
    blurredPixel lo hi (gaussianBlur data width height radius) p.
Proof.
  intros Hw Hh Hlen _ Hbounds Hdata p Hp.
  destruct (gaussianBlur_passes data width height radius lo hi Hw Hh Hlen
              Hbounds) as (_ & _ & Hout).
  - intros p' Hp'.
    apply (pixelWithin_cells lo hi data (width * height));
      [rewrite Hlen; f_equal; lia|exact Hp'|].
    intros c alpha v Hc Ha Hpos Hv. exact (Hdata p' c alpha v Hp' Hc Ha Hpos Hv).
  - apply Hout, Hp.
Qed.

Lemma gaussianBlur_within_witness :
  blurredPixel lowOf highOf (gaussianBlur twoPixels 2 1 (Num 1)) 0.
Proof.
  apply (gaussianBlur_within twoPixels 2 1 (Num 1) lowOf highOf);
    try lia; try reflexivity.
  - unfold exactRadius, Qle. cbn. lia.
  - intros c Hc.
    assert (Hcases : c = 0 \/ c = 1 \/ c = 2 \/ c = 3) by lia.
    destruct Hcases as [-> | [-> | [-> | ->]]]; cbn; lia.
  - intros p c alpha v Hp Hc.
    assert (Hps : p = 0 \/ p = 1) by lia.
    assert (Hcases : c = 0 \/ c = 1 \/ c = 2 \/ c = 3) by lia.
    destruct Hps as [->| ->]; destruct Hcases as [-> | [-> | [-> | ->]]]; cbn;
      intros Ha _ Hv; injection Hv as <-; lia.
Defined.

(** ** [gaussianBlur]: an image of one colour *)

Lemma flat_buffer (a data : list Z) (col : Z -> Z) (n : Z) :
  length a = length data -> length data = Z.to_nat (4 * n) ->
  (forall p c, 0 <= p < n -> 0 <= c <= 3 ->
     data !! Z.to_nat (4 * p + c) = Some (col c)) ->
  (forall p c, 0 <= p < n -> 0 <= c <= 3 ->
     exists v, a !! Z.to_nat (4 * p + c) = Some v /\ col c <= v <= col c) ->
  a = data.
Proof.
  intros Hlen Hn Hdata Ha. apply list_eq. intros j.
  destruct (Nat.lt_ge_cases j (length data)) as [Hlt|Hge].
  - pose proof (Z.div_mod (Z.of_nat j) 4 ltac:(lia)) as Hdm.
    pose proof (Z.mod_pos_bound (Z.of_nat j) 4 ltac:(lia)) as Hmod.
    assert (Hdiv : 0 <= Z.of_nat j / 4) by (apply Z.div_pos; lia).
    assert (Hj : j = Z.to_nat (4 * (Z.of_nat j / 4) + Z.of_nat j mod 4)) by lia.
    rewrite Hj.
    destruct (Ha (Z.of_nat j / 4) (Z.of_nat j mod 4) ltac:(lia) ltac:(lia))
      as (v & -> & Hv).
    rewrite Hdata by lia. f_equal. lia.
  - rewrite !lookup_ge_None_2 by lia. reflexivity.
Qed.

(** X27.  An image all of whose pixels are equal, with an alpha above
    0, comes out of [gaussianBlur] unchanged, whatever the radius. *)
Theorem gaussianBlur_flat (data : list Z) (width height : Z) (col : Z -> Z)
    (q : Q) :
  0 < width -> 0 < height ->
  length data = Z.to_nat (4 * width * height) ->
  exactRadius (Num q) ->
  (forall c, 0 <= c <= 3 -> 0 <= col c <= 255) -> 0 < col 3 ->
  (forall p c, 0 <= p < width * height -> 0 <= c <= 3 ->
     data !! Z.to_nat (4 * p + c) = Some (col c)) ->
  gaussianBlur data width height (Num q) = data.
Proof.
  intros Hw Hh Hlen _ Hbytes Halpha Hdata.
  assert (Hlen' : length data = Z.to_nat (4 * (width * height)))
    by (rewrite Hlen; f_equal; lia).
  assert (Hcounted : forall p, 0 <= p < width * height ->
            counted data (4 * p) = true).
  { intros p Hp.
    rewrite (counted_Some data p (col 3)) by (lia || (apply Hdata; lia)).
    apply Z.ltb_lt, Halpha. }
  destruct (gaussianBlur_passes data width height (Num q) col col Hw Hh Hlen)
    as (Hlen1 & Htemp & Hout).
  { intros c Hc. specialize (Hbytes c Hc). lia. }
  { intros p Hp. apply (pixelWithin_cells col col data (width * height));
      [exact Hlen'|exact Hp|].
    intros c alpha v Hc _ _ Hv. rewrite Hdata in Hv by assumption.
    injection Hv as <-. lia. }
  cbv zeta in Hlen1, Htemp, Hout.
  set (temp := for_loop (upto height) 0 1
                 (fun y => for_loop (upto width) 0 1
                             (horizontal_body data width (blurRadius (Num q)) y))
                 (replicate (length data) 0)) in *.
  assert (Etemp : temp = data).
  { apply (flat_buffer temp data col (width * height) Hlen1 Hlen' Hdata).
    intros p c Hp Hc.
    exact (proj2 (Htemp p Hp) _ eq_refl (Hcounted p Hp) c Hc). }
  apply (flat_buffer _ data col (width * height)); [|exact Hlen'|exact Hdata|].
  - unfold gaussianBlur. cbv zeta.
    rewrite (blurPass_length _ _ _ _ _ (vertical_body_quad _ width height _)).
    apply length_replicate.
  - intros p c Hp Hc.
    refine (proj2 (Hout p Hp) _ eq_refl _ c Hc).
    rewrite Etemp. apply Hcounted, Hp.
Qed.

Lemma gaussianBlur_flat_witness :
  gaussianBlur flatImage 1 2 (Num 3) = flatImage.
Proof.
  apply (gaussianBlur_flat flatImage 1 2 flatColor 3); try lia;
    try reflexivity.
  - unfold exactRadius, Qle. cbn. lia.
  - intros c Hc.
    assert (Hcases : c = 0 \/ c = 1 \/ c = 2 \/ c = 3) by lia.
    destruct Hcases as [-> | [-> | [-> | ->]]]; cbn; lia.
  - intros p c Hp Hc.
    assert (Hps : p = 0 \/ p = 1) by lia.
    assert (Hcases : c = 0 \/ c = 1 \/ c = 2 \/ c = 3) by lia.
    destruct Hps as [->| ->]; destruct Hcases as [-> | [-> | [-> | ->]]];
      reflexivity.
Defined.

(** ** [gaussianBlur]: nothing to blur *)

Lemma windowSums_none (a : list Z) (radius : option Z) (idx : Z -> Z) :
  radius = None \/ (forall k, counted a (idx k) = false) ->
  windowSums a radius idx = noSums.
Proof.
  intros [->|Hnone]; [reflexivity|].
  unfold windowSums. apply window_loop_invariant; [|reflexivity].
  intros k s ->. unfold accumulate. fold (counted a (idx k)).
  rewrite Hnone. reflexivity.
Qed.

Lemma quadWrite_blank (n : nat) (i : Z) :
  quadWrite (replicate n 0) i (jsZ 0, jsZ 0, jsZ 0, jsZ 0) = replicate n 0.
Proof.
  apply list_eq. intros j.
  destruct (Nat.lt_ge_cases j n) as [Hlt|Hge].
  - destruct (Z.le_gt_cases i (Z.of_nat j)) as [Hlo|Hlo];
      [destruct (Z.le_gt_cases (Z.of_nat j) (i + 3)) as [Hhi|Hhi]|].
    + rewrite quadWrite_lookup_in by (rewrite ?length_replicate; lia).
      rewrite quadAt_zeros. symmetry. apply lookup_replicate_2. exact Hlt.
    + apply quadWrite_lookup_out. lia.
    + apply quadWrite_lookup_out. lia.
  - rewrite !lookup_ge_None_2
      by (rewrite ?quadWrite_length, length_replicate; lia).
    reflexivity.
Qed.

Lemma blurPass_blank (body : Z -> Z -> list Z -> list Z) (width height : Z)
    (n : nat) :
  (forall y x a,
     body y x a = quadWrite a ((y * width + x) * 4) (jsZ 0, jsZ 0, jsZ 0, jsZ 0)) ->
  for_loop (upto height) 0 1 (fun y => for_loop (upto width) 0 1 (body y))
    (replicate n 0)
  = replicate n 0.
Proof.
  intros Hbody.
  apply (for_loop_invariant (fun a => a = replicate n 0)); [|reflexivity].
  intros y a ->.
  apply (for_loop_invariant (fun a => a = replicate n 0)); [|reflexivity].
  intros x a ->. rewrite Hbody. apply quadWrite_blank.
Qed.

Lemma counted_blank (n : nat) (i : Z) : counted (replicate n 0) i = false.
Proof.
  unfold counted, u8get. destruct (i + 3 <? 0); [reflexivity|].
  destruct (replicate n 0 !! Z.to_nat (i + 3)) as [v|] eqn:E; [|reflexivity].
  apply lookup_replicate_1 in E as [-> _]. reflexivity.
Qed.

Lemma counted_transparent (data : list Z) (p : Z) :
  (forall k alpha, alphaAt data k = Some alpha -> alpha <= 0) ->
  counted data (4 * p) = false.
Proof.
  intros Halpha. unfold counted, u8get.
  destruct (Z.ltb_spec (4 * p + 3) 0) as [_|Hp]; [reflexivity|].
  destruct (data !! Z.to_nat (4 * p + 3)) as [alpha|] eqn:E; [|reflexivity].
  rewrite jslt_zero. apply Z.ltb_ge.
  apply (Halpha (Z.to_nat p)). unfold alphaAt.
  replace (4 * Z.to_nat p + 3)%nat with (Z.to_nat (4 * p + 3)) by lia.
  exact E.
Qed.

(** X28.  On a width × height image (a buffer of 4 · width · height
    cells, with a width and a height above 0), when the radius is NaN (or
    [undefined]), or when no pixel of the buffer has an alpha above 0,
    [gaussianBlur] returns zeros only, as many as the input has cells:
    nothing of the image is kept. *)
Theorem gaussianBlur_blank (data : list Z) (width height : Z) (radius : jsnum) :
  0 < width -> 0 < height ->
  length data = Z.to_nat (4 * width * height) ->
  exactRadius radius ->
  radius = NaN
  \/ (forall k alpha, alphaAt data k = Some alpha -> alpha <= 0) ->
  gaussianBlur data width height radius = replicate (length data) 0.
Proof.
  intros _ _ _ _ Hnothing. unfold gaussianBlur. cbv zeta.
  assert (Hfirst :
    for_loop (upto height) 0 1
      (fun y => for_loop (upto width) 0 1
                  (horizontal_body data width (blurRadius radius) y))
      (replicate (length data) 0)
    = replicate (length data) 0).
  { apply blurPass_blank. intros y x a.
    rewrite horizontal_body_quad, windowSums_none; [reflexivity|].
    destruct Hnothing as [->|Halpha]; [left; reflexivity|right].
    intros k. unfold columnOffset.
    rewrite Z.mul_comm. apply counted_transparent, Halpha. }
  rewrite Hfirst.
  apply blurPass_blank. intros y x a.
  rewrite vertical_body_quad, windowSums_none; [reflexivity|].
  right. intros k. apply counted_blank.
Qed.

Lemma gaussianBlur_blank_witness :
  gaussianBlur [9; 9; 9; 0] 1 1 (Num 2) = replicate 4 0.
Proof.
  apply (gaussianBlur_blank [9; 9; 9; 0] 1 1 (Num 2)); try lia;
    try reflexivity.
  - unfold exactRadius, Qle. cbn. lia.
  - right. intros k alpha Ha. unfold alphaAt in Ha.
    destruct k as [|k].
    + cbn in Ha. injection Ha as <-. lia.
    + apply lookup_lt_Some in Ha. cbn [length] in Ha. lia.
Defined.

(** * Properties of the code over binary64 numbers *)

(** ** The order of the numbers *)

Lemma SFcompare_key (x y : SpecFloat.spec_float) :
  x <> SpecFloat.S754_nan -> y <> SpecFloat.S754_nan ->
  exists c,
    SpecFloat.SFcompare x y = Some c
    /\ forall v w, FloatOps.Prim2SF v = x -> FloatOps.Prim2SF w = y ->
         match c with
         | Lt => B64.keyLt (B64.orderKey v) (B64.orderKey w)
         | Eq => B64.orderKey v = B64.orderKey w
         | Gt => B64.keyLt (B64.orderKey w) (B64.orderKey v)
         end.
Proof.
  intros Hx Hy.
  destruct x as [sx|sx| |sx mx ex]; [| |congruence|];
    destruct y as [sy|sy| |sy my ey]; try congruence;
    cbn [SpecFloat.SFcompare];
    try (destruct sx); try (destruct sy);
    try (eexists; split; [reflexivity|];
         intros v w Hv Hw; unfold B64.orderKey, B64.keyLt; rewrite Hv, Hw;
         cbn [fst snd]; first [reflexivity|lia]).
  - (* two negative numbers *)
    destruct (Z.compare_spec ex ey) as [E|E|E].
    + change (Pos.compare_cont Eq mx my) with (mx ?= my)%positive.
      destruct (Pos.compare_spec mx my) as [M|M|M];
        (eexists; split; [reflexivity|]);
        intros v w Hv Hw; unfold B64.orderKey, B64.keyLt; rewrite Hv, Hw;
        cbn [fst snd CompOpp]; subst; first [reflexivity|lia].
    + eexists. split; [reflexivity|].
      intros v w Hv Hw. unfold B64.orderKey, B64.keyLt. rewrite Hv, Hw.
      cbn [fst snd]. lia.
    + eexists. split; [reflexivity|].
      intros v w Hv Hw. unfold B64.orderKey, B64.keyLt. rewrite Hv, Hw.
      cbn [fst snd]. lia.
  - (* two positive numbers *)
    destruct (Z.compare_spec ex ey) as [E|E|E].
    + change (Pos.compare_cont Eq mx my) with (mx ?= my)%positive.
      destruct (Pos.compare_spec mx my) as [M|M|M];
        (eexists; split; [reflexivity|]);
        intros v w Hv Hw; unfold B64.orderKey, B64.keyLt; rewrite Hv, Hw;
        cbn [fst snd]; subst; first [reflexivity|lia].
    + eexists. split; [reflexivity|].
      intros v w Hv Hw. unfold B64.orderKey, B64.keyLt. rewrite Hv, Hw.
      cbn [fst snd]. lia.
    + eexists. split; [reflexivity|].
      intros v w Hv Hw. unfold B64.orderKey, B64.keyLt. rewrite Hv, Hw.
      cbn [fst snd]. lia.
Qed.

Lemma keyLt_cases (k k' : Z * Z * Z) :
  B64.keyLt k k' \/ k = k' \/ B64.keyLt k' k.
Proof.
  destruct k as [[a b] c], k' as [[a' b'] c']. unfold B64.keyLt. cbn [fst snd].
  destruct (Z.lt_trichotomy a a') as [H|[H|H]]; [lia| |lia].
  destruct (Z.lt_trichotomy b b') as [H1|[H1|H1]]; [lia| |lia].
  destruct (Z.lt_trichotomy c c') as [H2|[H2|H2]]; [lia| |lia].
  right. left. subst. reflexivity.
Qed.

Lemma keyLt_irrefl (k : Z * Z * Z) : ~ B64.keyLt k k.
Proof. unfold B64.keyLt. lia. Qed.

Lemma keyLt_asym (k k' : Z * Z * Z) : B64.keyLt k k' -> ~ B64.keyLt k' k.
Proof. unfold B64.keyLt. lia. Qed.

Lemma keyLt_trans (k1 k2 k3 : Z * Z * Z) :
  B64.keyLt k1 k2 -> B64.keyLt k2 k3 -> B64.keyLt k1 k3.
Proof. unfold B64.keyLt. lia. Qed.

(* The comparison of two numbers, read on their keys. *)
Lemma compare_numbers (a b : float) :
  B64.isNumber a -> B64.isNumber b ->
  (B64.jslt a b = true <-> B64.keyLt (B64.orderKey a) (B64.orderKey b))
  /\ (B64.jsle a b = true
      <-> B64.keyLt (B64.orderKey a) (B64.orderKey b)
          \/ B64.orderKey a = B64.orderKey b)
  /\ (B64.jseq a b = true <-> B64.orderKey a = B64.orderKey b).
Proof.
  assert (Hnum : forall v, B64.isNumber v ->
            FloatOps.Prim2SF v <> SpecFloat.S754_nan).
  { intros v Hv E. unfold B64.isNumber, PrimFloat.is_nan in Hv.
    rewrite FloatAxioms.eqb_spec, E in Hv. discriminate Hv. }
  intros Ha Hb.
  destruct (SFcompare_key _ _ (Hnum a Ha) (Hnum b Hb)) as (c & Hc & Hkey).
  specialize (Hkey a b eq_refl eq_refl).
  unfold B64.jslt, B64.jsle, B64.jseq.
  rewrite FloatAxioms.ltb_spec, FloatAxioms.leb_spec, FloatAxioms.eqb_spec.
  unfold SpecFloat.SFltb, SpecFloat.SFleb, SpecFloat.SFeqb. rewrite Hc.
  pose proof (keyLt_irrefl (B64.orderKey a)) as Hirr.
  destruct c.
  - rewrite Hkey in *.
    split; [|split]; (split; intros H'); auto; try discriminate; tauto.
  - pose proof (keyLt_asym _ _ Hkey) as Hasym.
    assert (Hne : B64.orderKey a <> B64.orderKey b)
      by (intros E; rewrite E in Hkey; exact (keyLt_irrefl _ Hkey)).
    split; [|split]; (split; intros H'); auto; try discriminate; tauto.
  - pose proof (keyLt_asym _ _ Hkey) as Hasym.
    assert (Hne : B64.orderKey a <> B64.orderKey b)
      by (intros E; rewrite E in Hkey; exact (keyLt_irrefl _ Hkey)).
    split; [|split]; (split; intros H'); auto; try discriminate; tauto.
Qed.

(* A comparison with NaN is false. *)
Lemma compare_NaN (a b : float) :
  PrimFloat.is_nan a = true \/ PrimFloat.is_nan b = true ->
  B64.jslt a b = false /\ B64.jsle a b = false /\ B64.jseq a b = false.
Proof.
  assert (Hnan : forall v, PrimFloat.is_nan v = true ->
            FloatOps.Prim2SF v = SpecFloat.S754_nan).
  { intros v Hv. unfold PrimFloat.is_nan in Hv.
    rewrite FloatAxioms.eqb_spec in Hv. unfold SpecFloat.SFeqb in Hv.
    destruct (FloatOps.Prim2SF v) as [s|s| |s m e] eqn:E; [| |reflexivity|].
    - cbn in Hv. discriminate Hv.
    - cbn in Hv. destruct s; discriminate Hv.
    - exfalso.
      destruct (SFcompare_key (SpecFloat.S754_finite s m e)
                  (SpecFloat.S754_finite s m e)) as (c & Hc & Hkey);
        [discriminate|discriminate|].
      specialize (Hkey v v E E). rewrite Hc in Hv.
      pose proof (keyLt_irrefl (B64.orderKey v)).
      destruct c; [discriminate Hv|tauto|tauto]. }
  unfold B64.jslt, B64.jsle, B64.jseq.
  rewrite FloatAxioms.ltb_spec, FloatAxioms.leb_spec, FloatAxioms.eqb_spec.
  unfold SpecFloat.SFltb, SpecFloat.SFleb, SpecFloat.SFeqb.
  intros [H|H]; apply Hnan in H; rewrite H.
  - repeat split; reflexivity.
  - destruct (FloatOps.Prim2SF a); repeat split; reflexivity.
Qed.

Lemma jslt_false_jsle (a b : float) :
  B64.isNumber a -> B64.isNumber b ->
  B64.jslt a b = false -> B64.jsle b a = true.
Proof.
  intros Ha Hb Hlt.
  destruct (compare_numbers a b Ha Hb) as (Hab & _ & _).
  destruct (compare_numbers b a Hb Ha) as (_ & Hba & _).
  apply Hba.
  destruct (keyLt_cases (B64.orderKey a) (B64.orderKey b)) as [H|[H|H]].
  - apply Hab in H. congruence.
  - right. symmetry. exact H.
  - left. exact H.
Qed.

Lemma jsle_false_jslt (a b : float) :
  B64.isNumber a -> B64.isNumber b ->
  B64.jsle a b = false -> B64.jslt b a = true.
Proof.
  intros Ha Hb Hle.
  destruct (compare_numbers a b Ha Hb) as (_ & Hab & _).
  destruct (compare_numbers b a Hb Ha) as (Hba & _ & _).
  apply Hba.
  destruct (keyLt_cases (B64.orderKey a) (B64.orderKey b)) as [H|[H|H]].
  - assert (B64.jsle a b = true) by (apply Hab; left; exact H). congruence.
  - assert (B64.jsle a b = true) by (apply Hab; right; exact H). congruence.
  - exact H.
Qed.

Lemma jslt_jsle_trans (a b c : float) :
  B64.isNumber a -> B64.isNumber b -> B64.isNumber c ->
  B64.jslt a b = true -> B64.jsle b c = true -> B64.jslt a c = true.
Proof.
  intros Ha Hb Hc Hab Hbc.
  apply (compare_numbers a b Ha Hb) in Hab.
  apply (compare_numbers b c Hb Hc) in Hbc.
  apply (compare_numbers a c Ha Hc).
  destruct Hbc as [Hbc|Hbc]; [eapply keyLt_trans; eassumption|].
  rewrite <- Hbc. exact Hab.
Qed.

Lemma jslt_jsle (a b : float) :
  B64.isNumber a -> B64.isNumber b ->
  B64.jslt a b = true -> B64.jsle a b = true.
Proof.
  intros Ha Hb Hab.
  apply (compare_numbers a b Ha Hb) in Hab.
  apply (compare_numbers a b Ha Hb). left. exact Hab.
Qed.

Lemma jsle_refl (a : float) : B64.isNumber a -> B64.jsle a a = true.
Proof. intros Ha. apply (compare_numbers a a Ha Ha). right. reflexivity. Qed.

(** ** The operations of the distance never give NaN on finite numbers *)

Lemma isNumber_Prim2SF (v : float) :
  FloatOps.Prim2SF v <> SpecFloat.S754_nan -> B64.isNumber v.
Proof.
  intros Hv. unfold B64.isNumber, PrimFloat.is_nan.
  rewrite FloatAxioms.eqb_spec. unfold SpecFloat.SFeqb.
  destruct (SFcompare_key _ _ Hv Hv) as (c & Hc & Hkey).
  specialize (Hkey v v eq_refl eq_refl). rewrite Hc.
  destruct c; [reflexivity| |]; destruct (keyLt_irrefl _ Hkey).
Qed.

Lemma shr_1_nonneg (mrs : SpecFloat.shr_record) :
  0 <= SpecFloat.shr_m mrs -> 0 <= SpecFloat.shr_m (SpecFloat.shr_1 mrs).
Proof.
  destruct mrs as [m r s]. cbn [SpecFloat.shr_m]. intros Hm.
  destruct m as [|p|p]; [cbn; lia| |lia].
  destruct p; cbn; lia.
Qed.

Lemma iter_shr_1_nonneg (p : positive) :
  forall mrs, 0 <= SpecFloat.shr_m mrs ->
    0 <= SpecFloat.shr_m (SpecFloat.iter_pos SpecFloat.shr_1 p mrs).
Proof.
  induction p as [p IH|p IH|]; intros mrs Hm; cbn [SpecFloat.iter_pos].
  - apply IH, IH, shr_1_nonneg, Hm.
  - apply IH, IH, Hm.
  - apply shr_1_nonneg, Hm.
Qed.

Lemma shr_fexp_nonneg (prec emax m e : Z) (l : SpecFloat.location) :
  0 <= m -> 0 <= SpecFloat.shr_m (SpecFloat.shr_fexp prec emax m e l).1.
Proof.
  intros Hm. unfold SpecFloat.shr_fexp, SpecFloat.shr.
  assert (H0 : 0 <= SpecFloat.shr_m (SpecFloat.shr_record_of_loc m l))
    by (destruct l as [|[| |]]; exact Hm).
  destruct (_ - e) as [|p|p]; cbn [fst]; try exact H0.
  apply iter_shr_1_nonneg, H0.
Qed.

Lemma round_nearest_even_nonneg (m : Z) (l : SpecFloat.location) :
  0 <= m -> 0 <= SpecFloat.round_nearest_even m l.
Proof.
  intros Hm. destruct l as [|[| |]]; cbn [SpecFloat.round_nearest_even];
    try lia.
  destruct (Z.even m); lia.
Qed.

Lemma binary_round_aux_signed (prec emax : Z) (s : bool) (m e : Z)
    (l : SpecFloat.location) :
  0 <= m -> B64.signedNumber s (SpecFloat.binary_round_aux prec emax s m e l).
Proof.
  intros Hm. unfold SpecFloat.binary_round_aux.
  pose proof (shr_fexp_nonneg prec emax m e l Hm) as H1.
  destruct (SpecFloat.shr_fexp prec emax m e l) as [mrs' e']. cbn [fst] in H1.
  pose proof (shr_fexp_nonneg prec emax _ e' SpecFloat.loc_Exact
                (round_nearest_even_nonneg _
                   (SpecFloat.loc_of_shr_record mrs') H1)) as H2.
  destruct (SpecFloat.shr_fexp prec emax _ e' SpecFloat.loc_Exact)
    as [mrs'' e'']. cbn [fst] in H2.
  destruct (SpecFloat.shr_m mrs'') as [|p|p]; [reflexivity| |lia].
  destruct (e'' <=? emax - prec); reflexivity.
Qed.

Lemma binary_normalize_signed (prec emax m e : Z) :
  SpecFloat.binary_normalize prec emax m e false <> SpecFloat.S754_nan
  /\ (0 <= m ->
      B64.signedNumber false (SpecFloat.binary_normalize prec emax m e false)).
Proof.
  assert (Hround : forall s p,
            B64.signedNumber s (SpecFloat.binary_round prec emax s p e)).
  { intros s p. unfold SpecFloat.binary_round.
    destruct (SpecFloat.shl_align _ _ _) as [mz ez].
    apply binary_round_aux_signed. lia. }
  destruct m as [|p|p]; cbn [SpecFloat.binary_normalize].
  - split; [discriminate|reflexivity].
  - pose proof (Hround false p) as H.
    split; [intros E; rewrite E in H; exact H|intros _; exact H].
  - pose proof (Hround true p) as H.
    split; [intros E; rewrite E in H; exact H|lia].
Qed.

Lemma sub_finite (a b : float) :
  B64.isFinite a -> B64.isFinite b ->
  FloatOps.Prim2SF (a - b)%b64 <> SpecFloat.S754_nan.
Proof.
  unfold B64.isFinite. rewrite FloatAxioms.sub_spec.
  unfold FloatAxioms.SF64sub, SpecFloat.SFsub.
  destruct (FloatOps.Prim2SF a) as [sa|sa| |sa ma ea];
    destruct (FloatOps.Prim2SF b) as [sb|sb| |sb mb eb];
    intros Ha Hb; try contradiction;
    try destruct sa; try destruct sb; try discriminate.
  all: apply binary_normalize_signed.
Qed.

Lemma square_notNegative (a : float) :
  FloatOps.Prim2SF a <> SpecFloat.S754_nan ->
  B64.notNegative (FloatOps.Prim2SF (a * a)%b64).
Proof.
  rewrite FloatAxioms.mul_spec. unfold FloatAxioms.SF64mul, SpecFloat.SFmul.
  destruct (FloatOps.Prim2SF a) as [s|s| |s m e]; intros Ha;
    [exact I|destruct s; reflexivity|congruence|].
  pose proof (binary_round_aux_signed FloatOps.prec FloatOps.emax (xorb s s)
                (Z.pos (m * m)) (e + e) SpecFloat.loc_Exact ltac:(lia)) as H.
  destruct (SpecFloat.binary_round_aux _ _ _ _ _ _) as [s'|s'| |s' m' e'];
    cbn in H |- *; try exact I; try contradiction;
    subst s'; destruct s; reflexivity.
Qed.

Lemma add_notNegative (a b : float) :
  B64.notNegative (FloatOps.Prim2SF a) -> B64.notNegative (FloatOps.Prim2SF b) ->
  B64.notNegative (FloatOps.Prim2SF (a + b)%b64).
Proof.
  rewrite FloatAxioms.add_spec. unfold FloatAxioms.SF64add, SpecFloat.SFadd.
  destruct (FloatOps.Prim2SF a) as [sa|sa| |sa ma ea];
    destruct (FloatOps.Prim2SF b) as [sb|sb| |sb mb eb];
    cbn [B64.notNegative]; intros Ha Hb; try contradiction; subst;
    try (destruct sa); try (destruct sb); try exact I; try reflexivity.
  destruct (binary_normalize_signed FloatOps.prec FloatOps.emax
              (SpecFloat.cond_Zopp false
                 (Z.pos (SpecFloat.shl_align ma ea (Z.min ea eb)).1)
               + SpecFloat.cond_Zopp false
                   (Z.pos (SpecFloat.shl_align mb eb (Z.min ea eb)).1))
              (Z.min ea eb)) as [_ H].
  specialize (H ltac:(cbn [SpecFloat.cond_Zopp]; lia)).
  destruct (SpecFloat.binary_normalize _ _ _ _ _) as [s'|s'| |s' m' e'];
    cbn in H |- *; try exact I; try contradiction; exact H.
Qed.

(* The squared distance between two colours of finite numbers is a number:
   a non-negative one, or positive infinity when it is too large. *)
Lemma distanceTo_number (r g b : float) (c : B64.Color) :
  B64.isFinite r -> B64.isFinite g -> B64.isFinite b -> B64.finiteColor c ->
  B64.isNumber (B64.distanceTo r g b c).
Proof.
  intros Hr Hg Hb (Hcr & Hcg & Hcb).
  unfold B64.distanceTo, B64.colorDistanceSquared. cbv zeta.
  apply isNumber_Prim2SF.
  assert (H : B64.notNegative
                (FloatOps.Prim2SF
                   ((r - B64.chR c) * (r - B64.chR c)
                    + (g - B64.chG c) * (g - B64.chG c)
                    + (b - B64.chB c) * (b - B64.chB c))%b64)).
  { apply add_notNegative; [apply add_notNegative|];
      apply square_notNegative, sub_finite; assumption. }
  intros E. rewrite E in H. exact H.
Qed.

(** ** The nearest-colour matcher *)

Section Matcher64.
Variables r g b : float.
Variable pal : list B64.PaletteEntry.
Hypothesis distances :
  forall c, In (B64.Triple c) pal -> B64.isNumber (B64.distanceTo r g b c).

Lemma lookup_distance (j : nat) (c : B64.Color) :
  pal !! j = Some (B64.Triple c) -> B64.isNumber (B64.distanceTo r g b c).
Proof.
  intros Hj. apply distances, list_elem_of_In.
  eapply list_elem_of_lookup_2. exact Hj.
Qed.

Lemma closest_loop_firstNearest64 (rest : list B64.PaletteEntry) :
  forall (pre : list B64.PaletteEntry) (k : nat) (c : B64.Color),
    pal = pre ++ rest ->
    Forall B64.wellFormed rest ->
    B64.firstNearest r g b pal (length pre) k c ->
    exists k' c',
      B64.firstNearest r g b pal (length pal) k' c'
      /\ B64.closest_loop r g b rest (B64.distanceTo r g b c) c = c'.
Proof.
  induction rest as [|e rest IH]; intros pre k c Hpal Hwf Hfn.
  - exists k, c. split; [|reflexivity].
    replace (length pal) with (length pre)
      by (rewrite Hpal, app_nil_r; reflexivity).
    exact Hfn.
  - apply Forall_cons in Hwf as [[ce ->] Hwf].
    assert (Hpal' : pal = (pre ++ [B64.Triple ce]) ++ rest)
      by (rewrite <- app_assoc; exact Hpal).
    assert (Hat : pal !! length pre = Some (B64.Triple ce)).
    { rewrite Hpal. rewrite lookup_app_r by lia.
      replace (length pre - length pre)%nat with O by lia. reflexivity. }
    destruct Hfn as (Hk & Hlt & Hmin & Hfirst).
    pose proof (lookup_distance _ _ Hat) as Hce.
    pose proof (lookup_distance _ _ Hk) as Hc.
    cbn [B64.closest_loop].
    fold (B64.distanceTo r g b ce).
    destruct (B64.jslt (B64.distanceTo r g b ce) (B64.distanceTo r g b c)) eqn:E.
    + apply (IH _ (length pre) ce Hpal' Hwf).
      rewrite length_app. cbn [length].
      repeat split.
      * exact Hat.
      * lia.
      * intros j c' Hj Hc'.
        destruct (decide (j = length pre)) as [->|Hne].
        -- rewrite Hat in Hc'. injection Hc' as <-. apply jsle_refl, Hce.
        -- apply jslt_jsle; [exact Hce|exact (lookup_distance _ _ Hc')|].
           apply (jslt_jsle_trans _ (B64.distanceTo r g b c));
             [exact Hce|exact Hc|exact (lookup_distance _ _ Hc')|exact E|].
           apply (Hmin j); [lia|exact Hc'].
      * intros j c' Hj Hc'.
        apply (jslt_jsle_trans _ (B64.distanceTo r g b c));
          [exact Hce|exact Hc|exact (lookup_distance _ _ Hc')|exact E|].
        apply (Hmin j); [lia|exact Hc'].
    + apply (IH _ k c Hpal' Hwf).
      rewrite length_app. cbn [length].
      repeat split.
      * exact Hk.
      * lia.
      * intros j c' Hj Hc'.
        destruct (decide (j = length pre)) as [->|Hne].
        -- rewrite Hat in Hc'. injection Hc' as <-.
           apply jslt_false_jsle; assumption.
        -- apply (Hmin j); [lia|exact Hc'].
      * exact Hfirst.
Qed.
End Matcher64.

(* Whenever no distance computes to NaN, the matcher returns the first of
   the entries whose computed distance is the least. *)
Lemma findClosestPaletteColor_least_computed (r g b : float)
    (pal : list B64.PaletteEntry) :
  pal <> [] ->
  Forall B64.wellFormed pal ->
  (forall c, In (B64.Triple c) pal -> B64.isNumber (B64.distanceTo r g b c)) ->
  exists (k : nat) (c : B64.Color),
    pal !! k = Some (B64.Triple c)
    /\ B64.findClosestPaletteColor r g b (B64.Entries pal) = c
    /\ (forall j c', pal !! j = Some (B64.Triple c') ->
          B64.jsle (B64.distanceTo r g b c) (B64.distanceTo r g b c') = true)
    /\ (forall j c', (j < k)%nat -> pal !! j = Some (B64.Triple c') ->
          B64.jslt (B64.distanceTo r g b c) (B64.distanceTo r g b c') = true).
Proof.
  intros Hne Hwf Hnum. destruct pal as [|p0 rest]; [congruence|].
  apply Forall_cons in Hwf as [[c0 ->] Hwf].
  destruct (closest_loop_firstNearest64 r g b (B64.Triple c0 :: rest) Hnum rest
              [B64.Triple c0] O c0 eq_refl Hwf) as (k & c & Hfn & Hres).
  { repeat split.
    - cbn. lia.
    - intros j c' Hj Hc'. destruct j; [|cbn in Hj; lia].
      cbn in Hc'. injection Hc' as <-.
      apply jsle_refl, Hnum. left. reflexivity.
    - intros j c' Hj. lia. }
  destruct Hfn as (Hk & Hlt & Hmin & Hfirst).
  exists k, c. repeat split.
  - exact Hk.
  - exact Hres.
  - intros j c' Hc'. apply (Hmin j); [|exact Hc'].
    apply lookup_lt_Some in Hc'. exact Hc'.
  - exact Hfirst.
Qed.

(** C2, as amended.  For a colour of finite numbers and a non-empty palette
    whose entries are all well-formed triples of finite numbers,
    [findClosestPaletteColor] returns an entry of the palette whose squared
    distance [dr² + dg² + db²], computed in binary64 arithmetic as the code
    computes it, is the least of the computed distances over the whole
    palette, and every entry at a smaller index computes as strictly
    farther: among the entries that compute as nearest the one with the
    smallest index is returned. *)
Theorem findClosestPaletteColor_first_nearest (r g b : float)
    (pal : list B64.PaletteEntry) :
  pal <> [] ->
  Forall B64.wellFormed pal ->
  B64.isFinite r -> B64.isFinite g -> B64.isFinite b ->
  (forall c, In (B64.Triple c) pal -> B64.finiteColor c) ->
  exists (k : nat) (c : B64.Color),
    pal !! k = Some (B64.Triple c)
    /\ B64.findClosestPaletteColor r g b (B64.Entries pal) = c
    /\ (forall j c', pal !! j = Some (B64.Triple c') ->
          B64.jsle (B64.distanceTo r g b c) (B64.distanceTo r g b c') = true)
    /\ (forall j c', (j < k)%nat -> pal !! j = Some (B64.Triple c') ->
          B64.jslt (B64.distanceTo r g b c) (B64.distanceTo r g b c') = true).
Proof.
  intros Hne Hwf Hr Hg Hb Hfin.
  apply findClosestPaletteColor_least_computed; try assumption.
  intros c Hc. apply distanceTo_number; auto.
Qed.

Lemma findClosestPaletteColor_first_nearest_witness :
  B64.tiedPalette <> []
  /\ Forall B64.wellFormed B64.tiedPalette
  /\ B64.isFinite B64.tiedColor.1.1
  /\ B64.isFinite B64.tiedColor.1.2
  /\ B64.isFinite B64.tiedColor.2
  /\ (forall c, In (B64.Triple c) B64.tiedPalette -> B64.finiteColor c)
  /\ exists (k : nat) (c : B64.Color),
       B64.tiedPalette !! k = Some (B64.Triple c)
       /\ B64.findClosestPaletteColor B64.tiedColor.1.1 B64.tiedColor.1.2
            B64.tiedColor.2 (B64.Entries B64.tiedPalette) = c
       /\ (forall j c', B64.tiedPalette !! j = Some (B64.Triple c') ->
             B64.jsle
               (B64.distanceTo B64.tiedColor.1.1 B64.tiedColor.1.2
                  B64.tiedColor.2 c)
               (B64.distanceTo B64.tiedColor.1.1 B64.tiedColor.1.2
                  B64.tiedColor.2 c') = true)
       /\ (forall j c', (j < k)%nat ->
             B64.tiedPalette !! j = Some (B64.Triple c') ->
             B64.jslt
               (B64.distanceTo B64.tiedColor.1.1 B64.tiedColor.1.2
                  B64.tiedColor.2 c)
               (B64.distanceTo B64.tiedColor.1.1 B64.tiedColor.1.2
                  B64.tiedColor.2 c') = true).
Proof.
  assert (H1 : B64.tiedPalette <> []) by discriminate.
  assert (H2 : Forall B64.wellFormed B64.tiedPalette)
    by (repeat constructor; eexists; reflexivity).
  assert (H3 : B64.isFinite B64.tiedColor.1.1) by (vm_compute; exact I).
  assert (H4 : B64.isFinite B64.tiedColor.1.2) by (vm_compute; exact I).
  assert (H5 : B64.isFinite B64.tiedColor.2) by (vm_compute; exact I).
  assert (H6 : forall c, In (B64.Triple c) B64.tiedPalette -> B64.finiteColor c)
    by (intros c [Hc|[Hc|[]]]; injection Hc as <-;
        repeat split; vm_compute; exact I).
  repeat (split; [assumption|]).
  exact (findClosestPaletteColor_first_nearest B64.tiedColor.1.1
           B64.tiedColor.1.2 B64.tiedColor.2 B64.tiedPalette
           H1 H2 H3 H4 H5 H6).
Defined.

(** C2 as stated fails.  The colour (19.9, 19.9, 24.9) is at the same
    distance from (15, 20, 25) and from (20, 20, 20), so the first of the
    nearest entries is the one at index 0; the two distances compute to
    different binary64 numbers, the second the smaller, and
    [findClosestPaletteColor] returns the entry at index 1. *)
Lemma findClosestPaletteColor_tie_lost_to_rounding :
  B64.findClosestPaletteColor B64.tiedColor.1.1 B64.tiedColor.1.2
    B64.tiedColor.2 (B64.Entries B64.tiedPalette)
  = (B64.ofZ 20, B64.ofZ 20, B64.ofZ 20)
  /\ (B64.exactDistance B64.tiedColor.1.1 B64.tiedColor.1.2 B64.tiedColor.2
        (B64.ofZ 15, B64.ofZ 20, B64.ofZ 25)
      == B64.exactDistance B64.tiedColor.1.1 B64.tiedColor.1.2 B64.tiedColor.2
           (B64.ofZ 20, B64.ofZ 20, B64.ofZ 20))%Q
  /\ ~ B64.firstExactNearest B64.tiedColor.1.1 B64.tiedColor.1.2
         B64.tiedColor.2 B64.tiedPalette.
Proof.
  assert (Hres : B64.findClosestPaletteColor B64.tiedColor.1.1
                   B64.tiedColor.1.2 B64.tiedColor.2
                   (B64.Entries B64.tiedPalette)
                 = (B64.ofZ 20, B64.ofZ 20, B64.ofZ 20))
    by (vm_compute; reflexivity).
  assert (Htie : (B64.exactDistance B64.tiedColor.1.1 B64.tiedColor.1.2
                    B64.tiedColor.2 (B64.ofZ 15, B64.ofZ 20, B64.ofZ 25)
                  == B64.exactDistance B64.tiedColor.1.1 B64.tiedColor.1.2
                       B64.tiedColor.2 (B64.ofZ 20, B64.ofZ 20, B64.ofZ 20))%Q)
    by (vm_compute; reflexivity).
  split; [exact Hres|]. split; [exact Htie|].
  intros (k & c & Hk & Hc & _ & Hfirst).
  rewrite Hres in Hc. subst c.
  destruct k as [|[|k]].
  - apply (f_equal (fun o => match o with
                              | Some (B64.Triple c) => B64.toUint8Clamp (B64.chR c)
                              | _ => 0
                              end)) in Hk.
    vm_compute in Hk. discriminate Hk.
  - specialize (Hfirst O (B64.ofZ 15, B64.ofZ 20, B64.ofZ 25) ltac:(lia) eq_refl).
    rewrite Htie in Hfirst. exact (Qlt_irrefl _ Hfirst).
  - cbn in Hk. discriminate Hk.
Qed.

(** ** Bytes as binary64 numbers *)

Lemma indices_In (n a : Z) : 0 <= a < n -> In a (B64.indices n).
Proof.
  intros Ha. unfold B64.indices. apply in_map_iff.
  exists (Z.to_nat a). split; [lia|]. apply in_seq. lia.
Qed.

(* A byte is kept by both conversions, is zero as a number only when it is
   0, and is kept by the scratch buffer and by [Math.round]. *)
Lemma bytes_table :
  forallb (fun a =>
             Bool.eqb (B64.jseq (B64.ofZ a) (B64.ofZ 0)) (a =? 0)
             && (B64.toUint8Clamp (B64.ofZ a) =? a)
             && Bool.eqb (B64.jseq (B64.fround (B64.ofZ a)) (B64.ofZ 0)) (a =? 0)
             && (B64.toUint8Clamp (B64.Math_round (B64.fround (B64.ofZ a))) =? a))
    B64.bytes = true.
Proof. vm_compute. reflexivity. Qed.

Lemma byte_facts (a : Z) :
  0 <= a <= 255 ->
  B64.jseq (B64.ofZ a) (B64.ofZ 0) = (a =? 0)
  /\ B64.toUint8Clamp (B64.ofZ a) = a
  /\ B64.jseq (B64.fround (B64.ofZ a)) (B64.ofZ 0) = (a =? 0)
  /\ B64.toUint8Clamp (B64.Math_round (B64.fround (B64.ofZ a))) = a.
Proof.
  intros Ha. pose proof bytes_table as Ht.
  rewrite forallb_forall in Ht.
  specialize (Ht a (indices_In 256 a ltac:(lia))).
  apply andb_true_iff in Ht as [Ht H4].
  apply andb_true_iff in Ht as [Ht H3].
  apply andb_true_iff in Ht as [H1 H2].
  apply Bool.eqb_prop in H1, H3. apply Z.eqb_eq in H2, H4.
  repeat split; assumption.
Qed.

(** ** Stores into a [Uint8ClampedArray] *)

Lemma u8set64_length (a : list Z) (i : Z) (v : float) :
  length (B64.u8set a i v) = length a.
Proof. unfold B64.u8set. destruct (i <? 0); [reflexivity|apply length_insert]. Qed.

Lemma u8set64_lookup_eq (a : list Z) (i : Z) (v : float) (j : nat) :
  Z.of_nat j = i -> (j < length a)%nat ->
  B64.u8set a i v !! j = Some (B64.toUint8Clamp v).
Proof.
  intros Hj Hlen. unfold B64.u8set.
  destruct (i <? 0) eqn:E; [apply Z.ltb_lt in E; lia|].
  replace (Z.to_nat i) with j by lia.
  apply list_lookup_insert_eq, Hlen.
Qed.

Lemma u8set64_lookup_ne (a : list Z) (i : Z) (v : float) (j : nat) :
  Z.of_nat j <> i -> B64.u8set a i v !! j = a !! j.
Proof.
  intros Hj. unfold B64.u8set.
  destruct (i <? 0) eqn:E; [reflexivity|]. apply Z.ltb_ge in E.
  apply list_lookup_insert_ne. lia.
Qed.

Lemma u8get64_Some (a : list Z) (i : Z) (v : Z) :
  0 <= i -> a !! Z.to_nat i = Some v -> B64.u8get a i = B64.ofZ v.
Proof.
  intros Hi Hv. unfold B64.u8get.
  destruct (i <? 0) eqn:E; [apply Z.ltb_lt in E; lia|].
  rewrite Hv. reflexivity.
Qed.

Lemma quadWrite64_length (a : list Z) (i : Z) (q : B64.Quad) :
  length (B64.quadWrite a i q) = length a.
Proof. unfold B64.quadWrite. rewrite !u8set64_length. reflexivity. Qed.

Lemma quadWrite64_lookup_in (a : list Z) (i : Z) (q : B64.Quad) (j : nat) :
  (j < length a)%nat -> i <= Z.of_nat j <= i + 3 ->
  B64.quadWrite a i q !! j
  = Some (B64.toUint8Clamp (B64.quadAt (Z.of_nat j - i) q)).
Proof.
  intros Hlen Hj. unfold B64.quadWrite, B64.quadAt. cbv zeta.
  destruct (Z.eq_dec (Z.of_nat j) (i + 3)) as [E3|N3].
  { rewrite u8set64_lookup_eq by (rewrite ?u8set64_length; lia).
    replace (Z.of_nat j - i) with 3 by lia. reflexivity. }
  rewrite u8set64_lookup_ne by lia.
  destruct (Z.eq_dec (Z.of_nat j) (i + 2)) as [E2|N2].
  { rewrite u8set64_lookup_eq by (rewrite ?u8set64_length; lia).
    replace (Z.of_nat j - i) with 2 by lia. reflexivity. }
  rewrite u8set64_lookup_ne by lia.
  destruct (Z.eq_dec (Z.of_nat j) (i + 1)) as [E1|N1].
  { rewrite u8set64_lookup_eq by (rewrite ?u8set64_length; lia).
    replace (Z.of_nat j - i) with 1 by lia. reflexivity. }
  rewrite u8set64_lookup_ne by lia.
  rewrite u8set64_lookup_eq by lia.
  replace (Z.of_nat j - i) with 0 by lia. reflexivity.
Qed.

Lemma quadWrite64_lookup_out (a : list Z) (i : Z) (q : B64.Quad) (j : nat) :
  ~ (i <= Z.of_nat j <= i + 3) -> B64.quadWrite a i q !! j = a !! j.
Proof.
  intros Hj. unfold B64.quadWrite. cbv zeta.
  rewrite !u8set64_lookup_ne by lia. reflexivity.
Qed.

(* A loop whose pass [p] stores a quadruple at offset [4 p]: the cell [j]
   holds what pass [j / 4] stored there. *)
Lemma quadLoop_lookup64 (quad : Z -> B64.Quad) (a0 : list Z) (n : nat) :
  let out := upTo n (fun p a => B64.quadWrite a (4 * p) (quad p)) a0 in
  length out = length a0
  /\ forall j : nat, (j < length a0)%nat ->
       out !! j
       = if Z.of_nat j / 4 <? Z.of_nat n
         then Some (B64.toUint8Clamp
                      (B64.quadAt (Z.of_nat j mod 4) (quad (Z.of_nat j / 4))))
         else a0 !! j.
Proof.
  induction n as [|n [IHlen IH]]; cbv zeta.
  - split; [reflexivity|]. intros j Hj.
    destruct (_ <? _) eqn:E; [|reflexivity].
    apply Z.ltb_lt in E. pose proof (Z.div_pos (Z.of_nat j) 4). lia.
  - cbn [upTo]. split; [rewrite quadWrite64_length; exact IHlen|].
    intros j Hj.
    pose proof (Z.div_mod (Z.of_nat j) 4 ltac:(lia)) as Hdm.
    pose proof (Z.mod_pos_bound (Z.of_nat j) 4 ltac:(lia)) as Hmod.
    destruct (Z.eq_dec (Z.of_nat j / 4) (Z.of_nat n)) as [Heq|Hneq].
    + rewrite quadWrite64_lookup_in by lia.
      destruct (_ <? _) eqn:E; [|apply Z.ltb_ge in E; lia].
      rewrite Heq. do 3 f_equal. lia.
    + rewrite quadWrite64_lookup_out by lia.
      rewrite (IH j Hj).
      destruct (Z.of_nat j / 4 <? Z.of_nat n) eqn:E1;
        destruct (Z.of_nat j / 4 <? Z.of_nat (Datatypes.S n)) eqn:E2;
        try reflexivity.
      * apply Z.ltb_lt in E1. apply Z.ltb_ge in E2. lia.
      * apply Z.ltb_ge in E1. apply Z.ltb_lt in E2. lia.
Qed.

(** ** What [applyBayerDithering] stores *)

Lemma bayer_body_quad64 (pixelDataArray : list Z) (width : Z)
    (targetPalette : B64.jsPalette) (bayerMatrix : list (list Z)) (matrixSize : Z)
    (strengthFactor : float) (y x : Z) (newData : list Z) :
  B64.bayer_body pixelDataArray width targetPalette bayerMatrix matrixSize
    strengthFactor y x newData
  = B64.quadWrite newData ((y * width + x) * 4)
      (B64.bayerQuad pixelDataArray width targetPalette bayerMatrix matrixSize
         strengthFactor y x).
Proof.
  unfold B64.bayer_body, B64.bayerQuad, B64.quadWrite.
  destruct (B64.jseq _ _); reflexivity.
Qed.

Lemma bayerLoop_lookup64 (pixelDataArray : list Z) (width height : Z)
    (targetPalette : B64.jsPalette) (bayerMatrix : list (list Z)) (matrixSize : Z)
    (strengthFactor : float) (newData : list Z) :
  0 < width ->
  let out := for_loop (upto height) 0 1
               (fun y => for_loop (upto width) 0 1
                           (B64.bayer_body pixelDataArray width targetPalette
                              bayerMatrix matrixSize strengthFactor y))
               newData in
  length out = length newData
  /\ forall j : nat, (j < length newData)%nat ->
       out !! j
       = if Z.of_nat j / 4 <? Z.of_nat (upto height * upto width)
         then Some (B64.toUint8Clamp
                      (B64.quadAt (Z.of_nat j mod 4)
                         (B64.bayerQuad pixelDataArray width targetPalette
                            bayerMatrix matrixSize strengthFactor
                            (Z.of_nat j / 4 / width) ((Z.of_nat j / 4) mod width))))
         else newData !! j.
Proof.
  intros Hw out.
  assert (Hout : out
            = upTo (upto height * upto width)
                (fun p a => B64.quadWrite a (4 * p)
                   (B64.bayerQuad pixelDataArray width targetPalette bayerMatrix
                      matrixSize strengthFactor (p / width) (p mod width)))
                newData).
  { subst out. rewrite nested_loops_upTo by (unfold upto; lia).
    apply upTo_ext. intros p a _.
    unfold upto. rewrite Z2Nat.id by lia.
    rewrite bayer_body_quad64. f_equal.
    pose proof (Z.div_mod p width ltac:(lia)). lia. }
  rewrite Hout.
  apply (quadLoop_lookup64
           (fun p => B64.bayerQuad pixelDataArray width targetPalette bayerMatrix
                       matrixSize strengthFactor (p / width) (p mod width))).
Qed.

(* What the dithering branch of [applyBayerDithering] stores in the cell
   [c] of the pixel at column [x] of row [y]. *)
Lemma applyBayerDithering_cell64 (pixelDataArray : list Z) (width height : Z)
    (targetPalette : B64.jsPalette) (strengthPercent : float) (x y c : Z) :
  B64.nonEmpty targetPalette ->
  B64.jseq (B64.clampStrength strengthPercent) (B64.ofZ 0) = false ->
  0 <= x < width -> 0 <= y < height -> 0 <= c <= 3 ->
  (Z.to_nat ((y * width + x) * 4 + c) < length pixelDataArray)%nat ->
  B64.applyBayerDithering pixelDataArray width height targetPalette strengthPercent
    !! Z.to_nat ((y * width + x) * 4 + c)
  = Some (B64.toUint8Clamp
            (B64.quadAt c
               (B64.bayerQuad pixelDataArray width targetPalette
                  (B64.selectMatrix (B64.clampStrength strengthPercent)).1
                  (B64.selectMatrix (B64.clampStrength strengthPercent)).2
                  (B64.clampStrength strengthPercent / B64.ofZ 100)%b64 y x))).
Proof.
  intros (e & entries & ->) Hs Hx Hy Hc Hlen.
  unfold B64.applyBayerDithering.
  destruct pixelDataArray as [|v pixels] eqn:Hpx; [cbn in Hlen; lia|].
  rewrite <- Hpx in *. clear Hpx v pixels.
  rewrite Hs.
  destruct (B64.selectMatrix (B64.clampStrength strengthPercent))
    as [bayerMatrix matrixSize]. cbn [fst snd].
  destruct (bayerLoop_lookup64 pixelDataArray width height
              (B64.Entries (e :: entries)) bayerMatrix matrixSize
              (B64.clampStrength strengthPercent / B64.ofZ 100)%b64
              (replicate (length pixelDataArray) 0) ltac:(lia)) as [_ Hlook].
  rewrite Hlook by (rewrite length_replicate; exact Hlen).
  destruct (pixel_index width height x y c Hx Hy Hc) as (Hdiv & Hmod & Hy' & Hx' & Hlt).
  rewrite Hdiv, Hmod, Hy', Hx'.
  destruct (_ <? _) eqn:E; [reflexivity|apply Z.ltb_ge in E; lia].
Qed.

(* For an entry of one of the three matrices, multiplying by the reciprocal
   of [size²] and dividing by [size²] give the same number. *)
Lemma normalization_table :
  forallb (fun m : list (list Z) * Z =>
             forallb (fun row =>
                        forallb (fun col =>
                                   PrimFloat.Leibniz.eqb
                                     (B64.matrixAt m.1 row col
                                      * B64.bayerValueNormalization m.2)%b64
                                     (B64.ofZ (matrixEntry m.1 row col)
                                      / (B64.ofZ m.2 * B64.ofZ m.2))%b64)
                          (B64.indices m.2))
               (B64.indices m.2))
    B64.matrices = true.
Proof. vm_compute. reflexivity. Qed.

Lemma thresholdAdjustment_offset64 (matrix : list (list Z)) (size : Z)
    (s : float) (x y : Z) :
  In (matrix, size) B64.matrices -> 0 <= x -> 0 <= y ->
  B64.thresholdAdjustment matrix size (s / B64.ofZ 100)%b64 x y
  = B64.bayerOffset (matrixEntry matrix (y mod size) (x mod size)) size s.
Proof.
  intros Hin Hx Hy.
  assert (Hsize : 0 < size).
  { destruct Hin as [E|[E|[E|[]]]]; injection E as _ <-; lia. }
  pose proof normalization_table as Ht.
  rewrite forallb_forall in Ht. specialize (Ht _ Hin). cbn [fst snd] in Ht.
  rewrite forallb_forall in Ht.
  specialize (Ht (y mod size)
                (indices_In _ _ (Z.mod_pos_bound y size Hsize))).
  rewrite forallb_forall in Ht.
  specialize (Ht (x mod size)
                (indices_In _ _ (Z.mod_pos_bound x size Hsize))).
  apply FloatAxioms.Leibniz.eqb_spec in Ht.
  unfold B64.thresholdAdjustment, B64.bayerOffset, B64.maxThresholdOffset.
  cbv zeta. rewrite !Z.rem_mod_nonneg by lia.
  rewrite Ht. reflexivity.
Qed.

Lemma jslt_isNumber (a b : float) :
  B64.jslt a b = true -> B64.isNumber a /\ B64.isNumber b.
Proof.
  intros Hlt. unfold B64.isNumber.
  destruct (PrimFloat.is_nan a) eqn:Ea.
  { destruct (compare_NaN a b (or_introl Ea)) as (H & _). congruence. }
  destruct (PrimFloat.is_nan b) eqn:Eb.
  { destruct (compare_NaN a b (or_intror Eb)) as (H & _). congruence. }
  split; reflexivity.
Qed.

Lemma jslt_jseq_false (a b : float) :
  B64.jslt a b = true -> B64.jseq b a = false.
Proof.
  intros Hlt. destruct (jslt_isNumber _ _ Hlt) as [Ha Hb].
  apply (compare_numbers a b Ha Hb) in Hlt.
  destruct (B64.jseq b a) eqn:E; [|reflexivity].
  apply (compare_numbers b a Hb Ha) in E. rewrite E in Hlt.
  destruct (keyLt_irrefl _ Hlt).
Qed.

Lemma selectMatrix_band64 (s : float) :
  B64.isNumber s ->
  B64.matrixForStrength s (B64.selectMatrix s).1 (B64.selectMatrix s).2.
Proof.
  intros Hs.
  assert (H33 : B64.isNumber B64.lit_33_3) by (vm_compute; reflexivity).
  assert (H66 : B64.isNumber B64.lit_66_6) by (vm_compute; reflexivity).
  unfold B64.selectMatrix, B64.matrixForStrength.
  destruct (B64.jsle s B64.lit_33_3) eqn:E1.
  { left. auto. }
  apply jsle_false_jslt in E1; [|exact Hs|exact H33].
  destruct (B64.jsle s B64.lit_66_6) eqn:E2.
  { right. left. auto. }
  apply jsle_false_jslt in E2; [|exact Hs|exact H66].
  right. right. auto.
Qed.

Lemma selectMatrix_matrices (s : float) :
  In ((B64.selectMatrix s).1, (B64.selectMatrix s).2) B64.matrices.
Proof.
  unfold B64.selectMatrix, B64.matrices.
  destruct (B64.jsle s B64.lit_33_3); [left; reflexivity|].
  destruct (B64.jsle s B64.lit_66_6);
    [right; left; reflexivity|right; right; left; reflexivity].
Qed.

Lemma bayerQuad_visible64 (pixelDataArray : list Z) (width : Z)
    (targetPalette : B64.jsPalette) (bayerMatrix : list (list Z)) (matrixSize : Z)
    (strengthFactor : float) (x y r g b a : Z) :
  0 <= (y * width + x) * 4 ->
  pixelDataArray !! Z.to_nat ((y * width + x) * 4) = Some r ->
  pixelDataArray !! Z.to_nat ((y * width + x) * 4 + 1) = Some g ->
  pixelDataArray !! Z.to_nat ((y * width + x) * 4 + 2) = Some b ->
  pixelDataArray !! Z.to_nat ((y * width + x) * 4 + 3) = Some a ->
  0 <= a <= 255 -> a <> 0 ->
  B64.bayerQuad pixelDataArray width targetPalette bayerMatrix matrixSize
    strengthFactor y x
  = let adj := B64.thresholdAdjustment bayerMatrix matrixSize strengthFactor x y in
    let closestColor :=
      B64.findClosestPaletteColor (B64.clamp255 (B64.ofZ r + adj)%b64)
        (B64.clamp255 (B64.ofZ g + adj)%b64) (B64.clamp255 (B64.ofZ b + adj)%b64)
        targetPalette in
    (B64.chR closestColor, B64.chG closestColor, B64.chB closestColor, B64.ofZ a).
Proof.
  intros Hi Hr Hg Hb Ha Hbyte Hnz. unfold B64.bayerQuad. cbv zeta.
  rewrite (u8get64_Some _ _ r Hi Hr).
  rewrite (u8get64_Some _ ((y * width + x) * 4 + 1) g ltac:(lia) Hg).
  rewrite (u8get64_Some _ ((y * width + x) * 4 + 2) b ltac:(lia) Hb).
  rewrite (u8get64_Some _ ((y * width + x) * 4 + 3) a ltac:(lia) Ha).
  destruct (byte_facts a Hbyte) as (Hzero & _). rewrite Hzero.
  destruct (a =? 0) eqn:E; [apply Z.eqb_eq in E; lia|].
  reflexivity.
Qed.

(** C5.  Let the clamped strength [s] be greater than 0 (so 0 < s <= 100).
    The matrix is the 2×2 one when [s <= 33.3], the 4×4 one when
    [33.3 < s <= 66.6] and the 8×8 one otherwise; and for a pixel of the
    image at column [x] of row [y] whose alpha is not 0, the three colour
    cells of the output hold the palette colour nearest to the input colour
    after one and the same offset was added to R, G and B (each sum clamped
    to [0,255]), the offset being the matrix value at row [y mod size] and
    column [x mod size], divided by [size²], minus 0.5, times
    [(s / 100) · size² / 2]; the alpha cell is kept.  The numbers are
    binary64 numbers and every comparison and operation is the machine's. *)
Theorem applyBayerDithering_offset (pixelDataArray : list Z) (width height : Z)
    (targetPalette : B64.jsPalette) (strengthPercent : float)
    (x y r g b a : Z) :
  B64.nonEmpty targetPalette ->
  B64.jslt (B64.ofZ 0) (B64.clampStrength strengthPercent) = true ->
  0 <= x < width -> 0 <= y < height ->
  pixelDataArray !! Z.to_nat ((y * width + x) * 4) = Some r ->
  pixelDataArray !! Z.to_nat ((y * width + x) * 4 + 1) = Some g ->
  pixelDataArray !! Z.to_nat ((y * width + x) * 4 + 2) = Some b ->
  pixelDataArray !! Z.to_nat ((y * width + x) * 4 + 3) = Some a ->
  0 <= a <= 255 -> a <> 0 ->
  exists (matrix : list (list Z)) (size : Z),
    B64.matrixForStrength (B64.clampStrength strengthPercent) matrix size
    /\ let off := B64.bayerOffset (matrixEntry matrix (y mod size) (x mod size))
                    size (B64.clampStrength strengthPercent) in
       let out := B64.applyBayerDithering pixelDataArray width height
                    targetPalette strengthPercent in
       let closestColor :=
         B64.findClosestPaletteColor
           (B64.clamp255 (B64.ofZ r + off)%b64)
           (B64.clamp255 (B64.ofZ g + off)%b64)
           (B64.clamp255 (B64.ofZ b + off)%b64) targetPalette in
       out !! Z.to_nat ((y * width + x) * 4)
       = Some (B64.toUint8Clamp (B64.chR closestColor))
       /\ out !! Z.to_nat ((y * width + x) * 4 + 1)
          = Some (B64.toUint8Clamp (B64.chG closestColor))
       /\ out !! Z.to_nat ((y * width + x) * 4 + 2)
          = Some (B64.toUint8Clamp (B64.chB closestColor))
       /\ out !! Z.to_nat ((y * width + x) * 4 + 3) = Some a.
Proof.
  intros Hpal Hs Hx Hy Hr Hg Hb Ha Hbyte Hnz.
  assert (Hi : 0 <= (y * width + x) * 4) by nia.
  destruct (jslt_isNumber _ _ Hs) as [_ Hnum].
  pose proof (jslt_jseq_false _ _ Hs) as Hpos.
  set (s := B64.clampStrength strengthPercent) in *.
  pose proof (selectMatrix_band64 s Hnum) as Hband.
  pose proof (selectMatrix_matrices s) as Hin.
  set (matrix := (B64.selectMatrix s).1) in *.
  set (size := (B64.selectMatrix s).2) in *.
  exists matrix, size. split; [exact Hband|]. cbv zeta.
  rewrite <- (thresholdAdjustment_offset64 matrix size s x y Hin) by lia.
  pose proof (fun c => applyBayerDithering_cell64 pixelDataArray width height
                targetPalette strengthPercent x y c Hpal Hpos Hx Hy) as Hcell.
  fold s in Hcell. fold matrix size in Hcell.
  pose proof (bayerQuad_visible64 pixelDataArray width targetPalette matrix size
                (s / B64.ofZ 100)%b64 x y r g b a Hi Hr Hg Hb Ha Hbyte Hnz)
    as Hquad.
  cbv zeta in Hquad. rewrite Hquad in Hcell.
  repeat split.
  - rewrite <- (Z.add_0_r ((y * width + x) * 4)).
    rewrite (Hcell 0); try lia; [reflexivity|].
    rewrite Z.add_0_r. apply lookup_lt_Some in Hr. exact Hr.
  - rewrite (Hcell 1); try lia; [reflexivity|].
    apply lookup_lt_Some in Hg. exact Hg.
  - rewrite (Hcell 2); try lia; [reflexivity|].
    apply lookup_lt_Some in Hb. exact Hb.
  - rewrite (Hcell 3); try lia.
    + change (B64.quadAt 3 ?q) with q.2. cbn [snd].
      destruct (byte_facts a Hbyte) as (_ & Hkeep & _). rewrite Hkeep.
      reflexivity.
    + apply lookup_lt_Some in Ha. exact Ha.
Qed.

Lemma applyBayerDithering_offset_witness :
  B64.nonEmpty (B64.Entries B64.tiedPalette)
  /\ B64.jslt (B64.ofZ 0) (B64.clampStrength (B64.ofZ 10)) = true
  /\ 0 <= 0 < 1
  /\ B64.tiedPixel !! Z.to_nat ((0 * 1 + 0) * 4) = Some 20
  /\ B64.tiedPixel !! Z.to_nat ((0 * 1 + 0) * 4 + 1) = Some 20
  /\ B64.tiedPixel !! Z.to_nat ((0 * 1 + 0) * 4 + 2) = Some 25
  /\ B64.tiedPixel !! Z.to_nat ((0 * 1 + 0) * 4 + 3) = Some 255
  /\ 0 <= 255 <= 255
  /\ 255 <> 0
  /\ exists (matrix : list (list Z)) (size : Z),
       B64.matrixForStrength (B64.clampStrength (B64.ofZ 10)) matrix size
       /\ let off := B64.bayerOffset (matrixEntry matrix (0 mod size) (0 mod size))
                       size (B64.clampStrength (B64.ofZ 10)) in
          let out := B64.applyBayerDithering B64.tiedPixel 1 1
                       (B64.Entries B64.tiedPalette) (B64.ofZ 10) in
          let closestColor :=
            B64.findClosestPaletteColor
              (B64.clamp255 (B64.ofZ 20 + off)%b64)
              (B64.clamp255 (B64.ofZ 20 + off)%b64)
              (B64.clamp255 (B64.ofZ 25 + off)%b64)
              (B64.Entries B64.tiedPalette) in
          out !! Z.to_nat ((0 * 1 + 0) * 4)
          = Some (B64.toUint8Clamp (B64.chR closestColor))
          /\ out !! Z.to_nat ((0 * 1 + 0) * 4 + 1)
             = Some (B64.toUint8Clamp (B64.chG closestColor))
          /\ out !! Z.to_nat ((0 * 1 + 0) * 4 + 2)
             = Some (B64.toUint8Clamp (B64.chB closestColor))
          /\ out !! Z.to_nat ((0 * 1 + 0) * 4 + 3) = Some 255.
Proof.
  assert (H1 : B64.nonEmpty (B64.Entries B64.tiedPalette))
    by (do 2 eexists; reflexivity).
  assert (H2 : B64.jslt (B64.ofZ 0) (B64.clampStrength (B64.ofZ 10)) = true)
    by (vm_compute; reflexivity).
  assert (H3 : 0 <= 0 < 1) by lia.
  assert (H4 : B64.tiedPixel !! Z.to_nat ((0 * 1 + 0) * 4) = Some 20)
    by reflexivity.
  assert (H5 : B64.tiedPixel !! Z.to_nat ((0 * 1 + 0) * 4 + 1) = Some 20)
    by reflexivity.
  assert (H6 : B64.tiedPixel !! Z.to_nat ((0 * 1 + 0) * 4 + 2) = Some 25)
    by reflexivity.
  assert (H7 : B64.tiedPixel !! Z.to_nat ((0 * 1 + 0) * 4 + 3) = Some 255)
    by reflexivity.
  assert (H8 : 0 <= 255 <= 255) by lia.
  assert (H9 : 255 <> 0) by lia.
  repeat (split; [assumption|]).
  exact (applyBayerDithering_offset B64.tiedPixel 1 1
           (B64.Entries B64.tiedPalette) (B64.ofZ 10) 0 0 20 20 25 255
           H1 H2 H3 H3 H4 H5 H6 H7 H8 H9).
Defined.

(* At strength 10 the offset of the pixel (0, 0) moves the colour
   (20, 20, 25) to the same distance from the two entries of the palette;
   the distance to the second entry computes as the smaller one, and the
   pixel becomes (20, 20, 20). *)
Lemma applyBayerDithering_tied_pixel :
  B64.applyBayerDithering B64.tiedPixel 1 1 (B64.Entries B64.tiedPalette)
    (B64.ofZ 10)
  = [20; 20; 20; 255].
Proof. vm_compute. reflexivity. Qed.
(** ** Semi-transparent pixels *)

Lemma collect_body_candidate (pixelDataArray : list Z) (k : nat)
    (acc : list Pixel) :
  collect_body pixelDataArray (4 * Z.of_nat k) acc
  = acc ++ option_list
             match pixelAt pixelDataArray k, alphaAt pixelDataArray k with
             | Some p, Some a => if 128 <? a then Some p else None
             | _, _ => None
             end.
Proof.
  unfold collect_body, pixelAt, alphaAt, u8get.
  destruct (Z.ltb_spec (4 * Z.of_nat k + 3) 0) as [Hneg|_]; [lia|].
  replace (Z.to_nat (4 * Z.of_nat k + 3)) with (4 * k + 3)%nat by lia.
  replace (Z.to_nat (4 * Z.of_nat k)) with (4 * k)%nat by lia.
  replace (Z.to_nat (4 * Z.of_nat k + 1)) with (4 * k + 1)%nat by lia.
  replace (Z.to_nat (4 * Z.of_nat k + 2)) with (4 * k + 2)%nat by lia.
  destruct (pixelDataArray !! (4 * k + 3)%nat) as [a|] eqn:Ha.
  - rewrite jslt_128.
    destruct (pixelDataArray !! (4 * k)%nat) as [r|];
      destruct (pixelDataArray !! (4 * k + 1)%nat) as [g|];
      destruct (pixelDataArray !! (4 * k + 2)%nat) as [b|];
      destruct (128 <? a); cbn [option_list]; rewrite ?app_nil_r; reflexivity.
  - cbn [jslt].
    destruct (pixelDataArray !! (4 * k)%nat) as [r|];
      destruct (pixelDataArray !! (4 * k + 1)%nat) as [g|];
      destruct (pixelDataArray !! (4 * k + 2)%nat) as [b|];
      cbn [option_list]; rewrite ?app_nil_r; reflexivity.
Qed.

(* The collection loop keeps exactly the pixels whose alpha is above 128. *)
Lemma collectOpaque_candidates (pixelDataArray : list Z) :
  collectOpaque pixelDataArray = candidateColors pixelDataArray.
Proof.
  rewrite collectOpaque_upTo. unfold candidateColors.
  generalize (strides4 (length pixelDataArray)) as n.
  induction n as [|n IH]; [reflexivity|].
  cbn [upTo]. rewrite IH, collect_body_candidate.
  rewrite seq_S, omap_app. reflexivity.
Qed.

Lemma generatePalette_candidates (pixelDataArray : list Z) (numColors : Q) :
  generatePalette pixelDataArray numColors
  = paletteFromCandidates (candidateColors pixelDataArray) numColors.
Proof.
  unfold generatePalette, paletteFromCandidates.
  rewrite collectOpaque_candidates. reflexivity.
Qed.

(* The four cells of a pixel that hold a stored quadruple: a colour of the
   palette with the alpha [a], or zeros. *)
Lemma quantizedAt_cells (colors : list Pixel) (out : list Z) (k : nat) (a : Z)
    (q : Quad) :
  Forall bytePixel colors ->
  (forall c : nat, (c <= 3)%nat ->
     out !! (4 * k + c)%nat = Some (toUint8Clamp (quadAt (Z.of_nat c) q))) ->
  (a <> 0 ->
   exists p al,
     In p colors
     /\ q = (chR (colorOfPixel p), chG (colorOfPixel p), chB (colorOfPixel p), al)
     /\ toUint8Clamp al = a) ->
  (a = 0 -> forall c, toUint8Clamp (quadAt c q) = 0) ->
  quantizedAt colors out k a.
Proof.
  intros Hbytes Hcells Hvis Hclear. rewrite Forall_forall in Hbytes. split.
  - intros Hnz. destruct (Hvis Hnz) as (p & al & Hin & -> & Hal).
    exists p. split; [exact Hin|]. split.
    + apply (pixelAt_stored _ _ p al).
      * apply Hbytes, list_elem_of_In, Hin.
      * intros c Hc. apply Hcells. lia.
    + unfold alphaAt. rewrite (Hcells 3%nat) by lia.
      rewrite quadAt_alpha, Hal. reflexivity.
  - intros Hz. specialize (Hclear Hz). unfold pixelAt, alphaAt.
    pose proof (Hcells 0%nat ltac:(lia)) as H0. rewrite Nat.add_0_r in H0.
    rewrite H0, (Hcells 1%nat), (Hcells 2%nat), (Hcells 3%nat) by lia.
    rewrite !Hclear. split; reflexivity.
Qed.

Lemma applyPalette_quantizes (pixelDataArray : list Z) (colors : list Pixel)
    (k : nat) (a : Z) :
  colors <> [] -> Forall bytePixel colors ->
  alphaAt pixelDataArray k = Some a -> 0 <= a <= 255 ->
  quantizedAt colors (applyPalette pixelDataArray (paletteOf colors)) k a.
Proof.
  intros Hne Hbytes Ha Hbyte. unfold alphaAt in Ha.
  destruct (applyPalette_lookup pixelDataArray (paletteOf colors)
              (nonEmpty_paletteOf colors Hne)) as [_ Hlook].
  pose proof (lookup_lt_Some _ _ _ Ha) as Hlt.
  assert (Hget : u8get pixelDataArray (4 * Z.of_nat k + 3) = jsZ a).
  { replace (4 * Z.of_nat k + 3) with (Z.of_nat (4 * k + 3)) by lia.
    apply u8get_nat, Ha. }
  apply (quantizedAt_cells colors _ k a
           (paletteQuad pixelDataArray (paletteOf colors) (4 * Z.of_nat k)) Hbytes).
  - intros c Hc. rewrite Hlook by lia.
    destruct (cell_index k c Hc) as [-> ->]. reflexivity.
  - intros Hnz.
    destruct (paletteQuad_paletteOf pixelDataArray colors (4 * Z.of_nat k) a
                Hne Hget Hnz) as (p & Hin & Hquad).
    exists p, (jsZ a). split; [exact Hin|]. split; [exact Hquad|].
    apply toUint8Clamp_byte, Hbyte.
  - intros Hz.
    apply (paletteQuad_alpha pixelDataArray (paletteOf colors)
             (4 * Z.of_nat k) a Hget Hbyte), Hz.
Qed.

Lemma applyBayerDithering_quantizes (pixelDataArray : list Z)
    (width height : Z) (colors : list Pixel) (strengthPercent : jsnum)
    (x y a : Z) :
  colors <> [] -> Forall bytePixel colors ->
  0 <= x < width -> 0 <= y < height ->
  alphaAt pixelDataArray (Z.to_nat (y * width + x)) = Some a ->
  0 <= a <= 255 ->
  quantizedAt colors
    (applyBayerDithering pixelDataArray width height (paletteOf colors)
       strengthPercent)
    (Z.to_nat (y * width + x)) a.
Proof.
  intros Hne Hbytes Hx Hy Ha Hbyte.
  destruct (jseq (clampStrength strengthPercent) (jsZ 0)) eqn:Hs.
  { rewrite (applyBayerDithering_plain _ _ _ _ _ Hs).
    apply applyPalette_quantizes; assumption. }
  pose proof (nonEmpty_paletteOf colors Hne) as Hpal.
  unfold alphaAt in Ha.
  pose proof (lookup_lt_Some _ _ _ Ha) as Hlt.
  assert (Hi : 0 <= (y * width + x) * 4) by nia.
  assert (Hget : u8get pixelDataArray ((y * width + x) * 4 + 3) = jsZ a).
  { apply u8get_Some; [lia|].
    rewrite <- Ha. f_equal. assert (0 <= y * width + x) by nia. lia. }
  apply (quantizedAt_cells colors _ _ a
           (bayerQuad pixelDataArray width (paletteOf colors)
              (selectMatrix (clampStrength strengthPercent)).1
              (selectMatrix (clampStrength strengthPercent)).2
              (clampStrength strengthPercent / jsZ 100)%js y x) Hbytes).
  - intros c Hc. rewrite (pixel_cell_nat width x y c) by lia.
    apply applyBayerDithering_cell; try assumption; try lia.
  - intros Hnz.
    destruct (bayerQuad_paletteOf pixelDataArray width colors
                (selectMatrix (clampStrength strengthPercent)).1
                (selectMatrix (clampStrength strengthPercent)).2
                (clampStrength strengthPercent / jsZ 100)%js y x a Hne Hget Hnz)
      as (p & Hin & Hquad).
    exists p, (jsZ a). split; [exact Hin|]. split; [exact Hquad|].
    apply toUint8Clamp_byte, Hbyte.
  - intros Hz. apply (bayerQuad_alpha _ _ _ _ _ _ _ _ a Hget Hbyte), Hz.
Qed.

Lemma applyFloydSteinbergDithering_quantizes (pixelDataArray : list Z)
    (width height : Z) (colors : list Pixel) (x y a : Z) :
  colors <> [] -> Forall bytePixel colors ->
  0 <= x < width -> 0 <= y < height ->
  alphaAt pixelDataArray (Z.to_nat (y * width + x)) = Some a ->
  0 <= a <= 255 ->
  quantizedAt colors
    (applyFloydSteinbergDithering pixelDataArray width height (paletteOf colors))
    (Z.to_nat (y * width + x)) a.
Proof.
  intros Hne Hbytes Hx Hy Ha Hbyte.
  pose proof (nonEmpty_paletteOf colors Hne) as Hpal.
  unfold alphaAt in Ha.
  pose proof (lookup_lt_Some _ _ _ Ha) as Hlt.
  assert (Hi : 0 <= (y * width + x) * 4) by nia.
  assert (Hget : u8get pixelDataArray ((y * width + x) * 4 + 3) = jsZ a).
  { apply u8get_Some; [lia|].
    rewrite <- Ha. f_equal. assert (0 <= y * width + x) by nia. lia. }
  rewrite (applyFloydSteinbergDithering_passes _ _ _ _ Hpal) by lia.
  unfold fsStateAt, fsStart.
  set (q := Z.to_nat (y * width + x)) in *.
  set (dp := (upTo q (fsPass width height (paletteOf colors))
                (map jsZ pixelDataArray,
                 replicate (length pixelDataArray) 0)).1).
  assert (Hdp : f32get dp (4 * Z.of_nat q + 3) = jsZ a).
  { destruct (fsLoop_sameAlpha width height (paletteOf colors)
                (map jsZ pixelDataArray)
                (replicate (length pixelDataArray) 0) q) as [_ Halpha].
    subst dp. rewrite Halpha by (apply mod4_cell; lia).
    rewrite f32get_map_jsZ.
    replace (4 * Z.of_nat q + 3) with ((y * width + x) * 4 + 3)
      by (subst q; assert (0 <= y * width + x) by nia; lia).
    exact Hget. }
  apply (quantizedAt_cells colors _ q a
           (fsQuad (paletteOf colors) dp (4 * Z.of_nat q)) Hbytes).
  - intros c Hc.
    rewrite fsLoop_pixels;
      [|apply pixel_number; assumption|lia|rewrite length_replicate; lia].
    reflexivity.
  - intros Hnz.
    destruct (fsQuad_paletteOf colors dp (4 * Z.of_nat q) a Hne Hdp Hnz)
      as (p & Hin & Hquad).
    exists p, (Math_round (jsZ a)). split; [exact Hin|]. split; [exact Hquad|].
    rewrite Math_round_jsZ. apply toUint8Clamp_byte, Hbyte.
  - intros Hz. apply (fsQuad_alpha (paletteOf colors) dp _ a Hdp Hbyte), Hz.
Qed.

(** C10.  The palette generator sees exactly the pixels whose alpha is above
    128: the palette is the one made from the colours of those pixels, in
    the order of the buffer, so two buffers that differ only in pixels of
    alpha at most 128 give the same palette.  The three functions that
    apply a palette of byte colours treat every alpha other than 0 alike: a
    pixel of the image whose alpha [a] is not 0 (so also one with [a] from 1
    to 128) comes out in a colour of the palette with its alpha kept, the
    colour being the one it would get with any other non-zero alpha, and
    only a pixel whose alpha is 0 comes out as (0, 0, 0, 0). *)
Theorem semi_transparent_asymmetry (px px1 px2 : list Z) (numColors : Q)
    (width height : Z) (colors : list Pixel) (strengthPercent : jsnum)
    (x y a : Z) :
  colors <> [] -> Forall bytePixel colors ->
  0 <= x < width -> 0 <= y < height ->
  alphaAt px (Z.to_nat (y * width + x)) = Some a -> 0 <= a <= 255 ->
  let k := Z.to_nat (y * width + x) in
  let palette := paletteOf colors in
  generatePalette px numColors
  = paletteFromCandidates (candidateColors px) numColors
  /\ (sameAbove128 px px1 ->
      generatePalette px numColors = generatePalette px1 numColors)
  /\ quantizedAt colors (applyPalette px palette) k a
  /\ quantizedAt colors
       (applyBayerDithering px width height palette strengthPercent) k a
  /\ quantizedAt colors
       (applyFloydSteinbergDithering px width height palette) k a
  /\ (sameButAlpha px px2 ->
      sameColors (applyPalette px palette) (applyPalette px2 palette)
      /\ sameColors
           (applyBayerDithering px width height palette strengthPercent)
           (applyBayerDithering px2 width height palette strengthPercent)
      /\ sameColors (applyFloydSteinbergDithering px width height palette)
           (applyFloydSteinbergDithering px2 width height palette)).
Proof.
  intros Hne Hbytes Hx Hy Ha Hbyte. cbv zeta.
  split; [apply generatePalette_candidates|].
  split.
  { intros H128. unfold generatePalette.
    rewrite (collectOpaque_sameAbove128 px px1 H128). reflexivity. }
  split; [apply applyPalette_quantizes; assumption|].
  split; [apply applyBayerDithering_quantizes; assumption|].
  split; [apply applyFloydSteinbergDithering_quantizes; assumption|].
  intros Halpha. split; [|split].
  - apply applyPalette_sameButAlpha, Halpha.
  - apply applyBayerDithering_sameButAlpha, Halpha.
  - apply applyFloydSteinbergDithering_sameButAlpha, Halpha.
Qed.

Lemma sameAbove128_mixed : sameAbove128 mixedAlpha mixedCleared.
Proof.
  split; [reflexivity|]. intros k.
  destruct k as [|[|k]].
  - left. intros c Hc. do 4 (destruct c as [|c]; [reflexivity|]). lia.
  - right. exists 64, 0. repeat split; lia.
  - left. intros c Hc.
    destruct k as [|[|k]];
      [do 4 (destruct c as [|c]; [reflexivity|]); lia
      |do 4 (destruct c as [|c]; [reflexivity|]); lia|].
    rewrite !lookup_ge_None_2
      by (unfold mixedAlpha, mixedCleared; cbn [length]; lia).
    reflexivity.
Qed.

Lemma sameButAlpha_mixed : sameButAlpha mixedAlpha mixedOpaque.
Proof.
  split; [reflexivity|]. intros j.
  do 16 (destruct j as [|j];
         [split;
          [intros Hc; try reflexivity; exfalso; apply Hc; reflexivity
          |intros Hc a a' Ha Ha'; try discriminate Hc;
           injection Ha as <-; injection Ha' as <-; lia]|]).
  split.
  - intros _.
    rewrite !lookup_ge_None_2
      by (unfold mixedAlpha, mixedOpaque; cbn [length]; lia).
    reflexivity.
  - intros _ a a' Ha. apply lookup_lt_Some in Ha.
    unfold mixedAlpha in Ha. cbn [length] in Ha. lia.
Qed.

Lemma semi_transparent_asymmetry_witness :
  sameAbove128 mixedAlpha mixedCleared
  /\ sameButAlpha mixedAlpha mixedOpaque
  /\ alphaAt mixedAlpha (Z.to_nat (0 * 2 + 1)) = Some 64
  /\ let k := Z.to_nat (0 * 2 + 1) in
     let palette := paletteOf blackRedWhite in
     generatePalette mixedAlpha 4
     = paletteFromCandidates (candidateColors mixedAlpha) 4
     /\ (sameAbove128 mixedAlpha mixedCleared ->
         generatePalette mixedAlpha 4 = generatePalette mixedCleared 4)
     /\ quantizedAt blackRedWhite (applyPalette mixedAlpha palette) k 64
     /\ quantizedAt blackRedWhite
          (applyBayerDithering mixedAlpha 2 2 palette (jsZ 100)) k 64
     /\ quantizedAt blackRedWhite
          (applyFloydSteinbergDithering mixedAlpha 2 2 palette) k 64
     /\ (sameButAlpha mixedAlpha mixedOpaque ->
         sameColors (applyPalette mixedAlpha palette)
           (applyPalette mixedOpaque palette)
         /\ sameColors (applyBayerDithering mixedAlpha 2 2 palette (jsZ 100))
              (applyBayerDithering mixedOpaque 2 2 palette (jsZ 100))
         /\ sameColors (applyFloydSteinbergDithering mixedAlpha 2 2 palette)
              (applyFloydSteinbergDithering mixedOpaque 2 2 palette)).
Proof.
  split; [exact sameAbove128_mixed|]. split; [exact sameButAlpha_mixed|].
  split; [reflexivity|].
  apply (semi_transparent_asymmetry mixedAlpha mixedCleared mixedOpaque 4 2 2
           blackRedWhite (jsZ 100) 1 0 64).
  - discriminate.
  - repeat constructor; cbn; lia.
  - lia.
  - lia.
  - reflexivity.
  - lia.
Defined.

(** * Floyd–Steinberg over binary64 numbers *)

(** ** One pixel *)






















(** ** The clamp *)








(** ** What one pass stores and hands on *)




(** ** The whole image *)






(* Six greys in a row, dithered to black and white. *)
Lemma applyFloydSteinbergDithering_grey_row :
  B64.applyFloydSteinbergDithering B64.greyRow 6 1 B64.blackAndWhite
  = [0; 0; 0; 255; 255; 255; 255; 255; 0; 0; 0; 255;
     0; 0; 0; 255; 0; 0; 0; 255; 0; 0; 0; 255].
Proof. vm_compute. reflexivity. Qed.

(* After five passes over the six greys the scratch cell of the last pixel
   holds 6023119 / 65536, the binary32 number nearest to the sum
   24092475 / 262144 that the five shares add up to. *)
Lemma floydSteinberg_scratch_rounded :
  (B64.valueOf
     (B64.f32get (B64.fsStateAt 6 1 B64.blackAndWhite B64.greyRow 5).1 20)
   == 6023119 # 65536)%Q
  /\ ~ (6023119 # 65536 == 24092475 # 262144)%Q.
Proof.
  split; [vm_compute; reflexivity|].
  unfold Qeq. cbn. lia.
Qed.
